(* ===== verification/_CoqProject ===== *)
-Q . S2P
Prelude.v
RustStr.v
RustPath.v
Sys.v
History.v
Skip.v
Duration.v
Session.v
Identity.v
Xattrs.v
InodeTable.v
FileAttr.v
ProvFs.v
Confinement.v
Stamping.v
Handles.v
Dirty.v
Readdir.v
Reader.v
EndToEnd.v
ProvCli.v
Main.v
CStr.v
LsmIdent.v
LsmSession.v
LsmSkip.v
LsmWork.v
LsmHook.v
LsmStore.v
Tests.v
