(* ===== verification/Prelude.v ===== *)
(** * A verification of provfs

    provfs is an overlay filesystem that records, in extended attributes named
    [user.prov.*], which session and tool last wrote a file, together with the
    [prov] command that reads those attributes back and a kernel module that
    writes them without the overlay.  This development models the Rust sources
    under [src/src] (paths below are relative to it unless they begin with
    [lsm]) and the C sources of the kernel module under [src/lsm], and proves
    what they owe their users.

    ** The program and its model

    A request of the kernel enters a handler of [fs.rs]; the handler translates
    inode numbers to paths through the inode table, makes the system calls,
    and, for a request that changes a file, resolves the identity of the
    calling process ([identity.rs]) and stamps the path ([xattrs.rs]), which
    pushes the session onto a history ring ([history.rs]), unless the skip list
    ([skip.rs]) covers the path.  [prov] ([bin/prov.rs]) reads a record back
    ([reader.rs]), classifies its session ([session.rs]) and searches trees of
    stamped files, optionally since a duration ([duration.rs]).  The kernel
    module ([lsm/provfs_lsm.c]) stamps at the close of any file opened for
    writing: its hook composes the session from the writer's ancestors,
    environment and working directory and queues the attribute writes for a
    worker ([lsm/provfs_work.c]); [prov] reads both kinds of stamp.

    The files, each requiring the ones it builds on:
    - [Prelude]: results, byte and list functions of the Rust standard library
      that the sources use ([split], [trim], [join]), tactics and a hint
      database;
    - [RustStr], [RustPath]: strings as lists of scalar values with strict and
      lenient UTF-8 decoding, checked and saturating integers, number parsing
      and printing; paths as byte strings with their components,
      [strip_prefix], [join] and equality;
    - [Sys]: the system the program runs on, as an interface.  An effectful
      function is a program tree ([prog]) over a type of calls; [runs] gives
      the traces and results it can have, for every answer of the system,
      [exec] runs it in a concrete world, [ensures] states postconditions and
      [prog_equiv] is the equality of programs, for which sequencing is
      [Proper];
    - [History], [Skip], [Duration], [Session], [Identity], [Xattrs]: one file
      per source file of that name; [Xattrs] also holds the interface of an
      attribute store (class [XattrStore]) against which stamping and reading
      are proved, and a store in memory that satisfies it;
    - [InodeTable], [FileAttr], [ProvFs]: [fs.rs].  The filesystem state is a
      record (source, skip list, inode table, dirty set) threaded through the
      handlers; each handler returns its reply and the new state, early returns
      included; [handle] dispatches one request and [serve] a session of them;
    - [Confinement], [Stamping], [Handles], [Dirty], [Readdir]: the theorems on
      the overlay;
    - [Reader], [ProvCli]: [reader.rs] and [bin/prov.rs]; [Main]: [main.rs];
    - [EndToEnd]: the overlay's stamp read back by the reader;
    - [CStr]: C strings in fixed buffers, with the truncating functions of the
      kernel; [LsmIdent], [LsmSession]: what the hook records about a writer
      ([provfs_lsm.c]), buffers holding arbitrary contents at first, resource
      events in a log; [LsmSkip]: its skip list with the lock, byte by byte;
      [LsmWork]: the bounded queue as interleaved atomic steps of the closing
      tasks, the workers and the administrator ([provfs_work.c]), and
      [LsmStore] what it leaves on files; [LsmHook]: the hook as a whole, and
      its stamp read back by [Reader];
    - [Tests]: the repository's own tests, evaluated on the model in a small
      file system in memory; all of them pass.

    ** What the theorems show

    - Confinement: over any session no path outside the backing directory is
      touched, and the inode table is a bijection (up to path equality) that
      never reuses a number ([InodeTable], [Confinement]).
    - Stamping: exactly which requests stamp what, that skipped paths are never
      written, that a written file is stamped by its next release, that a stamp
      stops at its first error, and what a successful one leaves ([Stamping],
      [Dirty], [Xattrs]).
    - Resources and errors: descriptors balance, error replies change nothing,
      entry replies name the child that was asked for, bytes pass through
      unchanged ([Handles]); a directory read page by page yields every entry
      once, a removed file's number is dead ([Readdir]).
    - Values: the ring refines a bounded most-recently-used list; durations,
      sessions and timestamps have reference functions and round trips; the
      skip list is characterised by directory names ([History], [Duration],
      [Session], [Skip], [FileAttr]).
    - The kernel module: which closes are stamped and with what, the session
      value for every length of its fields, one environment scan equal to
      separate lookups ([LsmHook], [LsmSession], [LsmIdent]); in every
      interleaving the queue's depth, references and accounting are exact, the
      workers finish, no attribute is invented or lost, and a matcher never
      sees a torn list ([LsmWork], [LsmStore], [LsmSkip]).
    - Ends meeting: what the overlay stamps is what [read_record] returns and
      what [prov who] and the history show ([Reader], [EndToEnd]); [prov show],
      [who], [when] and [chain] print exactly the report of the record;
      [prov find] terminates on finite trees and selects exactly the files its
      filters describe; [prov] never writes ([ProvCli]).

    ** Assumptions and bounds

    - Answers of the system are arbitrary unless a theorem says otherwise.  The
      named hypotheses are: file names sent by the kernel and listed by
      [read_dir] are names, not paths ([req_ok], [answer_ok]); descriptors are
      C integers ([fds_ok]); the FUSE library's directory buffer appends or
      reports that it is full ([LawfulBuf]); an attribute store returns what
      was set ([XattrStore]); the agent namespace formats its ids as 32 hex
      digits ([format_ok]); at most [n] tasks are in the release hook at once,
      few enough for the depth to stay an [int] ([tasks_ok]).
    - The 64-bit inode counter: invariants hold while [next_ino] plus the cost
      of the trace (an upper bound on the numbers it can allot) is at most the
      largest [u64]; beyond it the model wraps, as a release build does.
    - Fuel: only two loops need it.  [walk_files] takes one unit per directory,
      and any amount at least the number of directories of a finite tree is
      enough ([walk_files_complete]); the kernel's paging client [list_dir]
      takes one unit per page, the number of entries plus four being enough.
      In the kernel module the scan of an environment of [len] bytes takes
      [len] units, the match of a list one more than its length, one call of
      [provfs_enqueue_stamp] at most eight steps, and draining the queue
      [work_size] steps; each is proved to be enough.
    - Parameters: the date library, the renderings of JSON values, I/O errors
      and quoted strings, the FUSE directory buffer, [proc_dostring] and the
      formatting of agent namespace ids.

    ** Not modelled

    Argument parsing, logging set-up and the mount itself (library calls, of
    which [Main] models the use); operations the overlay leaves to the FUSE library's defaults.
    Fields of a request a handler ignores (the times and owners given to
    [setattr], file handles given to [readdir]) are not parameters.
    Handlers run one at a time because the library calls them with exclusive
    access, so the mutexes of the state carry no interleaving.  Of the kernel
    module: the registration of the hook and of the sysctl table, log lines,
    and the [mnt_idmap] a request carries, which is handed through to the
    kernel's attribute write; a dentry is known by its path. *)

From stdpp Require Export base tactics list list_numbers option numbers strings gmap.
From Stdlib Require Export Lia ZifyBool ZifyN ZifyNat.
From Stdlib Require Import Strings.Byte.

Global Set Default Goal Selector "!".

(** ** Results, as Rust's [Result] *)

Inductive result (A E : Type) : Type :=
| Ok (a : A)
| Err (e : E).
Arguments Ok {A E} a.
Arguments Err {A E} e.

#[export] Instance result_eq_dec {A E} `{EqDecision A, EqDecision E} : EqDecision (result A E).
Proof. solve_decision. Defined.

(** ** Bytes *)

Abbreviation byte := Byte.byte.
Abbreviation bytes := (list Byte.byte).

#[export] Instance byte_eq_dec : EqDecision byte := Byte.byte_eq_dec.

#[export] Program Instance byte_countable : Countable byte :=
  inj_countable Byte.to_N Byte.of_N _.
Next Obligation. intros b. apply Byte.of_to_N. Qed.

(** The byte with the given number; numbers above 255 do not occur. *)
Definition byte_of_N (n : N) : byte :=
  match Byte.of_N n with Some b => b | None => Byte.x00 end.

(** ** Lists: splitting at a separator, prefixes, substrings *)

Section Lists.
Context {A : Type} `{EqDecision A}.

(** Rust's [split(c)]: always at least one piece. *)
Fixpoint split_on (c : A) (l : list A) : list (list A) :=
  match l with
  | [] => [[]]
  | x :: l' =>
      if decide (x = c) then [] :: split_on c l'
      else match split_on c l' with
           | [] => [[x]]
           | seg :: segs => (x :: seg) :: segs
           end
  end.

(** Rust's [split_once(c)]: at the first occurrence. *)
Fixpoint split_once (c : A) (l : list A) : option (list A * list A) :=
  match l with
  | [] => None
  | x :: l' =>
      if decide (x = c) then Some ([], l')
      else match split_once c l' with
           | Some (k, v) => Some (x :: k, v)
           | None => None
           end
  end.

(** Rust's [strip_prefix] on strings. *)
Fixpoint strip_prefix (pre l : list A) : option (list A) :=
  match pre, l with
  | [], _ => Some l
  | p :: pre', x :: l' => if decide (p = x) then strip_prefix pre' l' else None
  | _ :: _, [] => None
  end.

Definition starts_with (pre l : list A) : bool :=
  match strip_prefix pre l with Some _ => true | None => false end.

(** Rust's [contains] with a string pattern. *)
Fixpoint contains (needle l : list A) : bool :=
  starts_with needle l ||
  match l with
  | [] => false
  | _ :: l' => contains needle l'
  end.

(** Rust's [split_once] with a string pattern: at its first occurrence. *)
Fixpoint split_once_str (pat l : list A) : option (list A * list A) :=
  match strip_prefix pat l with
  | Some rest => Some ([], rest)
  | None =>
      match l with
      | [] => None
      | x :: l' =>
          match split_once_str pat l' with
          | Some (a, b) => Some (x :: a, b)
          | None => None
          end
      end
  end.

(** Rust's [join(sep)] with a one-element separator. *)
Fixpoint join_with (c : A) (ls : list (list A)) : list A :=
  match ls with
  | [] => []
  | [l] => l
  | l :: ls' => l ++ c :: join_with c ls'
  end.

(** Rust's trimming: drop the elements satisfying [p] at both ends. *)
Fixpoint drop_while (p : A → bool) (l : list A) : list A :=
  match l with
  | [] => []
  | x :: l' => if p x then drop_while p l' else l
  end.

Definition drop_while_end (p : A → bool) (l : list A) : list A :=
  reverse (drop_while p (reverse l)).

Definition trim_by (p : A → bool) (l : list A) : list A :=
  drop_while_end p (drop_while p l).

(** A string whose two ends do not satisfy [p]: trimming leaves it alone. *)
Definition trimmed_by (p : A → bool) (l : list A) : Prop :=
  (∀ x, head l = Some x → p x = false) ∧ (∀ x, last l = Some x → p x = false).

End Lists.

(** ** Automation *)

Create HintDb provfs.

(** Case analysis on every [match] and [decide] of the goal. *)
Ltac cases := repeat (case_match || case_decide); simplify_eq/=.

(** Finish a goal by case analysis and first-order reasoning. *)
Ltac crush := cases; try done; try lia; try naive_solver lia.

(** Names an equation for a scrutinee and splits on it. *)
Ltac case_on x := let E := fresh "E" in destruct x eqn:E; simplify_eq/=.

(** ** Lemmas on the list functions *)

Lemma prefix_of_same_total {A} (l1 l2 l : list A) :
  l1 `prefix_of` l → l2 `prefix_of` l → length l1 ≤ length l2 → l1 `prefix_of` l2.
Proof.
  intros H1 H2 Hlen. destruct (prefix_weak_total _ _ _ H1 H2) as [?|H]; [done|].
  by rewrite (prefix_length_eq _ _ H Hlen).
Qed.

Section ListLemmas.
Context {A : Type} `{EqDecision A}.
Implicit Types (l pre pat : list A) (c : A).

Lemma strip_prefix_Some pre l r : strip_prefix pre l = Some r ↔ l = pre ++ r.
Proof.
  revert l; induction pre as [|p pre IH]; intros l; simpl; [naive_solver|].
  destruct l as [|x l]; [naive_solver|].
  case_decide; subst; [rewrite IH|]; naive_solver.
Qed.

Lemma strip_prefix_app pre r : strip_prefix pre (pre ++ r) = Some r.
Proof. by apply strip_prefix_Some. Qed.

Lemma starts_with_spec pre l : starts_with pre l = true ↔ ∃ r, l = pre ++ r.
Proof.
  unfold starts_with. setoid_rewrite <-strip_prefix_Some.
  case_match; naive_solver.
Qed.

Lemma starts_with_prefix pre l : starts_with pre l = true ↔ pre `prefix_of` l.
Proof. rewrite starts_with_spec. done. Qed.

Lemma contains_spec pat l : contains pat l = true ↔ ∃ a b, l = a ++ pat ++ b.
Proof.
  induction l as [|x l IH]; simpl; rewrite orb_true_iff, starts_with_spec.
  - split.
    + intros [[r Hr]|?]; [|done]. by exists [], r.
    + intros (a & b & H). left. exists b.
      destruct a; simplify_list_eq. done.
  - rewrite IH. split.
    + intros [[r Hr]|(a & b & ->)]; [by exists [], r|by exists (x :: a), b].
    + intros ([|y a] & b & H); simplify_list_eq; [left; eauto|right; eauto].
Qed.

Lemma split_once_str_Some pat l a b :
  split_once_str pat l = Some (a, b) → l = a ++ pat ++ b.
Proof.
  revert a b; induction l as [|x l IH]; intros a b; simpl.
  - case_match eqn:E; [|done]. apply strip_prefix_Some in E. naive_solver.
  - case_match eqn:E.
    + apply strip_prefix_Some in E. naive_solver.
    + destruct (split_once_str pat l) as [[a' b']|] eqn:E'; [|done].
      intros [= <- <-]. simpl. f_equal. by apply IH.
Qed.

Lemma split_once_str_None pat l : split_once_str pat l = None ↔ contains pat l = false.
Proof.
  induction l as [|x l IH]; simpl; unfold starts_with.
  - case_match; naive_solver.
  - destruct (strip_prefix pat (x :: l)); [naive_solver|]. simpl. rewrite <-IH.
    destruct (split_once_str pat l) as [[??]|]; naive_solver.
Qed.

(** The split is at the given place exactly when the pattern does not occur
    earlier, even overlapping its own beginning. *)
Lemma split_once_str_app pat a b :
  pat ≠ [] → contains pat (a ++ removelast pat) = false →
  split_once_str pat (a ++ pat ++ b) = Some (a, b).
Proof.
  intros Hne. induction a as [|x a IH]; intros H.
  - simpl. destruct pat as [|p pat]; [done|].
    simpl. rewrite decide_True by done. by rewrite strip_prefix_app.
  - simpl in H. apply orb_false_iff in H as [Hs Hc].
    simpl. destruct (strip_prefix pat (x :: a ++ pat ++ b)) as [r|] eqn:E.
    + exfalso. apply strip_prefix_Some in E.
      enough (starts_with pat (x :: a ++ removelast pat) = true) by congruence.
      apply starts_with_prefix.
      apply (prefix_of_same_total _ _ (x :: a ++ pat ++ b)).
      * by exists r.
      * rewrite (app_removelast_last x Hne) at 2.
        exists (List.last pat x :: b). by simplify_list_eq.
      * simpl. rewrite length_app, removelast_firstn_len, length_take.
        destruct pat; simpl; [done|lia].
    + by rewrite IH.
Qed.

Lemma split_once_Some c l k v :
  split_once c l = Some (k, v) ↔ l = k ++ c :: v ∧ c ∉ k.
Proof.
  revert k v; induction l as [|x l IH]; intros k v; simpl.
  { split; [done|]. intros [H1 ?]. by destruct k. }
  case_decide as Hx; subst.
  - split.
    + intros [= <- <-]. split; [done|apply not_elem_of_nil].
    + intros [H1 Hk]. destruct k as [|y k]; simplify_eq/=; [done|].
      exfalso. apply Hk. left.
  - destruct (split_once c l) as [[k' v']|] eqn:E.
    + assert (l = k' ++ c :: v' ∧ c ∉ k') as [-> Hk'] by (by apply IH).
      split.
      * intros [= <- <-]. split; [done|]. rewrite not_elem_of_cons. done.
      * intros [H1 Hk]. destruct k as [|y k]; simplify_eq/=.
        apply not_elem_of_cons in Hk as [_ Hk].
        assert (Some (k', v') = Some (k, v)) as [= -> ->] by (by apply IH). done.
    + split; [done|]. intros [H1 Hk]. destruct k as [|y k]; simplify_eq/=.
      apply not_elem_of_cons in Hk as [_ Hk]. by specialize (proj2 (IH k v) (conj eq_refl Hk)).
Qed.

Lemma split_once_None c l : split_once c l = None ↔ c ∉ l.
Proof.
  induction l as [|x l IH]; simpl; [set_solver|].
  rewrite not_elem_of_cons. case_decide; [naive_solver|].
  destruct (split_once c l) as [[??]|]; naive_solver.
Qed.

Lemma split_once_app c k v : c ∉ k → split_once c (k ++ c :: v) = Some (k, v).
Proof. intros. by apply split_once_Some. Qed.

Lemma filter_all {B} (P : B → Prop) `{∀ x, Decision (P x)} (l : list B) :
  Forall P l → filter P l = l.
Proof. induction 1 as [|x l Hx _ IH]; [done|]. rewrite filter_cons, decide_True by done. by rewrite IH. Qed.

(** *** Splitting and joining *)

Lemma split_on_cons c l : ∃ seg segs, split_on c l = seg :: segs.
Proof. induction l as [|x l (seg & segs & E)]; simpl; rewrite ?E; case_decide || idtac; eauto. Qed.

Lemma split_on_no_sep c l : c ∉ l → split_on c l = [l].
Proof.
  induction l as [|x l IH]; simpl; [done|].
  rewrite not_elem_of_cons. intros [Hx Hl].
  rewrite decide_False by done. by rewrite IH.
Qed.

Lemma split_on_app c l rest : c ∉ l → split_on c (l ++ c :: rest) = l :: split_on c rest.
Proof.
  induction l as [|x l IH]; simpl.
  - by rewrite decide_True.
  - rewrite not_elem_of_cons. intros [Hx Hl].
    rewrite decide_False by done. by rewrite IH.
Qed.

Lemma split_on_app_sep c l rest : split_on c (l ++ c :: rest) = split_on c l ++ split_on c rest.
Proof.
  induction l as [|x l IH]; simpl; [by rewrite decide_True|].
  case_decide; [by rewrite IH|]. rewrite IH.
  by destruct (split_on_cons c l) as (seg & segs & ->).
Qed.

Lemma split_on_join c ls :
  ls ≠ [] → Forall (λ l, c ∉ l) ls → split_on c (join_with c ls) = ls.
Proof.
  induction ls as [|l ls IH]; [done|]. intros _ Hall.
  apply Forall_cons in Hall as [Hl Hls].
  destruct ls as [|l2 ls].
  - by apply split_on_no_sep.
  - change (join_with c (l :: l2 :: ls)) with (l ++ c :: join_with c (l2 :: ls)).
    rewrite split_on_app by done. by rewrite IH.
Qed.

Lemma join_split_on c l : join_with c (split_on c l) = l.
Proof.
  induction l as [|x l IH]; simpl; [done|].
  destruct (split_on_cons c l) as (seg & segs & E). rewrite E in *.
  case_decide as Hx; [subst x; simpl; by rewrite <-IH|].
  rewrite <-IH. by destruct segs.
Qed.

Lemma split_on_no_sep_pieces c l : Forall (λ s, c ∉ s) (split_on c l).
Proof.
  induction l as [|x l IH]; simpl; [apply Forall_singleton, not_elem_of_nil|].
  case_decide; [by constructor; [apply not_elem_of_nil|]|].
  destruct (split_on c l) as [|seg segs].
  - apply Forall_singleton. set_solver.
  - apply Forall_cons in IH as [??]. constructor; [set_solver|done].
Qed.

(** Every element of a piece is an element of the list. *)
Lemma split_on_incl c l s x : s ∈ split_on c l → x ∈ s → x ∈ l.
Proof.
  revert s; induction l as [|y l IH]; intros s; simpl.
  { by intros ->%list_elem_of_singleton. }
  case_decide as Hy.
  - rewrite elem_of_cons. intros [->|Hs] Hx; [by apply not_elem_of_nil in Hx|].
    right. by apply (IH s).
  - destruct (split_on c l) as [|seg segs].
    + intros ->%list_elem_of_singleton ->%list_elem_of_singleton. left.
    + rewrite elem_of_cons. intros [->|Hs] Hx.
      * apply elem_of_cons in Hx as [->|Hx]; [left|right; apply (IH seg); [left|done]].
      * right. apply (IH s); [by right|done].
Qed.

Lemma elem_of_join_with c ls x :
  x ∈ join_with c ls → x = c ∨ ∃ l, l ∈ ls ∧ x ∈ l.
Proof.
  induction ls as [|l ls IH]; [set_solver|].
  destruct ls as [|l2 ls]; [set_solver|].
  change (join_with c (l :: l2 :: ls)) with (l ++ c :: join_with c (l2 :: ls)).
  rewrite elem_of_app, elem_of_cons. set_solver.
Qed.

(** *** Trimming *)

Section Trim.
Context (p : A → bool).

Lemma drop_while_id l : (∀ x, head l = Some x → p x = false) → drop_while p l = l.
Proof. destruct l as [|x l]; simpl; [done|]. intros H1. by rewrite H1. Qed.

Lemma drop_while_all l1 l2 : Forall (λ x, p x = true) l1 → drop_while p (l1 ++ l2) = drop_while p l2.
Proof. induction 1 as [|x l1 Hx _ IH]; simpl; [done|]. by rewrite Hx. Qed.

Lemma drop_while_split l :
  ∃ l1, l = l1 ++ drop_while p l ∧ Forall (λ x, p x = true) l1.
Proof.
  induction l as [|x l (l1 & Hl & Hall)]; simpl; [by exists []|].
  destruct (p x) eqn:E; [|by exists []].
  exists (x :: l1). split; [simpl; by f_equal|by constructor].
Qed.

Lemma drop_while_head l x : head (drop_while p l) = Some x → p x = false.
Proof.
  induction l as [|y l IH]; simpl; [done|].
  destruct (p y) eqn:E; [done|]. by intros [= ->].
Qed.

Lemma drop_while_end_split l :
  ∃ l2, l = drop_while_end p l ++ l2 ∧ Forall (λ x, p x = true) l2.
Proof.
  unfold drop_while_end.
  destruct (drop_while_split (reverse l)) as (l1 & Hl & Hall).
  exists (reverse l1). split; [|by apply Forall_reverse].
  by rewrite <-reverse_app, <-Hl, reverse_involutive.
Qed.

(** What trimming removes, and that nothing more can be trimmed. *)
Lemma trim_by_split l :
  ∃ a b, l = a ++ trim_by p l ++ b ∧
    Forall (λ x, p x = true) a ∧ Forall (λ x, p x = true) b.
Proof.
  unfold trim_by.
  destruct (drop_while_split l) as (a & Ha & HA).
  destruct (drop_while_end_split (drop_while p l)) as (b & Hb & HB).
  exists a, b. split; [|done]. by rewrite <-Hb.
Qed.

Lemma trim_by_trimmed l : trimmed_by p (trim_by p l).
Proof.
  unfold trim_by. split; intros x Hx.
  - apply (drop_while_head l).
    destruct (drop_while_end_split (drop_while p l)) as (b & Hb & _).
    rewrite Hb. destruct (drop_while_end p (drop_while p l)); naive_solver.
  - apply (drop_while_head (reverse (drop_while p l))).
    unfold drop_while_end in Hx. rewrite last_reverse in Hx. done.
Qed.

Lemma trim_by_id l : trimmed_by p l → trim_by p l = l.
Proof.
  intros [Hh Hl]. unfold trim_by, drop_while_end.
  rewrite (drop_while_id l) by done.
  rewrite drop_while_id; [by rewrite reverse_involutive|].
  intros x. rewrite <-last_reverse, reverse_involutive. apply Hl.
Qed.

Lemma trim_by_surround a l b :
  Forall (λ x, p x = true) a → Forall (λ x, p x = true) b →
  trimmed_by p l → l ≠ [] → trim_by p (a ++ l ++ b) = l.
Proof.
  intros Ha Hb [Hh Hl] Hne. unfold trim_by, drop_while_end.
  rewrite drop_while_all by done.
  rewrite (drop_while_id (l ++ b)); [|destruct l; naive_solver].
  rewrite reverse_app, drop_while_all by (by apply Forall_reverse).
  rewrite drop_while_id; [by rewrite reverse_involutive|].
  intros x. rewrite <-last_reverse, reverse_involutive. apply Hl.
Qed.

Lemma trim_by_idemp l : trim_by p (trim_by p l) = trim_by p l.
Proof. apply trim_by_id, trim_by_trimmed. Qed.

Lemma elem_of_trim_by l x : x ∈ trim_by p l → x ∈ l.
Proof. destruct (trim_by_split l) as (a & b & Hl & _). rewrite Hl at 2. set_solver. Qed.

End Trim.
End ListLemmas.

#[export] Hint Resolve trim_by_trimmed : provfs.

(** ** Segments of a joined list *)

Section Segments.
Context {A : Type} `{EqDecision A}.

Lemma join_with_cons (c : A) l ls : ls ≠ [] → join_with c (l :: ls) = l ++ c :: join_with c ls.
Proof. by destruct ls. Qed.

Lemma join_with_head (c : A) p q ls : ∃ r, join_with c ((p ++ q) :: ls) = p ++ r.
Proof.
  destruct ls as [|l ls]; [by exists q|]. exists (q ++ c :: join_with c (l :: ls)).
  rewrite join_with_cons by done. by rewrite <-app_assoc.
Qed.

Lemma join_with_app (c : A) ls1 ls2 :
  ls1 ≠ [] → ls2 ≠ [] → join_with c (ls1 ++ ls2) = join_with c ls1 ++ c :: join_with c ls2.
Proof.
  intros H1 H2. induction ls1 as [|l ls1 IH]; [done|]. destruct ls1 as [|l' ls1].
  - change ([l] ++ ls2) with (l :: ls2). by rewrite join_with_cons.
  - change ((l :: l' :: ls1) ++ ls2) with (l :: (l' :: ls1) ++ ls2).
    rewrite !join_with_cons by done. rewrite IH by done. by rewrite <-app_assoc.
Qed.

(** A segment [d] that is not the last one, as the two substring tests of a
    prefix [d/] see it. *)
Lemma segment_not_last (c : A) (d : list A) (ls : list (list A)) :
  ls ≠ [] → Forall (λ l, c ∉ l) ls → c ∉ d →
  starts_with (d ++ [c]) (join_with c ls) || contains (c :: d ++ [c]) (join_with c ls) = true ↔
  ∃ i, ls !! i = Some d ∧ S i < length ls.
Proof.
  intros Hne Hls Hd. pose proof (split_on_join c ls Hne Hls) as Hsp.
  rewrite orb_true_iff, starts_with_spec, contains_spec. split.
  - intros [[r Hr]|(a & b & Hab)].
    + rewrite Hr, <-app_assoc in Hsp. simpl in Hsp. rewrite split_on_app in Hsp by done.
      exists 0. rewrite <-Hsp. destruct (split_on_cons c r) as (?&?&->). simpl. split; [done|lia].
    + assert (join_with c ls = a ++ c :: d ++ c :: b) as Hj by (rewrite Hab; by simplify_list_eq).
      rewrite Hj, split_on_app_sep, split_on_app in Hsp by done.
      exists (length (split_on c a)). rewrite <-Hsp.
      split; [by rewrite lookup_app_r, Nat.sub_diag by lia|].
      rewrite length_app. destruct (split_on_cons c b) as (?&?&->). simpl. lia.
  - intros (i & Hi & Hlast). apply list_elem_of_split_length in Hi as (l1 & l2 & -> & ->).
    rewrite length_app in Hlast. simpl in Hlast.
    assert (l2 ≠ []) as Hl2 by (intros ->; simpl in Hlast; lia).
    destruct (decide (l1 = [])) as [-> |Hl1].
    + left. exists (join_with c l2). change ([] ++ d :: l2) with (d :: l2).
      rewrite join_with_cons by done. by rewrite <-app_assoc.
    + right. exists (join_with c l1), (join_with c l2).
      rewrite join_with_app, join_with_cons by done. by simplify_list_eq.
Qed.
End Segments.

(** The last element of a prefix says where the prefix ends. *)
Lemma last_take_Some {A} n (l : list A) x :
  last (take n l) = Some x → ∃ m, l !! m = Some x ∧ take n l = take (S m) l.
Proof.
  revert n. induction l as [|y l IH]; intros [|n]; try done.
  rewrite firstn_cons. destruct (take n l) as [|z t] eqn:E.
  - simpl. intros [= <-]. by exists 0.
  - change (last (y :: z :: t)) with (last (z :: t)). rewrite <-E.
    intros (m & Hm & Ht)%IH. exists (S m). split; [done|]. by rewrite Ht.
Qed.

#[export] Instance trimmed_by_dec {A} `{EqDecision A} (p : A → bool) (l : list A) :
  Decision (trimmed_by p l).
Proof.
  refine (cast_if (decide (trim_by p l = l))).
  - match goal with H : trim_by p l = l |- _ => rewrite <-H end. apply trim_by_trimmed.
  - intros Ht. by apply trim_by_id in Ht.
Defined.
