(* ===== verification/RustStr.v ===== *)
(** Strings as the sources use them: a Rust [str] is the list of its Unicode
    scalar values, an OS string or a file content is a list of bytes, and the
    two are related by UTF-8 ([String::from_utf8], [from_utf8_lossy],
    [as_bytes]).  Decimal printing and parsing of machine integers. *)

From S2P Require Import Prelude.
From Stdlib Require Import Strings.Byte Strings.Ascii Numbers.DecimalN.

Open Scope N_scope.

Abbreviation char := N.
Abbreviation str := (list N).

(** A [char] is a Unicode scalar value. *)
Definition is_scalar (c : char) : bool :=
  (c <? 0xD800) || ((0xE000 <=? c) && (c <=? 0x10FFFF)).

(** The type invariant of [str]. *)
Definition valid_str (s : str) : Prop := Forall (λ c, is_scalar c = true) s.

#[export] Instance valid_str_dec s : Decision (valid_str s).
Proof. unfold valid_str. apply _. Defined.

(** String literals. *)
Definition lit (s : String.string) : str :=
  N_of_ascii <$> String.list_ascii_of_string s.
Definition blit (s : String.string) : bytes :=
  byte_of_ascii <$> String.list_ascii_of_string s.

(** ** Characters *)

Definition is_ascii_digit (c : char) : bool := (48 <=? c) && (c <=? 57).

Definition is_ascii_hexdigit (c : char) : bool :=
  is_ascii_digit c || ((65 <=? c) && (c <=? 70)) || ((97 <=? c) && (c <=? 102)).

(** [char::is_whitespace]: the Unicode property White_Space. *)
Definition is_whitespace (c : char) : bool :=
  (c =? 0x20) || ((0x09 <=? c) && (c <=? 0x0D)) || (c =? 0x85) || (c =? 0xA0) ||
  (c =? 0x1680) || ((0x2000 <=? c) && (c <=? 0x200A)) || (c =? 0x2028) ||
  (c =? 0x2029) || (c =? 0x202F) || (c =? 0x205F) || (c =? 0x3000).

(** [str::trim]. *)
Definition trim (s : str) : str := trim_by is_whitespace s.
Definition trimmed (s : str) : Prop := trimmed_by is_whitespace s.

#[export] Instance trimmed_dec s : Decision (trimmed s).
Proof. unfold trimmed. apply _. Defined.

(** Number of bytes of a character, and of a string ([str::len]). *)
Definition len_utf8 (c : char) : nat :=
  if c <? 0x80 then 1 else if c <? 0x800 then 2 else if c <? 0x10000 then 3 else 4.

Fixpoint str_len (s : str) : nat :=
  match s with [] => 0 | c :: s' => len_utf8 c + str_len s' end%nat.

(** [str::char_indices]: each character with its byte offset. *)
Fixpoint char_indices_from (i : nat) (s : str) : list (nat * char) :=
  match s with
  | [] => []
  | c :: s' => (i, c) :: char_indices_from (i + len_utf8 c) s'
  end.
Definition char_indices (s : str) : list (nat * char) := char_indices_from 0 s.

(** [str::split_at]: at a byte offset; [None] is the panic off a character
    boundary or past the end. *)
Fixpoint split_at (n : nat) (s : str) : option (str * str) :=
  match n with
  | O => Some ([], s)
  | _ =>
      match s with
      | [] => None
      | c :: s' =>
          if (len_utf8 c <=? n)%nat then
            match split_at (n - len_utf8 c) s' with
            | Some (a, b) => Some (c :: a, b)
            | None => None
            end
          else None
      end
  end.

(** ** UTF-8 *)

Definition encode_char (c : char) : bytes :=
  if c <? 0x80 then [byte_of_N c]
  else if c <? 0x800 then
    [byte_of_N (0xC0 + c / 64); byte_of_N (0x80 + c mod 64)]
  else if c <? 0x10000 then
    [byte_of_N (0xE0 + c / 4096); byte_of_N (0x80 + (c / 64) mod 64);
     byte_of_N (0x80 + c mod 64)]
  else
    [byte_of_N (0xF0 + c / 262144); byte_of_N (0x80 + (c / 4096) mod 64);
     byte_of_N (0x80 + (c / 64) mod 64); byte_of_N (0x80 + c mod 64)].

(** [str::as_bytes]. *)
Fixpoint as_bytes (s : str) : bytes :=
  match s with [] => [] | c :: s' => encode_char c ++ as_bytes s' end.

Definition is_cont (b : byte) : bool := (0x80 <=? to_N b) && (to_N b <=? 0xBF).
Definition cont_bits (b : byte) : N := to_N b - 0x80.

(** The second byte allowed after a three- or four-byte lead. *)
Definition in_range (lo hi n : N) : bool := (lo <=? n) && (n <=? hi).
Definition second3_ok (b0 b1 : N) : bool :=
  ((b0 =? 0xE0) && in_range 0xA0 0xBF b1) || (in_range 0xE1 0xEC b0 && in_range 0x80 0xBF b1) ||
  ((b0 =? 0xED) && in_range 0x80 0x9F b1) || (in_range 0xEE 0xEF b0 && in_range 0x80 0xBF b1).
Definition second4_ok (b0 b1 : N) : bool :=
  ((b0 =? 0xF0) && in_range 0x90 0xBF b1) || (in_range 0xF1 0xF3 b0 && in_range 0x80 0xBF b1) ||
  ((b0 =? 0xF4) && in_range 0x80 0x8F b1).

(** One step of the decoder on the non-empty sequence [b0 :: t0]: a character,
    or [None] for one maximal ill-formed prefix, and the bytes that follow, as
    in the standard library's decoder. *)
Definition utf8_step (b0 : byte) (t0 : bytes) : option char * bytes :=
  let n0 := to_N b0 in
  if n0 <? 0x80 then (Some n0, t0)
  else if in_range 0xC2 0xDF n0 then
    match t0 with
    | b1 :: t1 =>
        if is_cont b1 then (Some ((n0 - 0xC0) * 64 + cont_bits b1), t1) else (None, t0)
    | [] => (None, t0)
    end
  else if in_range 0xE0 0xEF n0 then
    match t0 with
    | b1 :: t1 =>
        if second3_ok n0 (to_N b1) then
          match t1 with
          | b2 :: t2 =>
              if is_cont b2 then
                (Some ((n0 - 0xE0) * 4096 + cont_bits b1 * 64 + cont_bits b2), t2)
              else (None, t1)
          | [] => (None, t1)
          end
        else (None, t0)
    | [] => (None, t0)
    end
  else if in_range 0xF0 0xF4 n0 then
    match t0 with
    | b1 :: t1 =>
        if second4_ok n0 (to_N b1) then
          match t1 with
          | b2 :: t2 =>
              if is_cont b2 then
                match t2 with
                | b3 :: t3 =>
                    if is_cont b3 then
                      (Some ((n0 - 0xF0) * 262144 + cont_bits b1 * 4096
                             + cont_bits b2 * 64 + cont_bits b3), t3)
                    else (None, t2)
                | [] => (None, t2)
                end
              else (None, t1)
          | [] => (None, t1)
          end
        else (None, t0)
    | [] => (None, t0)
    end
  else (None, t0).

(** The byte sequence cut into characters; every step consumes a byte, so its
    length is fuel enough. *)
Fixpoint utf8_chunks_fuel (fuel : nat) (bs : bytes) : list (option char) :=
  match fuel, bs with
  | S fuel', b0 :: t0 =>
      let '(c, rest) := utf8_step b0 t0 in c :: utf8_chunks_fuel fuel' rest
  | _, _ => []
  end.

Definition utf8_chunks (bs : bytes) : list (option char) := utf8_chunks_fuel (length bs) bs.

(** [str::from_utf8] / [String::from_utf8]. *)
Definition from_utf8 (bs : bytes) : option str := mapM id (utf8_chunks bs).

(** [String::from_utf8_lossy] / [Path::to_string_lossy]. *)
Definition from_utf8_lossy (bs : bytes) : str := default 0xFFFD <$> utf8_chunks bs.

(** ** Decimal integers *)

(** [format!("{}", n)] for an unsigned [n]: most significant digit first. *)
Fixpoint dec_digits (u : Decimal.uint) : str :=
  match u with
  | Decimal.Nil => []
  | Decimal.D0 u => 48 :: dec_digits u
  | Decimal.D1 u => 49 :: dec_digits u
  | Decimal.D2 u => 50 :: dec_digits u
  | Decimal.D3 u => 51 :: dec_digits u
  | Decimal.D4 u => 52 :: dec_digits u
  | Decimal.D5 u => 53 :: dec_digits u
  | Decimal.D6 u => 54 :: dec_digits u
  | Decimal.D7 u => 55 :: dec_digits u
  | Decimal.D8 u => 56 :: dec_digits u
  | Decimal.D9 u => 57 :: dec_digits u
  end.

Definition display_N (n : N) : str := dec_digits (N.to_uint n).

Definition display_Z (z : Z) : str :=
  if (z <? 0)%Z then 45 :: display_N (Z.to_N (- z)) else display_N (Z.to_N z).

Open Scope Z_scope.

Definition u32_max : Z := 2 ^ 32 - 1.
Definition u64_max : Z := 2 ^ 64 - 1.
Definition i32_max : Z := 2 ^ 31 - 1.
Definition i64_max : Z := 2 ^ 63 - 1.
Definition i64_min : Z := - 2 ^ 63.

(** [T::try_from] into an integer type with the given bounds. *)
Definition try_from (lo hi : Z) (z : Z) : option Z :=
  if (lo <=? z) && (z <=? hi) then Some z else None.
Definition try_u16 := try_from 0 (2 ^ 16 - 1).
Definition try_u32 := try_from 0 u32_max.
Definition try_u64 := try_from 0 u64_max.
Definition try_i32 := try_from (- 2 ^ 31) i32_max.
Definition try_i64 := try_from i64_min i64_max.

(** [u64::saturating_mul] and [i64::saturating_sub]. *)
Definition sat_mul_u64 (a b : Z) : Z := Z.min (a * b) u64_max.
Definition sat_sub_i64 (a b : Z) : Z := Z.max i64_min (Z.min (a - b) i64_max).

(** The digit loop of [FromStr] for integers: checked at every step, adding
    the digit for a positive number and subtracting it for a negative one. *)
Fixpoint parse_digits (lo hi : Z) (neg : bool) (acc : Z) (s : str) : option Z :=
  match s with
  | [] => Some acc
  | c :: s' =>
      if is_ascii_digit c then
        match try_from lo hi (acc * 10) with
        | None => None
        | Some m =>
            let d := Z.of_N c - 48 in
            match try_from lo hi (if neg then m - d else m + d) with
            | None => None
            | Some v => parse_digits lo hi neg v s'
            end
        end
      else None
  end.

(** [str::parse] into an integer type with bounds [lo], [hi]. *)
Definition parse_int (lo hi : Z) (s : str) : option Z :=
  match s with
  | [] => None
  | [c] => if (c =? 43)%N || (c =? 45)%N then None else parse_digits lo hi false 0 s
  | c :: s' =>
      if (c =? 43)%N then parse_digits lo hi false 0 s'
      else if (c =? 45)%N && (lo <? 0) then parse_digits lo hi true 0 s'
      else parse_digits lo hi false 0 s
  end.
Definition parse_u64 := parse_int 0 u64_max.
Definition parse_i64 := parse_int i64_min i64_max.

Close Scope Z_scope.
Close Scope N_scope.

(** ** Lemmas *)

Lemma to_N_byte_of_N n : (n < 256)%N → to_N (byte_of_N n) = n.
Proof.
  intros Hn. unfold byte_of_N. destruct (Byte.of_N n) as [b|] eqn:E.
  - by apply Byte.to_of_N.
  - apply Byte.of_N_None_iff in E. lia.
Qed.

Lemma valid_str_app s t : valid_str (s ++ t) ↔ valid_str s ∧ valid_str t.
Proof. apply Forall_app. Qed.

Lemma valid_str_incl s t : (∀ c, c ∈ s → c ∈ t) → valid_str t → valid_str s.
Proof. unfold valid_str. rewrite !Forall_forall. naive_solver. Qed.

(** *** UTF-8: decoding an encoding gives the string back *)

(** Base-64 digits of a character. *)
Lemma base64_split c : c = (c / 64 * 64 + c mod 64)%N ∧ (c mod 64 < 64)%N.
Proof.
  split; [rewrite N.mul_comm; apply N.div_mod|apply N.mod_lt]; done.
Qed.

Lemma base64_digits c :
  ∃ q0 q1 q2 q3, c = (q0 * 262144 + q1 * 4096 + q2 * 64 + q3)%N ∧
    (q1 < 64 ∧ q2 < 64 ∧ q3 < 64)%N ∧
    (c mod 64 = q3 ∧ (c / 64) mod 64 = q2 ∧ (c / 4096) mod 64 = q1 ∧
     c / 262144 = q0 ∧ c / 4096 = q0 * 64 + q1 ∧ c / 64 = q0 * 4096 + q1 * 64 + q2)%N.
Proof.
  exists (c / 262144)%N, ((c / 4096) mod 64)%N, ((c / 64) mod 64)%N, (c mod 64)%N.
  change 262144%N with (64 * (64 * 64))%N. change 4096%N with (64 * 64)%N.
  rewrite <-!N.Div0.div_div.
  destruct (base64_split c), (base64_split (c / 64)), (base64_split (c / 64 / 64)). lia.
Qed.

Ltac byte_vals :=
  repeat match goal with
  | |- context [byte_of_N ?n] =>
      let b := fresh "b" in
      let Hb := fresh "Hb" in
      assert (to_N (byte_of_N n) = n) as Hb by (apply to_N_byte_of_N; lia);
      set (b := byte_of_N n) in *; clearbody b
  end.

(** Decides the next boolean test by linear arithmetic. *)
Ltac decide_test :=
  match goal with
  | |- context [if ?b then _ else _] =>
      first [ replace b with true by (symmetry; lia)
            | replace b with false by (symmetry; lia)
            | destruct b eqn:? ]
  end; cbv iota.

(** The decoder's step leaves a suffix of the bytes after the first. *)
Lemma utf8_step_rest b0 t0 : length (utf8_step b0 t0).2 ≤ length t0.
Proof.
  unfold utf8_step. destruct t0 as [|b1 [|b2 [|b3 t0]]]; simpl; repeat case_match; simpl; lia.
Qed.

Lemma utf8_chunks_fuel_enough n bs : length bs ≤ n → utf8_chunks_fuel n bs = utf8_chunks bs.
Proof.
  unfold utf8_chunks. revert n. induction bs as [bs IH] using (induction_ltof1 _ (@length byte)).
  unfold ltof in IH. intros n Hn. destruct bs as [|b0 t0]; [by destruct n|].
  destruct n as [|n]; [simpl in Hn; lia|]. simpl.
  pose proof (utf8_step_rest b0 t0) as Hr. destruct (utf8_step b0 t0) as [c r]. simpl in *.
  f_equal. rewrite (IH r) by lia. symmetry. apply IH; lia.
Qed.

Lemma utf8_chunks_cons b0 t0 :
  utf8_chunks (b0 :: t0) = (utf8_step b0 t0).1 :: utf8_chunks (utf8_step b0 t0).2.
Proof.
  unfold utf8_chunks at 1. simpl. pose proof (utf8_step_rest b0 t0) as Hr.
  destruct (utf8_step b0 t0) as [c r]. simpl in *. f_equal. by apply utf8_chunks_fuel_enough.
Qed.

Lemma utf8_chunks_encode_char c t :
  is_scalar c = true → utf8_chunks (encode_char c ++ t) = Some c :: utf8_chunks t.
Proof.
  unfold is_scalar, encode_char. intros Hc.
  destruct (base64_digits c) as (q0 & q1 & q2 & q3 & Hq & (? & ? & ?) &
    -> & -> & -> & -> & -> & ->).
  destruct (N.ltb_spec c 0x80); [|destruct (N.ltb_spec c 0x800);
    [|destruct (N.ltb_spec c 0x10000)]].
  all: byte_vals; rewrite <-?app_comm_cons, app_nil_l, utf8_chunks_cons.
  all: unfold utf8_step, is_cont, cont_bits, second3_ok, second4_ok, in_range.
  all: repeat match goal with H : to_N _ = _ |- _ => rewrite !H; clear H end.
  all: repeat decide_test; try lia; simpl.
  all: f_equal; f_equal; lia.
Qed.

Lemma utf8_chunks_as_bytes s : valid_str s → utf8_chunks (as_bytes s) = Some <$> s.
Proof.
  induction 1 as [|c s Hc _ IH]; csimpl; [done|].
  by rewrite utf8_chunks_encode_char, IH.
Qed.

Lemma from_utf8_as_bytes s : valid_str s → from_utf8 (as_bytes s) = Some s.
Proof.
  intros Hs. unfold from_utf8. rewrite utf8_chunks_as_bytes by done.
  clear Hs. apply mapM_Some_2. induction s as [|c s IH]; by constructor.
Qed.

Lemma from_utf8_lossy_as_bytes s : valid_str s → from_utf8_lossy (as_bytes s) = s.
Proof.
  intros Hs. unfold from_utf8_lossy. rewrite utf8_chunks_as_bytes by done.
  rewrite <-list_fmap_compose. apply list_fmap_id.
Qed.

(** A successful strict decoding is the lossy one. *)
Lemma from_utf8_lossy_of_strict bs s : from_utf8 bs = Some s → from_utf8_lossy bs = s.
Proof.
  unfold from_utf8, from_utf8_lossy. intros H%mapM_Some_1.
  induction H as [|o c cs s Ho _ IH]; csimpl; [done|]. unfold id in Ho. by rewrite Ho, IH.
Qed.

(** *** Lengths and byte offsets *)

Lemma str_len_app s t : str_len (s ++ t) = str_len s + str_len t.
Proof. induction s as [|c s IH]; simpl; [done|]. rewrite IH. lia. Qed.

Lemma len_utf8_pos c : 1 ≤ len_utf8 c.
Proof. unfold len_utf8. repeat case_match; lia. Qed.

Lemma length_as_bytes s : length (as_bytes s) = str_len s.
Proof.
  induction s as [|c s IH]; simpl; [done|]. rewrite length_app, IH.
  unfold encode_char, len_utf8. by repeat case_match.
Qed.

(** Splitting at the length of a prefix never panics. *)
Lemma split_at_app s t : split_at (str_len s) (s ++ t) = Some (s, t).
Proof.
  induction s as [|c s IH]; simpl; [by destruct t|].
  pose proof (len_utf8_pos c) as Hc.
  destruct (len_utf8 c + str_len s) as [|n] eqn:E; [lia|]. rewrite <-E.
  replace (len_utf8 c <=? len_utf8 c + str_len s)%nat with true by lia.
  replace (len_utf8 c + str_len s - len_utf8 c) with (str_len s) by lia.
  by rewrite IH.
Qed.

Lemma str_len_ascii s : Forall (λ c, (c < 128)%N) s → str_len s = length s.
Proof.
  induction 1 as [|c s Hc _ IH]; simpl; [done|]. rewrite IH. unfold len_utf8.
  by replace (c <? 0x80)%N with true by lia.
Qed.

Lemma char_indices_from_app i s t :
  char_indices_from i (s ++ t) = char_indices_from i s ++ char_indices_from (i + str_len s) t.
Proof.
  revert i; induction s as [|c s IH]; intros i; simpl; [by rewrite Nat.add_0_r|].
  rewrite IH. by rewrite Nat.add_assoc.
Qed.

(** *** Decimal *)

Lemma is_ascii_digit_spec c : is_ascii_digit c = true ↔ (48 <= c <= 57)%N.
Proof. unfold is_ascii_digit. lia. Qed.

Lemma digit_valid c : is_ascii_digit c = true → is_scalar c = true.
Proof. unfold is_ascii_digit, is_scalar. lia. Qed.

Lemma digit_not_whitespace c : is_ascii_digit c = true → is_whitespace c = false.
Proof. unfold is_ascii_digit, is_whitespace. lia. Qed.

Lemma dec_digits_all u : Forall (λ c, is_ascii_digit c = true) (dec_digits u).
Proof. induction u; simpl; by constructor. Qed.

Lemma display_N_digits n : Forall (λ c, is_ascii_digit c = true) (display_N n).
Proof. apply dec_digits_all. Qed.

Lemma display_N_valid n : valid_str (display_N n).
Proof. eapply Forall_impl; [apply display_N_digits|]. apply digit_valid. Qed.

(** The number a digit string denotes, continuing from [acc]. *)
Definition digits_value (acc : Z) (s : str) : Z :=
  foldl (λ a c, a * 10 + (Z.of_N c - 48))%Z acc s.

Lemma digits_value_mono acc s :
  (0 ≤ acc)%Z → Forall (λ c, is_ascii_digit c = true) s → (acc ≤ digits_value acc s)%Z.
Proof.
  intros Ha Hs. revert acc Ha. induction Hs as [|c s Hc _ IH]; intros acc Ha; simpl; [lia|].
  apply is_ascii_digit_spec in Hc. etrans; [|apply IH]; lia.
Qed.

Lemma try_from_Some lo hi z v : try_from lo hi z = Some v ↔ v = z ∧ (lo ≤ z ≤ hi)%Z.
Proof. unfold try_from. destruct (_ && _) eqn:E; [naive_solver lia|]. split; [done|lia]. Qed.

Lemma try_from_in lo hi z : (lo ≤ z ≤ hi)%Z → try_from lo hi z = Some z.
Proof. intros. by apply try_from_Some. Qed.

Lemma try_from_out lo hi z : (z < lo ∨ hi < z)%Z → try_from lo hi z = None.
Proof. unfold try_from. intros H. by destruct (_ && _) eqn:E; [lia|]. Qed.

(** [T::try_from(z).unwrap_or(0)] on a value that can only be too small. *)
Lemma try_from_clamp hi z : (z ≤ hi)%Z → default 0%Z (try_from 0 hi z) = Z.max 0 z.
Proof.
  intros H. destruct (Z.le_gt_cases 0 z).
  - rewrite try_from_in by lia. simpl. lia.
  - rewrite try_from_out by lia. simpl. lia.
Qed.

(** The checked digit loop computes the value, or fails exactly when it is
    out of range. *)
Lemma parse_digits_pos lo hi acc s :
  (lo ≤ 0 ≤ acc)%Z → Forall (λ c, is_ascii_digit c = true) s →
  (acc ≤ hi)%Z →
  parse_digits lo hi false acc s =
    if (digits_value acc s <=? hi)%Z then Some (digits_value acc s) else None.
Proof.
  intros Ha Hs. revert acc Ha. induction Hs as [|c s Hc Hs IH]; intros acc Ha Hi; simpl.
  { by replace (acc <=? hi)%Z with true by lia. }
  rewrite Hc. apply is_ascii_digit_spec in Hc.
  pose proof (digits_value_mono (acc * 10 + (Z.of_N c - 48)) s ltac:(lia) Hs) as Hm.
  unfold digits_value in *; simpl.
  destruct (Z.le_gt_cases (acc * 10) hi) as [H1|H1].
  - rewrite try_from_in by lia.
    destruct (Z.le_gt_cases (acc * 10 + (Z.of_N c - 48)) hi) as [H2|H2].
    + rewrite try_from_in by lia. apply IH; lia.
    + rewrite try_from_out by lia. by replace (_ <=? hi)%Z with false by lia.
  - rewrite try_from_out by lia. by replace (_ <=? hi)%Z with false by lia.
Qed.

Lemma parse_digits_neg lo hi acc s :
  (0 ≤ acc ∧ 0 ≤ hi)%Z → Forall (λ c, is_ascii_digit c = true) s →
  (lo ≤ - digits_value acc s)%Z →
  parse_digits lo hi true (- acc) s = Some (- digits_value acc s)%Z.
Proof.
  intros Ha Hs. revert acc Ha. induction Hs as [|c s Hc Hs IH]; intros acc Ha Hi; [done|].
  simpl. rewrite Hc. apply is_ascii_digit_spec in Hc.
  pose proof (digits_value_mono (acc * 10 + (Z.of_N c - 48)) s ltac:(lia) Hs) as Hm.
  unfold digits_value in *; simpl in *.
  rewrite try_from_in by lia. rewrite try_from_in by lia.
  replace (- acc * 10 - (Z.of_N c - 48))%Z with (- (acc * 10 + (Z.of_N c - 48)))%Z by lia.
  apply IH; lia.
Qed.

Lemma digits_value_uint_acc u acc :
  digits_value (Zpos acc) (dec_digits u) = Zpos (Pos.of_uint_acc u acc).
Proof.
  revert acc. induction u; intros acc; simpl; [done|..]; unfold digits_value in *; simpl.
  all: rewrite <-IHu; f_equal; lia.
Qed.

Lemma digits_value_uint u : digits_value 0 (dec_digits u) = Z.of_N (Pos.of_uint u).
Proof.
  induction u; simpl; [done|done|..]; unfold digits_value in *; simpl.
  all: apply digits_value_uint_acc.
Qed.

Lemma digits_value_display n : digits_value 0 (display_N n) = Z.of_N n.
Proof.
  unfold display_N. rewrite digits_value_uint.
  change (Pos.of_uint (N.to_uint n)) with (N.of_uint (N.to_uint n)).
  by rewrite DecimalN.Unsigned.of_to.
Qed.

Lemma display_N_nonempty n : display_N n ≠ [].
Proof.
  intros H. pose proof (digits_value_display n) as Hv. rewrite H in Hv.
  assert (n = 0%N) as -> by (unfold digits_value in Hv; simpl in Hv; lia).
  vm_compute in H. done.
Qed.

(** Parsing a nonempty digit string. *)
Lemma parse_int_digits lo hi s :
  (lo ≤ 0 ≤ hi)%Z → s ≠ [] → Forall (λ c, is_ascii_digit c = true) s →
  parse_int lo hi s = if (digits_value 0 s <=? hi)%Z then Some (digits_value 0 s) else None.
Proof.
  intros Hb Hne Hs. rewrite <-(parse_digits_pos lo hi 0 s) by (done || lia).
  destruct s as [|c s]; [done|].
  pose proof (proj1 (Forall_cons _ _ _) Hs) as [Hc%is_ascii_digit_spec _].
  unfold parse_int. replace (c =? 43)%N with false by lia. replace (c =? 45)%N with false by lia.
  simpl. by destruct s.
Qed.

Lemma parse_int_display lo hi n :
  (lo ≤ 0 ∧ Z.of_N n ≤ hi)%Z → parse_int lo hi (display_N n) = Some (Z.of_N n).
Proof.
  intros H. rewrite parse_int_digits, digits_value_display.
  - by replace (_ <=? _)%Z with true by lia.
  - lia.
  - apply display_N_nonempty.
  - apply display_N_digits.
Qed.

Lemma parse_int_display_Z lo hi z :
  (lo ≤ z ≤ hi)%Z → (lo ≤ 0 ≤ hi)%Z → parse_int lo hi (display_Z z) = Some z.
Proof.
  intros Hz Hb. unfold display_Z. destruct (Z.ltb_spec z 0) as [Hn|Hn].
  - pose proof (display_N_digits (Z.to_N (- z))) as Hd.
    pose proof (display_N_nonempty (Z.to_N (- z))) as Hne.
    pose proof (digits_value_display (Z.to_N (- z))) as Hv.
    destruct (display_N (Z.to_N (- z))) as [|c s]; [done|].
    unfold parse_int. simpl (45 =? 43)%N. simpl (45 =? 45)%N.
    replace (lo <? 0)%Z with true by lia. cbv iota. simpl (_ && _).
    pose proof (parse_digits_neg lo hi 0 (c :: s)) as Hp. rewrite Hv in Hp.
    rewrite Z.opp_0 in Hp. rewrite Hp; [f_equal; lia|lia|done|lia].
  - rewrite parse_int_display by lia. f_equal. lia.
Qed.

Lemma display_Z_nonempty z : display_Z z ≠ [].
Proof. unfold display_Z. destruct (z <? 0)%Z; [done|apply display_N_nonempty]. Qed.

(** A number is never trimmed. *)
Lemma display_Z_trimmed z : trimmed (display_Z z).
Proof.
  assert (∀ c, c ∈ display_Z z → is_whitespace c = false) as H.
  { assert (∀ n c, c ∈ display_N n → is_whitespace c = false) as Hn.
    { intros n c Hc. apply digit_not_whitespace.
      by apply (proj1 (Forall_forall _ _) (display_N_digits n)). }
    unfold display_Z. intros c. destruct (z <? 0)%Z; [|apply Hn].
    intros [-> |Hc]%elem_of_cons; [done|by eapply Hn]. }
  split; intros c Hc; apply H; [by apply head_Some_elem_of|by apply last_Some_elem_of].
Qed.

(** A decimal rendering has no character outside the digits and the sign. *)
Lemma display_N_elem n c : c ∈ display_N n → is_ascii_digit c = true.
Proof. intros Hc. by apply (proj1 (Forall_forall _ _) (display_N_digits n)). Qed.

#[export] Hint Resolve display_N_digits display_N_valid display_N_nonempty : provfs.

(** *** Decoding around ASCII bytes *)

(** An ASCII byte ends whatever precedes it. *)
Lemma utf8_step_ascii b0 a b t :
  (to_N b < 128)%N →
  utf8_step b0 (a ++ b :: t) = ((utf8_step b0 a).1, (utf8_step b0 a).2 ++ b :: t).
Proof.
  intros Hb.
  assert (Hc : is_cont b = false) by (unfold is_cont; lia).
  assert (H3 : ∀ x, second3_ok x (to_N b) = false) by (intros; unfold second3_ok, in_range; lia).
  assert (H4 : ∀ x, second4_ok x (to_N b) = false) by (intros; unfold second4_ok, in_range; lia).
  unfold utf8_step. destruct a as [|b1 [|b2 [|b3 a]]]; simpl; rewrite ?Hc, ?H3, ?H4;
    by repeat case_match.
Qed.

Lemma utf8_chunks_ascii a b t :
  (to_N b < 128)%N → utf8_chunks (a ++ b :: t) = utf8_chunks a ++ Some (to_N b) :: utf8_chunks t.
Proof.
  intros Hb. induction a as [a IH] using (induction_ltof1 _ (@length byte)); unfold ltof in IH.
  destruct a as [|b0 a].
  - simpl ([] ++ _). rewrite utf8_chunks_cons. unfold utf8_step.
    by replace (to_N b <? 0x80)%N with true by lia.
  - rewrite <-app_comm_cons, !utf8_chunks_cons, utf8_step_ascii by done. simpl.
    pose proof (utf8_step_rest b0 a). rewrite IH by (simpl; lia). done.
Qed.

Lemma from_utf8_lossy_ascii a b t :
  (to_N b < 128)%N → from_utf8_lossy (a ++ b :: t) = from_utf8_lossy a ++ to_N b :: from_utf8_lossy t.
Proof. intros Hb. unfold from_utf8_lossy. by rewrite utf8_chunks_ascii, fmap_app. Qed.

(** An ASCII character of the decoding comes from its byte. *)
Lemma utf8_step_ascii_char b0 t c :
  (utf8_step b0 t).1 = Some c → (c < 128)%N → to_N b0 = c.
Proof.
  unfold utf8_step, is_cont, cont_bits, in_range, second3_ok, second4_ok, in_range. intros H Hc.
  repeat case_match; simplify_eq/=; lia.
Qed.

Lemma utf8_step_suffix b0 t0 : (utf8_step b0 t0).2 `suffix_of` t0.
Proof.
  unfold utf8_step. repeat case_match; simpl;
    by repeat first [reflexivity | apply suffix_cons_r].
Qed.

Lemma from_utf8_lossy_elem bs c :
  c ∈ from_utf8_lossy bs → (c < 128)%N → ∃ b, b ∈ bs ∧ to_N b = c.
Proof.
  unfold from_utf8_lossy. intros Hc Hlt.
  induction bs as [bs IH] using (induction_ltof1 _ (@length byte)); unfold ltof in IH.
  destruct bs as [|b0 t0]; [by apply not_elem_of_nil in Hc|].
  rewrite utf8_chunks_cons in Hc. csimpl in Hc. apply elem_of_cons in Hc as [Hc|Hc].
  - destruct (utf8_step b0 t0) as [[c'|] r] eqn:E; simpl in Hc; [|lia]. subst c'.
    exists b0. split; [left|]. apply (utf8_step_ascii_char b0 t0); [by rewrite E|done].
  - pose proof (utf8_step_rest b0 t0). destruct (IH (utf8_step b0 t0).2) as (b & Hb & ?);
      [simpl; lia|done|].
    exists b. split; [|done]. right. destruct (utf8_step_suffix b0 t0) as [j Hj].
    rewrite Hj. set_solver.
Qed.

(** *** Encoding a decoding gives the bytes back *)

Lemma byte_of_N_to_N b n : to_N b = n → byte_of_N n = b.
Proof. intros <-. unfold byte_of_N. by rewrite Byte.of_to_N. Qed.

Lemma byte_to_N_inj b c : to_N b = to_N c → b = c.
Proof. intros H. apply (inj Some). by rewrite <-!Byte.of_to_N, H. Qed.

Lemma utf8_step_encode b0 t0 c r :
  utf8_step b0 t0 = (Some c, r) → is_scalar c = true ∧ b0 :: t0 = encode_char c ++ r.
Proof.
  unfold utf8_step, is_cont, cont_bits, in_range, second3_ok, second4_ok, in_range. intros H.
  repeat case_match; simplify_eq.
  all: split; [unfold is_scalar; lia|].
  all: match goal with |- context [encode_char ?c] =>
         let H := fresh in destruct (base64_digits c) as (q0 & q1 & q2 & q3 & Hq & Hlt & H);
         unfold encode_char; destruct H as (-> & -> & -> & -> & -> & ->) end.
  all: repeat decide_test; try lia; simpl.
  all: repeat f_equal; symmetry; apply byte_of_N_to_N; lia.
Qed.

Lemma from_utf8_Some bs s : from_utf8 bs = Some s → valid_str s ∧ as_bytes s = bs.
Proof.
  unfold from_utf8. revert s. induction bs as [bs IH] using (induction_ltof1 _ (@length byte)).
  unfold ltof in IH. intros s Hs. destruct bs as [|b0 t0].
  { injection Hs as <-. split; [constructor|done]. }
  rewrite utf8_chunks_cons in Hs. apply mapM_Some in Hs.
  apply Forall2_cons_inv_l in Hs as (c & s' & Hc & Hs' & ->).
  apply mapM_Some in Hs'. unfold id in Hc.
  destruct (utf8_step b0 t0) as [oc r] eqn:E. simpl in Hc, Hs'. subst oc.
  pose proof (utf8_step_rest b0 t0) as Hr. rewrite E in Hr. simpl in Hr.
  destruct (IH r ltac:(simpl; lia) s' Hs') as [? <-].
  apply utf8_step_encode in E as [Hsc ->].
  split; [by constructor|done].
Qed.
