(* ===== verification/RustPath.v ===== *)
(** Unix paths as [std::path] treats them: a path is a byte string, but two
    paths are equal (and hash alike) when their components are, so that
    repeated separators, interior [.] segments and a trailing separator do not
    matter.  [join], [strip_prefix] and [CString::new] as the sources use
    them. *)

From S2P Require Import Prelude RustStr.
From Stdlib Require Import Strings.Byte.

Definition slash : byte := x2f.
Definition dot : byte := x2e.

Inductive component : Type :=
| RootDir
| CurDir
| ParentDir
| Normal (s : bytes).

#[export] Instance component_eq_dec : EqDecision component.
Proof. solve_decision. Defined.

#[export] Instance component_countable : Countable component.
Proof.
  refine (inj_countable'
    (λ c, match c with
          | RootDir => inl 0 | CurDir => inl 1 | ParentDir => inl 2 | Normal s => inr s
          end)
    (λ x, match x with
          | inl 0 => RootDir | inl 1 => CurDir | inl _ => ParentDir | inr s => Normal s
          end) _).
  by intros [].
Defined.

(** ** Components *)

(** A segment between separators: empty ones and [.] are dropped. *)
Definition parse_single (seg : bytes) : option component :=
  if decide (seg = []) then None
  else if decide (seg = [dot]) then None
  else if decide (seg = [dot; dot]) then Some ParentDir
  else Some (Normal seg).

Definition body_components (l : bytes) : list component :=
  omap parse_single (split_on slash l).

(** A relative path starting with a [.] segment keeps it. *)
Definition leads_with_dot (l : bytes) : bool :=
  match l with
  | [c] => bool_decide (c = dot)
  | c :: d :: _ => bool_decide (c = dot) && bool_decide (d = slash)
  | [] => false
  end.

Definition has_root (l : bytes) : bool :=
  match l with c :: _ => bool_decide (c = slash) | [] => false end.

(** [Path::components]. *)
Definition components (p : bytes) : list component :=
  if has_root p then RootDir :: body_components (tail p)
  else if leads_with_dot p then CurDir :: body_components (tail p)
  else body_components p.

(** The [Components] iterator, seen from the front: the bytes still to read,
    and whether the first component has been produced. *)
Record comps : Type := Comps { c_path : bytes; c_started : bool }.

(** Drops the empty and [.] segments at the front. *)
Fixpoint skip_empty (l : bytes) : bytes :=
  match l with
  | [] => []
  | c :: l' =>
      if decide (c = slash) then skip_empty l'
      else if decide (c = dot) then
        match l' with
        | [] => []
        | d :: l'' => if decide (d = slash) then skip_empty l'' else l
        end
      else l
  end.

Definition next_body (l : bytes) : option (component * comps) :=
  match skip_empty l with
  | [] => None
  | l' =>
      let '(seg, rest) :=
        match split_once slash l' with Some sr => sr | None => (l', []) end in
      match parse_single seg with
      | Some c => Some (c, Comps rest true)
      | None => None
      end
  end.

(** [Components::next]. *)
Definition next (it : comps) : option (component * comps) :=
  if c_started it then next_body (c_path it)
  else if has_root (c_path it) then Some (RootDir, Comps (tail (c_path it)) true)
  else if leads_with_dot (c_path it) then Some (CurDir, Comps (tail (c_path it)) true)
  else next_body (c_path it).

(** [Components::as_path]: the unread bytes, without the droppable segments
    at the two ends. *)
Definition len_before_body (it : comps) : nat :=
  if c_started it then 0
  else if has_root (c_path it) || leads_with_dot (c_path it) then 1 else 0.

Definition as_path (it : comps) : bytes :=
  let l := if c_started it then skip_empty (c_path it) else c_path it in
  let n := len_before_body it in
  take n l ++ reverse (skip_empty (reverse (drop n l))).

Fixpoint iter_after (it : comps) (base : list component) : option comps :=
  match base with
  | [] => Some it
  | y :: base' =>
      match next it with
      | Some (x, it') => if decide (x = y) then iter_after it' base' else None
      | None => None
      end
  end.

(** [Path::strip_prefix]. *)
Definition path_strip_prefix (p base : bytes) : option bytes :=
  as_path <$> iter_after (Comps p false) (components base).

(** [Path::join] ([PathBuf::push]): an absolute argument replaces the path. *)
Definition join (p name : bytes) : bytes :=
  if has_root name then name
  else match last p with
       | Some c => if decide (c = slash) then p ++ name else p ++ slash :: name
       | None => name
       end.

(** [CString::new]: interior NUL bytes are refused. *)
Definition cstring_new (p : bytes) : option bytes :=
  if decide (x00 ∈ p) then None else Some p.

(** ** Path equality *)

(** [PartialEq for Path]. *)
Definition path_eq (p q : bytes) : Prop := components p = components q.

#[export] Instance path_eq_equiv : Equivalence path_eq.
Proof. split; unfold path_eq; [by intros ?|by intros ???|by intros ??? ->]. Qed.

#[export] Instance path_eq_dec p q : Decision (path_eq p q).
Proof. unfold path_eq. apply _. Defined.

#[export] Instance components_proper : Proper (path_eq ==> eq) components.
Proof. by intros p q ->. Qed.

(** A file name: what a directory entry or a FUSE name argument is. *)
Definition proper_name (n : bytes) : Prop :=
  n ≠ [] ∧ (slash ∉ n) ∧ n ≠ [dot] ∧ n ≠ [dot; dot].

#[export] Instance proper_name_dec n : Decision (proper_name n).
Proof. unfold proper_name. apply _. Defined.

(** [p] is [base] or lies below it. *)
Definition path_under (base p : bytes) : Prop := components base `prefix_of` components p.

#[export] Instance path_under_dec base p : Decision (path_under base p).
Proof. unfold path_under. apply _. Defined.

(** The path reached from [base] by a list of file names. *)
Definition join_all (base : bytes) (names : list bytes) : bytes := foldl join base names.

(** ** Lemmas on components *)

Lemma body_components_app a b :
  body_components (a ++ slash :: b) = body_components a ++ body_components b.
Proof. unfold body_components. by rewrite split_on_app_sep, omap_app. Qed.

Lemma body_components_slash b : body_components (slash :: b) = body_components b.
Proof. apply (body_components_app []). Qed.

Lemma body_components_seg seg : slash ∉ seg → body_components seg = option_list (parse_single seg).
Proof.
  intros Hs. unfold body_components. rewrite split_on_no_sep by done. simpl.
  by destruct (parse_single seg).
Qed.

Lemma parse_single_name n : proper_name n → parse_single n = Some (Normal n).
Proof. intros (?&_&?&?). unfold parse_single. by rewrite !decide_False. Qed.

Lemma body_components_name n : proper_name n → body_components n = [Normal n].
Proof. intros Hn. rewrite body_components_seg by apply Hn. by rewrite parse_single_name. Qed.

(** A byte string after which a new segment starts. *)
Definition at_boundary (b : bytes) : Prop := b = [] ∨ last b = Some slash.

Lemma body_components_boundary b t :
  at_boundary b → body_components (b ++ t) = body_components b ++ body_components t.
Proof.
  intros [-> |[b' ->]%last_Some]; [done|].
  rewrite <-app_assoc. simpl. rewrite !body_components_app. simpl.
  by rewrite app_nil_r.
Qed.

Lemma proper_name_no_root n : proper_name n → has_root n = false.
Proof. intros (_&Hs&_). destruct n; [done|]. apply bool_decide_eq_false. set_solver. Qed.

Lemma proper_name_no_dot n t : proper_name n → leads_with_dot (n ++ slash :: t) = false.
Proof.
  intros (?&Hs&?&?). destruct n as [|c [|d n]]; simpl; [done| |].
  - rewrite (bool_decide_eq_false_2 (c = dot)); [done|naive_solver].
  - rewrite (bool_decide_eq_false_2 (d = slash)); [by rewrite andb_false_r|set_solver].
Qed.

Lemma proper_name_no_dot' n : proper_name n → leads_with_dot n = false.
Proof.
  intros (?&Hs&?&?). destruct n as [|c [|d n]]; simpl; [done| |].
  - apply bool_decide_eq_false. naive_solver.
  - rewrite (bool_decide_eq_false_2 (d = slash)); [by rewrite andb_false_r|set_solver].
Qed.

(** The separator [join] inserts. *)
Definition sep_for (p : bytes) : bytes :=
  match last p with
  | Some c => if decide (c = slash) then [] else [slash]
  | None => []
  end.

Lemma join_name p n : proper_name n → join p n = p ++ sep_for p ++ n.
Proof.
  intros Hn. unfold join, sep_for. rewrite proper_name_no_root by done.
  destruct (last p) eqn:E; [by case_decide|].
  apply last_None in E. by subst.
Qed.

Lemma body_components_sep b n :
  body_components (b ++ sep_for b ++ n) = body_components b ++ body_components n.
Proof.
  unfold sep_for. destruct (last b) as [c|] eqn:E.
  - case_decide; subst; simpl.
    + apply body_components_boundary. by right.
    + apply body_components_app.
  - apply last_None in E. by subst.
Qed.

Lemma sep_for_cons c p : p ≠ [] → sep_for (c :: p) = sep_for p.
Proof. unfold sep_for. by destruct p. Qed.

(** Joining a file name adds one component. *)
Lemma components_join p n :
  proper_name n → components (join p n) = components p ++ [Normal n].
Proof.
  intros Hn. rewrite join_name, <-(body_components_name n) by done.
  destruct p as [|c p]; unfold components.
  { simpl. by rewrite (proper_name_no_root n), proper_name_no_dot' by done. }
  simpl. destruct (bool_decide_reflect (c = slash)) as [-> |Hc].
  { destruct (decide (p = [])) as [-> |Hp]; [done|].
    rewrite sep_for_cons by done. by rewrite body_components_sep. }
  destruct p as [|d p].
  - unfold sep_for. simpl. rewrite decide_False by done. simpl.
    destruct (bool_decide_reflect (c = dot)) as [-> |Hd].
    + by rewrite body_components_slash.
    + apply (body_components_app [c]).
  - simpl. destruct (_ && _) eqn:E.
    + rewrite sep_for_cons by done. change (d :: p ++ ?x) with ((d :: p) ++ x).
      by rewrite body_components_sep.
    + change (c :: d :: p ++ ?x) with ((c :: d :: p) ++ x). apply body_components_sep.
Qed.

Lemma join_path_eq p q n : proper_name n → path_eq p q → path_eq (join p n) (join q n).
Proof. unfold path_eq. intros Hn Hpq. rewrite !components_join by done. by rewrite Hpq. Qed.

Lemma join_path_eq_inj p q n m :
  proper_name n → proper_name m → path_eq (join p n) (join q m) → path_eq p q ∧ n = m.
Proof.
  unfold path_eq. intros Hn Hm. rewrite !components_join by done.
  intros [? [= ->]]%app_inj_tail. done.
Qed.

Lemma path_under_refl p : path_under p p.
Proof. unfold path_under. done. Qed.

Lemma path_under_join base p n : proper_name n → path_under base p → path_under base (join p n).
Proof. unfold path_under. intros Hn Hp. rewrite components_join by done. by apply prefix_app_r. Qed.

Lemma path_under_eq base p q : path_eq p q → path_under base p → path_under base q.
Proof. unfold path_under, path_eq. by intros ->. Qed.

#[export] Hint Resolve path_under_refl path_under_join : provfs.

(** ** The iterator and [strip_prefix] *)

Lemma parse_single_None seg : parse_single seg = None ↔ seg = [] ∨ seg = [dot].
Proof. unfold parse_single. repeat case_decide; naive_solver. Qed.

(** [skip_empty] works segment by segment. *)
Lemma skip_empty_seg seg rest :
  slash ∉ seg →
  skip_empty (seg ++ slash :: rest) =
    match parse_single seg with None => skip_empty rest | Some _ => seg ++ slash :: rest end.
Proof.
  intros Hs. destruct (parse_single seg) as [k|] eqn:E.
  - destruct seg as [|c seg]; [done|]. apply not_elem_of_cons in Hs as [Hc Hs].
    simpl. rewrite decide_False by done. case_decide as Hd; [|done]. subst.
    destruct seg as [|d seg]; [done|]. apply not_elem_of_cons in Hs as [Hd Hs].
    simpl. by rewrite decide_False.
  - by apply parse_single_None in E as [-> | ->].
Qed.

Lemma skip_empty_last seg :
  slash ∉ seg →
  skip_empty seg = match parse_single seg with None => [] | Some _ => seg end.
Proof.
  intros Hs. destruct (parse_single seg) as [k|] eqn:E.
  - destruct seg as [|c seg]; [done|]. apply not_elem_of_cons in Hs as [Hc Hs].
    simpl. rewrite decide_False by done. case_decide as Hd; [|done]. subst.
    destruct seg as [|d seg]; [done|]. apply not_elem_of_cons in Hs as [Hd Hs].
    simpl. by rewrite decide_False.
  - by apply parse_single_None in E as [-> | ->].
Qed.

(** What [skip_empty] leaves: nothing, or bytes starting with a segment that
    is a component. *)
Lemma skip_empty_spec l :
  (skip_empty l = [] ∧ body_components l = []) ∨
  ∃ j seg rest c, l = j ++ skip_empty l ∧ at_boundary j ∧ (slash ∉ seg) ∧
    parse_single seg = Some c ∧ body_components l = c :: body_components rest ∧
    (skip_empty l = seg ++ slash :: rest ∨ (skip_empty l = seg ∧ rest = [])).
Proof.
  induction l as [l IH] using (induction_ltof1 _ (@length byte)); unfold ltof in IH.
  destruct (split_once slash l) as [[seg rest]|] eqn:E.
  - apply split_once_Some in E as [-> Hs].
    rewrite skip_empty_seg, body_components_app, body_components_seg by done.
    destruct (parse_single seg) as [c|] eqn:Hc.
    + right. exists [], seg, rest, c. split_and!; try done; by left.
    + simpl. destruct (IH rest) as [?|(j & seg' & rest' & c & Hl & Hj & ?)];
        [rewrite length_app; simpl; lia|by left|right].
      exists (seg ++ slash :: j), seg', rest', c. split_and!; try naive_solver.
      * rewrite <-app_assoc. simpl. by rewrite <-Hl.
      * right. rewrite last_app. destruct Hj as [-> |Hj]; [done|]. destruct j as [|b j]; [done|].
        change (last (slash :: b :: j)) with (last (b :: j)). by rewrite Hj.
  - apply split_once_None in E.
    rewrite skip_empty_last, body_components_seg by done.
    destruct (parse_single l) as [c|] eqn:Hc; [right|by left].
    exists [], l, [], c. split_and!; try done; [by left|by right].
Qed.

Lemma skip_empty_components l : body_components (skip_empty l) = body_components l.
Proof.
  destruct (skip_empty_spec l) as [[-> ->]|(j & seg & rest & c & Hl & Hj & Hs & Hc & -> & [-> |[-> ->]])].
  - done.
  - by rewrite body_components_app, body_components_seg, Hc by done.
  - by rewrite body_components_seg, Hc by done.
Qed.

Lemma next_body_Some l seg c rest :
  parse_single seg = Some c → slash ∉ seg →
  (skip_empty l = seg ++ slash :: rest ∨ (skip_empty l = seg ∧ rest = [])) →
  next_body l = Some (c, Comps rest true).
Proof.
  intros Hc Hs Hl. unfold next_body.
  assert (seg ≠ []) as Hne by (intros ->; done).
  destruct Hl as [-> |[-> ->]].
  - destruct seg as [|b seg]; [done|]. rewrite <-app_comm_cons. cbv iota beta.
    rewrite app_comm_cons, split_once_app by done. by rewrite Hc.
  - apply split_once_None in Hs. destruct seg as [|b seg]; [done|]. cbv iota beta.
    by rewrite Hs, Hc.
Qed.

(** The components still to come. *)
Definition remaining (it : comps) : list component :=
  if c_started it then body_components (c_path it) else components (c_path it).

(** [next] produces the components one by one. *)
Lemma next_remaining it :
  match next it with
  | Some (c, it') => remaining it = c :: remaining it' ∧ c_started it' = true
  | None => remaining it = []
  end.
Proof.
  assert (Hbody : ∀ l, match next_body l with
    | Some (c, it') => body_components l = c :: remaining it' ∧ c_started it' = true
    | None => body_components l = [] end).
  { intros l. destruct (skip_empty_spec l) as [[Hl ->]|(j & seg & rest & c & Hl & Hj & Hs & Hc & Hb & H')].
    - unfold next_body. by rewrite Hl.
    - by rewrite (next_body_Some l seg c rest), Hb. }
  destruct it as [l []]; unfold next, remaining, components; simpl; [apply Hbody|].
  destruct (has_root l); [done|]. destruct (leads_with_dot l); [done|]. apply Hbody.
Qed.

(** A byte string before which a segment may end. *)
Definition starts_boundary (t : bytes) : Prop := t = [] ∨ head t = Some slash.

Lemma at_boundary_rest seg rest : at_boundary (seg ++ slash :: rest) → at_boundary rest.
Proof.
  intros [?|H]; [by destruct seg|]. rewrite last_app, last_cons in H.
  destruct (last rest) eqn:E; [right; by rewrite E|left; by apply last_None].
Qed.

Lemma skip_empty_junk b t :
  body_components b = [] → at_boundary b → skip_empty (b ++ t) = skip_empty t.
Proof.
  induction b as [b IH] using (induction_ltof1 _ (@length byte)); unfold ltof in IH.
  intros Hb Hat. destruct (split_once slash b) as [[seg rest]|] eqn:E.
  - apply split_once_Some in E as [-> Hs].
    rewrite body_components_app, body_components_seg in Hb by done.
    rewrite <-app_assoc. simpl. rewrite skip_empty_seg by done.
    destruct (parse_single seg); [done|]. apply IH; [rewrite length_app; simpl; lia|done|].
    by eapply at_boundary_rest.
  - apply split_once_None in E. destruct Hat as [-> |[b' ->]%last_Some]; [done|]. set_solver.
Qed.

Lemma skip_empty_no_components b t :
  body_components b = [] → at_boundary b ∨ starts_boundary t → skip_empty (b ++ t) = skip_empty t.
Proof.
  intros Hb [Hat|[-> |Ht]]; [by apply skip_empty_junk| |].
  - rewrite app_nil_r. destruct (skip_empty_spec b) as [[-> _]|(?&?&?&?&?&?&?&?&?&_)]; [done|].
    congruence.
  - destruct t as [|d t]; simplify_eq/=.
    change (b ++ slash :: t) with (b ++ [slash] ++ t). rewrite app_assoc.
    apply skip_empty_junk; [by rewrite body_components_app, Hb|].
    right. by rewrite last_snoc.
Qed.

(** The first component of [b] read off [b ++ t]: what is left is the rest of
    [b] followed by [t], or [t] itself up to droppable segments. *)
Lemma next_body_app b t :
  at_boundary b ∨ starts_boundary t → body_components b ≠ [] →
  ∃ c rest rt, body_components b = c :: body_components rest ∧ length rest < length b ∧
    (at_boundary b → at_boundary rest) ∧
    next_body (b ++ t) = Some (c, Comps rt true) ∧
    (rt = rest ++ t ∨ (rest = [] ∧ skip_empty rt = skip_empty t)).
Proof.
  intros Hbt Hne. destruct (skip_empty_spec b) as
    [[_ ?]|(j & seg & rest & c & Hj & Hat & Hs & Hc & Hb & Hrest)]; [done|].
  assert (body_components j = []) as Hj0.
  { pose proof (skip_empty_components b) as Hsk. rewrite Hj in Hsk at 2.
    rewrite body_components_boundary in Hsk by done.
    apply (f_equal length) in Hsk. rewrite length_app in Hsk. apply nil_length_inv. lia. }
  assert (seg ≠ []) as Hseg by (intros ->; done).
  exists c, rest. rewrite Hj, <-app_assoc.
  destruct Hrest as [Hr|[Hr ->]]; rewrite Hr.
  - exists (rest ++ t). split; [congruence|]. split; [rewrite !length_app; simpl; lia|].
    split; [rewrite app_assoc; apply at_boundary_rest|]. split; [|by left].
    apply (next_body_Some _ seg); [done..|left].
    rewrite skip_empty_junk, <-app_assoc by done. simpl.
    rewrite skip_empty_seg by done. by rewrite Hc.
  - assert (starts_boundary t) as Ht.
    { destruct Hbt as [Hb'|?]; [|done]. exfalso. rewrite Hj, Hr in Hb'.
      destruct Hb' as [H0|H0]; [by destruct j|].
      rewrite last_app in H0. destruct (last seg) eqn:El; [|by apply last_None in El].
      apply last_Some in El as [? ->]. simplify_eq. set_solver. }
    assert (∃ rt, skip_empty rt = skip_empty t ∧ next_body (j ++ seg ++ t) = Some (c, Comps rt true))
      as (rt & Hrt & Hn).
    { destruct Ht as [-> |Ht].
      - exists []. split; [done|]. apply (next_body_Some _ seg); [done..|right].
        rewrite skip_empty_junk, app_nil_r, skip_empty_last by done. by rewrite Hc.
      - destruct t as [|d t]; [done|]. injection Ht as ->. exists t.
        split; [done|]. apply (next_body_Some _ seg); [done..|left].
        rewrite skip_empty_junk, skip_empty_seg by done. by rewrite Hc. }
    exists rt. split; [congruence|]. split; [rewrite length_app; destruct seg; simpl; [done|lia]|].
    split; [by left|]. split; [done|by right].
Qed.

(** Reading the components of [b] off [b ++ t] leaves [t], up to droppable
    segments. *)
Lemma iter_after_body b t :
  at_boundary b ∨ starts_boundary t →
  ∃ r, iter_after (Comps (b ++ t) true) (body_components b) = Some (Comps r true) ∧
       skip_empty r = skip_empty t.
Proof.
  induction b as [b IH] using (induction_ltof1 _ (@length byte)); unfold ltof in IH.
  intros Hbt. destruct (decide (body_components b = [])) as [Hb|Hb].
  { rewrite Hb. exists (b ++ t). split; [done|]. by apply skip_empty_no_components. }
  destruct (next_body_app b t Hbt Hb) as (c & rest & rt & -> & Hlen & Hat & Hn & Hrt).
  simpl. unfold next; simpl. rewrite Hn. rewrite decide_True by done.
  destruct Hrt as [-> |[-> Hsk]]; [|by exists rt].
  apply IH; [done|]. destruct Hbt; [left|right]; auto.
Qed.

(** ** Paths reached by file names *)

Lemma proper_join_all base names :
  Forall proper_name names → components (join_all base names) = components base ++ (Normal <$> names).
Proof.
  intros Hn. revert base. induction Hn as [|n names Hn _ IH]; intros base; csimpl.
  - by rewrite app_nil_r.
  - unfold join_all in *. simpl. rewrite IH, components_join by done. by rewrite <-app_assoc.
Qed.

Lemma path_under_join_all base names :
  Forall proper_name names → path_under base (join_all base names).
Proof. intros Hn. unfold path_under. rewrite proper_join_all by done. by eexists. Qed.

(** A path of file names joined by separators: nothing to drop at its ends. *)
Lemma skip_empty_names n names :
  Forall proper_name (n :: names) → skip_empty (join_with slash (n :: names)) = join_with slash (n :: names).
Proof.
  intros [Hn _]%Forall_cons. destruct names as [|m names].
  - change (join_with slash [n]) with n. rewrite skip_empty_last by apply Hn.
    by rewrite parse_single_name.
  - change (join_with slash (n :: m :: names)) with (n ++ slash :: join_with slash (m :: names)).
    rewrite skip_empty_seg by apply Hn. by rewrite parse_single_name.
Qed.

Lemma join_with_last_name n names :
  Forall proper_name (n :: names) →
  ∃ m, proper_name m ∧ (join_with slash (n :: names) = m ∨
                        ∃ l, join_with slash (n :: names) = l ++ slash :: m).
Proof.
  revert n; induction names as [|m names IH]; intros n [Hn Hs]%Forall_cons.
  - exists n. split; [done|by left].
  - destruct (IH m Hs) as (k & Hk & Hj). exists k. split; [done|right].
    change (join_with slash (n :: m :: names)) with (n ++ slash :: join_with slash (m :: names)).
    destruct Hj as [-> |[l ->]]; [by exists n|exists (n ++ slash :: l); by simplify_list_eq].
Qed.

Lemma parse_single_reverse seg : parse_single (reverse seg) = None ↔ parse_single seg = None.
Proof.
  rewrite !parse_single_None.
  split; intros [H|H]; [left|right|left|right]; apply (f_equal reverse) in H;
    rewrite ?reverse_involutive in H; done.
Qed.

Lemma skip_empty_names_rev n names :
  Forall proper_name (n :: names) →
  skip_empty (reverse (join_with slash (n :: names))) = reverse (join_with slash (n :: names)).
Proof.
  intros H. destruct (join_with_last_name n names H) as (m & Hm & Hj).
  assert (slash ∉ reverse m) as Hs by (rewrite elem_of_reverse; apply Hm).
  assert (∃ k, parse_single (reverse m) = Some k) as [k Hk].
  { destruct (parse_single (reverse m)) eqn:E; [eauto|].
    apply (proj1 (parse_single_reverse m)) in E. by rewrite parse_single_name in E. }
  destruct Hj as [-> |[l ->]].
  - rewrite skip_empty_last by done. by rewrite Hk.
  - rewrite reverse_app, reverse_cons, <-app_assoc. simpl.
    rewrite skip_empty_seg by done. by rewrite Hk.
Qed.

Definition names_path (names : list bytes) : bytes := join_with slash names.

Lemma as_path_names r names sep :
  Forall proper_name names → sep = [] ∨ sep = [slash] →
  skip_empty r = skip_empty (sep ++ names_path names) → as_path (Comps r true) = names_path names.
Proof.
  intros Hn Hsep Hr. unfold as_path, len_before_body. simpl. rewrite Hr, drop_0.
  replace (skip_empty (sep ++ names_path names)) with (names_path names).
  - destruct names as [|n names]; [done|]. unfold names_path.
    by rewrite skip_empty_names_rev, reverse_involutive.
  - symmetry. transitivity (skip_empty (names_path names)); [by destruct Hsep as [-> | ->]|].
    destruct names as [|n names]; [done|by apply skip_empty_names].
Qed.

(** The raw bytes of a path reached by file names. *)
Lemma join_all_raw base names :
  Forall proper_name names → names ≠ [] →
  join_all base names = base ++ sep_for base ++ names_path names.
Proof.
  intros Hn. revert base. induction Hn as [|n names Hn Hs IH]; intros base; [done|]. intros _.
  change (join_all base (n :: names)) with (join_all (join base n) names).
  rewrite join_name by done. destruct names as [|m names].
  - done.
  - rewrite IH by done. unfold names_path.
    change (join_with slash (n :: m :: names)) with (n ++ slash :: join_with slash (m :: names)).
    assert (sep_for (base ++ sep_for base ++ n) = [slash]) as ->; [|by simplify_list_eq].
    unfold sep_for at 1. rewrite !last_app. destruct Hn as (Hne & Hns & _).
    destruct (last n) as [c|] eqn:E; [|by apply last_None in E].
    rewrite decide_False; [done|]. intros ->. apply last_Some in E as [? ->]. set_solver.
Qed.

Lemma iter_after_started p base :
  has_root p = false → leads_with_dot p = false → base ≠ [] →
  iter_after (Comps p false) base = iter_after (Comps p true) base.
Proof. intros Hr Hd Hb. destruct base; [done|]. simpl. unfold next; simpl. by rewrite Hr, Hd. Qed.

Lemma body_components_lead p :
  has_root p = false → leads_with_dot p = false → body_components p = [] → p = [].
Proof.
  intros Hr Hd Hb. destruct (split_once slash p) as [[seg rest]|] eqn:E.
  - apply split_once_Some in E as [-> Hs].
    rewrite body_components_app, body_components_seg in Hb by done.
    destruct (parse_single seg) eqn:Hp; [done|]. by apply parse_single_None in Hp as [-> | ->].
  - apply split_once_None in E. rewrite body_components_seg in Hb by done.
    destruct (parse_single p) eqn:Hp; [done|]. by apply parse_single_None in Hp as [-> | ->].
Qed.

(** The bytes [t] that follow a directory path [b] in a path below it. *)
Definition child_tail (b t : bytes) : Prop := at_boundary b ∨ starts_boundary t.

Lemma child_tail_sep b t : child_tail b (sep_for b ++ t).
Proof.
  unfold child_tail, sep_for. destruct (last b) eqn:E.
  - case_decide; subst; [left; by right|right; by right].
  - apply last_None in E. left. by left.
Qed.

Lemma child_tail_cons c b t : b ≠ [] → child_tail (c :: b) t → child_tail b t.
Proof.
  intros Hb [[?|H]|H]; [done| |by right]. left. right. by destruct b.
Qed.

(** Stripping the prefix [base] from [base ++ t]. *)
Lemma iter_after_app base t :
  base ≠ [] → child_tail base t →
  ∃ r, iter_after (Comps (base ++ t) false) (components base) = Some (Comps r true) ∧
       skip_empty r = skip_empty t.
Proof.
  intros Hne Ht. destruct base as [|c base]; [done|]. unfold components.
  assert (Htl : c = slash ∨ leads_with_dot (c :: base) = true → child_tail base t).
  { intros Hc. destruct base as [|d base]; [left; by left|by eapply child_tail_cons]. }
  destruct (has_root (c :: base)) eqn:Hr; [|destruct (leads_with_dot (c :: base)) eqn:Hd].
  - simpl. unfold next; simpl. simpl in Hr. rewrite Hr. simpl.
    apply bool_decide_eq_true in Hr. apply iter_after_body, Htl. by left.
  - assert (leads_with_dot (c :: base ++ t) = true) as Hd'.
    { destruct base as [|d base]; [|done]. simpl in Hd. apply bool_decide_eq_true in Hd as ->.
      destruct Ht as [[?|Ht]|[-> |Ht]]; [done..|]. destruct t; [done|]. by injection Ht as ->. }
    simpl. unfold next; simpl. simpl in Hr. rewrite Hr.
    change (c :: base ++ t) with ((c :: base) ++ t) in Hd'. simpl in Hd'. rewrite Hd'. simpl.
    apply iter_after_body, Htl. by right.
  - rewrite iter_after_started.
    + by apply iter_after_body.
    + done.
    + destruct base as [|d base]; [|done]. simpl in *. apply bool_decide_eq_false in Hd.
      destruct t; [by apply bool_decide_eq_false|]. by rewrite bool_decide_eq_false_2.
    + intros Hb. by apply body_components_lead in Hb.
Qed.

(** [strip_prefix] undoes a sequence of joins. *)
Lemma path_strip_prefix_join_all base names :
  Forall proper_name names →
  path_strip_prefix (join_all base names) base = Some (names_path names).
Proof.
  intros Hn. unfold path_strip_prefix. destruct (decide (base = [])) as [-> |Hb].
  - simpl. destruct names as [|n names]; [done|]. rewrite join_all_raw by done.
    change ([] ++ sep_for [] ++ names_path (n :: names)) with (names_path (n :: names)).
    simpl. f_equal. unfold as_path, len_before_body. simpl.
    assert (has_root (names_path (n :: names)) = false ∧ leads_with_dot (names_path (n :: names)) = false)
      as [-> ->].
    { apply Forall_cons in Hn as [Hn _]. unfold names_path. destruct names as [|m names].
      - split; [by apply proper_name_no_root|by apply proper_name_no_dot'].
      - split; [|by apply proper_name_no_dot]. pose proof (proper_name_no_root n Hn) as Hr.
        destruct n; [by destruct Hn|done]. }
    rewrite drop_0. simpl. unfold names_path. by rewrite skip_empty_names_rev, reverse_involutive.
  - assert (∃ sep, (sep = [] ∨ sep = [slash]) ∧ child_tail base (sep ++ names_path names) ∧
      join_all base names = base ++ sep ++ names_path names) as (sep & Hsep & Ht & ->).
    { destruct names as [|n names].
      - exists []. split_and!; [by left|right; by left|]. unfold join_all. simpl. by rewrite app_nil_r.
      - exists (sep_for base). split_and!; [|apply child_tail_sep|by apply join_all_raw].
        unfold sep_for. destruct (last base); [|by left]. case_decide; [by left|by right]. }
    destruct (iter_after_app base _ Hb Ht) as (r & -> & Hr). simpl. f_equal.
    by eapply as_path_names.
Qed.
