(* ===== verification/Sys.v ===== *)
(** The world outside the sources: the system calls, third-party calls and
    clock readings the program issues, as an interface.  A piece of effectful
    code is a program tree over these calls; what the kernel answers is never
    assumed, a theorem holds for every answer unless it says otherwise.
    [runs] relates a program to its possible call traces and results, [exec]
    runs it against a concrete world. *)

From S2P Require Import Prelude RustStr RustPath.
From Stdlib Require Import Logic.Eqdep_dec.

Open Scope Z_scope.

(** ** Data exchanged with the system *)

(** The fields of [libc::stat] the sources read. *)
Record stat : Type := Stat {
  st_mode : Z; st_size : Z; st_blocks : Z; st_nlink : Z;
  st_uid : Z; st_gid : Z; st_rdev : Z; st_blksize : Z;
  st_atime : Z; st_atime_nsec : Z; st_mtime : Z; st_mtime_nsec : Z;
  st_ctime : Z; st_ctime_nsec : Z;
}.

(** [std::io::Error]: from an errno, or built by the library itself. *)
Inductive io_error : Type :=
| OsError (errno : Z)
| OtherError (msg : str).

Definition raw_os_error (e : io_error) : option Z :=
  match e with OsError n => Some n | OtherError _ => None end.

Abbreviation io_result A := (result A io_error).

(** [std::fs::FileType], as far as the sources ask. *)
Inductive ftype : Type := FtDir | FtSymlink | FtFile | FtOther.

(** [std::fs::DirEntry]: its name, and what [file_type()] returns. *)
Record dirent : Type := Dirent { d_name : bytes; d_type : io_result ftype }.

(** errno values (Linux). *)
Definition ENOENT : Z := 2.
Definition EIO : Z := 5.
Definition EBADF : Z := 9.
Definition EINVAL : Z := 22.
Definition ENODATA : Z := 61.
Definition EOPNOTSUPP : Z := 95.

(** ** Calls and their answers *)

Inductive call : Type :=
| Lstat (p : bytes)
| Open (p : bytes) (flags mode : Z)
| Close (fd : Z)
| Pread (fd size off : Z)
| Pwrite (fd : Z) (data : bytes) (off : Z)
| Chmod (p : bytes) (mode : Z)
| Truncate (p : bytes) (len : Z)
| Mkdir (p : bytes) (mode : Z)
| Unlink (p : bytes)
| Rmdir (p : bytes)
| ReadDir (p : bytes)
| SymlinkMetadata (p : bytes)
| ReadFile (p : bytes)
| XattrGet (p : bytes) (key : str)
| XattrSet (p : bytes) (key : str) (value : bytes)
| UtcNow
| SystemNow
| LogWarn (p : bytes) (session : str) (e : io_error)
| IsDir (p : bytes)
| Mount (p : bytes)
| Println (line : str)
| Eprintln (line : str).

(** A libc call answers its return value and the errno it left; the others
    answer what the Rust call returns. *)
Definition resp (c : call) : Type :=
  match c with
  | Lstat _ => Z * Z * stat
  | Open _ _ _ | Pwrite _ _ _ | Chmod _ _ | Truncate _ _ | Mkdir _ _ | Unlink _ | Rmdir _ => Z * Z
  | Close _ => Z
  | Pread _ _ _ => Z * Z * bytes
  | ReadDir _ => io_result (list (io_result dirent))
  | SymlinkMetadata _ | XattrSet _ _ _ | Mount _ => io_result unit
  | ReadFile _ => io_result bytes
  | XattrGet _ _ => io_result (option bytes)
  | UtcNow => str
  | SystemNow => result Z unit
  | IsDir _ => bool
  | LogWarn _ _ _ | Println _ | Eprintln _ => unit
  end.

Record event : Type := Ev { ev_call : call; ev_resp : resp ev_call }.
Abbreviation trace := (list event).

#[export] Instance io_error_eq_dec : EqDecision io_error.
Proof. solve_decision. Defined.
#[export] Instance call_eq_dec : EqDecision call.
Proof. solve_decision. Defined.

(** ** Programs *)

Inductive prog (A : Type) : Type :=
| Ret (a : A)
| Call (c : call) (k : resp c → prog A).
Arguments Ret {A} a.
Arguments Call {A} c k.

Fixpoint prog_bind {A B} (p : prog A) (f : A → prog B) : prog B :=
  match p with
  | Ret a => f a
  | Call c k => Call c (λ r, prog_bind (k r) f)
  end.

#[export] Instance prog_mret : MRet prog := λ A, @Ret A.
#[export] Instance prog_mbind : MBind prog := λ A B f p, prog_bind p f.
#[export] Instance prog_fmap : FMap prog := λ A B f p, prog_bind p (λ a, Ret (f a)).

(** Issue a call and return its answer. *)
Definition sys (c : call) : prog (resp c) := Call c Ret.

(** Rust's [?] inside a function returning a [Result]. *)
Definition try_bind {A B E} (p : prog (result A E)) (f : A → prog (result B E)) : prog (result B E) :=
  r ← p; match r with Ok a => f a | Err e => Ret (Err e) end.

Notation "x ←? p ; q" := (try_bind p (λ x, q))
  (at level 20, p at level 100, q at level 200, right associativity) : stdpp_scope.

(** ** Runs: the traces a program can have *)

Fixpoint runs {A} (p : prog A) (tr : trace) (a : A) : Prop :=
  match p with
  | Ret a' => tr = [] ∧ a = a'
  | Call c k => ∃ r tr', tr = Ev c r :: tr' ∧ runs (k r) tr' a
  end.

(** Run against a concrete world. *)
Section Exec.
Context {W : Type} (step : ∀ c : call, W → resp c * W).

Fixpoint exec {A} (p : prog A) (w : W) : trace * A * W :=
  match p with
  | Ret a => ([], a, w)
  | Call c k =>
      let '(r, w') := step c w in
      let '(tr, a, w'') := exec (k r) w' in
      (Ev c r :: tr, a, w'')
  end.

Definition exec_res {A} (p : prog A) (w : W) : A := (exec p w).1.2.
Definition exec_trace {A} (p : prog A) (w : W) : trace := (exec p w).1.1.
Definition exec_world {A} (p : prog A) (w : W) : W := (exec p w).2.

Lemma exec_runs {A} (p : prog A) (w : W) : runs p (exec_trace p w) (exec_res p w).
Proof.
  unfold exec_trace, exec_res. revert w. induction p as [a|c k IH]; intros w; simpl; [done|].
  destruct (step c w) as [r w'] eqn:E. specialize (IH r w').
  destruct (exec (k r) w') as [[tr a] w'']. simpl in *. by exists r, tr.
Qed.

Lemma exec_bind {A B} (p : prog A) (f : A → prog B) (w : W) :
  exec (p ≫= f) w =
    (exec_trace p w ++ exec_trace (f (exec_res p w)) (exec_world p w),
     exec_res (f (exec_res p w)) (exec_world p w),
     exec_world (f (exec_res p w)) (exec_world p w)).
Proof.
  unfold exec_trace, exec_res, exec_world, mbind, prog_mbind.
  revert w. induction p as [a|c k IH]; intros w; simpl; [by destruct (exec (f a) w) as [[??]?]|].
  destruct (step c w) as [r w'] eqn:E. rewrite IH.
  by destruct (exec (k r) w') as [[tr a] w''].
Qed.

Lemma exec_res_bind {A B} (p : prog A) (f : A → prog B) (w : W) :
  exec_res (p ≫= f) w = exec_res (f (exec_res p w)) (exec_world p w).
Proof. unfold exec_res at 1. by rewrite exec_bind. Qed.

Lemma exec_world_bind {A B} (p : prog A) (f : A → prog B) (w : W) :
  exec_world (p ≫= f) w = exec_world (f (exec_res p w)) (exec_world p w).
Proof. unfold exec_world at 1. by rewrite exec_bind. Qed.

Lemma exec_res_sys (c : call) (w : W) : exec_res (sys c) w = (step c w).1.
Proof. unfold exec_res. simpl. by destruct (step c w). Qed.

Lemma exec_world_sys (c : call) (w : W) : exec_world (sys c) w = (step c w).2.
Proof. unfold exec_world. simpl. by destruct (step c w). Qed.
End Exec.

(** ** Reasoning about runs *)

Lemma Ev_inj c (r r' : resp c) : Ev c r = Ev c r' → r = r'.
Proof.
  intros H. injection H as H. by apply Eqdep_dec.inj_pair2_eq_dec in H; [|apply call_eq_dec].
Qed.

Lemma runs_ret {A} (a b : A) tr : runs (mret a) tr b ↔ tr = [] ∧ b = a.
Proof. done. Qed.

Lemma runs_bind {A B} (p : prog A) (f : A → prog B) tr b :
  runs (p ≫= f) tr b ↔ ∃ tr1 a tr2, tr = tr1 ++ tr2 ∧ runs p tr1 a ∧ runs (f a) tr2 b.
Proof.
  unfold mbind, prog_mbind. revert tr. induction p as [a|c k IH]; intros tr; simpl.
  - split; [intros H; by exists [], a, tr|]. by intros (?&?&?&->&[-> ->]&?).
  - split.
    + intros (r & tr' & -> & H). apply IH in H as (tr1 & a & tr2 & -> & H1 & H2).
      exists (Ev c r :: tr1), a, tr2. split; [done|]. split; [|done]. by exists r, tr1.
    + intros (tr1 & a & tr2 & -> & (r & tr' & -> & H1) & H2).
      exists r, (tr' ++ tr2). split; [done|]. apply IH. by exists tr', a, tr2.
Qed.

Lemma runs_sys c tr r : runs (sys c) tr r ↔ tr = [Ev c r].
Proof.
  simpl. split; [by intros (r' & tr' & -> & -> & ->)|]. intros ->. by exists r, [].
Qed.

Lemma runs_try {A B E} (p : prog (result A E)) (f : A → prog (result B E)) tr b :
  runs (try_bind p f) tr b ↔
    (∃ e, b = Err e ∧ runs p tr (Err e)) ∨
    (∃ tr1 a tr2, tr = tr1 ++ tr2 ∧ runs p tr1 (Ok a) ∧ runs (f a) tr2 b).
Proof.
  unfold try_bind. rewrite runs_bind. split.
  - intros (tr1 & [a|e] & tr2 & -> & H1 & H2); [right; eauto 10|].
    destruct H2 as [-> ->]. left. exists e. by rewrite app_nil_r.
  - intros [(e & -> & H)|(tr1 & a & tr2 & -> & H1 & H2)].
    + exists tr, (Err e), []. by rewrite app_nil_r.
    + by exists tr1, (Ok a), tr2.
Qed.

(** ** Programs with the same runs *)

Definition prog_equiv {A} (p q : prog A) : Prop := ∀ tr a, runs p tr a ↔ runs q tr a.

#[export] Instance prog_equiv_equivalence A : Equivalence (@prog_equiv A).
Proof.
  split; unfold prog_equiv; [done|by intros p q H tr a; rewrite H|].
  intros p q r H1 H2 tr a. by rewrite H1, H2.
Qed.

#[export] Instance runs_proper A :
  Proper (prog_equiv ==> eq ==> eq ==> iff) (@runs A).
Proof. by intros p q H tr ? <- a ? <-. Qed.

#[export] Instance try_bind_proper A B E :
  Proper (prog_equiv ==> pointwise_relation A prog_equiv ==> prog_equiv) (@try_bind A B E).
Proof.
  intros p q Hpq f g Hfg tr b. rewrite !runs_try.
  setoid_rewrite Hpq. setoid_rewrite (λ a, Hfg a _ b). done.
Qed.

Lemma try_bind_assoc {A B C E} (p : prog (result A E)) (f : A → prog (result B E))
    (g : B → prog (result C E)) :
  prog_equiv (try_bind (try_bind p f) g) (try_bind p (λ x, try_bind (f x) g)).
Proof.
  intros tr c. rewrite !runs_try. setoid_rewrite runs_try. split.
  - intros [(e & -> & [(e' & [= <-] & H)|(tr1 & a & tr2 & -> & H1 & H2)])
           |(tr1 & b & tr2 & -> & [(e' & ? & H)|(tr3 & a & tr4 & -> & H1 & H2)] & H3)].
    + left. eauto.
    + right. exists tr1, a, tr2. split; [done|]. split; [done|]. left. eauto.
    + done.
    + right. exists tr3, a, (tr4 ++ tr2). rewrite app_assoc. split; [done|]. split; [done|].
      right. eauto 10.
  - intros [(e & -> & H)|(tr1 & a & tr2 & -> & H1 & [(e & -> & H2)|(tr3 & b & tr4 & -> & H2 & H3)])].
    + left. exists e. split; [done|]. left. eauto.
    + left. exists e. split; [done|]. right. eauto 10.
    + right. exists (tr1 ++ tr3), b, tr4. rewrite app_assoc. split; [done|]. split; [|done].
      right. eauto 10.
Qed.

Lemma try_bind_ok {A B E} (a : A) (f : A → prog (result B E)) :
  prog_equiv (try_bind (mret (Ok a)) f) (f a).
Proof. done. Qed.

Lemma runs_call {A} c (k : resp c → prog A) r tr a :
  runs (Call c k) (Ev c r :: tr) a ↔ runs (k r) tr a.
Proof.
  simpl. split; [|intros H; by exists r, tr].
  intros (r' & tr' & Heq & H). apply (inj2 cons) in Heq as [->%Ev_inj ->]. done.
Qed.

(** Programs with the same runs execute alike in every world. *)
Lemma exec_equiv {W A} (step : ∀ c : call, W → resp c * W) (p q : prog A) w :
  prog_equiv p q → exec step p w = exec step q w.
Proof.
  revert q w. induction p as [a|c k IH]; intros q w Hpq.
  - destruct q as [b|c' k']; [|by destruct (proj1 (Hpq [] a) (conj eq_refl eq_refl)) as (?&?&?&_)].
    by destruct (proj1 (Hpq [] a) (conj eq_refl eq_refl)) as [_ ->].
  - pose proof (proj1 (Hpq _ _) (exec_runs step (Call c k) w)) as Hq.
    unfold exec_trace, exec_res in Hq. simpl in Hq. destruct (step c w) as [r w'] eqn:E.
    pose proof (IH r) as IHr. destruct (exec step (k r) w') as [[tr a] w''] eqn:Ek. simpl in Hq.
    destruct q as [b|c' k']; [by destruct Hq|].
    assert (c = c') as <- by (destruct Hq as (?&?&Heq&_); by injection Heq).
    simpl. rewrite E, Ek. rewrite <-(IHr (k' r) w').
    + by rewrite Ek.
    + intros tr' b. rewrite <-!(runs_call c). apply Hpq.
Qed.

Lemma exec_res_try {W A B E} (step : ∀ c : call, W → resp c * W)
    (p : prog (result A E)) (f : A → prog (result B E)) w :
  exec_res step (try_bind p f) w =
    match exec_res step p w with
    | Ok a => exec_res step (f a) (exec_world step p w)
    | Err e => Err e
    end ∧
  exec_world step (try_bind p f) w =
    match exec_res step p w with
    | Ok a => exec_world step (f a) (exec_world step p w)
    | Err e => exec_world step p w
    end.
Proof.
  unfold try_bind. rewrite exec_res_bind, exec_world_bind. by destruct (exec_res step p w).
Qed.

(** Breaks the [runs] hypotheses of the context into the pieces of their
    traces. *)
Ltac runs_step :=
  match goal with
  | H : runs (mret _) _ _ |- _ => apply runs_ret in H as [? ?]; subst
  | H : runs (Ret _) _ _ |- _ => destruct H as [? ?]; subst
  | H : runs (sys _) _ _ |- _ => apply runs_sys in H; subst
  | H : runs (_ ≫= _) _ _ |- _ => apply runs_bind in H as (? & ? & ? & -> & ? & ?)
  end.
Ltac runs_split := repeat (runs_step || (case_match; simplify_eq)).

(** ** Postconditions *)

(** Every run of [p] has a trace and a result in [Q]. *)
Definition ensures {A} (p : prog A) (Q : trace → A → Prop) : Prop := ∀ tr a, runs p tr a → Q tr a.

Section Ensures.
Context {A B : Type}.
Implicit Types (p : prog A) (f : A → prog B).

Lemma ensures_ret (a : A) (Q : trace → A → Prop) : Q [] a → ensures (mret a) Q.
Proof. by intros H tr b [-> ->]. Qed.

Lemma ensures_sys c (Q : trace → resp c → Prop) : (∀ r, Q [Ev c r] r) → ensures (sys c) Q.
Proof. intros H tr r ->%runs_sys. apply H. Qed.

Lemma ensures_bind p f (P : trace → A → Prop) (Q : trace → B → Prop) :
  ensures p P → (∀ tr a, P tr a → ensures (f a) (λ tr' b, Q (tr ++ tr') b)) → ensures (p ≫= f) Q.
Proof.
  intros Hp Hf tr b (tr1 & a & tr2 & -> & H1 & H2)%runs_bind.
  by apply (Hf tr1 a (Hp _ _ H1) tr2 b).
Qed.

Lemma ensures_mono p (P Q : trace → A → Prop) :
  ensures p P → (∀ tr a, P tr a → Q tr a) → ensures p Q.
Proof. intros Hp HPQ tr a Hr. by apply HPQ, Hp. Qed.
End Ensures.

Lemma ensures_sys_bind {B} c (f : resp c → prog B) (Q : trace → B → Prop) :
  (∀ r, ensures (f r) (λ tr b, Q (Ev c r :: tr) b)) → ensures (sys c ≫= f) Q.
Proof.
  intros H. eapply (ensures_bind _ _ (λ tr r, tr = [Ev c r])); [by apply ensures_sys|].
  intros tr r ->. apply H.
Qed.

Lemma ensures_ret_bind {A B} (a : A) (f : A → prog B) (Q : trace → B → Prop) :
  ensures (f a) Q → ensures (mret a ≫= f) Q.
Proof. done. Qed.

Lemma ensures_assoc {A B C} (p : prog A) (f : A → prog B) (g : B → prog C) (Q : trace → C → Prop) :
  ensures (p ≫= λ a, f a ≫= g) Q → ensures ((p ≫= f) ≫= g) Q.
Proof.
  intros H tr c (t12 & b & t3 & -> & (t1 & a & t2 & -> & H1 & H2)%runs_bind & H3)%runs_bind.
  apply H, runs_bind. exists t1, a, (t2 ++ t3). rewrite <-app_assoc.
  split; [done|]. split; [done|]. apply runs_bind. by exists t2, b, t3.
Qed.

(** ** Which calls a program makes *)

(** Every call of every run satisfies [P]. *)
Definition calls_only {A} (P : call → Prop) (p : prog A) : Prop :=
  ∀ tr a, runs p tr a → Forall (λ e, P (ev_call e)) tr.

Section CallsOnly.
Context (P : call → Prop).

Lemma calls_only_ret {A} (a : A) : calls_only P (mret a).
Proof. intros tr b [-> _]. constructor. Qed.

Lemma calls_only_sys c : P c → calls_only P (sys c).
Proof. intros Hc tr r ->%runs_sys. by repeat constructor. Qed.

Lemma calls_only_bind {A B} (p : prog A) (f : A → prog B) :
  calls_only P p → (∀ a, calls_only P (f a)) → calls_only P (p ≫= f).
Proof.
  intros Hp Hf tr b (tr1 & a & tr2 & -> & H1 & H2)%runs_bind.
  apply Forall_app. split; [by eapply Hp|by eapply Hf].
Qed.

Lemma calls_only_try {A B E} (p : prog (result A E)) (f : A → prog (result B E)) :
  calls_only P p → (∀ a, calls_only P (f a)) → calls_only P (try_bind p f).
Proof.
  intros Hp Hf. apply calls_only_bind; [done|]. intros [a|e]; [done|apply calls_only_ret].
Qed.
End CallsOnly.

Lemma calls_only_impl {A} (P Q : call → Prop) (p : prog A) :
  (∀ c, P c → Q c) → calls_only P p → calls_only Q p.
Proof. intros HPQ Hp tr a Hr. eapply Forall_impl; [by eapply Hp|]. intros e. apply HPQ. Qed.

(** What the calls keep, the program keeps. *)
Lemma calls_only_world {W A} (step : ∀ c : call, W → resp c * W) (P : call → Prop) (Q : W → Prop)
    (p : prog A) w :
  (∀ c w, P c → Q w → Q (step c w).2) → calls_only P p → Q w → Q (exec_world step p w).
Proof.
  intros HQ. revert w. induction p as [a|c k IH]; intros w Hp Hw; [done|].
  assert (P c) as Hc.
  { pose proof (Hp _ _ (exec_runs step (Call c k) w)) as Hall. unfold exec_trace in Hall.
    simpl in Hall. destruct (step c w) as [r w']. destruct (exec step (k r) w') as [[tr a] w''].
    by apply Forall_cons in Hall as [? _]. }
  assert (∀ r, calls_only P (k r)) as Hk.
  { intros r tr a Hr. specialize (Hp (Ev c r :: tr) a). rewrite runs_call in Hp.
    by apply Hp, Forall_cons in Hr as [_ ?]. }
  specialize (HQ c w Hc Hw). unfold exec_world in *. simpl. destruct (step c w) as [r w'].
  specialize (IH r w' (Hk r) HQ). by destruct (exec step (k r) w') as [[tr a] w''].
Qed.

#[export] Hint Resolve calls_only_ret calls_only_sys calls_only_bind calls_only_try : provfs.

(** Goes through a program's calls; leaves the side conditions. *)
Ltac calls :=
  repeat first
    [ apply calls_only_ret
    | match goal with |- calls_only ?P (sys ?c) => apply (calls_only_sys P c) end
    | apply calls_only_try; [|intros ?]
    | apply calls_only_bind; [|intros ?]
    | case_match ].

Close Scope Z_scope.
