(* ===== verification/History.v ===== *)
(** The MRU ring of [user.prov.history] ([src/history.rs]): a CSV of session
    ids, most recent first, at most five of them. *)

From S2P Require Import Prelude RustStr.

Definition comma : char := 44%N.

(** ** Definitions *)

Definition MAX_HISTORY : nat := 5.

(** The loop of [push_history]: empty segments and the pushed session itself
    are skipped, and the loop breaks once the ring is full. *)
Fixpoint push_loop (session : str) (out : list str) (segs : list str) : list str :=
  match segs with
  | [] => out
  | seg :: segs' =>
      let s := trim seg in
      if decide (s = [] ∨ s = session) then push_loop session out segs'
      else if decide (length out = MAX_HISTORY) then out
      else push_loop session (out ++ [s]) segs'
  end.

Definition push_history (prior session : str) : str :=
  join_with comma (push_loop session [session] (split_on comma prior)).

(** ** Specification *)

(** The entries of a CSV, as a reader sees them. *)
Definition entries (raw : str) : list str :=
  filter (λ s, s ≠ []) (trim <$> split_on comma raw).

(** A session id that survives the CSV: not empty, no comma, nothing to trim. *)
Definition clean (s : str) : Prop := s ≠ [] ∧ (comma ∉ s) ∧ trimmed s.

#[export] Instance clean_dec s : Decision (clean s).
Proof. unfold clean. apply _. Defined.

(** Moving an element to the front of a bounded most-recently-used list. *)
Definition mru_push (s : str) (l : list str) : list str :=
  take MAX_HISTORY (s :: filter (λ x, x ≠ s) l).

(** First occurrences only. *)
Fixpoint nub (l : list str) : list str :=
  match l with
  | [] => []
  | x :: l' => x :: filter (λ y, y ≠ x) (nub l')
  end.

(** ** Lemmas *)

Lemma push_loop_spec session out segs :
  length out ≤ MAX_HISTORY →
  push_loop session out segs =
    out ++ take (MAX_HISTORY - length out)
             (filter (λ s, s ≠ session) (filter (λ s, s ≠ []) (trim <$> segs))).
Proof.
  revert out. induction segs as [|seg segs IH]; intros out Hlen; csimpl.
  { by rewrite !filter_nil, take_nil, app_nil_r. }
  rewrite filter_cons. destruct (decide (trim seg = [] ∨ trim seg = session)) as [Hs|Hs].
  - rewrite IH by done. f_equal. destruct (decide (trim seg ≠ [])) as [Hn|Hn]; [|done].
    destruct Hs as [?|Hs]; [done|].
    rewrite filter_cons, decide_False by (by intros H). done.
  - rewrite (decide_True (P:=trim seg ≠ [])) by tauto.
    rewrite filter_cons, (decide_True (P:=trim seg ≠ session)) by tauto.
    case_decide as Hfull.
    + rewrite Hfull, Nat.sub_diag. by rewrite app_nil_r.
    + rewrite IH by (rewrite length_app; simpl; lia). rewrite <-app_assoc. simpl. f_equal.
      rewrite length_app. simpl.
      replace (MAX_HISTORY - length out) with (S (MAX_HISTORY - (length out + 1))) by lia. done.
Qed.

Lemma push_history_ring prior session :
  push_history prior session = join_with comma (mru_push session (entries prior)).
Proof. unfold push_history. by rewrite push_loop_spec by (simpl; unfold MAX_HISTORY; lia). Qed.

Lemma entries_clean raw : Forall clean (entries raw).
Proof.
  unfold entries. apply Forall_forall. intros s.
  rewrite list_elem_of_filter, list_elem_of_fmap. intros (Hne & seg & -> & Hseg).
  split; [done|]. split; [|apply trim_by_trimmed].
  intros Hc%elem_of_trim_by.
  by apply (proj1 (Forall_forall _ _) (split_on_no_sep_pieces comma raw) seg Hseg).
Qed.

Lemma entries_join ls : Forall clean ls → entries (join_with comma ls) = ls.
Proof.
  intros Hls. destruct ls as [|l ls]; [done|]. unfold entries.
  rewrite split_on_join; [|done|]; [|by eapply Forall_impl; [apply Hls|intros ? (?&?&?)]].
  remember (l :: ls) as xs. clear -Hls. induction Hls as [|x xs (Hne & Hc & Ht) _ IH]; [done|].
  csimpl. assert (trim x = x) as -> by (by apply trim_by_id). rewrite filter_cons, decide_True by done.
  by rewrite IH.
Qed.

Lemma mru_push_clean s l : clean s → Forall clean l → Forall clean (mru_push s l).
Proof.
  intros Hs Hl. apply Forall_take. constructor; [done|]. apply Forall_forall.
  intros x [_ Hx]%list_elem_of_filter. by apply (proj1 (Forall_forall _ _) Hl).
Qed.

Lemma mru_push_length s l : length (mru_push s l) ≤ MAX_HISTORY.
Proof. unfold mru_push. rewrite length_take. lia. Qed.

Lemma mru_push_NoDup s l : NoDup l → NoDup (mru_push s l).
Proof.
  intros Hl. unfold mru_push.
  assert (NoDup (s :: filter (λ x, x ≠ s) l)) as Hnd.
  { constructor; [|by apply NoDup_filter]. rewrite list_elem_of_filter. tauto. }
  rewrite <-(take_drop MAX_HISTORY) in Hnd. by apply NoDup_app in Hnd as [? _].
Qed.

Lemma entries_push prior s :
  clean s → entries (push_history prior s) = mru_push s (entries prior).
Proof.
  intros Hs. rewrite push_history_ring. apply entries_join, mru_push_clean; [done|].
  apply entries_clean.
Qed.

(** Only the first [n + 1] elements matter for the first [n] that differ from
    a given one. *)
Lemma take_filter_take (s : str) n l :
  NoDup l → take n (filter (λ x, x ≠ s) (take (S n) l)) = take n (filter (λ x, x ≠ s) l).
Proof.
  revert n. induction l as [|x l IH]; intros n Hl; [done|].
  apply NoDup_cons in Hl as [Hx Hl].
  change (take (S n) (x :: l)) with (x :: take n l). rewrite !filter_cons.
  destruct (decide (x = s)) as [-> |Hs].
  - rewrite !(decide_False (P:=s ≠ s)) by tauto.
    assert (Forall (λ x, x ≠ s) l) as Hl' by (apply Forall_forall; by intros y Hy ->).
    rewrite !filter_all by (try apply Forall_take; done).
    by rewrite take_take, Nat.min_id.
  - rewrite !(decide_True (P:=x ≠ s)) by done.
    destruct n as [|n]; [done|]. rewrite !firstn_cons. f_equal. by apply IH.
Qed.

Lemma nub_NoDup l : NoDup (nub l).
Proof.
  induction l as [|x l IH]; simpl; [constructor|]. constructor; [|by apply NoDup_filter].
  rewrite list_elem_of_filter. tauto.
Qed.

Lemma mru_push_nub s l : mru_push s (take MAX_HISTORY (nub l)) = take MAX_HISTORY (nub (s :: l)).
Proof.
  unfold mru_push, MAX_HISTORY. simpl nub. rewrite !firstn_cons. f_equal.
  apply take_filter_take, nub_NoDup.
Qed.

(** Any sequence of pushes on a fresh ring. *)
Lemma entries_fold_push ss :
  Forall clean ss → entries (foldl push_history [] ss) = take MAX_HISTORY (nub (reverse ss)).
Proof.
  intros Hss. induction ss as [|s ss IH] using rev_ind; [done|].
  apply Forall_app in Hss as [Hss [Hs _]%Forall_cons].
  rewrite foldl_app, reverse_snoc. simpl foldl.
  rewrite entries_push, IH by done. apply mru_push_nub.
Qed.

(** Pushing keeps a string of scalar values one. *)
Lemma push_history_valid prior s : valid_str prior → valid_str s → valid_str (push_history prior s).
Proof.
  intros Hp Hs. rewrite push_history_ring. unfold valid_str in *. rewrite Forall_forall in *.
  intros c Hc. apply elem_of_join_with in Hc as [-> |(l & Hl & Hc)]; [done|].
  apply elem_of_take in Hl as (i & Hl & _). apply list_elem_of_lookup_2 in Hl.
  apply elem_of_cons in Hl as [-> |[_ Hl]%list_elem_of_filter]; [by apply Hs|].
  apply list_elem_of_filter in Hl as [_ (seg & -> & Hseg)%list_elem_of_fmap].
  apply Hp. eapply split_on_incl; [exact Hseg|]. by eapply elem_of_trim_by.
Qed.

Lemma push_fold_valid prior ss :
  valid_str prior → Forall valid_str ss → valid_str (foldl push_history prior ss).
Proof.
  intros Hp Hss. revert prior Hp. induction Hss as [|s ss Hs _ IH]; intros prior Hp; [done|].
  simpl. by apply IH, push_history_valid.
Qed.

#[export] Hint Resolve entries_clean : provfs.

(** ** Theorems *)

(** Pushing a clean session id makes a CSV whose entries are that id
    followed by the other prior entries, most recent first, cut at five. *)
Theorem push_history_mru (prior s : str) (Hs : clean s) :
  entries (push_history prior s) = mru_push s (entries prior) ∧
  head (entries (push_history prior s)) = Some s ∧
  length (entries (push_history prior s)) ≤ MAX_HISTORY ∧
  (NoDup (entries prior) → NoDup (entries (push_history prior s))).
Proof.
  rewrite entries_push by done. split_and!; [done..| |].
  - apply mru_push_length.
  - apply mru_push_NoDup.
Qed.

Lemma push_history_mru_witness :
  clean (lit "B") ∧ entries (push_history (lit "A, B,C") (lit "B")) = lit <$> ["B"; "A"; "C"]%string.
Proof.
  assert (clean (lit "B")) as Hs by (apply (bool_decide_eq_true_1 _); by vm_compute).
  split; [exact Hs|]. apply (push_history_mru (lit "A, B,C") (lit "B") Hs).
Defined.


(** C30: the ring refines its abstract specification: after any sequence of
    clean pushes on a fresh file its entries are the last five distinct
    sessions, most recent first. *)
Theorem history_refines_mru (ss : list str) (Hss : Forall clean ss) :
  entries (foldl push_history [] ss) = take MAX_HISTORY (nub (reverse ss)).
Proof. by apply entries_fold_push. Qed.

Lemma history_refines_mru_witness :
  entries (foldl push_history [] (lit <$> ["A"; "B"; "A"]%string)) = lit <$> ["A"; "B"]%string.
Proof.
  rewrite (history_refines_mru (lit <$> ["A"; "B"; "A"]%string)).
  - by vm_compute.
  - apply (bool_decide_eq_true_1 _). by vm_compute.
Defined.

(** A session id with a comma is not one the ring can hold: pushing it twice
    makes three entries. *)
Example comma_defeats_ring :
  entries (push_history (push_history [] (lit "a,b")) (lit "a,b")) = lit <$> ["a"; "b"; "a"; "b"]%string.
Proof. by vm_compute. Qed.

