(* ===== verification/Skip.v ===== *)
(** The skip list ([src/skip.rs]): which relative paths are not stamped. *)

From S2P Require Import Prelude RustStr RustPath History.
From Stdlib Require Import Strings.Byte.

(** ** Definitions *)

Definition DEFAULT_SKIP_PREFIXES : list str :=
  [ lit ".git/"; lit ".git/objects/"; lit "node_modules/"; lit "target/"; lit ".cache/";
    lit ".venv/"; lit "venv/"; lit "__pycache__/"; lit ".pytest_cache/"; lit ".mypy_cache/";
    lit ".ruff_cache/"; lit "dist/"; lit "build/" ].

Record SkipList : Type := { prefixes : list str }.

(** [SkipList::defaults]. *)
Definition defaults : SkipList := {| prefixes := DEFAULT_SKIP_PREFIXES |}.

(** [SkipList::from_user_spec]: the non-empty trimmed pieces are appended. *)
Fixpoint push_specs (ps : list str) (raws : list str) : list str :=
  match raws with
  | [] => ps
  | raw :: raws' =>
      let p := trim raw in
      if decide (p = []) then push_specs ps raws' else push_specs (ps ++ [p]) raws'
  end.

Definition from_user_spec (extra : str) : SkipList :=
  {| prefixes := push_specs (prefixes defaults) (split_on comma extra) |}.

(** [SkipList::empty]. *)
Definition empty_list : SkipList := {| prefixes := [] |}.

Definition slash_char : char := 47%N.

(** The loop of [SkipList::should_skip]. *)
Fixpoint skip_loop (s : str) (ps : list str) : bool :=
  match ps with
  | [] => false
  | prefix :: ps' =>
      if starts_with prefix s then true
      else
        let needle := slash_char :: prefix in
        if contains needle s then true else skip_loop s ps'
  end.

Definition should_skip (sl : SkipList) (rel : bytes) : bool :=
  skip_loop (from_utf8_lossy rel) (prefixes sl).

(** ** Lemmas *)

(** One prefix matches a path. *)
Definition prefix_matches (s prefix : str) : bool :=
  starts_with prefix s || contains (slash_char :: prefix) s.

Lemma skip_loop_existsb s ps : skip_loop s ps = existsb (prefix_matches s) ps.
Proof.
  induction ps as [|p ps IH]; simpl; [done|]. unfold prefix_matches at 1.
  rewrite IH. by destruct (starts_with p s), (contains _ s).
Qed.

Lemma should_skip_spec sl rel :
  should_skip sl rel = true ↔
  ∃ p, p ∈ prefixes sl ∧ prefix_matches (from_utf8_lossy rel) p = true.
Proof.
  unfold should_skip. rewrite skip_loop_existsb, existsb_exists.
  split; intros (p & Hp & ?); exists p; by rewrite list_elem_of_In in *.
Qed.

Lemma push_specs_spec ps raws :
  push_specs ps raws = ps ++ filter (λ p, p ≠ []) (trim <$> raws).
Proof.
  revert ps. induction raws as [|raw raws IH]; intros ps; csimpl.
  { by rewrite filter_nil, app_nil_r. }
  rewrite filter_cons. destruct (decide (trim raw = [])) as [H|H].
  - rewrite (decide_False (P:=trim raw ≠ [])) by tauto. apply IH.
  - rewrite (decide_True (P:=trim raw ≠ [])) by done. rewrite IH. by rewrite <-app_assoc.
Qed.

(** The user's prefixes. *)
Lemma from_user_spec_prefixes extra :
  prefixes (from_user_spec extra) = DEFAULT_SKIP_PREFIXES ++ entries extra.
Proof. apply push_specs_spec. Qed.

Lemma lossy_names names :
  Forall proper_name names → names ≠ [] →
  from_utf8_lossy (names_path names) = join_with slash_char (from_utf8_lossy <$> names).
Proof.
  intros Hn Hne. unfold names_path. induction Hn as [|n names Hn Hns IH]; [done|].
  destruct names as [|m names]; [done|]. rewrite join_with_cons by done.
  rewrite from_utf8_lossy_ascii by done.
  by rewrite IH.
Qed.

Lemma lossy_name_no_slash n : proper_name n → slash_char ∉ from_utf8_lossy n.
Proof.
  intros (_ & Hs & _) Hc. apply from_utf8_lossy_elem in Hc as (b & Hb & Hbc); [|done].
  apply Hs. by rewrite <-(byte_to_N_inj b slash).
Qed.

(** A prefix [d/] of one directory name matches a path of names exactly when
    a name other than the last is [d]. *)
Lemma prefix_matches_dir names d :
  Forall proper_name names → names ≠ [] → slash_char ∉ d →
  prefix_matches (from_utf8_lossy (names_path names)) (d ++ [slash_char]) = true ↔
  ∃ i n, names !! i = Some n ∧ from_utf8_lossy n = d ∧ S i < length names.
Proof.
  intros Hn Hne Hd. unfold prefix_matches. rewrite lossy_names by done.
  rewrite segment_not_last; [|by destruct names| |done].
  - setoid_rewrite list_lookup_fmap. rewrite length_fmap. split.
    + intros (i & Hi & ?). destruct (names !! i) as [n|] eqn:E; [|done].
      injection Hi as Hi. by exists i, n.
    + intros (i & n & Hi & <- & ?). exists i. by rewrite Hi.
  - apply Forall_fmap. eapply Forall_impl; [done|]. apply lossy_name_no_slash.
Qed.

(** The directory names the default prefixes stand for. *)
Definition default_dirs : list str :=
  [ lit ".git"; lit "node_modules"; lit "target"; lit ".cache"; lit ".venv"; lit "venv";
    lit "__pycache__"; lit ".pytest_cache"; lit ".mypy_cache"; lit ".ruff_cache";
    lit "dist"; lit "build" ].

(** [.git/objects/] adds nothing to [.git/]. *)
Lemma prefix_matches_app s p q : prefix_matches s (p ++ q) = true → prefix_matches s p = true.
Proof.
  unfold prefix_matches. rewrite !orb_true_iff, !starts_with_spec, !contains_spec.
  intros [[r ->]|(a & b & ->)].
  - left. exists (q ++ r). by rewrite app_assoc.
  - right. exists a, (q ++ b). by simplify_list_eq.
Qed.

Lemma default_prefixes_dirs p s :
  p ∈ DEFAULT_SKIP_PREFIXES → prefix_matches s p = true →
  ∃ d, d ∈ default_dirs ∧ prefix_matches s (d ++ [slash_char]) = true.
Proof.
  intros Hp Hm. destruct (decide (p = lit ".git/objects/")) as [-> |Hne].
  - exists (lit ".git"). split; [left|].
    by apply (prefix_matches_app s (lit ".git/") (lit "objects/")).
  - assert (p ∈ (λ d, d ++ [slash_char]) <$> default_dirs) as (d & -> & Hd)%list_elem_of_fmap;
      [|eauto].
    assert (Forall (λ p, p = lit ".git/objects/" ∨ p ∈ (λ d, d ++ [slash_char]) <$> default_dirs)
      DEFAULT_SKIP_PREFIXES) as Hall.
    { apply (bool_decide_eq_true_1 _). by vm_compute. }
    apply (proj1 (Forall_forall _ _) Hall) in Hp. tauto.
Qed.

(** ** Theorems *)

(** C31: which paths the default list skips, for the relative path of a file
    inside the mount: exactly those with a listed directory name strictly
    above the file; the listed directory itself, and a file that merely starts
    with its name, are stamped. *)
Theorem defaults_skip_below_listed_dirs (names : list bytes)
    (Hn : Forall proper_name names) (Hne : names ≠ []) :
  should_skip defaults (names_path names) = true ↔
  ∃ i n, names !! i = Some n ∧ from_utf8_lossy n ∈ default_dirs ∧ S i < length names.
Proof.
  assert (Forall (λ d, (slash_char ∉ d) ∧ d ++ [slash_char] ∈ DEFAULT_SKIP_PREFIXES) default_dirs)
    as Hdirs by (apply (bool_decide_eq_true_1 _); by vm_compute).
  pose proof (proj1 (Forall_forall _ _) Hdirs) as Hd. clear Hdirs.
  rewrite should_skip_spec. split.
  - intros (p & Hp & Hm). apply default_prefixes_dirs in Hm as (d & Hdd & Hm); [|done].
    apply prefix_matches_dir in Hm as (i & n & ? & <- & ?); [|done..|by apply Hd]. eauto.
  - intros (i & n & Hi & Hdd & Hl). exists (from_utf8_lossy n ++ [slash_char]).
    split; [by apply Hd|]. apply prefix_matches_dir; [done..|by apply Hd|eauto].
Qed.

Lemma defaults_skip_below_listed_dirs_witness :
  should_skip defaults (names_path [blit "target"; blit "a"]) = true ∧
  ¬ (should_skip defaults (names_path [blit "target"]) = true).
Proof.
  split.
  - apply (defaults_skip_below_listed_dirs [blit "target"; blit "a"]).
    + apply (bool_decide_eq_true_1 _). by vm_compute.
    + done.
    + exists 0, (blit "target"). split; [done|]. split; [|simpl; lia].
      apply (bool_decide_eq_true_1 _). by vm_compute.
  - rewrite (defaults_skip_below_listed_dirs [blit "target"]).
    + intros (i & n & _ & _ & Hi). simpl in Hi. lia.
    + apply (bool_decide_eq_true_1 _). by vm_compute.
    + done.
Defined.


(** A user spec only adds to the defaults: a path is skipped under it
    exactly when the defaults skip it or one of the non-empty, trimmed
    comma-separated pieces matches; the empty list skips nothing. *)
Theorem user_spec_extends_defaults (extra : str) (rel : bytes) :
  should_skip (from_user_spec extra) rel =
    should_skip defaults rel || existsb (prefix_matches (from_utf8_lossy rel)) (entries extra)
  ∧ should_skip empty_list rel = false.
Proof.
  split; [|done]. unfold should_skip. rewrite from_user_spec_prefixes.
  by rewrite !skip_loop_existsb, existsb_app.
Qed.
