(* ===== verification/Duration.v ===== *)
(** The durations of [prov find --since] ([src/duration.rs]): a decimal
    magnitude and one unit letter. *)

From S2P Require Import Prelude RustStr.

Open Scope Z_scope.

(** ** Definitions *)

(** The error strings, by their format string and its arguments. *)
Inductive DurationError : Type :=
| EmptyDuration
| MissingUnit (s : str)
| MissingMagnitude (s : str)
| InvalidMagnitude (s : str)
| UnknownUnit (s unit : str).

#[export] Instance DurationError_eq_dec : EqDecision DurationError.
Proof. solve_decision. Defined.

(** The messages; [debug] is the [{:?}] rendering of a string. *)
Definition duration_message (debug : str → str) (e : DurationError) : str :=
  match e with
  | EmptyDuration => lit "empty duration"
  | MissingUnit s => lit "duration " ++ debug s ++ lit " is missing a unit suffix (s/m/h/d)"
  | MissingMagnitude s => lit "duration " ++ debug s ++ lit " is missing a numeric magnitude"
  | InvalidMagnitude s => lit "duration " ++ debug s ++ lit " has an invalid magnitude"
  | UnknownUnit s u =>
      lit "duration " ++ debug s ++ lit " has unknown unit " ++ debug u
      ++ lit " (expected s/m/h/d)"
  end.

(** [parse_duration], in whole seconds; [None] is the panic of [split_at]. *)
Definition parse_duration (s : str) : option (result Z DurationError) :=
  let s := trim s in
  if decide (s = []) then Some (Err EmptyDuration)
  else
    match fst <$> List.find (λ ic, negb (is_ascii_digit (snd ic))) (char_indices s) with
    | None => Some (Err (MissingUnit s))
    | Some at_ =>
        match split_at at_ s with
        | None => None
        | Some (magnitude, unit) =>
            if decide (magnitude = []) then Some (Err (MissingMagnitude s))
            else
              match parse_u64 magnitude with
              | None => Some (Err (InvalidMagnitude s))
              | Some n =>
                  if decide (unit = lit "s") then Some (Ok n)
                  else if decide (unit = lit "m") then Some (Ok (sat_mul_u64 n 60))
                  else if decide (unit = lit "h") then Some (Ok (sat_mul_u64 n 3600))
                  else if decide (unit = lit "d") then Some (Ok (sat_mul_u64 n 86400))
                  else Some (Err (UnknownUnit s unit))
              end
        end
    end.

(** ** Specification *)

(** Seconds per unit. *)
Definition unit_secs (u : str) : option Z :=
  if decide (u = lit "s") then Some 1
  else if decide (u = lit "m") then Some 60
  else if decide (u = lit "h") then Some 3600
  else if decide (u = lit "d") then Some 86400
  else None.

Fixpoint span_digits (s : str) : str * str :=
  match s with
  | [] => ([], [])
  | c :: s' => if is_ascii_digit c then let '(a, b) := span_digits s' in (c :: a, b) else ([], s)
  end.

(** What a trimmed string denotes: the longest digit prefix is the magnitude,
    the rest the unit; the product saturates at the largest [u64]. *)
Definition duration_spec (t : str) : result Z DurationError :=
  let '(ds, u) := span_digits t in
  if decide (t = []) then Err EmptyDuration
  else if decide (u = []) then Err (MissingUnit t)
  else if decide (ds = []) then Err (MissingMagnitude t)
  else if u64_max <? digits_value 0 ds then Err (InvalidMagnitude t)
  else match unit_secs u with
       | Some k => Ok (Z.min (digits_value 0 ds * k) u64_max)
       | None => Err (UnknownUnit t u)
       end.

(** ** Lemmas *)

Lemma span_digits_spec s :
  let '(a, b) := span_digits s in
  s = a ++ b ∧ Forall (λ c, is_ascii_digit c = true) a ∧
  (b = [] ∨ ∃ c b', b = c :: b' ∧ is_ascii_digit c = false).
Proof.
  induction s as [|c s IH]; simpl; [split_and!; auto|].
  destruct (is_ascii_digit c) eqn:E; [|split_and!; eauto].
  destruct (span_digits s) as [a b]. destruct IH as (-> & ? & ?). split_and!; auto.
Qed.

Lemma span_digits_app ds u c u' :
  Forall (λ c, is_ascii_digit c = true) ds → u = c :: u' → is_ascii_digit c = false →
  span_digits (ds ++ u) = (ds, u).
Proof.
  intros Hds -> Hc. induction Hds as [|d ds Hd _ IH]; simpl; [by rewrite Hc|].
  by rewrite Hd, IH.
Qed.

(** The byte offset [find] returns is the length of the digit prefix. *)
Lemma find_non_digit i s :
  fst <$> List.find (λ ic, negb (is_ascii_digit (snd ic))) (char_indices_from i s) =
  match snd (span_digits s) with [] => None | _ => Some (i + str_len (fst (span_digits s)))%nat end.
Proof.
  revert i. induction s as [|c s IH]; intros i; simpl; [done|].
  destruct (is_ascii_digit c) eqn:E; simpl; [|by rewrite Nat.add_0_r].
  rewrite IH. destruct (span_digits s) as [a b]. simpl. destruct b; [done|]. f_equal. lia.
Qed.

Lemma digits_value_bounds ds :
  Forall (λ c, is_ascii_digit c = true) ds → 0 ≤ digits_value 0 ds.
Proof. intros. by apply digits_value_mono. Qed.

Lemma parse_duration_eq s : parse_duration s = Some (duration_spec (trim s)).
Proof.
  unfold parse_duration, duration_spec, char_indices. generalize (trim s) as t. intros t.
  rewrite find_non_digit. pose proof (span_digits_spec t) as Ht.
  destruct (span_digits t) as [ds u]. simpl. destruct Ht as (-> & Hds & Hu).
  case_decide as Ht; [done|].
  destruct u as [|c u]; [by rewrite decide_True|]. rewrite (decide_False (P:=c :: u = [])) by done.
  rewrite split_at_app. case_decide as Hn; [done|].
  unfold parse_u64. rewrite parse_int_digits by (done || by vm_compute).
  pose proof (digits_value_bounds ds Hds).
  destruct (Z.leb_spec (digits_value 0 ds) u64_max); [|by replace (u64_max <? _) with true by lia].
  replace (u64_max <? digits_value 0 ds) with false by lia.
  unfold unit_secs, sat_mul_u64. repeat case_decide; try done.
  do 3 f_equal. lia.
Qed.

Lemma duration_spec_range t d : duration_spec t = Ok d → 0 ≤ d ≤ u64_max.
Proof.
  unfold duration_spec. pose proof (span_digits_spec t) as Ht.
  destruct (span_digits t) as [ds u]. destruct Ht as (_ & Hds & _).
  pose proof (digits_value_bounds ds Hds). unfold unit_secs, u64_max.
  repeat case_match; intros [= <-]; simplify_eq; lia.
Qed.

(** ** Theorems *)

(** C33: [parse_duration] never panics (its byte split is on a character
    boundary) and computes the reference function of the trimmed input on
    every branch, errors and saturation included. *)
Theorem parse_duration_spec (s : str) : parse_duration s = Some (duration_spec (trim s)).
Proof. apply parse_duration_eq. Qed.

(** C34: round trip: a printed magnitude followed by a unit parses back, with
    any surrounding white space, to the magnitude times the unit, saturating
    at the largest [u64]; never an overflow. *)
Theorem parse_duration_round_trip (n : N) (u : str) (k : Z) (ws ws' : str)
    (Hn : Z.of_N n ≤ u64_max) (Hu : unit_secs u = Some k)
    (Hws : Forall (λ c, is_whitespace c = true) ws)
    (Hws' : Forall (λ c, is_whitespace c = true) ws') :
  parse_duration (ws ++ (display_N n ++ u) ++ ws') = Some (Ok (Z.min (Z.of_N n * k) u64_max)) ∧
  0 ≤ Z.min (Z.of_N n * k) u64_max ≤ u64_max.
Proof.
  assert (∃ c, u = [c] ∧ is_ascii_digit c = false ∧ is_whitespace c = false ∧ 0 < k)
    as (c & -> & Hc & Hcw & Hk).
  { unfold unit_secs in Hu. repeat case_decide; simplify_eq; by eexists. }
  split; [|unfold u64_max; lia]. rewrite parse_duration_eq. f_equal.
  assert (trim (ws ++ (display_N n ++ [c]) ++ ws') = display_N n ++ [c]) as ->.
  { apply trim_by_surround; [done|done| |by destruct (display_N n)]. split.
    - pose proof (display_N_digits n) as Hd. pose proof (display_N_nonempty n).
      destruct (display_N n) as [|d ds]; [done|]. intros x [= <-].
      apply Forall_cons in Hd as [Hd _]. by apply digit_not_whitespace.
    - intros x. rewrite last_snoc. by intros [= <-]. }
  unfold duration_spec. rewrite (span_digits_app _ _ c []) by (done || apply display_N_digits).
  rewrite decide_False by (by destruct (display_N n)). rewrite decide_False by done.
  rewrite decide_False by apply display_N_nonempty. rewrite digits_value_display, Hu.
  by replace (u64_max <? Z.of_N n) with false by lia.
Qed.

Lemma parse_duration_round_trip_witness :
  parse_duration (lit " " ++ (display_N 7 ++ lit "d") ++ lit "") = Some (Ok 604800) ∧
  0 ≤ Z.min (Z.of_N 7 * 86400) u64_max ≤ u64_max.
Proof.
  apply (parse_duration_round_trip 7 (lit "d") 86400 (lit " ") (lit "")).
  - by vm_compute.
  - by vm_compute.
  - apply (bool_decide_eq_true_1 _). by vm_compute.
  - apply (bool_decide_eq_true_1 _). by vm_compute.
Defined.

Close Scope Z_scope.
