(* ===== verification/Session.v ===== *)
(** Classification of [user.prov.session] values ([src/session.rs]). *)

From S2P Require Import Prelude RustStr.

Definition colon : char := 58%N.
Definition semicolon : char := 59%N.

(** ** Definitions *)

Record FallbackFields : Type := {
  comm_chain : option str; env : option str; cwd : option str;
  pid : option str; uid : option str;
}.

Inductive SessionKind : Type :=
| AgentNs (id : str)
| EnrichedFallback (f : FallbackFields)
| LegacyFallback (comm pid : str)
| Opaque (raw : str).

#[export] Instance FallbackFields_eq_dec : EqDecision FallbackFields.
Proof. solve_decision. Defined.
#[export] Instance SessionKind_eq_dec : EqDecision SessionKind.
Proof. solve_decision. Defined.

Definition is_agentns_id (s : str) : bool :=
  (str_len s =? 32)%nat && forallb is_ascii_hexdigit s.

Definition no_fields : FallbackFields :=
  {| comm_chain := None; env := None; cwd := None; pid := None; uid := None |}.

(** The [match] of [parse_enriched_fallback]: a later field overwrites an
    earlier one of the same key. *)
Definition set_field (f : FallbackFields) (key value : str) : FallbackFields :=
  if decide (key = lit "comm-chain") then
    {| comm_chain := Some value; env := env f; cwd := cwd f; pid := pid f; uid := uid f |}
  else if decide (key = lit "env") then
    {| comm_chain := comm_chain f; env := Some value; cwd := cwd f; pid := pid f; uid := uid f |}
  else if decide (key = lit "cwd") then
    {| comm_chain := comm_chain f; env := env f; cwd := Some value; pid := pid f; uid := uid f |}
  else if decide (key = lit "pid") then
    {| comm_chain := comm_chain f; env := env f; cwd := cwd f; pid := Some value; uid := uid f |}
  else if decide (key = lit "uid") then
    {| comm_chain := comm_chain f; env := env f; cwd := cwd f; pid := pid f; uid := Some value |}
  else f.

Fixpoint parse_fields (f : FallbackFields) (segments : list str) : FallbackFields :=
  match segments with
  | [] => f
  | segment :: rest =>
      match split_once colon segment with
      | None => parse_fields f rest
      | Some (key, value) => parse_fields (set_field f key value) rest
      end
  end.

Definition parse_enriched_fallback (s : str) : FallbackFields :=
  parse_fields no_fields (split_on semicolon s).

Definition parse_legacy_fallback (s : str) : option (str * str) :=
  match strip_prefix (lit "comm:") s with
  | None => None
  | Some rest =>
      match split_once_str (lit ":pid:") rest with
      | None => None
      | Some (name, tail) =>
          if decide (name = [] ∨ tail = []) then None else Some (name, tail)
      end
  end.

Definition classify (session : str) : SessionKind :=
  if is_agentns_id session then AgentNs session
  else if starts_with (lit "comm-chain:") session then
    EnrichedFallback (parse_enriched_fallback session)
  else match parse_legacy_fallback session with
       | Some (comm, pid) => LegacyFallback comm pid
       | None => Opaque session
       end.

(** ** Specification *)

(** The wire form of an enriched fallback: the fields present, in the fixed
    order, [;]-separated. *)
Definition field (key : str) (v : option str) : list str :=
  match v with Some v => [key ++ colon :: v] | None => [] end.

Definition enriched_segments (f : FallbackFields) : list str :=
  field (lit "comm-chain") (comm_chain f) ++ field (lit "env") (env f) ++
  field (lit "cwd") (cwd f) ++ field (lit "pid") (pid f) ++ field (lit "uid") (uid f).

Definition render_enriched (f : FallbackFields) : str := join_with semicolon (enriched_segments f).

(** No field value contains the separator. *)
Definition separable (f : FallbackFields) : Prop :=
  ∀ v, Some v ∈ [comm_chain f; env f; cwd f; pid f; uid f] → semicolon ∉ v.

(** The legacy wire form. *)
Definition render_legacy (comm pid : str) : str := lit "comm:" ++ comm ++ lit ":pid:" ++ pid.

(** ** Lemmas *)

Lemma str_len_cons_pos c s : 1 ≤ str_len (c :: s).
Proof. simpl. pose proof (len_utf8_pos c). lia. Qed.

Lemma is_agentns_id_spec s :
  is_agentns_id s = true ↔ length s = 32 ∧ Forall (λ c, is_ascii_hexdigit c = true) s.
Proof.
  unfold is_agentns_id. rewrite andb_true_iff, forallb_forall, Nat.eqb_eq.
  assert (Forall (λ c, is_ascii_hexdigit c = true) s → str_len s = length s) as Hlen.
  { intros Hs. apply str_len_ascii. eapply Forall_impl; [done|].
    intros c. unfold is_ascii_hexdigit, is_ascii_digit. lia. }
  assert ((∀ c, In c s → is_ascii_hexdigit c = true) ↔ Forall (λ c, is_ascii_hexdigit c = true) s) as Hall.
  { rewrite Forall_forall. by setoid_rewrite list_elem_of_In. }
  rewrite Hall. split; intros [H1 H2]; [rewrite Hlen in H1|rewrite Hlen]; done.
Qed.

Lemma agentns_no_colon s : is_agentns_id s = true → colon ∉ s.
Proof.
  intros [_ Hs]%is_agentns_id_spec Hc.
  by apply (proj1 (Forall_forall _ _) Hs) in Hc.
Qed.

Lemma colon_not_agentns s : colon ∈ s → is_agentns_id s = false.
Proof. intros Hc. apply not_true_is_false. intros H. by apply agentns_no_colon in H. Qed.

(** A legacy string parses back exactly when its [:pid:] separator is the
    first one. *)
Lemma parse_legacy_render comm pid :
  comm ≠ [] → pid ≠ [] → contains (lit ":pid:") (comm ++ lit ":pid") = false →
  parse_legacy_fallback (render_legacy comm pid) = Some (comm, pid).
Proof.
  intros Hc Hp Hno. unfold parse_legacy_fallback, render_legacy.
  rewrite strip_prefix_app, split_once_str_app by done.
  rewrite decide_False; [done|]. by intros [?|?].
Qed.

Lemma render_legacy_not_chain comm pid : starts_with (lit "comm-chain:") (render_legacy comm pid) = false.
Proof. done. Qed.

Lemma parse_fields_app f ss1 ss2 : parse_fields f (ss1 ++ ss2) = parse_fields (parse_fields f ss1) ss2.
Proof.
  revert f. induction ss1 as [|s ss1 IH]; intros f; simpl; [done|].
  by destruct (split_once colon s) as [[]|].
Qed.

Lemma parse_field f key v :
  colon ∉ key →
  parse_fields f (field key v) = match v with Some v => set_field f key v | None => f end.
Proof. intros Hk. destruct v as [v|]; [|done]. unfold field, parse_fields. by rewrite split_once_app. Qed.

Lemma parse_enriched_segments f : parse_fields no_fields (enriched_segments f) = f.
Proof.
  unfold enriched_segments. rewrite !parse_fields_app.
  rewrite !parse_field by (apply (bool_decide_eq_true_1 _); by vm_compute).
  by destruct f as [[] [] [] [] []].
Qed.

Lemma enriched_segments_no_sep f : separable f → Forall (λ s, semicolon ∉ s) (enriched_segments f).
Proof.
  intros Hf. unfold enriched_segments.
  assert (∀ key v, semicolon ∉ key → v ∈ [comm_chain f; env f; cwd f; pid f; uid f] →
    Forall (λ s, semicolon ∉ s) (field key v)) as Hfield.
  { intros key [v|] Hk Hv; [|constructor]. apply Forall_singleton.
    rewrite elem_of_app, elem_of_cons. intros [?|[?|?]]; [done..|]. by apply (Hf v). }
  repeat (apply Forall_app_2; [apply Hfield; [by (apply (bool_decide_eq_true_1 _); vm_compute)|]|]).
  all: try (apply Hfield; [by (apply (bool_decide_eq_true_1 _); vm_compute)|]).
  all: rewrite !elem_of_cons; tauto.
Qed.

Lemma classify_legacy comm pid :
  comm ≠ [] → pid ≠ [] → contains (lit ":pid:") (comm ++ lit ":pid") = false →
  classify (render_legacy comm pid) = LegacyFallback comm pid.
Proof.
  intros Hc Hp Hno. unfold classify. rewrite colon_not_agentns.
  - by rewrite render_legacy_not_chain, parse_legacy_render.
  - unfold render_legacy. rewrite elem_of_app. left. by apply (bool_decide_eq_true_1 _).
Qed.

Lemma classify_render f : is_Some (comm_chain f) → separable f → classify (render_enriched f) = EnrichedFallback f.
Proof.
  intros Hch Hsep.
  destruct Hch as [ch Hch].
  assert (∃ r, render_enriched f = lit "comm-chain:" ++ r) as [r Hr].
  { unfold render_enriched, enriched_segments. rewrite Hch.
    apply (join_with_head semicolon (lit "comm-chain:") ch). }
  assert (parse_enriched_fallback (render_enriched f) = f) as Hparse.
  { unfold parse_enriched_fallback, render_enriched. rewrite split_on_join.
    - apply parse_enriched_segments.
    - unfold enriched_segments. by rewrite Hch.
    - by apply enriched_segments_no_sep. }
  unfold classify. rewrite Hparse, Hr. rewrite colon_not_agentns.
  - assert (starts_with (lit "comm-chain:") (lit "comm-chain:" ++ r) = true) as ->; [|done].
    apply starts_with_spec. by exists r.
  - rewrite elem_of_app. left. by apply (bool_decide_eq_true_1 _).
Qed.

(** ** Theorems *)

(** The kernel's enriched fallbacks read back field by field, whichever
    fields were dropped, as long as the leading comm-chain is there and no
    value contains the separator. *)
Theorem classify_enriched_round_trip (f : FallbackFields)
    (Hch : is_Some (comm_chain f)) (Hsep : separable f) :
  classify (render_enriched f) = EnrichedFallback f.
Proof. by apply classify_render. Qed.

Definition sample_fields : FallbackFields :=
  {| comm_chain := Some (lit "bash>make"); env := None; cwd := Some (lit "/a:b");
     pid := Some (lit "7"); uid := Some (lit "0") |}.

Lemma classify_enriched_round_trip_witness :
  classify (lit "comm-chain:bash>make;cwd:/a:b;pid:7;uid:0") = EnrichedFallback sample_fields.
Proof.
  apply (classify_enriched_round_trip sample_fields).
  - by eexists.
  - intros v Hv. repeat (apply elem_of_cons in Hv as [Hv|Hv]; [simplify_eq/=; apply (bool_decide_eq_true_1 _); by vm_compute|]).
    by apply not_elem_of_nil in Hv.
Defined.


(** The four classes partition the values: a value is an AgentNS id
    exactly when it is 32 hex digits, otherwise enriched exactly when it
    starts with [comm-chain:], otherwise legacy exactly when it is
    [comm:<name>:pid:<n>] with both parts non-empty and [<name>] up to the
    first [:pid:]; every other value is kept unchanged. *)
Theorem classify_spec (s : str) :
  match classify s with
  | AgentNs id => id = s ∧ length s = 32 ∧ Forall (λ c, is_ascii_hexdigit c = true) s
  | EnrichedFallback f => (∃ r, s = lit "comm-chain:" ++ r) ∧ f = parse_enriched_fallback s
  | LegacyFallback comm pid => s = render_legacy comm pid ∧ comm ≠ [] ∧ pid ≠ []
  | Opaque raw => raw = s ∧ ¬ (length s = 32 ∧ Forall (λ c, is_ascii_hexdigit c = true) s) ∧
      ¬ (∃ r, s = lit "comm-chain:" ++ r) ∧
      (∀ comm pid, comm ≠ [] → pid ≠ [] → contains (lit ":pid:") (comm ++ lit ":pid") = false →
         s ≠ render_legacy comm pid)
  end.
Proof.
  unfold classify. destruct (is_agentns_id s) eqn:Ha; [by rewrite <-is_agentns_id_spec|].
  rewrite <-not_true_iff_false, is_agentns_id_spec in Ha.
  destruct (starts_with _ s) eqn:He; [by rewrite <-starts_with_spec|].
  rewrite <-not_true_iff_false, starts_with_spec in He.
  destruct (parse_legacy_fallback s) as [[comm p]|] eqn:Hl.
  - unfold parse_legacy_fallback in Hl. destruct (strip_prefix _ s) as [rest|] eqn:E; [|done].
    apply strip_prefix_Some in E as ->. destruct (split_once_str _ rest) as [[a b]|] eqn:E; [|done].
    apply split_once_str_Some in E as ->. case_decide as Hd; [done|]. injection Hl as -> ->.
    split; [done|]. tauto.
  - split_and!; [done..|]. intros comm p Hc Hp Hno ->. by rewrite parse_legacy_render in Hl.
Qed.
