(* ===== verification/Identity.v ===== *)
(** The identity of a FUSE request's caller ([src/identity.rs]), read from
    [/proc/<pid>/environ] and [/proc/<pid>/comm]. *)

From S2P Require Import Prelude RustStr RustPath Sys Session.
From Stdlib Require Import Strings.Byte.

(** ** Definitions *)

Record Identity : Type := {
  session : str; tool : str; turn : option str; intent : option str;
}.

Definition equals_char : char := 61%N.

Definition environ_path (pid : N) : bytes :=
  as_bytes (lit "/proc/" ++ display_N pid ++ lit "/environ").
Definition comm_path (pid : N) : bytes :=
  as_bytes (lit "/proc/" ++ display_N pid ++ lit "/comm").

(** One chunk of the environ block: a [key=value] pair in UTF-8, or dropped. *)
Definition parse_chunk (chunk : bytes) : option (str * str) :=
  if decide (chunk = []) then None
  else s ← from_utf8 chunk; split_once equals_char s.

Definition parse_environ (bs : bytes) : list (str * str) :=
  omap parse_chunk (split_on x00 bs).

Definition read_environ (pid : N) : prog (list (str * str)) :=
  r ← sys (ReadFile (environ_path pid));
  match r with
  | Err _ => mret []
  | Ok bs => mret (parse_environ bs)
  end.

(** [fs::read_to_string] followed by [trim]. *)
Definition read_comm (pid : N) : prog (option str) :=
  r ← sys (ReadFile (comm_path pid));
  mret (match r with
        | Err _ => None
        | Ok bs => trim <$> from_utf8 bs
        end).

(** The four variables of [resolve_identity]'s loop. *)
Record Vars : Type := {
  v_session : option str; v_tool : option str; v_turn : option str; v_intent : option str;
}.

Definition no_vars : Vars :=
  {| v_session := None; v_tool := None; v_turn := None; v_intent := None |}.

Definition set_var (vs : Vars) (kv : str * str) : Vars :=
  let '(k, v) := kv in
  if decide (k = lit "CLAUDE_SESSION") then
    {| v_session := Some v; v_tool := v_tool vs; v_turn := v_turn vs; v_intent := v_intent vs |}
  else if decide (k = lit "CLAUDE_TOOL") then
    {| v_session := v_session vs; v_tool := Some v; v_turn := v_turn vs; v_intent := v_intent vs |}
  else if decide (k = lit "CLAUDE_TURN") then
    {| v_session := v_session vs; v_tool := v_tool vs; v_turn := Some v; v_intent := v_intent vs |}
  else if decide (k = lit "CLAUDE_INTENT") then
    {| v_session := v_session vs; v_tool := v_tool vs; v_turn := v_turn vs; v_intent := Some v |}
  else vs.

Definition fallback_session (comm : str) (pid : N) : str :=
  lit "comm:" ++ comm ++ lit ":pid:" ++ display_N pid.

Definition resolve_identity (pid : N) : prog Identity :=
  env ← read_environ pid;
  c ← read_comm pid;
  let comm := default (lit "unknown") c in
  let vs := foldl set_var no_vars env in
  mret {| session := default (fallback_session comm pid) (v_session vs);
          tool := default comm (v_tool vs);
          turn := v_turn vs;
          intent := v_intent vs |}.

(** ** Specification *)

(** The last value of a variable in the environment. *)
Definition env_last (key : str) (env : list (str * str)) : option str :=
  last (snd <$> filter (λ kv, kv.1 = key) env).

(** A chunk of the environ block that sets a variable: the name, an equals
    sign and a value, in UTF-8. *)
Definition sets (key : str) (chunk : bytes) (v : str) : Prop :=
  valid_str v ∧ chunk = as_bytes (key ++ lit "=" ++ v).

(** What the chunks say of a variable: the value of the last chunk that sets
    it, whatever the other chunks are. *)
Definition last_set (key : str) (chunks : list bytes) (o : option str) : Prop :=
  match o with
  | Some v => ∃ a c b, chunks = a ++ c :: b ∧ sets key c v ∧ Forall (λ c', ∀ v', ¬ sets key c' v') b
  | None => Forall (λ c', ∀ v', ¬ sets key c' v') chunks
  end.

(** The block the kernel exposes: NUL-terminated [key=value] strings. *)
Definition environ_block (env : list (str * str)) : bytes :=
  concat ((λ kv : str * str, as_bytes kv.1 ++ x3d :: as_bytes kv.2 ++ [x00]) <$> env).

Definition env_entry_ok (kv : str * str) : Prop :=
  valid_str kv.1 ∧ valid_str kv.2 ∧ (equals_char ∉ kv.1) ∧ (0%N ∉ kv.1) ∧ (0%N ∉ kv.2).

#[export] Instance env_entry_ok_dec kv : Decision (env_entry_ok kv).
Proof. unfold env_entry_ok. apply _. Defined.

(** ** Lemmas *)

Lemma foldl_set_var_snoc env kv :
  foldl set_var no_vars (env ++ [kv]) = set_var (foldl set_var no_vars env) kv.
Proof. by rewrite foldl_app. Qed.

Lemma env_last_snoc key env kv :
  env_last key (env ++ [kv]) = if decide (kv.1 = key) then Some kv.2 else env_last key env.
Proof.
  unfold env_last. rewrite filter_app, fmap_app, last_app, filter_cons, filter_nil.
  by case_decide.
Qed.

Lemma vars_env_last env :
  foldl set_var no_vars env =
    {| v_session := env_last (lit "CLAUDE_SESSION") env;
       v_tool := env_last (lit "CLAUDE_TOOL") env;
       v_turn := env_last (lit "CLAUDE_TURN") env;
       v_intent := env_last (lit "CLAUDE_INTENT") env |}.
Proof.
  induction env as [|[k v] env IH] using rev_ind; [done|].
  rewrite foldl_set_var_snoc, IH. unfold set_var. rewrite !env_last_snoc. simpl.
  repeat case_decide; subst; done.
Qed.

(** An ASCII byte of an encoding is a character of the string. *)
Lemma as_bytes_ascii_elem s b :
  valid_str s → b ∈ as_bytes s → (to_N b < 128)%N → to_N b ∈ s.
Proof.
  intros Hs Hb Hlt. apply list_elem_of_split in Hb as (a & t & Hat).
  rewrite <-(from_utf8_lossy_as_bytes s), Hat, from_utf8_lossy_ascii by done.
  rewrite elem_of_app, elem_of_cons. auto.
Qed.

Lemma as_bytes_app s t : as_bytes (s ++ t) = as_bytes s ++ as_bytes t.
Proof. induction s as [|c s IH]; simpl; [done|]. by rewrite IH, app_assoc. Qed.

Lemma parse_chunk_entry kv :
  env_entry_ok kv → parse_chunk (as_bytes kv.1 ++ x3d :: as_bytes kv.2) = Some kv.
Proof.
  destruct kv as [k v]. simpl. intros (Hk & Hv & Heq & _ & _). simpl in *. unfold parse_chunk.
  rewrite decide_False by (by destruct (as_bytes k)).
  replace (as_bytes k ++ x3d :: as_bytes v) with (as_bytes (k ++ equals_char :: v))
    by (by rewrite as_bytes_app).
  rewrite from_utf8_as_bytes.
  - simpl. by apply split_once_app.
  - apply valid_str_app. split; [done|]. by constructor.
Qed.

Lemma entry_no_nul kv : env_entry_ok kv → x00 ∉ as_bytes kv.1 ++ x3d :: as_bytes kv.2.
Proof.
  intros (Hk & Hv & _ & Hk0 & Hv0). rewrite elem_of_app, elem_of_cons.
  intros [Hb|[Hb|Hb]]; [|done|].
  - apply as_bytes_ascii_elem in Hb; done.
  - apply as_bytes_ascii_elem in Hb; done.
Qed.

Lemma parse_environ_block env : Forall env_entry_ok env → parse_environ (environ_block env) = env.
Proof.
  unfold parse_environ, environ_block.
  induction 1 as [|kv env Hkv _ IH]; [done|]. csimpl.
  replace ((as_bytes kv.1 ++ x3d :: as_bytes kv.2 ++ [x00]) ++ concat _)
    with ((as_bytes kv.1 ++ x3d :: as_bytes kv.2) ++ x00 ::
      concat ((λ kv : str * str, as_bytes kv.1 ++ x3d :: as_bytes kv.2 ++ [x00]) <$> env))
    by (by simplify_list_eq).
  rewrite split_on_app by (by apply entry_no_nul). csimpl.
  rewrite parse_chunk_entry by done. by rewrite IH.
Qed.

(** A chunk that is not UTF-8, or has no equals sign, sets nothing. *)
Lemma parse_chunk_sets key c v :
  valid_str key → equals_char ∉ key → parse_chunk c = Some (key, v) ↔ sets key c v.
Proof.
  intros Hk Heq. unfold parse_chunk, sets. split.
  - case_decide; [done|]. destruct (from_utf8 c) as [s|] eqn:E; [|done]. cbn [mbind option_bind].
    intros [-> _]%split_once_Some. apply from_utf8_Some in E as [Hs <-].
    change (equals_char :: v) with (lit "=" ++ v) in *. rewrite !valid_str_app in Hs. tauto.
  - intros [Hv ->]. rewrite decide_False by (rewrite as_bytes_app; by destruct (as_bytes key)).
    rewrite from_utf8_as_bytes; [by apply split_once_Some|].
    rewrite !valid_str_app. split_and!; [done|by constructor|done].
Qed.

Lemma last_set_snoc_other key chunks c o :
  (∀ v, ¬ sets key c v) → last_set key chunks o → last_set key (chunks ++ [c]) o.
Proof.
  intros Hc. destruct o as [v|]; simpl.
  - intros (a & c0 & b & -> & Hs & Hb). exists a, c0, (b ++ [c]). rewrite <-app_assoc.
    split_and!; [done|done|]. apply Forall_app. split; [done|by repeat constructor].
  - intros Hn. apply Forall_app. split; [done|by repeat constructor].
Qed.

Lemma env_last_set key chunks :
  valid_str key → equals_char ∉ key → last_set key chunks (env_last key (omap parse_chunk chunks)).
Proof.
  intros Hk Heq. induction chunks as [|c chunks IH] using rev_ind; [by constructor|].
  rewrite omap_app. csimpl. destruct (parse_chunk c) as [[k v]|] eqn:E.
  - rewrite env_last_snoc. cbn [fst snd]. destruct (decide (k = key)) as [->|Hne].
    + exists chunks, c, []. split_and!; [done|by apply parse_chunk_sets|constructor].
    + apply last_set_snoc_other; [|done]. intros v' Hv'%parse_chunk_sets; congruence.
  - rewrite app_nil_r. apply last_set_snoc_other; [|done].
    intros v' Hv'%parse_chunk_sets; congruence.
Qed.

Lemma parse_environ_sets key bs :
  valid_str key → equals_char ∉ key → last_set key (split_on x00 bs) (env_last key (parse_environ bs)).
Proof. apply env_last_set. Qed.

(** What a run of [resolve_identity] reads and returns. *)
Lemma resolve_identity_runs pid tr id :
  runs (resolve_identity pid) tr id ↔
  ∃ re rc, tr = [Ev (ReadFile (environ_path pid)) re; Ev (ReadFile (comm_path pid)) rc] ∧
    let env := match re with Ok bs => parse_environ bs | Err _ => [] end in
    let comm := default (lit "unknown")
                  (match rc with Ok bs => trim <$> from_utf8 bs | Err _ => None end) in
    id = {| session := default (fallback_session comm pid) (env_last (lit "CLAUDE_SESSION") env);
            tool := default comm (env_last (lit "CLAUDE_TOOL") env);
            turn := env_last (lit "CLAUDE_TURN") env;
            intent := env_last (lit "CLAUDE_INTENT") env |}.
Proof.
  simpl. split.
  - intros (re & tr' & -> & H).
    destruct re as [bs|e]; simpl in H; destruct H as (rc & ? & -> & -> & ->);
      [exists (Ok bs), rc|exists (Err e), rc]; (split; [done|]); simpl; by rewrite ?vars_env_last.
  - intros (re & rc & -> & ->). exists re, [Ev (ReadFile (comm_path pid)) rc]. split; [done|].
    destruct re as [bs|e]; simpl; exists rc, []; split; try done; by rewrite ?vars_env_last.
Qed.

Lemma resolve_identity_calls pid :
  calls_only (λ c, c = ReadFile (environ_path pid) ∨ c = ReadFile (comm_path pid)) (resolve_identity pid).
Proof.
  intros tr id (re & rc & -> & _)%resolve_identity_runs. rewrite !Forall_cons. simpl. auto.
Qed.

(** ** Theorems *)

(** The environ block of an environment is read back as that environment. *)
Lemma resolve_identity_block (pid : N) (env : list (str * str)) (bs : bytes) (comm : str) (id : Identity)
    (Henv : Forall env_entry_ok env) (Hcomm : trim <$> from_utf8 bs = Some comm)
    (Hrun : runs (resolve_identity pid) [Ev (ReadFile (environ_path pid)) (Ok (environ_block env));
                                         Ev (ReadFile (comm_path pid)) (Ok bs)] id) :
  id = {| session := default (fallback_session comm pid) (env_last (lit "CLAUDE_SESSION") env);
          tool := default comm (env_last (lit "CLAUDE_TOOL") env);
          turn := env_last (lit "CLAUDE_TURN") env; intent := env_last (lit "CLAUDE_INTENT") env |}.
Proof.
  apply resolve_identity_runs in Hrun as (re & rc & Htr & ->).
  apply (inj2 cons) in Htr as [<-%Ev_inj [<-%Ev_inj _]%(inj2 cons)].
  by rewrite parse_environ_block, Hcomm.
Qed.

(** C29: functional behaviour of [resolve_identity] for every content of the
    two [/proc] files, each read once, in order.  The environ file is cut at
    its NUL bytes; each of the four variables has the value of the last chunk
    that spells it in UTF-8 with an equals sign, and chunks that are empty, not
    UTF-8, without an equals sign or about another variable change nothing and
    hide nothing.  A missing session is [comm:<name>:pid:<n>], a missing tool
    the name; a missing turn or intent stays absent.  An unreadable environ
    gives the fallbacks, an unreadable or non-UTF-8 comm the name [unknown]. *)
Theorem resolve_identity_spec (pid : N) (tr : trace) (id : Identity)
    (Hrun : runs (resolve_identity pid) tr id) :
  ∃ re rc, tr = [Ev (ReadFile (environ_path pid)) re; Ev (ReadFile (comm_path pid)) rc] ∧
    let comm := match rc with
                | Ok bs => default (lit "unknown") (trim <$> from_utf8 bs)
                | Err _ => lit "unknown" end in
    let fallback := lit "comm:" ++ comm ++ lit ":pid:" ++ display_N pid in
    match re with
    | Ok bs => ∃ chunks se to tu it,
        (bs = join_with x00 chunks ∧ Forall (λ c, x00 ∉ c) chunks) ∧
        last_set (lit "CLAUDE_SESSION") chunks se ∧ last_set (lit "CLAUDE_TOOL") chunks to ∧
        last_set (lit "CLAUDE_TURN") chunks tu ∧ last_set (lit "CLAUDE_INTENT") chunks it ∧
        id = {| session := default fallback se; tool := default comm to; turn := tu; intent := it |}
    | Err _ => id = {| session := fallback; tool := comm; turn := None; intent := None |}
    end.
Proof.
  apply resolve_identity_runs in Hrun as (re & rc & -> & ->). exists re, rc. split; [done|].
  destruct re as [bs|e]; [|by destruct rc].
  exists (split_on x00 bs). do 4 eexists. split; [split; [by rewrite join_split_on|apply split_on_no_sep_pieces]|].
  do 4 (split; [apply parse_environ_sets; [by apply (bool_decide_eq_true_1 _)|by apply (bool_decide_eq_true_1 _)]|]).
  by destruct rc.
Qed.

(** A process with a variable set twice, a chunk that is not UTF-8 and one
    without an equals sign. *)
Definition sample_env : bytes :=
  join_with x00 [blit "CLAUDE_SESSION=S1"; [xff; xfe]; blit "HOME=/root"; blit "CLAUDE_SESSION=S2"; blit "junk"; []].

Definition proc_step (c : call) (w : unit) : resp c * unit :=
  match c with
  | ReadFile p =>
      (if decide (p = environ_path 7) then Ok sample_env
       else if decide (p = comm_path 7) then Ok (blit "vim") else Err (OsError ENOENT), w)
  | Lstat _ => ((-1, ENOENT, Stat 0 0 0 0 0 0 0 0 0 0 0 0 0 0)%Z, w)
  | Open _ _ _ | Pwrite _ _ _ | Chmod _ _ | Truncate _ _ | Mkdir _ _ | Unlink _ | Rmdir _ =>
      ((-1, ENOENT)%Z, w)
  | Close _ => (0%Z, w)
  | Pread _ _ _ => ((-1, EBADF, [])%Z, w)
  | ReadDir _ => (Ok [], w)
  | SymlinkMetadata _ | Mount _ | XattrSet _ _ _ => (Ok tt, w)
  | XattrGet _ _ => (Ok None, w)
  | UtcNow => ([], w)
  | SystemNow => (Ok 0%Z, w)
  | IsDir _ => (true, w)
  | LogWarn _ _ _ | Println _ | Eprintln _ => (tt, w)
  end.

Lemma resolve_identity_spec_witness :
  ∃ re rc, exec_trace proc_step (resolve_identity 7) tt
      = [Ev (ReadFile (environ_path 7)) re; Ev (ReadFile (comm_path 7)) rc] ∧
    tool (exec_res proc_step (resolve_identity 7) tt) = lit "vim" ∧
    session (exec_res proc_step (resolve_identity 7) tt) = lit "S2".
Proof.
  destruct (resolve_identity_spec 7 (exec_trace proc_step (resolve_identity 7) tt)
    (exec_res proc_step (resolve_identity 7) tt)) as (re & rc & Htr & _).
  - apply exec_runs.
  - exists re, rc. split; [exact Htr|]. by vm_compute.
Defined.

(** The fallback session the overlay stamps is classified by the reader as
    the legacy fallback with that process name and pid. *)
Theorem fallback_session_classified (pid : N) (re : io_result bytes) (bs : bytes)
    (comm : str) (id : Identity)
    (Hrun : runs (resolve_identity pid)
      [Ev (ReadFile (environ_path pid)) re; Ev (ReadFile (comm_path pid)) (Ok bs)] id)
    (Hnoenv : ∀ b, re = Ok b → env_last (lit "CLAUDE_SESSION") (parse_environ b) = None)
    (Hcomm : trim <$> from_utf8 bs = Some comm)
    (Hne : comm ≠ []) (Hno : contains (lit ":pid:") (comm ++ lit ":pid") = false) :
  classify (session id) = LegacyFallback comm (display_N pid).
Proof.
  apply resolve_identity_runs in Hrun as (re' & rc & Htr & ->).
  apply (inj2 cons) in Htr as [<-%Ev_inj [<-%Ev_inj _]%(inj2 cons)].
  simpl. rewrite Hcomm.
  replace (env_last _ _) with (@None str) by (destruct re; [by rewrite Hnoenv|done]).
  apply classify_legacy; [done|apply display_N_nonempty|done].
Qed.

Lemma fallback_session_classified_witness :
  classify (lit "comm:vim:pid:7") = LegacyFallback (lit "vim") (display_N 7).
Proof.
  apply (fallback_session_classified 7 (Err (OsError ENOENT)) (blit "vim") (lit "vim")
    {| session := lit "comm:vim:pid:7"; tool := lit "vim"; turn := None; intent := None |}).
  - apply resolve_identity_runs. exists (Err (OsError ENOENT)), (Ok (blit "vim")).
    split; [done|]. by vm_compute.
  - done.
  - by vm_compute.
  - done.
  - by vm_compute.
Defined.

