(* ===== verification/Xattrs.v ===== *)
(** Stamping ([src/xattrs.rs]): an [Identity] written as the canonical
    [user.prov.*] extended attributes of a path. *)

From S2P Require Import Prelude RustStr RustPath Sys History Session Identity.

(** ** Definitions *)

Definition KEY_SESSION : str := lit "user.prov.session".
Definition KEY_TOOL : str := lit "user.prov.tool".
Definition KEY_TURN : str := lit "user.prov.turn".
Definition KEY_INTENT : str := lit "user.prov.intent".
Definition KEY_TS : str := lit "user.prov.ts".
Definition KEY_HISTORY : str := lit "user.prov.history".

Definition read_str (path : bytes) (key : str) : prog (option str) :=
  r ← sys (XattrGet path key);
  mret (match r with
        | Ok (Some v) => from_utf8 v
        | Ok None | Err _ => None
        end).

Definition write_str (path : bytes) (key value : str) : prog (io_result unit) :=
  sys (XattrSet path key (as_bytes value)).

(** An optional field: written when present, left alone when absent. *)
Definition write_opt (path : bytes) (key : str) (value : option str) : prog (io_result unit) :=
  match value with
  | Some v => write_str path key v
  | None => mret (Ok tt)
  end.

Definition stamp (path : bytes) (id : Identity) (now_iso : str) : prog (io_result unit) :=
  _ ←? write_str path KEY_SESSION (session id);
  _ ←? write_str path KEY_TOOL (tool id);
  _ ←? write_opt path KEY_TURN (turn id);
  _ ←? write_opt path KEY_INTENT (intent id);
  _ ←? write_str path KEY_TS now_iso;
  prior ← read_str path KEY_HISTORY;
  let next := push_history (default [] prior) (session id) in
  _ ←? write_str path KEY_HISTORY next;
  mret (Ok tt).

(** ** Specification *)

(** The writes of a stamp before the history, in order. *)
Definition plan (id : Identity) (now : str) : list (str * str) :=
  [(KEY_SESSION, session id); (KEY_TOOL, tool id)] ++
  (match turn id with Some t => [(KEY_TURN, t)] | None => [] end) ++
  (match intent id with Some i => [(KEY_INTENT, i)] | None => [] end) ++
  [(KEY_TS, now)].

(** A write, and a successful one. *)
Definition set_call (path : bytes) (kv : str * str) : call := XattrSet path kv.1 (as_bytes kv.2).
Definition set_ev (path : bytes) (kv : str * str) (r : io_result unit) : event :=
  Ev (XattrSet path kv.1 (as_bytes kv.2)) r.

(** The prior history as [read_str] sees it. *)
Definition prior_of (g : io_result (option bytes)) : str :=
  default [] (match g with Ok (Some v) => from_utf8 v | Ok None | Err _ => None end).

Fixpoint write_all (path : bytes) (kvs : list (str * str)) : prog (io_result unit) :=
  match kvs with
  | [] => mret (Ok tt)
  | kv :: kvs' => _ ←? write_str path kv.1 kv.2; write_all path kvs'
  end.

Definition write_history (path : bytes) (id : Identity) : prog (io_result unit) :=
  prior ← read_str path KEY_HISTORY;
  _ ←? write_str path KEY_HISTORY (push_history (default [] prior) (session id));
  mret (Ok tt).

(** ** Lemmas *)

Lemma runs_write_str path k v tr r :
  runs (write_str path k v) tr r ↔ tr = [set_ev path (k, v) r].
Proof. apply runs_sys. Qed.

Lemma runs_write_all path kvs tr r :
  runs (write_all path kvs) tr r ↔
  (tr = (λ kv, set_ev path kv (Ok tt)) <$> kvs ∧ r = Ok tt) ∨
  (∃ done_ kv rest e, kvs = done_ ++ kv :: rest ∧
     tr = ((λ kv, set_ev path kv (Ok tt)) <$> done_) ++ [set_ev path kv (Err e)] ∧ r = Err e).
Proof.
  revert tr. induction kvs as [|[k v] kvs IH]; intros tr.
  - simpl. split; [intros [-> ->]; by left|]. intros [[-> ->]|([|]&?&?&?&?&_)]; done.
  - cbn [write_all]. rewrite runs_try. setoid_rewrite runs_write_str. setoid_rewrite IH.
    clear IH. split.
    + intros [(e & -> & ->)|(tr1 & [] & tr2 & -> & -> & [[-> ->]|(d & kv & rest & e & -> & -> & ->)])].
      * right. by exists [], (k, v), kvs, e.
      * by left.
      * right. by exists ((k, v) :: d), kv, rest, e.
    + intros [[-> ->]|([|kv' d] & kv & rest & e & Hkvs & -> & ->)].
      * right. exists [set_ev path (k, v) (Ok tt)], tt. eexists. split; [done|]. split; [done|]. by left.
      * left. injection Hkvs as <- <-. by exists e.
      * right. injection Hkvs as <- ->. exists [set_ev path (k, v) (Ok tt)], tt. eexists.
        split; [done|]. split; [done|]. right. by exists d, kv, rest, e.
Qed.

Lemma runs_write_history path id tr r :
  runs (write_history path id) tr r ↔
  ∃ g, tr = [Ev (XattrGet path KEY_HISTORY) g;
             set_ev path (KEY_HISTORY, push_history (prior_of g) (session id)) r].
Proof.
  simpl. split.
  - intros (g & ? & -> & s & ? & -> & H). exists g.
    destruct s as [[]|e]; destruct H as [-> ->]; done.
  - intros (g & ->). exists g. eexists. split; [done|]. exists r, []. split; [done|].
    by destruct r as [[]|e].
Qed.

(** The stamp is its planned writes, then the history. *)
Lemma stamp_plan path id now :
  prog_equiv (stamp path id now)
    (try_bind (write_all path (plan id now)) (λ _, write_history path id)).
Proof.
  unfold stamp, plan. destruct id as [se to [tu|] [it|]]; simpl (_ ++ _);
    cbn [write_all write_opt session tool turn intent fst snd].
  all: rewrite !try_bind_assoc; apply try_bind_proper; [reflexivity|intros []].
  all: repeat (rewrite ?try_bind_assoc, ?try_bind_ok; apply try_bind_proper; [reflexivity|intros []]).
  all: rewrite ?try_bind_ok; reflexivity.
Qed.

Lemma stamp_runs path id now tr r :
  runs (stamp path id now) tr r ↔
  (∃ done_ kv rest e, plan id now = done_ ++ kv :: rest ∧
     tr = ((λ kv, set_ev path kv (Ok tt)) <$> done_) ++ [set_ev path kv (Err e)] ∧ r = Err e) ∨
  (∃ g, tr = ((λ kv, set_ev path kv (Ok tt)) <$> plan id now) ++
     [Ev (XattrGet path KEY_HISTORY) g;
      set_ev path (KEY_HISTORY, push_history (prior_of g) (session id)) r]).
Proof.
  rewrite stamp_plan, runs_try. setoid_rewrite runs_write_all. setoid_rewrite runs_write_history.
  split.
  - intros [(e & -> & [[_ ?]|(d & kv & rest & e' & ? & -> & [= <-])])
           |(tr1 & [] & tr2 & -> & [[-> _]|(d & kv & rest & e' & ? & -> & ?)] & (g & ->))]; try done.
    + left. by exists d, kv, rest, e.
    + right. by exists g.
  - intros [(d & kv & rest & e & ? & -> & ->)|(g & ->)].
    + left. exists e. split; [done|]. right. by exists d, kv, rest, e.
    + right. eexists _, tt, _. split; [done|]. split; [by left|]. by exists g.
Qed.

(** ** The attribute store, as an interface *)

(** What the stamping relies on: [xa w p k] is the value stored for key [k] on
    path [p], [live w p] that [p] exists on a filesystem with attributes.  A
    successful set stores the value and leaves the path's other keys alone; a
    get and a metadata lookup on a live path succeed and change nothing. *)
Class XattrStore {W : Type} (step : ∀ c : call, W → resp c * W)
    (xa : W → bytes → str → option bytes) (live : W → bytes → Prop) : Prop := {
  store_set w p k v :
    (step (XattrSet p k v) w).1 = Ok tt →
    live (step (XattrSet p k v) w).2 p ∧ xa (step (XattrSet p k v) w).2 p k = Some v;
  store_set_other w p k v k' :
    k' ≠ k → xa (step (XattrSet p k v) w).2 p k' = xa w p k';
  store_get w p k :
    live w p →
    (step (XattrGet p k) w).1 = Ok (xa w p k) ∧ live (step (XattrGet p k) w).2 p ∧
    ∀ k', xa (step (XattrGet p k) w).2 p k' = xa w p k';
  store_metadata w p :
    live w p →
    (step (SymlinkMetadata p) w).1 = Ok tt ∧ live (step (SymlinkMetadata p) w).2 p ∧
    ∀ k', xa (step (SymlinkMetadata p) w).2 p k' = xa w p k';
}.

(** A concrete store: the attributes of all paths in one map. *)
Abbreviation mem_world := (gmap (bytes * str) bytes).

Definition mem_step (c : call) (w : mem_world) : resp c * mem_world :=
  match c with
  | XattrSet p k v => (Ok tt, <[(p, k) := v]> w)
  | XattrGet p k => (Ok (w !! (p, k)), w)
  | Lstat _ => ((-1, ENOENT, Stat 0 0 0 0 0 0 0 0 0 0 0 0 0 0)%Z, w)
  | Open _ _ _ | Pwrite _ _ _ | Chmod _ _ | Truncate _ _ | Mkdir _ _ | Unlink _ | Rmdir _ =>
      ((-1, ENOENT)%Z, w)
  | Close _ => (0%Z, w)
  | Pread _ _ _ => ((-1, EBADF, [])%Z, w)
  | ReadDir _ => (Ok [], w)
  | SymlinkMetadata _ | Mount _ => (Ok tt, w)
  | ReadFile _ => (Err (OsError ENOENT), w)
  | UtcNow => (lit "2026-05-24T00:00:00+00:00", w)
  | SystemNow => (Ok 1779580800%Z, w)
  | IsDir _ => (true, w)
  | LogWarn _ _ _ | Println _ | Eprintln _ => (tt, w)
  end.

Definition mem_xa (w : mem_world) (p : bytes) (k : str) : option bytes := w !! (p, k).
Definition mem_live (w : mem_world) (p : bytes) : Prop := True.

#[export] Instance mem_store : XattrStore mem_step mem_xa mem_live.
Proof.
  split; unfold mem_xa, mem_live; simpl; try done.
  - intros w p k v _. split; [done|]. by rewrite lookup_insert_eq.
  - intros w p k v k' Hk. rewrite lookup_insert_ne; [done|congruence].
Qed.

Section Store.
Context {W : Type} {step : ∀ c : call, W → resp c * W}
        {xa : W → bytes → str → option bytes} {live : W → bytes → Prop}
        `{!XattrStore step xa live}.

Lemma exec_write_str p k v w :
  exec_res step (write_str p k v) w = (step (XattrSet p k (as_bytes v)) w).1 ∧
  exec_world step (write_str p k v) w = (step (XattrSet p k (as_bytes v)) w).2.
Proof.
  split; [apply (exec_res_sys step (XattrSet p k (as_bytes v)))
         |apply (exec_world_sys step (XattrSet p k (as_bytes v)))].
Qed.

Lemma exec_read_str p k w :
  live w p →
  exec_res step (read_str p k) w = xa w p k ≫= from_utf8 ∧
  exec_world step (read_str p k) w = (step (XattrGet p k) w).2.
Proof.
  intros Hl. destruct (store_get w p k Hl) as (Hg & _).
  unfold read_str. rewrite exec_res_bind, exec_world_bind.
  rewrite (exec_res_sys step (XattrGet p k)), (exec_world_sys step (XattrGet p k)), Hg.
  by destruct (xa w p k).
Qed.

(** The value a list of writes leaves for a key. *)
Fixpoint written (kvs : list (str * str)) (k : str) (old : option bytes) : option bytes :=
  match kvs with
  | [] => old
  | (k', v) :: kvs' => written kvs' k (if decide (k' = k) then Some (as_bytes v) else old)
  end.

Lemma write_all_store p kvs w :
  exec_res step (write_all p kvs) w = Ok tt →
  (kvs = [] ∨ live (exec_world step (write_all p kvs) w) p) ∧
  ∀ k, xa (exec_world step (write_all p kvs) w) p k = written kvs k (xa w p k).
Proof.
  revert w. induction kvs as [|[k v] kvs IH]; intros w; [split; [by left|done]|].
  cbn [write_all fst snd].
  destruct (exec_res_try step (write_str p k v) (λ _, write_all p kvs) w) as [-> ->].
  destruct (exec_write_str p k v w) as [-> ->].
  destruct ((step (XattrSet p k (as_bytes v)) w).1) as [[]|e] eqn:E; [|done].
  intros Hr. destruct (IH _ Hr) as [Hlive Hxa]. destruct (store_set _ _ _ _ E) as [Hl Hk].
  split.
  - right. by destruct Hlive as [-> |?].
  - intros k'. rewrite Hxa. cbn [written]. case_decide as Hkk; [subst k'; by rewrite Hk|].
    by rewrite store_set_other.
Qed.

Lemma write_history_store p id w :
  live w p → exec_res step (write_history p id) w = Ok tt →
  let prior := default [] (xa w p KEY_HISTORY ≫= from_utf8) in
  live (exec_world step (write_history p id) w) p ∧
  xa (exec_world step (write_history p id) w) p KEY_HISTORY
    = Some (as_bytes (push_history prior (session id))) ∧
  ∀ k, k ≠ KEY_HISTORY → xa (exec_world step (write_history p id) w) p k = xa w p k.
Proof.
  intros Hl. unfold write_history. rewrite exec_res_bind, exec_world_bind.
  destruct (exec_read_str p KEY_HISTORY w Hl) as [-> ->].
  destruct (store_get w p KEY_HISTORY Hl) as (_ & _ & Hget).
  set (w1 := (step (XattrGet p KEY_HISTORY) w).2) in *. set (v := push_history _ _).
  destruct (exec_res_try step (write_str p KEY_HISTORY v) (λ _, mret (Ok tt)) w1) as [-> ->].
  destruct (exec_write_str p KEY_HISTORY v w1) as [-> ->].
  destruct ((step (XattrSet p KEY_HISTORY (as_bytes v)) w1).1) as [[]|e] eqn:E; [|done].
  intros _. destruct (store_set _ _ _ _ E) as [? Hset]. split_and!; [done|done|].
  intros k Hk. change (exec_world step (mret (Ok tt)) ?w') with w'.
  by rewrite store_set_other, Hget.
Qed.
End Store.

(** What a successful stamp leaves on its path. *)
Definition stamped (id : Identity) (now : str) (old new : str → option bytes) : Prop :=
  new KEY_SESSION = Some (as_bytes (session id)) ∧
  new KEY_TOOL = Some (as_bytes (tool id)) ∧
  new KEY_TURN = match turn id with Some t => Some (as_bytes t) | None => old KEY_TURN end ∧
  new KEY_INTENT = match intent id with Some i => Some (as_bytes i) | None => old KEY_INTENT end ∧
  new KEY_TS = Some (as_bytes now) ∧
  new KEY_HISTORY =
    Some (as_bytes (push_history (default [] (old KEY_HISTORY ≫= from_utf8)) (session id))) ∧
  ∀ k, k ∉ [KEY_SESSION; KEY_TOOL; KEY_TURN; KEY_INTENT; KEY_TS; KEY_HISTORY] → new k = old k.

Lemma written_plan id now k old :
  written (plan id now) k old =
    if decide (k = KEY_SESSION) then Some (as_bytes (session id))
    else if decide (k = KEY_TOOL) then Some (as_bytes (tool id))
    else if decide (k = KEY_TURN) then
      match turn id with Some t => Some (as_bytes t) | None => old end
    else if decide (k = KEY_INTENT) then
      match intent id with Some i => Some (as_bytes i) | None => old end
    else if decide (k = KEY_TS) then Some (as_bytes now)
    else old.
Proof.
  unfold plan. destruct id as [se to [tu|] [it|]]; cbn [written app turn intent session tool].
  all: repeat case_decide; subst; done.
Qed.

Lemma stamp_store `{!XattrStore (W:=W) step xa live} p id now w :
  exec_res step (stamp p id now) w = Ok tt →
  live (exec_world step (stamp p id now) w) p ∧
  stamped id now (xa w p) (xa (exec_world step (stamp p id now) w) p).
Proof.
  unfold exec_res, exec_world. rewrite (exec_equiv step _ _ w (stamp_plan p id now)).
  change (snd (exec step ?q ?w')) with (exec_world step q w').
  change (snd (fst (exec step ?q ?w'))) with (exec_res step q w').
  destruct (exec_res_try step (write_all p (plan id now)) (λ _, write_history p id) w) as [-> ->].
  destruct (exec_res step (write_all p (plan id now)) w) as [[]|e] eqn:E; [|done].
  apply (write_all_store (xa:=xa) (live:=live)) in E as [[Hp|Hl] Hxa]; [by destruct id|].
  intros Hh. destruct (write_history_store (xa:=xa) _ _ _ Hl Hh) as (Hl' & Hhist & Hother).
  split; [done|]. unfold stamped. rewrite Hhist, !Hother by done. rewrite !Hxa, !written_plan.
  split_and!; try done. intros k Hk. rewrite Hother, Hxa, written_plan by set_solver.
  rewrite !decide_False by set_solver. done.
Qed.

(** ** Theorems *)

(** C28: a stamp stops at its first failing write and returns that error; it
    writes session, tool, turn and intent when present, timestamp, and last
    the history, the advanced ring over what it reads back; it succeeds
    exactly when every one of those writes does. *)
Theorem stamp_stops_at_first_error (path : bytes) (id : Identity) (now : str)
    (tr : trace) (r : io_result unit) :
  runs (stamp path id now) tr r ↔
  (∃ done_ kv rest e, plan id now = done_ ++ kv :: rest ∧
     tr = ((λ kv, set_ev path kv (Ok tt)) <$> done_) ++ [set_ev path kv (Err e)] ∧ r = Err e) ∨
  (∃ g, tr = ((λ kv, set_ev path kv (Ok tt)) <$> plan id now) ++
     [Ev (XattrGet path KEY_HISTORY) g;
      set_ev path (KEY_HISTORY, push_history (prior_of g) (session id)) r]).
Proof. apply stamp_runs. Qed.

(** A successful stamp on a lawful attribute store leaves exactly the six
    canonical keys of the identity, the history advanced over the stored one;
    the turn and intent of an earlier stamp stay in place when the new identity
    has none, and no other key changes. *)
Theorem stamp_writes_identity (W : Type) (step : ∀ c : call, W → resp c * W)
    (xa : W → bytes → str → option bytes) (live : W → bytes → Prop)
    (Hstore : XattrStore step xa live) (p : bytes) (id : Identity) (now : str) (w : W)
    (Hok : exec_res step (stamp p id now) w = Ok tt) :
  stamped id now (xa w p) (xa (exec_world step (stamp p id now) w) p).
Proof. by apply (stamp_store p id now w). Qed.

Definition sample_id : Identity :=
  {| session := lit "S1"; tool := lit "Edit"; turn := Some (lit "3"); intent := None |}.

Lemma stamp_writes_identity_witness :
  stamped sample_id (lit "t") (mem_xa ∅ (blit "/a"))
    (mem_xa (exec_world mem_step (stamp (blit "/a") sample_id (lit "t")) ∅) (blit "/a")).
Proof.
  apply (stamp_writes_identity _ mem_step mem_xa mem_live mem_store). by vm_compute.
Defined.

(** A later stamp without a turn leaves the earlier session's turn in place:
    the attributes then mix two sessions. *)
Theorem stamp_keeps_stale_turn :
  ∃ (id1 id2 : Identity) (p : bytes) (now : str),
    let w1 := exec_world mem_step (stamp p id1 now) ∅ in
    let w2 := exec_world mem_step (stamp p id2 now) w1 in
    turn id2 = None ∧ mem_xa w2 p KEY_SESSION = Some (as_bytes (session id2)) ∧
    mem_xa w2 p KEY_TURN = as_bytes <$> turn id1 ∧ is_Some (turn id1).
Proof.
  exists sample_id,
    {| session := lit "S2"; tool := lit "Edit"; turn := None; intent := None |},
    (blit "/a"), (lit "t").
  split_and!; [done|by vm_compute..|by eexists].
Qed.
