(* ===== verification/InodeTable.v ===== *)
(** The inode table of the overlay ([InodeTable] in [src/fs.rs]): FUSE inode
    numbers and the absolute paths they stand for.  The reverse map is keyed
    by the components of a path, since that is how [HashMap<PathBuf, _>]
    compares and hashes its keys. *)

From S2P Require Import Prelude RustStr RustPath.

Open Scope Z_scope.

(** ** Definitions *)

Definition ROOT_INO : Z := 1.

Record InodeTable : Type := {
  fwd : gmap Z bytes;
  rev : gmap (list component) Z;
  next_ino : Z;
}.

(** [u64] addition as a release build does it. *)
Definition wrapping_add_u64 (a b : Z) : Z := (a + b) `mod` 2 ^ 64.

(** [InodeTable::with_root]. *)
Definition with_root (root : bytes) : InodeTable :=
  {| fwd := <[ROOT_INO := root]> ∅;
     rev := <[components root := ROOT_INO]> ∅;
     next_ino := ROOT_INO + 1 |}.

(** [InodeTable::path]. *)
Definition path (t : InodeTable) (ino : Z) : option bytes := fwd t !! ino.

(** [InodeTable::intern]. *)
Definition intern (t : InodeTable) (p : bytes) : Z * InodeTable :=
  match rev t !! components p with
  | Some ino => (ino, t)
  | None =>
      let ino := next_ino t in
      (ino, {| fwd := <[ino := p]> (fwd t);
               rev := <[components p := ino]> (rev t);
               next_ino := wrapping_add_u64 (next_ino t) 1 |})
  end.

(** [InodeTable::forget_path]. *)
Definition forget_path (t : InodeTable) (p : bytes) : InodeTable :=
  match rev t !! components p with
  | Some ino =>
      {| fwd := delete ino (fwd t);
         rev := delete (components p) (rev t);
         next_ino := next_ino t |}
  | None => t
  end.

(** ** Specification *)

(** The two maps are inverse to each other up to path equality, and no number
    at or above the counter is in use. *)
Record table_wf (t : InodeTable) : Prop := {
  wf_fwd ino p : fwd t !! ino = Some p → rev t !! components p = Some ino;
  wf_rev cs ino : rev t !! cs = Some ino → ∃ p, fwd t !! ino = Some p ∧ components p = cs;
  wf_range ino p : fwd t !! ino = Some p → ROOT_INO ≤ ino < next_ino t;
  wf_next : ROOT_INO < next_ino t ≤ u64_max;
}.

(** The operations the overlay performs on the table. *)
Inductive table_op : Type :=
| OpIntern (p : bytes)
| OpForget (p : bytes).

Definition table_step (t : InodeTable) (op : table_op) : InodeTable :=
  match op with
  | OpIntern p => (intern t p).2
  | OpForget p => forget_path t p
  end.

Definition table_run (t : InodeTable) (ops : list table_op) : InodeTable := foldl table_step t ops.

(** ** Lemmas *)

Lemma with_root_wf root : table_wf (with_root root).
Proof.
  split; unfold with_root, ROOT_INO; simpl.
  - intros ino p [[<- <-]|[_ ?]]%lookup_insert_Some; [|done]. by rewrite lookup_insert_eq.
  - intros cs ino [[<- <-]|[_ ?]]%lookup_insert_Some; [|done].
    exists root. by rewrite lookup_insert_eq.
  - intros ino p [[<- <-]|[_ ?]]%lookup_insert_Some; [lia|done].
  - unfold u64_max. lia.
Qed.

(** [intern] does not see how a path is spelled. *)
#[export] Instance intern_ino_proper t : Proper (path_eq ==> eq) (λ p, (intern t p).1).
Proof. intros p q Hpq. unfold intern, path_eq in *. rewrite Hpq. by destruct (rev t !! components q). Qed.

#[export] Instance forget_path_proper t : Proper (path_eq ==> eq) (forget_path t).
Proof. intros p q Hpq. unfold forget_path, path_eq in *. by rewrite Hpq. Qed.

Section Wf.
Context (t : InodeTable) (Hwf : table_wf t).

(** Two numbers for the same file are the same number. *)
Lemma path_inj i j p q : path t i = Some p → path t j = Some q → path_eq p q → i = j.
Proof.
  unfold path. intros Hi%(wf_fwd _ Hwf) Hj%(wf_fwd _ Hwf) Hpq.
  unfold path_eq in Hpq. congruence.
Qed.

(** The number [intern] returns stands for the path. *)
Lemma intern_path p :
  ∃ q, path (intern t p).2 (intern t p).1 = Some q ∧ path_eq q p ∧
       (rev t !! components p = None → q = p).
Proof.
  unfold intern, path. destruct (rev t !! components p) as [ino|] eqn:E; simpl.
  - destruct (wf_rev _ Hwf _ _ E) as (q & Hq & Hqp). by exists q.
  - exists p. by rewrite lookup_insert_eq.
Qed.

(** No other number changes meaning. *)
Lemma intern_stable p i q : path t i = Some q → path (intern t p).2 i = Some q.
Proof.
  unfold intern, path. destruct (rev t !! components p) as [ino|] eqn:E; simpl; [done|].
  intros Hi. rewrite lookup_insert_ne; [done|].
  intros <-. apply (wf_range _ Hwf) in Hi. lia.
Qed.

Lemma intern_new p i q :
  path (intern t p).2 i = Some q → path t i = Some q ∨ (i = (intern t p).1 ∧ path t i = None ∧ q = p).
Proof.
  unfold intern, path. destruct (rev t !! components p) as [ino|] eqn:E; simpl; [by left|].
  intros [[<- <-]|[? ?]]%lookup_insert_Some; [|by left]. right. split; [done|]. split; [|done].
  destruct (fwd t !! next_ino t) as [r|] eqn:Er; [|done]. apply (wf_range _ Hwf) in Er. lia.
Qed.

Lemma intern_next p :
  next_ino t < u64_max →
  next_ino (intern t p).2 = next_ino t + (match rev t !! components p with Some _ => 0 | None => 1 end).
Proof.
  intros Hlt. pose proof (wf_next _ Hwf) as Hn. unfold intern, ROOT_INO, u64_max in *.
  destruct (rev t !! components p); simpl; [lia|].
  unfold wrapping_add_u64. rewrite Z.mod_small by lia. lia.
Qed.

Lemma intern_ino_range p : ROOT_INO ≤ (intern t p).1 ≤ next_ino t.
Proof.
  pose proof (wf_next _ Hwf). unfold intern. destruct (rev t !! components p) as [ino|] eqn:E; simpl; [|lia].
  destruct (wf_rev _ Hwf _ _ E) as (q & Hq & _). apply (wf_range _ Hwf) in Hq. lia.
Qed.

Lemma intern_wf p : next_ino t < u64_max → table_wf (intern t p).2.
Proof.
  intros Hlt. pose proof (intern_next p Hlt) as Hnext. pose proof (wf_next _ Hwf) as Hn.
  unfold intern in *. destruct (rev t !! components p) as [ino|] eqn:E; simpl in *; [done|].
  split; simpl; rewrite ?Hnext.
  - intros ino q [[<- <-]|[Hne Hq]]%lookup_insert_Some; [by rewrite lookup_insert_eq|].
    pose proof (wf_fwd _ Hwf _ _ Hq) as Hr. rewrite lookup_insert_ne; [done|]. congruence.
  - intros cs ino [[<- <-]|[Hne Hq]]%lookup_insert_Some.
    + exists p. by rewrite lookup_insert_eq.
    + destruct (wf_rev _ Hwf _ _ Hq) as (q & Hf & Hc). exists q. split; [|done].
      rewrite lookup_insert_ne; [done|]. intros <-. apply (wf_range _ Hwf) in Hf. lia.
  - intros ino q [[<- <-]|[Hne Hq]]%lookup_insert_Some; [lia|].
    apply (wf_range _ Hwf) in Hq. lia.
  - lia.
Qed.

Lemma forget_wf p : table_wf (forget_path t p).
Proof.
  unfold forget_path. destruct (rev t !! components p) as [ino|] eqn:E; [|done].
  destruct (wf_rev _ Hwf _ _ E) as (q & Hq & Hqc). split; simpl.
  - intros i r [Hne Hr]%lookup_delete_Some. pose proof (wf_fwd _ Hwf _ _ Hr) as Hrr.
    rewrite lookup_delete_ne; [done|]. congruence.
  - intros cs i [Hne Hr]%lookup_delete_Some.
    destruct (wf_rev _ Hwf _ _ Hr) as (r & Hf & Hc). exists r. split; [|done].
    rewrite lookup_delete_ne; [done|]. intros <-. congruence.
  - intros i r [_ Hr]%lookup_delete_Some. by apply (wf_range _ Hwf) in Hr.
  - apply (wf_next _ Hwf).
Qed.

(** Forgetting a path drops exactly the numbers of that file. *)
Lemma forget_path_spec p i q :
  path (forget_path t p) i = Some q ↔ path t i = Some q ∧ ¬ path_eq q p.
Proof.
  unfold forget_path, path. destruct (rev t !! components p) as [ino|] eqn:E; simpl.
  - destruct (wf_rev _ Hwf _ _ E) as (r & Hr & Hrc). rewrite lookup_delete_Some. split.
    + intros [Hne Hi]. split; [done|]. intros Hqp. apply (wf_fwd _ Hwf) in Hi.
      rewrite Hqp in Hi. congruence.
    + intros [Hi Hne]. split; [|done]. intros <-. apply Hne. unfold path_eq. congruence.
  - split; [|by intros [? _]]. intros Hi. split; [done|]. intros Hqp.
    apply (wf_fwd _ Hwf) in Hi. rewrite Hqp in Hi. congruence.
Qed.

Lemma forget_next p : next_ino (forget_path t p) = next_ino t.
Proof. unfold forget_path. by destruct (rev t !! components p). Qed.
End Wf.

(** Every operation keeps the invariant and moves the counter by at most one. *)
Lemma table_step_wf t op :
  table_wf t → next_ino t < u64_max →
  table_wf (table_step t op) ∧ next_ino t ≤ next_ino (table_step t op) ≤ next_ino t + 1.
Proof.
  intros Hwf Hlt. destruct op as [p|p]; simpl.
  - rewrite (intern_next t Hwf p Hlt). split; [by apply intern_wf|]. case_match; lia.
  - rewrite forget_next. split; [by apply forget_wf|lia].
Qed.

Lemma table_run_wf t ops :
  table_wf t → next_ino t + Z.of_nat (length ops) ≤ u64_max →
  table_wf (table_run t ops) ∧
  next_ino t ≤ next_ino (table_run t ops) ≤ next_ino t + Z.of_nat (length ops).
Proof.
  revert t. induction ops as [|op ops IH]; intros t Hwf Hlen; simpl in *; [split; [done|lia]|].
  destruct (table_step_wf t op Hwf) as [Hwf' Hn]; [lia|].
  destruct (IH (table_step t op) Hwf') as [? ?]; [lia|]. split; [done|lia].
Qed.

(** A number below the counter that stands for nothing stays dead. *)
Lemma table_step_dead t op i :
  table_wf t → i < next_ino t → path t i = None → path (table_step t op) i = None.
Proof.
  intros Hwf Hi Hd. destruct (path (table_step t op) i) as [q|] eqn:E; [|done]. exfalso.
  destruct op as [p|p]; simpl in E.
  - unfold intern, path in *. destruct (rev t !! components p) as [ino|]; simpl in *; [congruence|].
    apply lookup_insert_Some in E as [[? _]|[_ ?]]; [lia|congruence].
  - apply forget_path_spec in E as [? _]; [congruence|done].
Qed.

#[export] Hint Resolve with_root_wf intern_wf forget_wf : provfs.

(** ** Theorems *)

(** C9: after any sequence of interning and forgetting on a fresh table, as
    long as the 64-bit counter has not run out, the table is a bijection: each
    live number has one path, and two live numbers never stand for the same
    file, however its path is spelled. *)
Theorem inode_table_bijection (root : bytes) (ops : list table_op)
    (Hlen : 2 + Z.of_nat (length ops) ≤ u64_max) :
  let t := table_run (with_root root) ops in
  table_wf t ∧
  (∀ i j p q, path t i = Some p → path t j = Some q → path_eq p q → i = j) ∧
  (∀ p, ∃ q, path (intern t p).2 (intern t p).1 = Some q ∧ path_eq q p).
Proof.
  destruct (table_run_wf (with_root root) ops) as [Hwf _]; [apply with_root_wf|done|].
  simpl. split_and!; [done| |].
  - intros i j p q. by apply path_inj.
  - intros p. destruct (intern_path _ Hwf p) as (q & ? & ? & _). by exists q.
Qed.

Lemma inode_table_bijection_witness :
  table_wf (table_run (with_root (blit "/src")) [OpIntern (blit "/src/a"); OpForget (blit "/src//a")]).
Proof. apply inode_table_bijection. by vm_compute. Defined.

(** C22: an inode number is never reused: once the table has handed out a
    number and dropped it, no later operation gives it a meaning again, so a
    handle the kernel still holds cannot come to name another file. *)
Theorem inode_never_reused (t : InodeTable) (ops : list table_op) (i : Z)
    (Hwf : table_wf t) (Hlen : next_ino t + Z.of_nat (length ops) ≤ u64_max)
    (Hi : i < next_ino t) (Hdead : path t i = None) :
  path (table_run t ops) i = None ∧
  ∀ p, path (table_run t ops) (intern (table_run t ops) p).1 = None →
       (intern (table_run t ops) p).1 ≠ i.
Proof.
  assert (path (table_run t ops) i = None ∧ i < next_ino (table_run t ops) ∧
          table_wf (table_run t ops)) as (Hp & Hn & Hwf').
  { clear -Hwf Hlen Hi Hdead. revert t Hwf Hlen Hi Hdead.
    induction ops as [|op ops IH]; intros t Hwf Hlen Hi Hd; [done|].
    simpl in Hlen. destruct (table_step_wf t op Hwf) as [Hwf' Hn]; [lia|].
    apply (IH (table_step t op)); [done|lia|lia|by apply table_step_dead]. }
  split; [done|]. intros p Hnone <-. unfold intern in *.
  destruct (rev (table_run t ops) !! components p) as [j|] eqn:E; simpl in *; [|lia].
  destruct (wf_rev _ Hwf' _ _ E) as (q & Hq & _). unfold path in Hnone. congruence.
Qed.

Lemma inode_never_reused_witness :
  path (table_run (forget_path (intern (with_root (blit "/s")) (blit "/s/a")).2 (blit "/s/a"))
          [OpIntern (blit "/s/a"); OpIntern (blit "/s/b")]) 2 = None.
Proof.
  apply inode_never_reused.
  - apply forget_wf, intern_wf; [apply with_root_wf|by vm_compute].
  - by vm_compute.
  - by vm_compute.
  - by vm_compute.
Defined.

Close Scope Z_scope.
