(* ===== verification/FileAttr.v ===== *)
(** From [libc::stat] to the attributes a FUSE reply carries
    ([libc_stat_to_attr], [lstat] and [io_err_to_errno] in [src/fs.rs]). *)

From S2P Require Import Prelude RustStr RustPath Sys.

Open Scope Z_scope.

(** ** Definitions *)

Inductive FileType : Type :=
| Directory | Symlink | BlockDevice | CharDevice | NamedPipe | Socket | RegularFile.

#[export] Instance FileType_eq_dec : EqDecision FileType.
Proof. solve_decision. Defined.

(** [SystemTime], as seconds and nanoseconds since the epoch. *)
Record SystemTime : Type := Time { secs : Z; nanos : Z }.

Record FileAttr : Type := {
  ino : Z; size : Z; blocks : Z;
  atime : SystemTime; mtime : SystemTime; ctime : SystemTime; crtime : SystemTime;
  kind : FileType; perm : Z; nlink : Z; uid : Z; gid : Z; rdev : Z; blksize : Z; flags : Z;
}.

(** File type bits of a mode (Linux). *)
Definition S_IFMT : Z := 0xF000.
Definition S_IFSOCK : Z := 0xC000.
Definition S_IFLNK : Z := 0xA000.
Definition S_IFBLK : Z := 0x6000.
Definition S_IFDIR : Z := 0x4000.
Definition S_IFCHR : Z := 0x2000.
Definition S_IFIFO : Z := 0x1000.

Definition UNIX_EPOCH : SystemTime := Time 0 0.

(** [Duration::new] added to the epoch: nanoseconds past a second carry. *)
Definition epoch_plus (s n : Z) : SystemTime := Time (s + n / 10 ^ 9) (n `mod` 10 ^ 9).

(** The closure [mk] of [libc_stat_to_attr]. *)
Definition mk_time (s n : Z) : SystemTime :=
  let nanos_u32 := default 0 (try_u32 (Z.max n 0)) in
  if 0 <=? s then
    let secs_u64 := default 0 (try_u64 s) in epoch_plus secs_u64 nanos_u32
  else UNIX_EPOCH.

Definition mode_kind (st_mode : Z) : FileType :=
  let m := Z.land st_mode S_IFMT in
  if m =? S_IFDIR then Directory
  else if m =? S_IFLNK then Symlink
  else if m =? S_IFBLK then BlockDevice
  else if m =? S_IFCHR then CharDevice
  else if m =? S_IFIFO then NamedPipe
  else if m =? S_IFSOCK then Socket
  else RegularFile.

Definition libc_stat_to_attr (i : Z) (st : stat) : FileAttr :=
  {| ino := i;
     size := default 0 (try_u64 (st_size st));
     blocks := default 0 (try_u64 (st_blocks st));
     atime := mk_time (st_atime st) (st_atime_nsec st);
     mtime := mk_time (st_mtime st) (st_mtime_nsec st);
     ctime := mk_time (st_ctime st) (st_ctime_nsec st);
     crtime := mk_time (st_ctime st) (st_ctime_nsec st);
     kind := mode_kind (st_mode st);
     perm := default 0x1A4 (try_u16 (Z.land (st_mode st) 0xFFF));
     nlink := default 1 (try_u32 (st_nlink st));
     uid := st_uid st;
     gid := st_gid st;
     rdev := default 0 (try_u32 (st_rdev st));
     blksize := default 4096 (try_u32 (st_blksize st));
     flags := 0 |}.

(** The message of the error [CString::new] gives; it carries no errno. *)
Definition nul_error : io_error := OtherError (lit "file name contained an unexpected NUL byte").

(** [lstat] of [src/fs.rs]. *)
Definition lstat (p : bytes) : prog (io_result stat) :=
  match cstring_new p with
  | None => mret (Err nul_error)
  | Some cstr =>
      '(rc, errno, st) ← sys (Lstat cstr);
      mret (if rc <? 0 then Err (OsError errno) else Ok st)
  end.

Definition io_err_to_errno (e : io_error) : Z := default EIO (raw_os_error e).

(** ** Specification *)

(** The C types of the fields on 64-bit Linux. *)
Definition stat_typed (st : stat) : Prop :=
  (0 ≤ st_mode st ≤ u32_max) ∧ (i64_min ≤ st_size st ≤ i64_max) ∧
  (i64_min ≤ st_blocks st ≤ i64_max) ∧ (0 ≤ st_nlink st ≤ u64_max) ∧
  (0 ≤ st_uid st ≤ u32_max) ∧ (0 ≤ st_gid st ≤ u32_max) ∧ (0 ≤ st_rdev st ≤ u64_max) ∧
  (i64_min ≤ st_blksize st ≤ i64_max) ∧
  Forall (λ s, i64_min ≤ s ≤ i64_max) [st_atime st; st_mtime st; st_ctime st] ∧
  Forall (λ n, 0 ≤ n < 10 ^ 9) [st_atime_nsec st; st_mtime_nsec st; st_ctime_nsec st].

(** A time the kernel can report, clamped at the epoch. *)
Definition clamp_time (s n : Z) : SystemTime := if 0 <=? s then Time s n else UNIX_EPOCH.

(** The file type nibble of a mode. *)
Definition nibble_kind (k : Z) : FileType :=
  if k =? 4 then Directory else if k =? 10 then Symlink else if k =? 6 then BlockDevice
  else if k =? 2 then CharDevice else if k =? 1 then NamedPipe else if k =? 12 then Socket
  else RegularFile.

(** ** Lemmas *)

Lemma mk_time_clamp s n : i64_min ≤ s ≤ i64_max → 0 ≤ n < 10 ^ 9 → mk_time s n = clamp_time s n.
Proof.
  unfold mk_time, clamp_time, try_u32, try_u64, i64_min, i64_max. intros Hs Hn.
  destruct (0 <=? s) eqn:E; [|done].
  rewrite !try_from_in by (unfold u32_max, u64_max; lia). simpl. unfold epoch_plus.
  rewrite Z.max_l by lia. rewrite Z.div_small, Z.mod_small by lia. by rewrite Z.add_0_r.
Qed.

Lemma land_ifmt m : Z.land m S_IFMT = Z.land (m / 4096) 15 * 4096.
Proof.
  unfold S_IFMT. change 4096 with (2 ^ 12). change 0xF000 with (Z.shiftl 15 12).
  rewrite <-Z.shiftl_mul_pow2, <-Z.shiftr_div_pow2 by lia.
  apply Z.bits_inj'. intros i Hi. rewrite Z.land_spec.
  destruct (Z.lt_ge_cases i 12) as [Hlt|Hge].
  - rewrite !Z.shiftl_spec_low by lia. by rewrite andb_false_r.
  - rewrite !Z.shiftl_spec_high by lia. rewrite Z.land_spec, Z.shiftr_spec by lia.
    by replace (i - 12 + 12) with i by lia.
Qed.

Lemma mode_kind_nibble m : mode_kind m = nibble_kind ((m / 4096) `mod` 16).
Proof.
  unfold mode_kind, nibble_kind, S_IFDIR, S_IFLNK, S_IFBLK, S_IFCHR, S_IFIFO, S_IFSOCK.
  rewrite land_ifmt. change 15 with (Z.ones 4). rewrite Z.land_ones by lia.
  change (2 ^ 4) with 16. generalize ((m / 4096) `mod` 16). intros k.
  repeat match goal with |- context [?a =? ?b] => destruct (Z.eqb_spec a b) end; done || lia.
Qed.

Lemma try_u32_default d z :
  default d (try_u32 z) = if (0 <=? z) && (z <? 2 ^ 32) then z else d.
Proof.
  unfold try_u32, u32_max. case_match eqn:E; [rewrite try_from_in by lia|rewrite try_from_out by lia]; done.
Qed.

Lemma try_u32_default_pos d z : 0 ≤ z → default d (try_u32 z) = if z <? 2 ^ 32 then z else d.
Proof. intros Hz. rewrite try_u32_default. by replace (0 <=? z) with true by lia. Qed.

Lemma land_perm m : Z.land m 0xFFF = m `mod` 4096.
Proof. change 0xFFF with (Z.ones 12). by rewrite Z.land_ones. Qed.

(** ** Theorems *)

(** C38: on any [stat] a 64-bit Linux kernel can fill in, every attribute of
    the reply is pinned: the number is the one given, the type is the one of the
    mode's top nibble, the permission bits are its low twelve and never fall
    back, owner and group are the file's, times before the epoch are clamped to
    it and all others exact (creation is reported as the change time), a
    negative size or block count is zero, and a link count, a device or a block
    size that does not fit its 32 bits becomes 1, 0 or 4096 instead of a
    wrapped value. *)
Theorem libc_stat_to_attr_spec (i : Z) (st : stat) (Ht : stat_typed st) :
  let a := libc_stat_to_attr i st in
  ino a = i ∧ kind a = nibble_kind ((st_mode st / 4096) `mod` 16) ∧
  perm a = st_mode st `mod` 4096 ∧ uid a = st_uid st ∧ gid a = st_gid st ∧
  size a = Z.max 0 (st_size st) ∧ blocks a = Z.max 0 (st_blocks st) ∧
  nlink a = (if st_nlink st <? 2 ^ 32 then st_nlink st else 1) ∧
  rdev a = (if st_rdev st <? 2 ^ 32 then st_rdev st else 0) ∧
  blksize a = (if (0 <=? st_blksize st) && (st_blksize st <? 2 ^ 32) then st_blksize st else 4096) ∧
  atime a = clamp_time (st_atime st) (st_atime_nsec st) ∧
  mtime a = clamp_time (st_mtime st) (st_mtime_nsec st) ∧
  ctime a = clamp_time (st_ctime st) (st_ctime_nsec st) ∧ crtime a = ctime a ∧ flags a = 0.
Proof.
  destruct Ht as (Hm & Hs & Hb & Hn & _ & _ & Hr & Hk & Hsec & Hns).
  apply Forall_cons in Hsec as [? [? [? _]%Forall_cons]%Forall_cons].
  apply Forall_cons in Hns as [? [? [? _]%Forall_cons]%Forall_cons].
  simpl. rewrite mode_kind_nibble, land_perm, !mk_time_clamp by done.
  rewrite !(try_u32_default_pos _ (_ st)), try_u32_default by tauto.
  pose proof (Z.mod_pos_bound (st_mode st) 4096 ltac:(lia)).
  unfold try_u16, try_u64, i64_min, i64_max, u32_max, u64_max in *.
  split_and!; try done; [rewrite try_from_in; [done|lia]|..]; apply try_from_clamp; lia.
Qed.

Definition sample_stat : stat :=
  Stat 0x81A4 5 8 1 1000 1000 0 4096 (-3) 0 1700000000 7 1700000000 7.

Lemma libc_stat_to_attr_spec_witness :
  stat_typed sample_stat ∧ perm (libc_stat_to_attr 2 sample_stat) = sample_stat.(st_mode) `mod` 4096.
Proof.
  assert (stat_typed sample_stat) as Ht.
  { unfold stat_typed, sample_stat, i64_min, i64_max, u32_max, u64_max; simpl.
    repeat first [split | constructor | lia]. }
  split; [exact Ht|]. apply (libc_stat_to_attr_spec 2 sample_stat Ht).
Defined.

Close Scope Z_scope.
