(* ===== verification/ProvFs.v ===== *)
(** The overlay filesystem ([ProvFs] and its [Filesystem] implementation in
    [src/fs.rs]): each handler as a program that takes the mutable state and
    returns the reply with the new state. *)

From S2P Require Import Prelude RustStr RustPath Sys Skip Identity Xattrs InodeTable FileAttr.
From Stdlib Require Import Strings.Byte.

Open Scope Z_scope.

(** ** Stamping *)

Definition should_stamp (relpath : bytes) (skip : SkipList) : bool := negb (should_skip skip relpath).

(** A failed stamp is logged, never propagated. *)
Definition stamp_now (abspath : bytes) (pid : N) : prog unit :=
  id ← resolve_identity pid;
  now ← sys UtcNow;
  r ← stamp abspath id now;
  match r with
  | Err e => sys (LogWarn abspath (session id) e)
  | Ok _ => mret tt
  end.

Definition stamp_with (abspath : bytes) (id : Identity) (now_iso : str) : prog (io_result unit) :=
  stamp abspath id now_iso.

(** ** State *)

(** The [HashMap<u64, ()>] of dirty inodes is the set of its keys. *)
Record ProvFs : Type := {
  source : bytes;
  skip : SkipList;
  inodes : InodeTable;
  dirty : gset Z;
}.

Definition set_inodes (fs : ProvFs) (t : InodeTable) : ProvFs :=
  {| source := source fs; skip := skip fs; inodes := t; dirty := dirty fs |}.
Definition set_dirty (fs : ProvFs) (d : gset Z) : ProvFs :=
  {| source := source fs; skip := skip fs; inodes := inodes fs; dirty := d |}.

(** [ProvFs::new]. *)
Definition new (source : bytes) (skip : SkipList) : ProvFs :=
  {| source := source; skip := skip; inodes := with_root source; dirty := ∅ |}.

Definition relpath (fs : ProvFs) (abs : bytes) : bytes :=
  default abs (path_strip_prefix abs (source fs)).

Definition maybe_stamp (fs : ProvFs) (abs : bytes) (pid : N) : prog unit :=
  let rel := relpath fs abs in
  if should_stamp rel (skip fs) then stamp_now abs pid else mret tt.

(** ** Replies *)

Definition TTL : Z := 1.

(** What [ReplyDirectory::add] is given: inode, next offset, type, name. *)
Record dentry : Type := Dentry { de_ino : Z; de_off : Z; de_type : FileType; de_name : bytes }.

(** The directory buffer of the FUSE library: [add] says whether the buffer
    was full. *)
Record DirBuf : Type := {
  buf : Type;
  buf_add : buf → dentry → buf * bool;
}.

Inductive reply {B : Type} : Type :=
| ReplyError (errno : Z)
| ReplyEntry (ttl : Z) (attr : FileAttr) (generation : Z)
| ReplyAttr (ttl : Z) (attr : FileAttr)
| ReplyCreated (ttl : Z) (attr : FileAttr) (generation fh flags : Z)
| ReplyOpened (fh flags : Z)
| ReplyData (data : bytes)
| ReplyWritten (n : Z)
| ReplyOk
| ReplyDirectory (b : B).
Arguments reply : clear implicits.

(** The errno a failed libc call left, as the handlers reply it. *)
Definition last_errno (errno : Z) : Z := default EIO (raw_os_error (OsError errno)).

Definition O_ACCMODE : Z := 3.
Definition O_RDONLY : Z := 0.
Definition O_CREAT : Z := 64.

(** [as libc::off_t] on a [u64]. *)
Definition as_off_t (sz : Z) : Z := if sz <=? i64_max then sz else sz - 2 ^ 64.

(** ** Handlers *)

Section Handlers.
Context (D : DirBuf).
Abbreviation reply_to := (reply (buf D)).

Definition lookup (fs : ProvFs) (parent : Z) (name : bytes) : prog (reply_to * ProvFs) :=
  match path (inodes fs) parent with
  | None => mret (ReplyError ENOENT, fs)
  | Some parent_path =>
      let child := join parent_path name in
      r ← lstat child;
      match r with
      | Ok st =>
          let '(ino, t) := intern (inodes fs) child in
          let attr := libc_stat_to_attr ino st in
          mret (ReplyEntry TTL attr 0, set_inodes fs t)
      | Err e => mret (ReplyError (io_err_to_errno e), fs)
      end
  end.

Definition getattr (fs : ProvFs) (ino : Z) : prog (reply_to * ProvFs) :=
  match path (inodes fs) ino with
  | None => mret (ReplyError ENOENT, fs)
  | Some p =>
      r ← lstat p;
      match r with
      | Ok st => mret (ReplyAttr TTL (libc_stat_to_attr ino st), fs)
      | Err e => mret (ReplyError (io_err_to_errno e), fs)
      end
  end.

Definition create (fs : ProvFs) (pid : N) (parent : Z) (name : bytes) (mode flags : Z)
    : prog (reply_to * ProvFs) :=
  match path (inodes fs) parent with
  | None => mret (ReplyError ENOENT, fs)
  | Some parent_path =>
      let child := join parent_path name in
      match cstring_new child with
      | None => mret (ReplyError EINVAL, fs)
      | Some cstr =>
          '(fd, errno) ← sys (Open cstr (Z.lor flags O_CREAT) mode);
          if fd <? 0 then mret (ReplyError (last_errno errno), fs)
          else
            r ← lstat child;
            match r with
            | Err e =>
                _ ← sys (Close fd);
                mret (ReplyError (io_err_to_errno e), fs)
            | Ok st =>
                let '(ino, t) := intern (inodes fs) child in
                let fs := set_inodes fs t in
                _ ← maybe_stamp fs child pid;
                let fs := set_dirty fs ({[ino]} ∪ dirty fs) in
                let attr := libc_stat_to_attr ino st in
                let fh := default 0 (try_u64 fd) in
                mret (ReplyCreated TTL attr 0 fh 0, fs)
            end
      end
  end.

Definition open (fs : ProvFs) (ino flags : Z) : prog (reply_to * ProvFs) :=
  match path (inodes fs) ino with
  | None => mret (ReplyError ENOENT, fs)
  | Some p =>
      match cstring_new p with
      | None => mret (ReplyError EINVAL, fs)
      | Some cstr =>
          '(fd, errno) ← sys (Open cstr flags 0);
          if fd <? 0 then mret (ReplyError (last_errno errno), fs)
          else
            let writable := negb (Z.land flags O_ACCMODE =? O_RDONLY) in
            let fs := if writable then set_dirty fs ({[ino]} ∪ dirty fs) else fs in
            mret (ReplyOpened (default 0 (try_u64 fd)) 0, fs)
      end
  end.

(** The buffer is zeroed, filled by the kernel and truncated to the count. *)
Definition filled (size : Z) (bs : bytes) : bytes :=
  take (Z.to_nat size) (bs ++ replicate (Z.to_nat size) x00).

Definition read (fs : ProvFs) (fh offset size : Z) : prog (reply_to * ProvFs) :=
  let fd := default (-1) (try_i32 fh) in
  if fd <? 0 then mret (ReplyError EBADF, fs)
  else
    '(n, errno, bs) ← sys (Pread fd size offset);
    if n <? 0 then mret (ReplyError (last_errno errno), fs)
    else
      let n_usize := default 0 (try_u64 n) in
      mret (ReplyData (take (Z.to_nat n_usize) (filled size bs)), fs).

Definition write (fs : ProvFs) (ino fh offset : Z) (data : bytes) : prog (reply_to * ProvFs) :=
  let fd := default (-1) (try_i32 fh) in
  if fd <? 0 then mret (ReplyError EBADF, fs)
  else
    '(n, errno) ← sys (Pwrite fd data offset);
    if n <? 0 then mret (ReplyError (last_errno errno), fs)
    else mret (ReplyWritten (default 0 (try_u32 n)), set_dirty fs ({[ino]} ∪ dirty fs)).

Definition release (fs : ProvFs) (pid : N) (ino fh : Z) : prog (reply_to * ProvFs) :=
  let fd := default (-1) (try_i32 fh) in
  _ ← (if 0 <=? fd then sys (Close fd) else mret 0);
  let was_dirty := bool_decide (ino ∈ dirty fs) in
  let fs := set_dirty fs (dirty fs ∖ {[ino]}) in
  _ ← (if was_dirty then
         match path (inodes fs) ino with
         | Some p => maybe_stamp fs p pid
         | None => mret tt
         end
       else mret tt);
  mret (ReplyOk, fs).

Definition setattr (fs : ProvFs) (pid : N) (ino : Z) (mode size : option Z) : prog (reply_to * ProvFs) :=
  match path (inodes fs) ino with
  | None => mret (ReplyError ENOENT, fs)
  | Some p =>
      match cstring_new p with
      | None => mret (ReplyError EINVAL, fs)
      | Some cstr =>
          e1 ← match mode with
               | Some m =>
                   '(rc, errno) ← sys (Chmod cstr m);
                   mret (if rc <? 0 then Some (last_errno errno) else None)
               | None => mret None
               end;
          match e1 with
          | Some e => mret (ReplyError e, fs)
          | None =>
              e2 ← match size with
                   | Some sz =>
                       '(rc, errno) ← sys (Truncate cstr (as_off_t sz));
                       mret (if rc <? 0 then Some (last_errno errno) else None)
                   | None => mret None
                   end;
              match e2 with
              | Some e => mret (ReplyError e, fs)
              | None =>
                  _ ← maybe_stamp fs p pid;
                  r ← lstat p;
                  match r with
                  | Ok st => mret (ReplyAttr TTL (libc_stat_to_attr ino st), fs)
                  | Err e => mret (ReplyError (io_err_to_errno e), fs)
                  end
              end
          end
      end
  end.

Definition mkdir (fs : ProvFs) (pid : N) (parent : Z) (name : bytes) (mode : Z)
    : prog (reply_to * ProvFs) :=
  match path (inodes fs) parent with
  | None => mret (ReplyError ENOENT, fs)
  | Some parent_path =>
      let child := join parent_path name in
      match cstring_new child with
      | None => mret (ReplyError EINVAL, fs)
      | Some cstr =>
          '(rc, errno) ← sys (Mkdir cstr mode);
          if rc <? 0 then mret (ReplyError (last_errno errno), fs)
          else
            r ← lstat child;
            match r with
            | Err e => mret (ReplyError (io_err_to_errno e), fs)
            | Ok st =>
                let '(ino, t) := intern (inodes fs) child in
                let fs := set_inodes fs t in
                _ ← maybe_stamp fs child pid;
                mret (ReplyEntry TTL (libc_stat_to_attr ino st) 0, fs)
            end
      end
  end.

Definition unlink (fs : ProvFs) (parent : Z) (name : bytes) : prog (reply_to * ProvFs) :=
  match path (inodes fs) parent with
  | None => mret (ReplyError ENOENT, fs)
  | Some parent_path =>
      let child := join parent_path name in
      match cstring_new child with
      | None => mret (ReplyError EINVAL, fs)
      | Some cstr =>
          '(rc, errno) ← sys (Unlink cstr);
          if rc <? 0 then mret (ReplyError (last_errno errno), fs)
          else mret (ReplyOk, set_inodes fs (forget_path (inodes fs) child))
      end
  end.

Definition rmdir (fs : ProvFs) (parent : Z) (name : bytes) : prog (reply_to * ProvFs) :=
  match path (inodes fs) parent with
  | None => mret (ReplyError ENOENT, fs)
  | Some parent_path =>
      let child := join parent_path name in
      match cstring_new child with
      | None => mret (ReplyError EINVAL, fs)
      | Some cstr =>
          '(rc, errno) ← sys (Rmdir cstr);
          if rc <? 0 then mret (ReplyError (last_errno errno), fs)
          else mret (ReplyOk, set_inodes fs (forget_path (inodes fs) child))
      end
  end.

(** The type a directory entry is listed with. *)
Definition list_type (r : io_result ftype) : FileType :=
  match r with
  | Ok FtDir => Directory
  | Ok FtSymlink => Symlink
  | Ok (FtFile | FtOther) | Err _ => RegularFile
  end.

(** The loop over [entries.flatten()]: unreadable entries are dropped, the
    others get an inode number. *)
Fixpoint list_entries (t : InodeTable) (dir : bytes) (ents : list (io_result dirent))
    : list (Z * FileType * bytes) * InodeTable :=
  match ents with
  | [] => ([], t)
  | Err _ :: ents' => list_entries t dir ents'
  | Ok ent :: ents' =>
      let '(child_ino, t1) := intern t (join dir (d_name ent)) in
      let '(all, t2) := list_entries t1 dir ents' in
      ((child_ino, list_type (d_type ent), d_name ent) :: all, t2)
  end.

(** The loop that fills the reply: [enumerate], [skip], stop when full. *)
Fixpoint add_entries (i : Z) (skip : Z) (all : list (Z * FileType * bytes)) (b : buf D) : buf D :=
  match all with
  | [] => b
  | (cino, ftype, name) :: all' =>
      if i <? skip then add_entries (i + 1) skip all' b
      else
        let next_off := default 0 (try_i64 (i + 1)) in
        let '(b', full) := buf_add D b (Dentry cino next_off ftype name) in
        if full then b' else add_entries (i + 1) skip all' b'
  end.

Definition readdir (fs : ProvFs) (ino offset : Z) (b : buf D) : prog (reply_to * ProvFs) :=
  match path (inodes fs) ino with
  | None => mret (ReplyError ENOENT, fs)
  | Some p =>
      r ← sys (ReadDir p);
      match r with
      | Err e => mret (ReplyError (io_err_to_errno e), fs)
      | Ok entries =>
          let '(children, t) := list_entries (inodes fs) p entries in
          let all := (ino, Directory, [dot]) :: (ino, Directory, [dot; dot]) :: children in
          let offset_usize := default 0 (try_u64 offset) in
          mret (ReplyDirectory (add_entries 0 offset_usize all b), set_inodes fs t)
      end
  end.

(** ** The session loop *)

Inductive request : Type :=
| ReqLookup (parent : Z) (name : bytes)
| ReqGetattr (ino : Z)
| ReqCreate (parent : Z) (name : bytes) (mode flags : Z)
| ReqOpen (ino flags : Z)
| ReqRead (ino fh offset size : Z)
| ReqWrite (ino fh offset : Z) (data : bytes)
| ReqRelease (ino fh : Z)
| ReqSetattr (ino : Z) (mode size : option Z)
| ReqMkdir (parent : Z) (name : bytes) (mode : Z)
| ReqUnlink (parent : Z) (name : bytes)
| ReqRmdir (parent : Z) (name : bytes)
| ReqReaddir (ino fh offset : Z) (b : buf D).

Definition handle (pid : N) (rq : request) (fs : ProvFs) : prog (reply_to * ProvFs) :=
  match rq with
  | ReqLookup parent name => lookup fs parent name
  | ReqGetattr ino => getattr fs ino
  | ReqCreate parent name mode flags => create fs pid parent name mode flags
  | ReqOpen ino flags => open fs ino flags
  | ReqRead _ fh offset size => read fs fh offset size
  | ReqWrite ino fh offset data => write fs ino fh offset data
  | ReqRelease ino fh => release fs pid ino fh
  | ReqSetattr ino mode size => setattr fs pid ino mode size
  | ReqMkdir parent name mode => mkdir fs pid parent name mode
  | ReqUnlink parent name => unlink fs parent name
  | ReqRmdir parent name => rmdir fs parent name
  | ReqReaddir ino _ offset b => readdir fs ino offset b
  end.

(** Requests are served one at a time, each handler having the filesystem to
    itself ([&mut self]). *)
Fixpoint serve (rqs : list (N * request)) (fs : ProvFs) : prog (list reply_to * ProvFs) :=
  match rqs with
  | [] => mret ([], fs)
  | (pid, rq) :: rqs' =>
      '(rep, fs1) ← handle pid rq fs;
      '(reps, fs2) ← serve rqs' fs1;
      mret (rep :: reps, fs2)
  end.
End Handlers.
Arguments ReqLookup {D} parent name.
Arguments ReqGetattr {D} ino.
Arguments ReqCreate {D} parent name mode flags.
Arguments ReqOpen {D} ino flags.
Arguments ReqRead {D} ino fh offset size.
Arguments ReqWrite {D} ino fh offset data.
Arguments ReqRelease {D} ino fh.
Arguments ReqSetattr {D} ino mode size.
Arguments ReqMkdir {D} parent name mode.
Arguments ReqUnlink {D} parent name.
Arguments ReqRmdir {D} parent name.
Arguments ReqReaddir {D} ino fh offset b.

(** ** Lemmas *)

(** What stamping [p] for [pid] may call. *)
Definition stamp_call (p : bytes) (pid : N) (c : call) : Prop :=
  match c with
  | ReadFile f => f = environ_path pid ∨ f = comm_path pid
  | UtcNow => True
  | XattrGet q _ | XattrSet q _ _ | LogWarn q _ _ => q = p
  | _ => False
  end.

Lemma stamp_calls p id now :
  calls_only (λ c, match c with XattrGet q _ | XattrSet q _ _ => q = p | _ => False end)
    (stamp p id now).
Proof. unfold stamp, write_opt, write_str, read_str. calls; done. Qed.

Lemma stamp_now_calls p pid : calls_only (stamp_call p pid) (stamp_now p pid).
Proof.
  unfold stamp_now. apply calls_only_bind; [|intros id].
  - eapply calls_only_impl; [|apply resolve_identity_calls]. intros c [-> | ->]; simpl; auto.
  - apply calls_only_bind; [by apply (calls_only_sys _ UtcNow)|intros now].
    apply calls_only_bind; [|intros r].
    + eapply calls_only_impl; [|apply stamp_calls]. intros []; simpl; tauto.
    + calls; done.
Qed.

Lemma maybe_stamp_calls fs p pid : calls_only (stamp_call p pid) (maybe_stamp fs p pid).
Proof. unfold maybe_stamp. case_match; [apply stamp_now_calls|apply calls_only_ret]. Qed.

(** The part of a trace that stamps [p]: empty, or that of [stamp_now]. *)
Lemma maybe_stamp_ensures fs p pid :
  ensures (maybe_stamp fs p pid)
    (λ tr _, runs (maybe_stamp fs p pid) tr tt ∧ Forall (λ e, stamp_call p pid (ev_call e)) tr).
Proof. intros tr [] H. split; [done|by apply (maybe_stamp_calls fs p pid) in H]. Qed.

Lemma cstring_new_Some p c : cstring_new p = Some c → c = p.
Proof. unfold cstring_new. by case_decide; intros [= <-]. Qed.

Lemma lstat_ensures p :
  ensures (lstat p)
    (λ tr r, (tr = [] ∧ r = Err nul_error) ∨
             (∃ rc e st, tr = [Ev (Lstat p) (rc, e, st)] ∧
                r = if rc <? 0 then Err (OsError e) else Ok st)).
Proof.
  unfold lstat. destruct (cstring_new p) as [c|] eqn:Hc; [|apply ensures_ret; auto].
  apply cstring_new_Some in Hc as ->. apply ensures_sys_bind. intros [[rc e] st].
  apply ensures_ret. right. eauto 10.
Qed.

(** A system in which every call succeeds, for closed examples: attributes
    live in a map, a directory lists one file. *)
Definition demo_step (c : call) (w : mem_world) : resp c * mem_world :=
  match c with
  | Lstat _ => ((0, 0, sample_stat), w)
  | Open _ _ _ => ((3, 0), w)
  | Chmod _ _ | Truncate _ _ | Mkdir _ _ | Unlink _ | Rmdir _ => ((0, 0), w)
  | Pwrite _ data _ => ((Z.of_nat (length data), 0), w)
  | Pread _ _ _ => ((2, 0, blit "hi"), w)
  | ReadDir _ => (Ok [Ok (Dirent (blit "a") (Ok FtFile)); Err (OsError EIO)], w)
  | c => mem_step c w
  end.

(** The runs of a program in it. *)
Lemma demo_runs {A} (p : prog A) :
  runs p (exec_trace demo_step p ∅) (exec_res demo_step p ∅).
Proof. apply exec_runs. Qed.

(** One step through a handler's body. *)
Ltac handler_step :=
  first
    [ apply ensures_ret
    | match goal with |- ensures ((?p ≫= ?f) ≫= ?g) ?Q => apply (ensures_assoc p f g Q) end
    | match goal with |- ensures (mret ?a ≫= ?f) ?Q => apply (ensures_ret_bind a f Q) end
    | match goal with |- ensures (sys ?c ≫= ?f) ?Q => apply (ensures_sys_bind c f Q); intros ? end
    | eapply ensures_bind; [apply maybe_stamp_ensures|intros ? [] [? ?]]
    | eapply ensures_bind; [apply lstat_ensures|intros ? ? [[-> ->]|(? & ? & ? & -> & ->)]]
    | case_match; subst ];
  cbv beta zeta; rewrite ?app_nil_l.
Ltac handler :=
  cbv beta zeta; repeat handler_step;
  repeat match goal with
  | H : cstring_new ?p = Some ?c |- _ =>
      lazymatch c with p => fail | _ => pose proof (cstring_new_Some _ _ H); subst c end
  | H : (if ?b then Err _ else Ok _) = Ok _ |- _ => destruct b eqn:?; [done|injection H as H]; subst
  end.

Close Scope Z_scope.
