(* ===== verification/Confinement.v ===== *)
(** Confinement and the inode invariant of the overlay: whatever the kernel
    side sends and the system answers, every path the overlay touches lies
    below its backing directory, and its inode table stays a bijection with
    the root in place. *)

From S2P Require Import Prelude RustStr RustPath Sys Skip Identity Xattrs InodeTable FileAttr ProvFs.
From Stdlib Require Import Strings.Byte.

Open Scope Z_scope.

(** ** Definitions *)

(** A path reached from [src] by file names. *)
Definition inside (src p : bytes) : Prop :=
  ∃ names, Forall proper_name names ∧ p = join_all src names.

(** The call touches nothing outside [src] but the caller's [/proc] files. *)
Definition call_inside (src : bytes) (pid : N) (c : call) : Prop :=
  match c with
  | Lstat p | Open p _ _ | Chmod p _ | Truncate p _ | Mkdir p _ | Unlink p | Rmdir p | ReadDir p
  | XattrGet p _ | XattrSet p _ _ | LogWarn p _ _ => inside src p
  | ReadFile f => f = environ_path pid ∨ f = comm_path pid
  | Close _ | Pread _ _ _ | Pwrite _ _ _ | UtcNow => True
  | SymlinkMetadata _ | SystemNow | IsDir _ | Mount _ | Println _ | Eprintln _ => False
  end.

(** The kernel passes file names, never [.], [..] or a path. *)
Definition req_ok {D} (rq : request D) : Prop :=
  match rq with
  | ReqLookup _ n | ReqCreate _ n _ _ | ReqMkdir _ n _ | ReqUnlink _ n | ReqRmdir _ n =>
      proper_name n
  | _ => True
  end.

(** [read_dir] lists file names, without [.] and [..]. *)
Definition entry_ok (r : io_result dirent) : Prop :=
  match r with Ok ent => proper_name (d_name ent) | Err _ => True end.
Definition answer_ok (e : event) : Prop :=
  match e with
  | Ev (ReadDir _) (Ok ents) => Forall entry_ok ents
  | _ => True
  end.

#[export] Instance entry_ok_dec r : Decision (entry_ok r).
Proof. destruct r; apply _. Defined.
#[export] Instance answer_ok_dec e : Decision (answer_ok e).
Proof. destruct e as [[] r]; simpl; try apply _. destruct r; apply _. Defined.

(** How many inode numbers a trace can use up. *)
Definition ev_cost (e : event) : Z :=
  match e with
  | Ev (ReadDir _) (Ok ents) => Z.of_nat (length ents)
  | Ev (Lstat _) _ => 1
  | Ev (Unlink _) _ | Ev (Rmdir _) _ => 1
  | _ => 0
  end.
Definition cost (tr : trace) : Z := foldr (λ e n, ev_cost e + n) 0 tr.

Record fs_inv (fs : ProvFs) : Prop := {
  inv_wf : table_wf (inodes fs);
  inv_inside i p : path (inodes fs) i = Some p → inside (source fs) p;
  inv_root : path (inodes fs) ROOT_INO = Some (source fs);
}.

Definition op_path (op : table_op) : bytes :=
  match op with OpIntern p | OpForget p => p end.

(** [p] is strictly below [src]. *)
Definition below (src p : bytes) : Prop :=
  ∃ names, Forall proper_name names ∧ names ≠ [] ∧ p = join_all src names.

(** ** Lemmas *)

Lemma inside_self src : inside src src.
Proof. by exists []. Qed.

Lemma below_join src p n : inside src p → proper_name n → below src (join p n).
Proof.
  intros (names & Hn & ->) Hp. exists (names ++ [n]). split_and!.
  - by apply Forall_app; split; [|constructor].
  - by destruct names.
  - unfold join_all. by rewrite foldl_app.
Qed.

Lemma below_inside src p : below src p → inside src p.
Proof. intros (names & ? & _ & ->). by exists names. Qed.

Lemma below_not_self src p : below src p → ¬ path_eq src p.
Proof.
  intros (names & Hn & Hne & ->). unfold path_eq. intros Heq.
  assert (components (join_all src names) = components src ++ (Normal <$> names)) as Hc.
  { clear Hne Heq. revert src. induction Hn as [|n names Hn Hs IH]; intros src.
    - by rewrite app_nil_r.
    - change (join_all src (n :: names)) with (join_all (join src n) names).
      rewrite IH, components_join by done. by rewrite <-app_assoc. }
  rewrite Hc in Heq. apply (f_equal length) in Heq. rewrite length_app, length_fmap in Heq.
  destruct names; simpl in *; [done|lia].
Qed.

Lemma cost_app t1 t2 : cost (t1 ++ t2) = cost t1 + cost t2.
Proof. induction t1 as [|e t1 IH]; simpl; [done|]. rewrite IH. lia. Qed.

Lemma ev_cost_nonneg e : 0 ≤ ev_cost e.
Proof. destruct e as [[] r]; simpl; try lia. destruct r; lia. Qed.

Lemma cost_nonneg t : 0 ≤ cost t.
Proof. induction t as [|e t IH]; simpl; [done|]. pose proof (ev_cost_nonneg e). lia. Qed.

Lemma stamp_call_cost p pid tr : Forall (λ e, stamp_call p pid (ev_call e)) tr → cost tr = 0.
Proof. induction 1 as [|[[] r] tr He _ IH]; simpl in *; try done; by rewrite IH. Qed.

Lemma stamp_call_inside src p pid tr :
  inside src p → Forall (λ e, stamp_call p pid (ev_call e)) tr →
  Forall (λ e, call_inside src pid (ev_call e)) tr.
Proof.
  intros Hp Htr. eapply Forall_impl; [exact Htr|]. intros [[] r]; simpl; try done; by intros ->.
Qed.

(** Table operations below the root keep the filesystem invariant. *)
Lemma table_run_inv src t ops :
  table_wf t → (∀ i p, path t i = Some p → inside src p) → path t ROOT_INO = Some src →
  Forall (λ op, below src (op_path op)) ops →
  next_ino t + Z.of_nat (length ops) ≤ u64_max →
  table_wf (table_run t ops) ∧ (∀ i p, path (table_run t ops) i = Some p → inside src p) ∧
  path (table_run t ops) ROOT_INO = Some src ∧
  next_ino t ≤ next_ino (table_run t ops) ≤ next_ino t + Z.of_nat (length ops).
Proof.
  revert t. induction ops as [|op ops IH]; intros t Hwf Hin Hroot Hops Hlen;
    [simpl; split_and!; done || lia|].
  apply Forall_cons in Hops as [Hop Hops]. simpl in Hlen.
  destruct (table_step_wf t op Hwf) as [Hwf' Hn]; [lia|].
  destruct (IH (table_step t op)) as (? & ? & ? & ?); try done; try lia.
  - intros i p. destruct op as [q|q]; simpl in *.
    + intros [?|(_ & _ & ->)]%intern_new; [by eapply Hin|by apply below_inside|done].
    + intros [? _]%forget_path_spec; [by eapply Hin|done].
  - destruct op as [q|q]; simpl in *; [by apply intern_stable|].
    apply forget_path_spec; [done|]. split; [done|by apply below_not_self].
  - simpl. split_and!; done || lia.
Qed.

Lemma list_entries_run t dir ents :
  (list_entries t dir ents).2 =
  table_run t (omap (λ r, match r with Ok ent => Some (OpIntern (join dir (d_name ent))) | Err _ => None end) ents).
Proof.
  revert t. induction ents as [|[ent|e] ents IH]; intros t; csimpl; [done| |done].
  destruct (intern t _) as [c t1] eqn:E1. specialize (IH t1).
  destruct (list_entries t1 dir ents) as [all t2]. simpl in *. by rewrite IH.
Qed.

(** What one request does to the table and which paths it touches. *)
Definition confined (fs : ProvFs) (pid : N) (tr : trace) (fs' : ProvFs) : Prop :=
  source fs' = source fs ∧ skip fs' = skip fs ∧
  Forall (λ e, call_inside (source fs) pid (ev_call e)) tr ∧
  (Forall answer_ok tr →
   ∃ ops, inodes fs' = table_run (inodes fs) ops ∧
          Forall (λ op, below (source fs) (op_path op)) ops ∧ Z.of_nat (length ops) ≤ cost tr).

Section Confined.
Context (fs : ProvFs) (pid : N) (Hinv : fs_inv fs).

Lemma confined_same tr fs' :
  source fs' = source fs → skip fs' = skip fs → inodes fs' = inodes fs →
  Forall (λ e, call_inside (source fs) pid (ev_call e)) tr → confined fs pid tr fs'.
Proof.
  intros Hs Hk Hi Ht. split_and!; [done..|]. intros _. exists [].
  split_and!; [done|done|apply cost_nonneg].
Qed.

Lemma confined_op tr fs' op :
  source fs' = source fs → skip fs' = skip fs → inodes fs' = table_step (inodes fs) op →
  below (source fs) (op_path op) → 1 ≤ cost tr →
  Forall (λ e, call_inside (source fs) pid (ev_call e)) tr → confined fs pid tr fs'.
Proof. intros Hs Hk Hi Hb Hc Ht. split_and!; [done..|]. intros _. exists [op]. by repeat constructor. Qed.

End Confined.

Lemma inv_child fs parent dir n :
  fs_inv fs → proper_name n → path (inodes fs) parent = Some dir → below (source fs) (join dir n).
Proof. intros Hinv Hn Hp. apply below_join; [by eapply inv_inside|done]. Qed.

(** Closes the trace part of [confined], and the two shapes of its table
    part. *)
Ltac inside_trace :=
  rewrite ?app_nil_r;
  repeat first [ apply Forall_app; split | apply Forall_cons; split | apply Forall_nil; exact I ];
  simpl; try done; eauto using below_inside, inv_child, inv_inside, stamp_call_inside.
Ltac no_op := solve [apply confined_same; first [done | inside_trace]].
Ltac one_op op p :=
  apply (confined_op _ _ _ _ (op p));
    [ done | done
    | simpl; match goal with H : intern _ _ = _ |- _ => by rewrite H | _ => done end
    | by eapply inv_child
    | simpl; match goal with |- context [cost ?t] => pose proof (cost_nonneg t); lia | _ => lia end
    | inside_trace ].

Lemma confined_entries fs pid ents dir tr fs' :
  fs_inv fs → source fs' = source fs → skip fs' = skip fs →
  inodes fs' = (list_entries (inodes fs) dir ents).2 → inside (source fs) dir →
  tr = [Ev (ReadDir dir) (Ok ents)] → confined fs pid tr fs'.
Proof.
  intros Hinv Hs Hk Hi Hd ->. split_and!; [done..|by repeat constructor|]. rewrite Hi, list_entries_run.
  intros [Ha _]%Forall_cons. eexists. split; [done|]. split.
  - clear Hi. simpl in Ha. induction Ha as [|[ent|e] ents He _ IH]; csimpl; [done| |done].
    constructor; [|done]. by apply below_join.
  - simpl. rewrite Z.add_0_r. apply inj_le. clear. induction ents as [|[|] ents IH]; csimpl; lia.
Qed.

Lemma handle_confined D fs pid rq :
  fs_inv fs → req_ok rq →
  ensures (handle D pid rq fs) (λ tr out, confined fs pid tr out.2).
Proof.
  intros Hinv Hrq. destruct rq; simpl in Hrq; cbn [handle].
  - unfold lookup. handler; try no_op. one_op OpIntern (join l name).
  - unfold getattr. handler; no_op.
  - unfold create. handler; try no_op. one_op OpIntern (join l name).
  - unfold open. handler; no_op.
  - unfold read. handler; no_op.
  - unfold write. handler; no_op.
  - unfold release. handler; no_op.
  - unfold setattr. handler; no_op.
  - unfold mkdir. handler; try no_op. one_op OpIntern (join l name).
  - unfold unlink. handler; try no_op. one_op OpForget (join l name).
  - unfold rmdir. handler; try no_op. one_op OpForget (join l name).
  - unfold readdir. handler; try no_op.
    apply (confined_entries _ _ a l); try done; [by rewrite H0|by eapply inv_inside].
Qed.

(** One request keeps the invariant. *)
Lemma handle_inv D fs pid rq tr rep fs' :
  fs_inv fs → req_ok rq → runs (handle D pid rq fs) tr (rep, fs') → Forall answer_ok tr →
  next_ino (inodes fs) + cost tr ≤ u64_max →
  fs_inv fs' ∧ source fs' = source fs ∧ skip fs' = skip fs ∧
  next_ino (inodes fs) ≤ next_ino (inodes fs') ≤ next_ino (inodes fs) + cost tr ∧
  Forall (λ e, call_inside (source fs) pid (ev_call e)) tr.
Proof.
  intros Hinv Hrq Hr Ha Hc. destruct (handle_confined D fs pid rq Hinv Hrq _ _ Hr)
    as (Hs & Hk & Ht & Hops). simpl in *.
  destruct (Hops Ha) as (ops & Hi & Hb & Hl). destruct Hinv as [Hwf Hin Hroot].
  destruct (table_run_inv (source fs) (inodes fs) ops) as (Hwf' & Hin' & Hroot' & Hn); [done..|lia|].
  rewrite <-Hi in *. split_and!; try done; try lia. split; rewrite ?Hs; done.
Qed.

Lemma new_inv src skip : fs_inv (new src skip).
Proof.
  split; simpl; [apply with_root_wf| |].
  - intros i p. unfold path, with_root. simpl. intros [[_ <-]|[_ ?]]%lookup_insert_Some; [apply inside_self|done].
  - unfold path, with_root. simpl. by rewrite lookup_insert_eq.
Qed.

(** Every event of a session belongs to a request, whose handler kept to its
    caller's files. *)
Lemma serve_inv D fs rqs tr reps fs' :
  fs_inv fs → Forall (λ prq, req_ok prq.2) rqs →
  runs (serve D rqs fs) tr (reps, fs') → Forall answer_ok tr →
  next_ino (inodes fs) + cost tr ≤ u64_max →
  fs_inv fs' ∧ source fs' = source fs ∧ skip fs' = skip fs ∧ length reps = length rqs ∧
  next_ino (inodes fs') ≤ next_ino (inodes fs) + cost tr ∧
  Forall (λ e, ∃ pid, pid ∈ rqs.*1 ∧ call_inside (source fs) pid (ev_call e)) tr.
Proof.
  intros Hinv Hrqs. revert fs tr reps fs' Hinv.
  induction Hrqs as [|[pid rq] rqs Hrq Hrqs IH]; intros fs tr reps fs' Hinv Hr Ha Hc; simpl in *.
  - apply runs_ret in Hr as [-> [= -> ->]]. simpl. split_and!; done || lia.
  - apply runs_bind in Hr as (tr1 & [rep fs1] & tr2 & -> & Hr1 & Hr2).
    apply runs_bind in Hr2 as (tr3 & [reps2 fs2] & tr4 & -> & Hr2 & [-> [= -> ->]]%runs_ret).
    rewrite app_nil_r in *. rewrite cost_app in Hc. apply Forall_app in Ha as [Ha1 Ha2].
    pose proof (cost_nonneg tr1). pose proof (cost_nonneg tr3).
    destruct (handle_inv D fs pid rq tr1 rep fs1) as (Hinv1 & Hs1 & Hk1 & Hn1 & Ht1); [done..|lia|].
    destruct (IH fs1 tr3 reps2 fs2) as (Hinv2 & Hs2 & Hk2 & Hlen & Hn2 & Ht2); [done..|lia|].
    rewrite cost_app. split_and!; [done|congruence|congruence|simpl; lia|lia|].
    rewrite Hs1 in Ht2. apply Forall_app. split.
    + eapply Forall_impl; [exact Ht1|]. intros e He. exists pid. split; [left|done].
    + eapply Forall_impl; [exact Ht2|]. intros e (p & Hp & He). exists p. split; [by right|done].
Qed.

(** ** Theorems *)

(** C1: over any sequence of requests from the kernel, whatever each system
    call answers, every path the overlay opens, changes, removes, lists,
    stamps or logs is reached from the backing directory by plain file names,
    and the only other files it reads are the [/proc] entries of a request's
    caller; the inode table stays a bijection whose root is the backing
    directory, as long as the 64-bit counter lasts. *)
Theorem session_confined (D : DirBuf) (src : bytes) (sl : SkipList) (rqs : list (N * request D))
    (tr : trace) (reps : list (reply (buf D))) (fs' : ProvFs)
    (Hrqs : Forall (λ prq, req_ok prq.2) rqs)
    (Hrun : runs (serve D rqs (new src sl)) tr (reps, fs'))
    (Hans : Forall answer_ok tr) (Hcost : 2 + cost tr ≤ u64_max) :
  fs_inv fs' ∧ source fs' = src ∧ length reps = length rqs ∧
  Forall (λ e, ∃ pid, pid ∈ rqs.*1 ∧ call_inside src pid (ev_call e)) tr.
Proof.
  destruct (serve_inv D (new src sl) rqs tr reps fs') as (? & ? & ? & ? & ? & ?);
    [apply new_inv|done..|].
  by split_and!.
Qed.

(** A directory buffer without bounds. *)
Definition list_buf : DirBuf := {| buf := list dentry; buf_add b e := (b ++ [e], false) |}.

Definition demo_requests : list (N * request list_buf) :=
  [ (7%N, ReqLookup 1 (blit "a")); (7%N, ReqCreate 1 (blit "b") 0x1A4 1);
    (7%N, ReqWrite 3 3 0 (blit "hi")); (7%N, ReqRelease 3 3);
    (7%N, ReqReaddir (D:=list_buf) 1 0 0 []); (7%N, ReqUnlink 1 (blit "a")) ].

Lemma session_confined_witness :
  let p := serve list_buf demo_requests (new (blit "/src") defaults) in
  Forall (λ e, ∃ pid, pid ∈ demo_requests.*1 ∧ call_inside (blit "/src") pid (ev_call e))
    (exec_trace demo_step p ∅) ∧ fs_inv (exec_res demo_step p ∅).2.
Proof.
  intros p. destruct (session_confined list_buf (blit "/src") defaults demo_requests
    (exec_trace demo_step p ∅) (exec_res demo_step p ∅).1 (exec_res demo_step p ∅).2)
    as (Hinv & _ & _ & Hin).
  - repeat constructor; by apply (bool_decide_eq_true_1 _).
  - rewrite <-surjective_pairing. apply demo_runs.
  - apply (bool_decide_eq_true_1 _). by vm_compute.
  - by vm_compute.
  - by split.
Defined.

Close Scope Z_scope.
