(* ===== verification/Stamping.v ===== *)
(** When the overlay stamps: which requests do, on which path, and that a
    skipped path is never written. *)

From S2P Require Import Prelude RustStr RustPath Sys Skip Session Identity Xattrs.
From S2P Require Import InodeTable FileAttr ProvFs Confinement.
From Stdlib Require Import Strings.Byte.

Open Scope Z_scope.

(** ** Definitions *)

(** The calls only stamping makes. *)
Definition is_stamp (c : call) : bool :=
  match c with
  | ReadFile _ | UtcNow | XattrGet _ _ | XattrSet _ _ _ | LogWarn _ _ _ => true
  | _ => false
  end.
Definition stamp_part (tr : trace) : trace := filter (λ e, is_stamp (ev_call e)) tr.

(** A [lstat] that found the file; a change that the system refused. *)
Definition lstat_ok (e : event) : bool :=
  match e with Ev (Lstat _) (rc, _, _) => negb (rc <? 0) | _ => false end.
Definition change_failed (e : event) : bool :=
  match e with
  | Ev (Chmod _ _) (rc, _) | Ev (Truncate _ _) (rc, _) => rc <? 0
  | _ => false
  end.

(** The path a request stamps, if the skip list lets it: a new file or
    directory once it is there, a changed file once the changes took, a
    released file if it was dirty. *)
Definition stamp_target {D} (fs : ProvFs) (rq : request D) (tr : trace) : option bytes :=
  match rq with
  | ReqCreate parent name _ _ | ReqMkdir parent name _ =>
      if existsb lstat_ok tr then (λ dir, join dir name) <$> path (inodes fs) parent else None
  | ReqSetattr ino _ _ =>
      if existsb change_failed tr then None else path (inodes fs) ino ≫= cstring_new
  | ReqRelease ino _ => if bool_decide (ino ∈ dirty fs) then path (inodes fs) ino else None
  | _ => None
  end.

(** ** Lemmas *)

Lemma stamp_part_app t1 t2 : stamp_part (t1 ++ t2) = stamp_part t1 ++ stamp_part t2.
Proof. apply filter_app. Qed.

Lemma stamp_part_cons e tr :
  stamp_part (e :: tr) = if is_stamp (ev_call e) then e :: stamp_part tr else stamp_part tr.
Proof. unfold stamp_part. rewrite filter_cons. by destruct (is_stamp (ev_call e)). Qed.

Lemma stamp_part_all p pid tr :
  Forall (λ e, stamp_call p pid (ev_call e)) tr → stamp_part tr = tr.
Proof.
  intros H. apply filter_all. eapply Forall_impl; [exact H|]. intros [[] r]; simpl; tauto.
Qed.

Lemma stamp_call_existsb (f : event → bool) p pid tr :
  (∀ e, is_stamp (ev_call e) = true → f e = false) →
  Forall (λ e, stamp_call p pid (ev_call e)) tr → existsb f tr = false.
Proof.
  intros Hf. induction 1 as [|e tr He _ IH]; [done|]. simpl. rewrite IH, Hf; [done|].
  by destruct e as [[] r].
Qed.

Lemma not_change_failed e : is_stamp (ev_call e) = true → change_failed e = false.
Proof. by destruct e as [[] r]. Qed.

(** Stamping looks at the source directory and the skip list alone. *)
Lemma maybe_stamp_runs fs p pid tr :
  runs (maybe_stamp fs p pid) tr tt ↔
  if should_stamp (relpath fs p) (skip fs) then runs (stamp_now p pid) tr tt else tr = [].
Proof. unfold maybe_stamp. case_match; [reflexivity|]. rewrite runs_ret. tauto. Qed.

(** What [stamp_now] does: resolve the caller, read the clock, stamp, and log
    the error if there is one. *)
Lemma stamp_now_runs p pid tr :
  runs (stamp_now p pid) tr tt ↔
  ∃ tri id now trs r, runs (resolve_identity pid) tri id ∧ runs (stamp p id now) trs r ∧
    tr = tri ++ Ev UtcNow now :: trs ++
           match r with Ok _ => [] | Err e => [Ev (LogWarn p (session id) e) tt] end.
Proof.
  unfold stamp_now. rewrite runs_bind. split.
  - intros (tri & id & t2 & -> & Hi & (tn & n & t3 & -> & Hn & Hrest)%runs_bind).
    apply runs_bind in Hrest as (ts & r & t4 & -> & Hs & Hl).
    apply (runs_sys UtcNow) in Hn as ->. exists tri, id, n, ts, r. split; [done|]. split; [done|].
    simpl. do 3 f_equal. destruct r as [[]|e]; [by destruct Hl as [-> _]|].
    by apply (runs_sys (LogWarn p (session id) e)) in Hl as ->.
  - intros (tri & id & now & trs & r & Hi & Hs & ->).
    exists tri, id. eexists. split; [done|]. split; [done|]. apply runs_bind.
    exists [Ev UtcNow now], now. eexists. split; [done|]. split; [by apply (runs_sys UtcNow)|].
    apply runs_bind. exists trs, r. eexists. split; [done|]. split; [done|].
    destruct r as [[]|e]; [done|]. by apply (runs_sys (LogWarn p (session id) e)).
Qed.

(** What the stamping part of a request's trace has to be. *)
Definition stamps {D} (fs : ProvFs) (pid : N) (rq : request D) (tr : trace) : Prop :=
  match stamp_target fs rq tr with
  | Some p => runs (maybe_stamp fs p pid) (stamp_part tr) tt
  | None => stamp_part tr = []
  end.

(** Evaluates [stamps] at the end of a handler's path. *)
Ltac stamps_leaf :=
  unfold stamps, stamp_target; rewrite ?app_nil_r; cbn [inodes set_dirty set_inodes] in *;
  repeat first
    [ progress (cbn [existsb lstat_ok change_failed orb negb app])
    | rewrite existsb_app
    | match goal with
      | H : Forall (λ e, stamp_call _ _ (ev_call e)) ?t |- context [existsb change_failed ?t] =>
          rewrite (stamp_call_existsb change_failed _ _ _ not_change_failed H)
      | H : ?x = Some _ |- context [?x] => rewrite H
      | H : bool_decide ?P = _ |- context [bool_decide ?P] => rewrite H
      | H : ?x = None |- context [?x] => rewrite H
      | H : (?a <? ?b) = _ |- context [?a <? ?b] => rewrite H
      end ];
  cbn [fmap option_fmap option_map mbind option_bind];
  rewrite ?stamp_part_cons; cbn [is_stamp ev_call]; rewrite ?stamp_part_app;
  try match goal with H : Forall (λ e, stamp_call _ _ (ev_call e)) ?t |- _ =>
    rewrite (stamp_part_all _ _ _ H), ?stamp_part_cons, ?app_nil_r end;
  try match goal with H : cstring_new _ = _ |- _ => rewrite H end;
  try done.

Lemma handle_stamps D fs pid rq :
  ensures (handle D pid rq fs) (λ tr _, stamps fs pid rq tr).
Proof.
  destruct rq; cbn [handle].
  - unfold lookup. handler; done.
  - unfold getattr. handler; done.
  - unfold create. handler; stamps_leaf.
  - unfold open. handler; done.
  - unfold read. handler; done.
  - unfold write. handler; done.
  - unfold release. handler; stamps_leaf.
  - unfold setattr. handler; stamps_leaf.
  - unfold mkdir. handler; stamps_leaf.
  - unfold unlink. handler; done.
  - unfold rmdir. handler; done.
  - unfold readdir. handler; done.
Qed.

(** A written attribute names the request's target, and the skip list let it
    through. *)
Lemma written_target D fs pid rq tr out q k v r :
  runs (handle D pid rq fs) tr out → Ev (XattrSet q k v) r ∈ tr →
  stamp_target fs rq tr = Some q ∧ should_stamp (relpath fs q) (skip fs) = true.
Proof.
  intros Hr He. pose proof (handle_stamps D fs pid rq _ _ Hr) as Hs. unfold stamps in Hs.
  assert (Ev (XattrSet q k v) r ∈ stamp_part tr) as Hin by (by apply list_elem_of_filter).
  destruct (stamp_target fs rq tr) as [p|]; [|rewrite Hs in Hin; by apply not_elem_of_nil in Hin].
  pose proof (maybe_stamp_calls fs p pid _ _ Hs) as Hc.
  rewrite Forall_forall in Hc. specialize (Hc _ Hin). simpl in Hc. subst q.
  apply maybe_stamp_runs in Hs. destruct (should_stamp _ _); [done|].
  rewrite Hs in Hin. by apply not_elem_of_nil in Hin.
Qed.

Lemma relpath_join_all fs names :
  Forall proper_name names → relpath fs (join_all (source fs) names) = names_path names.
Proof. intros Hn. unfold relpath. by rewrite path_strip_prefix_join_all. Qed.

(** ** Theorems *)

(** C2: exactly which requests stamp, and what a stamp does.  A created file
    and directory, a changed file whose changes took, and a released file that
    was dirty are the only targets; a target the skip list covers is left
    alone; any other is stamped once, with the identity resolved for the
    caller and the clock read after it, and a failing stamp is logged and
    otherwise ignored. *)
Theorem handler_stamps_target (D : DirBuf) (fs : ProvFs) (pid : N) (rq : request D) (tr : trace)
    (out : reply (buf D) * ProvFs) (Hrun : runs (handle D pid rq fs) tr out) :
  match stamp_target fs rq tr with
  | Some p =>
      if should_stamp (relpath fs p) (skip fs) then
        ∃ tri id now trs r, runs (resolve_identity pid) tri id ∧ runs (stamp p id now) trs r ∧
          stamp_part tr = tri ++ Ev UtcNow now :: trs ++
            match r with Ok _ => [] | Err e => [Ev (LogWarn p (session id) e) tt] end
      else stamp_part tr = []
  | None => stamp_part tr = []
  end.
Proof.
  pose proof (handle_stamps D fs pid rq _ _ Hrun) as Hs. unfold stamps in Hs.
  destruct (stamp_target fs rq tr) as [p|]; [|done].
  apply maybe_stamp_runs in Hs. destruct (should_stamp _ _); [|done]. by apply stamp_now_runs.
Qed.

Definition demo_fs : ProvFs := new (blit "/src") defaults.

Lemma handler_stamps_target_witness :
  let p := handle list_buf 7 (ReqMkdir 1 (blit "d") 0x1ED) demo_fs in
  stamp_target demo_fs (ReqMkdir (D:=list_buf) 1 (blit "d") 0x1ED) (exec_trace demo_step p ∅)
    = Some (blit "/src/d") ∧
  ∃ tri id now trs r, runs (resolve_identity 7) tri id ∧ runs (stamp (blit "/src/d") id now) trs r ∧
    stamp_part (exec_trace demo_step p ∅) = tri ++ Ev UtcNow now :: trs ++
      match r with Ok _ => [] | Err e => [Ev (LogWarn (blit "/src/d") (session id) e) tt] end.
Proof.
  intros p. split; [by vm_compute|].
  exact (handler_stamps_target list_buf demo_fs 7 (ReqMkdir 1 (blit "d") 0x1ED)
    (exec_trace demo_step p ∅) (exec_res demo_step p ∅) (demo_runs p)).
Defined.

(** C7: a path the skip list covers is never written: every attribute write of
    any handler is on a path made of file names below the backing directory
    whose relative path the skip list does not skip. *)
Theorem skipped_never_written (D : DirBuf) (fs : ProvFs) (pid : N) (rq : request D) (tr : trace)
    (out : reply (buf D) * ProvFs) (q : bytes) (k : str) (v : bytes) (r : io_result unit)
    (Hinv : fs_inv fs) (Hrq : req_ok rq) (Hrun : runs (handle D pid rq fs) tr out)
    (Hset : Ev (XattrSet q k v) r ∈ tr) :
  ∃ names, Forall proper_name names ∧ q = join_all (source fs) names ∧
    should_skip (skip fs) (names_path names) = false.
Proof.
  destruct (written_target _ _ _ _ _ _ _ _ _ _ Hrun Hset) as [_ Hs].
  destruct (handle_confined D fs pid rq Hinv Hrq _ _ Hrun) as (_ & _ & Hc & _).
  rewrite Forall_forall in Hc. specialize (Hc _ Hset). simpl in Hc.
  destruct Hc as (names & Hn & ->). exists names. split; [done|]. split; [done|].
  rewrite relpath_join_all in Hs by done. by apply negb_true_iff in Hs.
Qed.

Lemma skipped_never_written_witness :
  ∃ names, Forall proper_name names ∧ blit "/src/d" = join_all (blit "/src") names ∧
    should_skip defaults (names_path names) = false.
Proof.
  pose (p := handle list_buf 7 (ReqMkdir 1 (blit "d") 0x1ED) demo_fs).
  apply (skipped_never_written list_buf demo_fs 7 (ReqMkdir 1 (blit "d") 0x1ED)
    (exec_trace demo_step p ∅) (exec_res demo_step p ∅) (blit "/src/d") KEY_TOOL (as_bytes (lit "unknown")) (Ok tt)).
  - apply new_inv.
  - by apply (bool_decide_eq_true_1 _).
  - apply demo_runs.
  - vm_compute. do 6 right. left.
Defined.


(** The changes a [setattr] asks for, in order. *)
Definition changes (p : bytes) (mode size : option Z) : list call :=
  option_list (Chmod p <$> mode) ++ option_list ((λ sz, Truncate p (as_off_t sz)) <$> size).

(** The errno a refused change left. *)
Definition change_errno (e : event) : option Z :=
  match e with
  | Ev (Chmod _ _) (rc, errno) | Ev (Truncate _ _) (rc, errno) => if rc <? 0 then Some errno else None
  | _ => None
  end.

(** What [setattr] does once the changes took. *)
Lemma setattr_tail_ensures D fs pid ino p :
  cstring_new p = Some p →
  ensures (_ ← maybe_stamp fs p pid;
           r ← lstat p;
           match r with
           | Ok st => mret (ReplyAttr (B:=buf D) TTL (libc_stat_to_attr ino st), fs)
           | Err e => mret (ReplyError (io_err_to_errno e), fs)
           end)
    (λ tr out, out.2 = fs ∧ ∃ ts r errno st, tr = ts ++ [Ev (Lstat p) (r, errno, st)] ∧
       runs (maybe_stamp fs p pid) ts tt ∧
       out.1 = if r <? 0 then ReplyError errno else ReplyAttr TTL (libc_stat_to_attr ino st)).
Proof.
  intros Hnul. unfold lstat. rewrite Hnul.
  eapply ensures_bind; [apply maybe_stamp_ensures|]. intros ts [] [Hts _].
  apply ensures_assoc, (ensures_sys_bind (Lstat p)). intros [[r errno] st].
  apply ensures_ret_bind. destruct (r <? 0) eqn:Hr; apply ensures_ret; (split; [done|]);
    exists ts, r, errno, st; by rewrite Hr.
Qed.

(** Enters a change of [setattr]: its refusal and its success. *)
Ltac change_step :=
  apply ensures_assoc;
  match goal with |- ensures (sys ?c ≫= ?f) ?Q => apply (ensures_sys_bind c f Q) end;
  intros [? ?]; cbv beta iota; apply ensures_ret_bind;
  match goal with |- context [if ?b <? 0 then _ else _] => destruct (b <? 0) eqn:? end; cbv beta iota.
Tactic Notation "changes_refused" open_constr(pre) open_constr(post) :=
  apply ensures_ret; split; [done|]; left; eexists pre, _, _, post;
  split; [done|]; cbn [change_errno existsb change_failed orb];
  repeat match goal with H : (_ <? _) = _ |- _ => rewrite H end; done.
Tactic Notation "changes_took" open_constr(pre) :=
  try apply ensures_ret_bind;
  eapply ensures_mono; [by apply setattr_tail_ensures|];
  let ts := fresh in let st := fresh in
  intros ? ? (-> & ts & ? & ? & st & -> & ? & ?); split; [done|]; right;
  eexists pre, ts, _, _, st; split; [done|]; split; [done|];
  cbn [existsb change_failed orb];
  repeat match goal with H : (_ <? 0) = false |- context [_ <? 0] => rewrite H end; done.

(** C27: [setattr] makes the mode and size changes it was asked for, mode first,
    and stops at the first one the system refuses, replying its errno and
    stamping nothing; when all took it stamps the file once and replies what
    [lstat] then says.  A size up to the largest [off_t] is passed as it is, a
    larger one as the negative length of the same bits.  Nothing else is changed: owner, group and
    times are never touched. *)
Theorem setattr_applies_changes (D : DirBuf) (fs : ProvFs) (pid : N) (ino : Z) (mode size : option Z)
    (p : bytes) (Hp : path (inodes fs) ino = Some p) (Hnul : cstring_new p = Some p)
    (Hsize : ∀ sz, size = Some sz → 0 ≤ sz ≤ u64_max) :
  ensures (setattr D fs pid ino mode size) (λ tr out, out.2 = fs ∧
    ((∃ pre e errno post, tr = pre ++ [e] ∧ change_errno e = Some errno ∧
        existsb change_failed pre = false ∧ changes p mode size = (ev_call <$> tr) ++ post ∧
        out.1 = ReplyError errno) ∨
     (∃ pre ts r errno st, tr = pre ++ ts ++ [Ev (Lstat p) (r, errno, st)] ∧
        ev_call <$> pre = changes p mode size ∧ existsb change_failed pre = false ∧
        runs (maybe_stamp fs p pid) ts tt ∧
        out.1 = if r <? 0 then ReplyError errno else ReplyAttr TTL (libc_stat_to_attr ino st)))) ∧
  (∀ sz, size = Some sz → i64_min ≤ as_off_t sz ≤ i64_max ∧ as_off_t sz `mod` 2 ^ 64 = sz ∧
     (sz ≤ i64_max → as_off_t sz = sz)).
Proof.
  split.
  2: { intros sz Hsz. specialize (Hsize sz Hsz). unfold as_off_t, u64_max, i64_min, i64_max in *.
       destruct (sz <=? 2 ^ 63 - 1) eqn:E.
       - rewrite Z.mod_small by lia. lia.
       - replace (sz - 2 ^ 64) with (sz + (-1) * 2 ^ 64) by lia.
         rewrite Z.mod_add, Z.mod_small by lia. lia. }
  unfold setattr. rewrite Hp, Hnul. clear Hsize.
  destruct mode as [m|], size as [sz|].
  - change_step; [changes_refused (@nil event) [Truncate p (as_off_t sz)]|].
    change_step; [changes_refused [_] (@nil call)|changes_took [_; _]].
  - change_step; [changes_refused (@nil event) (@nil call)|]. changes_took [_].
  - apply ensures_ret_bind. change_step; [changes_refused (@nil event) (@nil call)|changes_took [_]].
  - apply ensures_ret_bind. changes_took (@nil event).
Qed.

Lemma setattr_applies_changes_witness :
  let p := setattr list_buf demo_fs 7 1 (Some 0x1C0) (Some 10) in
  (exec_res demo_step p ∅).2 = demo_fs ∧
  (∀ sz, Some 10 = Some sz → i64_min ≤ as_off_t sz ≤ i64_max ∧ as_off_t sz `mod` 2 ^ 64 = sz ∧
     (sz ≤ i64_max → as_off_t sz = sz)).
Proof.
  intros p.
  destruct (setattr_applies_changes list_buf demo_fs 7 1 (Some 0x1C0) (Some 10) (blit "/src"))
    as [Hens Hoff].
  - by vm_compute.
  - by vm_compute.
  - intros sz [= <-]. unfold u64_max. lia.
  - split; [apply (Hens _ _ (demo_runs p))|exact Hoff].
Defined.

Close Scope Z_scope.
