(* ===== verification/Handles.v ===== *)
(** Descriptors, errors and the bytes that pass through: what the overlay owes
    the kernel for every handle it gives out. *)

From S2P Require Import Prelude RustStr RustPath Sys Skip Xattrs InodeTable FileAttr ProvFs.
From Stdlib Require Import Strings.Byte.

Open Scope Z_scope.

(** ** Definitions *)

(** The descriptors a trace opens and closes. *)
Definition ev_opened (e : event) : option Z :=
  match e with Ev (Open _ _ _) (fd, _) => if fd <? 0 then None else Some fd | _ => None end.
Definition ev_closed (e : event) : option Z :=
  match e with Ev (Close fd) _ => Some fd | _ => None end.
Definition opened (tr : trace) : list Z := omap ev_opened tr.
Definition closed (tr : trace) : list Z := omap ev_closed tr.

(** The handles given to the kernel and given back by it. *)
Definition handed {B} (rep : reply B) : list Z :=
  match rep with ReplyCreated _ _ _ fh _ | ReplyOpened fh _ => [fh] | _ => [] end.
Definition given_back {D} (rq : request D) : list Z :=
  match rq with
  | ReqRelease _ fh => if (0 <=? fh) && (fh <=? i32_max) then [fh] else []
  | _ => []
  end.

(** A descriptor is a C [int]. *)
Definition fds_ok (tr : trace) : Prop := Forall (λ fd, fd ≤ i32_max) (opened tr).

#[export] Instance fds_ok_dec tr : Decision (fds_ok tr).
Proof. unfold fds_ok. apply _. Defined.

(** The balance of a trace: what it opens and what the kernel gives back is
    what it closes and what it hands out. *)
Definition balanced (tr : trace) (back out : list Z) : Prop :=
  fds_ok tr → opened tr ++ back ≡ₚ closed tr ++ out.

(** ** Lemmas *)

Lemma opened_app t1 t2 : opened (t1 ++ t2) = opened t1 ++ opened t2.
Proof. apply omap_app. Qed.
Lemma closed_app t1 t2 : closed (t1 ++ t2) = closed t1 ++ closed t2.
Proof. apply omap_app. Qed.

Lemma stamp_no_fds p pid tr :
  Forall (λ e, stamp_call p pid (ev_call e)) tr → opened tr = [] ∧ closed tr = [].
Proof. induction 1 as [|[[] r] tr He _ [IH1 IH2]]; done. Qed.

(** The handle of a descriptor is the descriptor. *)
Lemma fh_of_fd fd : (fd <? 0) = false → fd ≤ i32_max → default 0 (try_u64 fd) = fd.
Proof.
  intros H1 H2. unfold try_u64, i32_max, u64_max in *. by rewrite try_from_in by lia.
Qed.

(** The descriptor of a handle. *)
Lemma fd_of_fh fh :
  default (-1) (try_i32 fh) = if (- 2 ^ 31 <=? fh) && (fh <=? i32_max) then fh else -1.
Proof.
  unfold try_i32. destruct (_ && _) eqn:E; [by rewrite try_from_in by lia|].
  by rewrite try_from_out by lia.
Qed.

Ltac balance_leaf :=
  rewrite ?app_nil_r; unfold balanced, fds_ok; cbn [fst snd handed given_back];
  repeat match goal with
  | H : Forall (λ e, stamp_call _ _ (ev_call e)) ?t |- _ =>
      let H1 := fresh "Ho" in let H2 := fresh "Hc" in
      destruct (stamp_no_fds _ _ _ H) as [H1 H2]; clear H
  end;
  unfold opened, closed in *; csimpl; rewrite ?omap_app; 
  repeat match goal with
  | H : (_ <? _) = _ |- _ => progress rewrite H
  | H : omap _ _ = [] |- _ => progress rewrite H
  end;
  csimpl; rewrite ?app_nil_r.

Ltac hand_out := intros [? _]%Forall_cons; by rewrite fh_of_fd.

Lemma handle_balanced D fs pid rq :
  ensures (handle D pid rq fs) (λ tr out, balanced tr (given_back rq) (handed out.1)).
Proof.
  destruct rq; cbn [handle].
  - unfold lookup. handler; by balance_leaf.
  - unfold getattr. handler; by balance_leaf.
  - unfold create. handler; balance_leaf; try done. hand_out.
  - unfold open. handler; balance_leaf; try done; hand_out.
  - unfold read. handler; by balance_leaf.
  - unfold write. handler; by balance_leaf.
  - unfold release. rewrite fd_of_fh. destruct (_ && _) eqn:Hfh.
    + handler; balance_leaf; intros _;
        destruct (0 <=? fh) eqn:?; try done; by replace (fh <=? i32_max) with true by lia.
    + simpl. handler; balance_leaf; intros _; done || (exfalso; lia).
  - unfold setattr. handler; by balance_leaf.
  - unfold mkdir. handler; by balance_leaf.
  - unfold unlink. handler; by balance_leaf.
  - unfold rmdir. handler; by balance_leaf.
  - unfold readdir. handler; by balance_leaf.
Qed.

Lemma fds_ok_app t1 t2 : fds_ok (t1 ++ t2) ↔ fds_ok t1 ∧ fds_ok t2.
Proof. unfold fds_ok. rewrite opened_app. apply Forall_app. Qed.

Lemma balanced_app t1 t2 b1 b2 o1 o2 :
  balanced t1 b1 o1 → balanced t2 b2 o2 → balanced (t1 ++ t2) (b1 ++ b2) (o1 ++ o2).
Proof.
  intros H1 H2 [Hf1 Hf2]%fds_ok_app. specialize (H1 Hf1). specialize (H2 Hf2).
  rewrite opened_app, closed_app.
  transitivity ((opened t1 ++ b1) ++ (opened t2 ++ b2)); [solve_Permutation|].
  rewrite H1, H2. solve_Permutation.
Qed.

Lemma serve_balanced D rqs fs tr reps fs' :
  runs (serve D rqs fs) tr (reps, fs') →
  balanced tr (rqs ≫= λ prq, given_back prq.2) (reps ≫= handed).
Proof.
  revert fs tr reps fs'. induction rqs as [|[pid rq] rqs IH]; intros fs tr reps fs' Hr; simpl in Hr.
  - apply runs_ret in Hr as [-> [= -> ->]]. by intros _.
  - apply runs_bind in Hr as (tr1 & [rep fs1] & tr2 & -> & Hr1 & Hr2).
    apply runs_bind in Hr2 as (tr3 & [reps2 fs2] & tr4 & -> & Hr2 & [-> [= -> ->]]%runs_ret).
    rewrite app_nil_r. csimpl. apply balanced_app; [|by eapply IH].
    apply (handle_balanced _ _ _ _ _ _ Hr1).
Qed.

(** An error reply leaves the tables alone. *)
Lemma handle_error_state D fs pid rq :
  ensures (handle D pid rq fs) (λ tr out, ∀ e, out.1 = ReplyError e → out.2 = fs).
Proof.
  destruct rq; cbn [handle];
    [unfold lookup|unfold getattr|unfold create|unfold open|unfold read|unfold write|unfold release
    |unfold setattr|unfold mkdir|unfold unlink|unfold rmdir|unfold readdir]; handler; done.
Qed.

(** The reply names its file: the inode stands for the child, and the
    attributes are those of an [lstat] of it. *)
Definition reply_attr {B} (rep : reply B) : option FileAttr :=
  match rep with ReplyEntry _ a _ | ReplyCreated _ a _ _ _ => Some a | _ => None end.

Definition child_of {D} (fs : ProvFs) (rq : request D) : option bytes :=
  match rq with
  | ReqLookup parent name | ReqCreate parent name _ _ | ReqMkdir parent name _
  | ReqUnlink parent name | ReqRmdir parent name => (λ dir, join dir name) <$> path (inodes fs) parent
  | _ => None
  end.

Definition names_child {D} (fs : ProvFs) (rq : request D) (tr : trace)
    (out : reply (buf D) * ProvFs) : Prop :=
  ∀ a, reply_attr out.1 = Some a →
  ∃ child q rc e st, child_of fs rq = Some child ∧
    path (inodes out.2) (ino a) = Some q ∧ path_eq q child ∧
    Ev (Lstat child) (rc, e, st) ∈ tr ∧ 0 ≤ rc ∧ a = libc_stat_to_attr (ino a) st.

Lemma interned fs child i t :
  table_wf (inodes fs) → intern (inodes fs) child = (i, t) →
  ∃ q, path t i = Some q ∧ path_eq q child.
Proof.
  intros Hwf Hi. destruct (intern_path _ Hwf child) as (q & Hq & Heq & _). rewrite Hi in Hq. eauto.
Qed.

Ltac names_leaf Hwf :=
  intros ? [= <-]; simplify_eq;
  match goal with H : intern (inodes ?fs) ?c = _ |- _ =>
    destruct (interned fs c _ _ Hwf H) as (q & ? & ?); eexists c, q, _, _, _ end;
  split; [by match goal with H : path _ _ = Some _ |- _ => rewrite H end|];
  split; [done|]; split; [done|];
  split; [repeat first [apply list_elem_of_here | apply list_elem_of_further]|];
  split; [lia|done].

Lemma handle_names_child D fs pid rq :
  table_wf (inodes fs) → ensures (handle D pid rq fs) (λ tr out, names_child fs rq tr out).
Proof.
  intros Hwf. destruct rq; cbn [handle];
    [unfold lookup|unfold getattr|unfold create|unfold open|unfold read|unfold write|unfold release
    |unfold setattr|unfold mkdir|unfold unlink|unfold rmdir|unfold readdir]; handler.
  all: unfold names_child; simpl; try done; rewrite ?app_nil_r.
  all: by names_leaf Hwf.
Qed.

(** ** Theorems *)

(** C17: no descriptor leaks: over any session, if the handles the kernel gave
    back are those it was given, the descriptors the overlay closed are
    exactly the ones it opened, on error paths too. *)
Theorem no_descriptor_leak (D : DirBuf) (fs fs' : ProvFs) (rqs : list (N * request D)) (tr : trace)
    (reps : list (reply (buf D)))
    (Hrun : runs (serve D rqs fs) tr (reps, fs')) (Hfds : fds_ok tr)
    (Hback : rqs ≫= (λ prq, given_back prq.2) ≡ₚ reps ≫= handed) :
  closed tr ≡ₚ opened tr.
Proof.
  pose proof (serve_balanced _ _ _ _ _ _ Hrun Hfds) as Hb. rewrite Hback in Hb.
  symmetry. by apply (Permutation_app_inv_r (reps ≫= handed)).
Qed.

Definition demo_state : ProvFs := new (blit "/src") defaults.
Definition no_buf : DirBuf := {| buf := unit; buf_add b _ := (b, true) |}.
Definition open_close : list (N * request no_buf) :=
  [(7%N, ReqCreate 1 (blit "b") 0x1A4 1); (7%N, ReqRelease 2 3)].

Lemma no_descriptor_leak_witness :
  let p := serve no_buf open_close (new (blit "/src") defaults) in
  closed (exec_trace demo_step p ∅) ≡ₚ opened (exec_trace demo_step p ∅).
Proof.
  intros p.
  apply (no_descriptor_leak no_buf (new (blit "/src") defaults) (exec_res demo_step p ∅).2 open_close
    (exec_trace demo_step p ∅) (exec_res demo_step p ∅).1).
  - rewrite <-surjective_pairing. apply demo_runs.
  - apply (bool_decide_eq_true_1 _). by vm_compute.
  - by vm_compute.
Defined.

(** C18: an error reply means that nothing was recorded: the inode table, the
    dirty set, the source and the skip list are those from before the request,
    and every descriptor the request opened is closed again. *)
Theorem error_reply_changes_nothing (D : DirBuf) (fs fs' : ProvFs) (pid : N) (rq : request D)
    (tr : trace) (e : Z) (Hrun : runs (handle D pid rq fs) tr (ReplyError e, fs')) :
  fs' = fs ∧ (fds_ok tr → closed tr ≡ₚ opened tr).
Proof.
  split; [by apply (handle_error_state _ _ _ _ _ _ Hrun e)|].
  intros Hfds. pose proof (handle_balanced _ _ _ _ _ _ Hrun Hfds) as Hb. simpl in Hb.
  rewrite app_nil_r in Hb. rewrite <-Hb. destruct rq; simpl; rewrite ?app_nil_r; try done.
  exfalso. unfold handle, release in Hrun. runs_split; by repeat case_match; simplify_eq.
Qed.

Lemma error_reply_changes_nothing_witness :
  exec_res demo_step (handle no_buf 7 (ReqLookup 9 (blit "x")) (new (blit "/src") defaults)) ∅
    = (ReplyError ENOENT, new (blit "/src") defaults) ∧
  new (blit "/src") defaults = new (blit "/src") defaults.
Proof.
  split; [by vm_compute|].
  apply (error_reply_changes_nothing no_buf _ _ 7 (ReqLookup 9 (blit "x")) [] ENOENT).
  by vm_compute.
Defined.

(** C26: the inode number a [lookup], [create] or [mkdir] reply carries stands,
    in the table left behind, for the child that was asked for, and the
    attributes are the ones [lstat] reported for that child in this request. *)
Theorem entry_reply_names_child (D : DirBuf) (fs fs' : ProvFs) (pid : N) (rq : request D)
    (tr : trace) (rep : reply (buf D)) (a : FileAttr)
    (Hwf : table_wf (inodes fs)) (Hrun : runs (handle D pid rq fs) tr (rep, fs'))
    (Ha : reply_attr rep = Some a) :
  ∃ child q rc e st, child_of fs rq = Some child ∧
    path (inodes fs') (ino a) = Some q ∧ path_eq q child ∧
    Ev (Lstat child) (rc, e, st) ∈ tr ∧ 0 ≤ rc ∧ a = libc_stat_to_attr (ino a) st.
Proof. apply (handle_names_child D fs pid rq Hwf _ _ Hrun a Ha). Qed.

Lemma entry_reply_names_child_witness :
  ∃ child q rc e st, Some (blit "/src/x") = Some child ∧
    path (intern (with_root (blit "/src")) (blit "/src/x")).2 2 = Some q ∧ path_eq q child ∧
    Ev (Lstat child) (rc, e, st) ∈ [Ev (Lstat (blit "/src/x")) (0, 0, sample_stat)] ∧ 0 ≤ rc ∧
    libc_stat_to_attr 2 sample_stat = libc_stat_to_attr 2 st.
Proof.
  apply (entry_reply_names_child no_buf (new (blit "/src") defaults)
    (exec_res demo_step (handle no_buf 7 (ReqLookup 1 (blit "x")) (new (blit "/src") defaults)) ∅).2
    7 (ReqLookup 1 (blit "x")) [Ev (Lstat (blit "/src/x")) (0, 0, sample_stat)]
    (ReplyEntry 1 (libc_stat_to_attr 2 sample_stat) 0) (libc_stat_to_attr 2 sample_stat)).
  - apply with_root_wf.
  - exact (demo_runs (handle no_buf 7 (ReqLookup 1 (blit "x")) (new (blit "/src") defaults))).
  - done.
Defined.

(** C39: [read] and [write] pass bytes through unchanged on a handle that is a
    descriptor and refuse any other with [EBADF] and no system call: what the
    kernel read is the reply's data, never more than was asked for, at the
    offset that was asked for; what is written is the request's data, and the
    count replied is the one the kernel gave. *)
Theorem read_write_pass_through (D : DirBuf) (fs : ProvFs) (ino fh offset size : Z) (data : bytes)
    (Hsize : 0 ≤ size ≤ u32_max) (Hfh : 0 ≤ fh) :
  ensures (read D fs fh offset size) (λ tr out, out.2 = fs ∧
    if fh <=? i32_max then
      ∃ n e bs, tr = [Ev (Pread fh size offset) (n, e, bs)] ∧
        if n <? 0 then out.1 = ReplyError e
        else ∃ d, out.1 = ReplyData d ∧ Z.of_nat (length d) ≤ size ∧
               (n = Z.of_nat (length bs) → n ≤ size → d = bs)
    else tr = [] ∧ out.1 = ReplyError EBADF) ∧
  ensures (write D fs ino fh offset data) (λ tr out,
    if fh <=? i32_max then
      ∃ n e, tr = [Ev (Pwrite fh data offset) (n, e)] ∧
        if n <? 0 then out = (ReplyError e, fs)
        else out.2 = set_dirty fs ({[ino]} ∪ dirty fs) ∧
             (n ≤ Z.of_nat (length data) ≤ u32_max → out.1 = ReplyWritten n)
    else tr = [] ∧ out = (ReplyError EBADF, fs)).
Proof.
  unfold read, write. rewrite fd_of_fh. replace (- 2 ^ 31 <=? fh) with true by lia. simpl.
  destruct (fh <=? i32_max) eqn:Hmax; [|by split; apply ensures_ret].
  replace (fh <? 0) with false by lia. split; apply ensures_sys_bind.
  - intros [[n e] bs]. simpl. destruct (n <? 0) eqn:Hn; apply ensures_ret; simpl.
    + split; [done|]. exists n, e, bs. by rewrite Hn.
    + split; [done|]. exists n, e, bs. rewrite Hn. split; [done|]. eexists. split; [done|].
      unfold filled. split.
      * rewrite !length_take. lia.
      * intros -> Hle. unfold try_u64. rewrite try_from_in by (unfold u64_max, u32_max in *; lia).
        simpl. rewrite take_take, Nat.min_l by lia. by rewrite Nat2Z.id, take_app_length.
  - intros [n e]. simpl. destruct (n <? 0) eqn:Hn; apply ensures_ret; exists n, e; rewrite Hn; [done|].
    split; [done|]. split; [done|]. intros Hle. unfold try_u32. by rewrite try_from_in by lia.
Qed.

Lemma read_write_pass_through_witness :
  exec_res demo_step (read no_buf demo_state 3 0 10) ∅ = (ReplyData (blit "hi"), demo_state) ∧
  ∃ n e, exec_trace demo_step (write no_buf demo_state 2 3 0 (blit "abc")) ∅
      = [Ev (Pwrite 3 (blit "abc") 0) (n, e)] ∧ n = 3.
Proof.
  split; [by vm_compute|].
  destruct (read_write_pass_through no_buf demo_state 2 3 0 10 (blit "abc")) as [_ Hw]; [done|done|].
  destruct (Hw _ _ (demo_runs _)) as (n & e & Htr & _). exists n, e. split; [exact Htr|].
  apply (inj2 cons) in Htr as [Htr%Ev_inj _]. by injection Htr as <- _.
Defined.

Close Scope Z_scope.
