(* ===== verification/Dirty.v ===== *)
(** The dirty set: which inodes the next [release] stamps.  The set refines an
    abstract history of requests and replies, and a file that was written is
    stamped when it is released. *)

From S2P Require Import Prelude RustStr RustPath Sys Skip Session Identity Xattrs.
From S2P Require Import InodeTable FileAttr ProvFs Confinement Stamping.
From Stdlib Require Import Strings.Byte.

Open Scope Z_scope.

(** ** Definitions *)

(** Opened for more than reading. *)
Definition writable (flags : Z) : bool := negb (flags `mod` 4 =? 0).

(** What a request and its reply do to the set of files that were opened for
    writing or written since they were last released. *)
Definition dirty_step {D} (d : gset Z) (x : request D * reply (buf D)) : gset Z :=
  match x with
  | (ReqCreate _ _ _ _, ReplyCreated _ a _ _ _) => {[ino a]} ∪ d
  | (ReqOpen i flags, ReplyOpened _ _) => if writable flags then {[i]} ∪ d else d
  | (ReqWrite i _ _ _, ReplyWritten _) => {[i]} ∪ d
  | (ReqRelease i _, _) => d ∖ {[i]}
  | _ => d
  end.

(** The trace removes the file [p] names. *)
Definition removes (p : bytes) (e : event) : Prop :=
  match ev_call e with Unlink q | Rmdir q => path_eq q p | _ => False end.
Definition removed_in (p : bytes) (tr : trace) : Prop := Exists (removes p) tr.

#[export] Instance removes_dec p e : Decision (removes p e).
Proof. unfold removes. destruct (ev_call e); apply _. Defined.

Definition releases {D} (i : Z) (rq : request D) : Prop :=
  match rq with ReqRelease j _ => i = j | _ => False end.

(** ** Lemmas *)

Lemma land_accmode flags : (Z.land flags O_ACCMODE =? O_RDONLY) = (flags `mod` 4 =? 0).
Proof. unfold O_ACCMODE, O_RDONLY. change 3 with (Z.ones 2). by rewrite Z.land_ones. Qed.

Lemma handle_dirty D fs pid rq :
  ensures (handle D pid rq fs) (λ tr out, dirty out.2 = dirty_step (dirty fs) (rq, out.1)).
Proof.
  destruct rq; cbn [handle];
    [unfold lookup|unfold getattr|unfold create|unfold open|unfold read|unfold write|unfold release
    |unfold setattr|unfold mkdir|unfold unlink|unfold rmdir|unfold readdir].
  all: handler; simpl; unfold writable; rewrite <-?land_accmode; try done.
  all: match goal with H : _ = _ |- _ => by rewrite H end.
Qed.

(** A table number keeps its path while the file is not removed. *)
Definition keeps (fs : ProvFs) (tr : trace) (fs' : ProvFs) : Prop :=
  table_wf (inodes fs) → next_ino (inodes fs) + cost tr ≤ u64_max →
  ∀ i p, path (inodes fs) i = Some p → ¬ removed_in p tr → path (inodes fs') i = Some p.

Lemma intern_keeps t c n t' i p :
  table_wf t → intern t c = (n, t') → path t i = Some p → path t' i = Some p.
Proof. intros Hwf Hi Hp. apply (intern_stable t Hwf c) in Hp. by rewrite Hi in Hp. Qed.

Lemma list_entries_keeps dir ents t i p :
  table_wf t → next_ino t + Z.of_nat (length ents) ≤ u64_max →
  path t i = Some p → path (list_entries t dir ents).2 i = Some p.
Proof.
  revert t. induction ents as [|[ent|e] ents IH]; intros t Hwf Hn Hp; simpl in *; [done| |].
  - destruct (intern t _) as [n t1] eqn:E.
    pose proof (table_step_wf t (OpIntern (join dir (d_name ent))) Hwf ltac:(lia)) as [Hwf1 Hn1].
    simpl in *. rewrite E in *. specialize (IH t1 Hwf1 ltac:(simpl in *; lia) (intern_keeps _ _ _ _ _ _ Hwf E Hp)).
    by destruct (list_entries t1 dir ents).
  - apply IH; [done|lia|done].
Qed.

Lemma forget_keeps t c i p :
  table_wf t → path t i = Some p → ¬ path_eq c p → path (forget_path t c) i = Some p.
Proof. intros Hwf Hp Hne. apply forget_path_spec; [done|]. split; [done|]. intros H. by apply Hne. Qed.

Lemma handle_keeps D fs pid rq : ensures (handle D pid rq fs) (λ tr out, keeps fs tr out.2).
Proof.
  destruct rq; cbn [handle];
    [unfold lookup|unfold getattr|unfold create|unfold open|unfold read|unfold write|unfold release
    |unfold setattr|unfold mkdir|unfold unlink|unfold rmdir|unfold readdir]; handler;
    intros Hwf Hc i' p Hp Hrm; simpl in *; try done.
  all: try (by eapply intern_keeps).
  all: try (apply forget_keeps; [done..|]; intros Heq; apply Hrm; by left).
  match goal with H : list_entries ?t ?dir ?ents = _ |- _ =>
    pose proof (list_entries_keeps dir ents t i' p Hwf) as Hk; rewrite H in Hk; simpl in Hk end.
  apply Hk; [lia|done].
Qed.

Lemma removed_in_app p t1 t2 : removed_in p (t1 ++ t2) ↔ removed_in p t1 ∨ removed_in p t2.
Proof. apply Exists_app. Qed.

Lemma serve_app D rqs1 rqs2 fs tr reps fs' :
  runs (serve D (rqs1 ++ rqs2) fs) tr (reps, fs') →
  ∃ tr1 reps1 fs1 tr2 reps2, tr = tr1 ++ tr2 ∧ reps = reps1 ++ reps2 ∧
    runs (serve D rqs1 fs) tr1 (reps1, fs1) ∧ runs (serve D rqs2 fs1) tr2 (reps2, fs').
Proof.
  revert fs tr reps. induction rqs1 as [|[pid rq] rqs1 IH]; intros fs tr reps Hr; simpl in *.
  - exists [], [], fs, tr, reps. by split_and!.
  - apply runs_bind in Hr as (ta & [rep fsa] & tb & -> & Ha & Hb).
    apply runs_bind in Hb as (tc & [repsb fsb] & td & -> & Hb & [-> [= -> ->]]%runs_ret).
    apply IH in Hb as (tr1 & reps1 & fs1 & tr2 & reps2 & -> & -> & H1 & H2).
    exists (ta ++ tr1), (rep :: reps1), fs1, tr2, reps2. rewrite app_nil_r, <-app_assoc.
    split_and!; [done..| |done]. apply runs_bind. exists ta, (rep, fsa), tr1. split_and!; [done..|].
    apply runs_bind. exists tr1, (reps1, fs1), []. by rewrite app_nil_r.
Qed.

Lemma serve_one D pid rq fs tr reps fs' :
  runs (serve D [(pid, rq)] fs) tr (reps, fs') →
  ∃ rep, reps = [rep] ∧ runs (handle D pid rq fs) tr (rep, fs').
Proof.
  simpl. intros (ta & [rep fsa] & tb & -> & Ha & Hb)%runs_bind.
  apply runs_ret in Hb as [-> [= -> ->]].
  exists rep. by rewrite app_nil_r.
Qed.

Lemma serve_dirty D rqs fs tr reps fs' :
  runs (serve D rqs fs) tr (reps, fs') →
  dirty fs' = foldl dirty_step (dirty fs) (zip (snd <$> rqs) reps).
Proof.
  revert fs tr reps. induction rqs as [|[pid rq] rqs IH]; intros fs tr reps Hr; simpl in *.
  - by apply runs_ret in Hr as [-> [= -> ->]].
  - apply runs_bind in Hr as (ta & [rep fsa] & tb & -> & Ha & Hb).
    apply runs_bind in Hb as (tc & [repsb fsb] & td & -> & Hb & [-> [= -> ->]]%runs_ret).
    apply IH in Hb as ->. pose proof (handle_dirty _ _ _ _ _ _ Ha) as Hd. cbn [fst snd] in Hd.
    by rewrite Hd.
Qed.

Lemma dirty_step_stays D i d (x : request D * reply (buf D)) :
  i ∈ d → ¬ releases i x.1 → i ∈ dirty_step d x.
Proof. destruct x as [[] []]; simpl; intros; try case_match; set_solver. Qed.

(** Across requests that neither release nor remove it, a dirty file stays
    dirty and keeps its path. *)
Lemma serve_keeps D rqs fs tr reps fs' i p :
  fs_inv fs → Forall (λ prq, req_ok prq.2 ∧ ¬ releases i prq.2) rqs →
  runs (serve D rqs fs) tr (reps, fs') → Forall answer_ok tr →
  next_ino (inodes fs) + cost tr ≤ u64_max →
  path (inodes fs) i = Some p → ¬ removed_in p tr → i ∈ dirty fs →
  path (inodes fs') i = Some p ∧ i ∈ dirty fs'.
Proof.
  intros Hinv Hrqs. revert fs tr reps Hinv.
  induction Hrqs as [|[pid rq] rqs [Hok Hrel] Hrqs IH]; intros fs tr reps Hinv Hr Ha Hc Hp Hrm Hd; simpl in *.
  - by apply runs_ret in Hr as [-> [= -> ->]].
  - apply runs_bind in Hr as (t1 & [rep fs1] & t2 & -> & H1 & Hr2).
    apply runs_bind in Hr2 as (t3 & [reps2 fs2] & t4 & -> & H2 & [-> [= -> ->]]%runs_ret).
    rewrite app_nil_r in *. rewrite cost_app in Hc. apply Forall_app in Ha as [Ha1 Ha2].
    rewrite removed_in_app in Hrm. pose proof (cost_nonneg t1). pose proof (cost_nonneg t3).
    destruct (handle_inv D fs pid rq t1 rep fs1) as (Hinv1 & _ & _ & Hn1 & _); [done..|lia|].
    eapply (IH fs1); [done|exact H2|done|lia| |tauto|].
    + apply (handle_keeps D fs pid rq _ _ H1 (inv_wf _ Hinv)); [lia|done|tauto].
    + pose proof (handle_dirty D fs pid rq _ _ H1) as Hds. cbn [fst snd] in Hds. rewrite Hds.
      by apply dirty_step_stays.
Qed.

(** ** Theorems *)

(** C16: the dirty set refines its specification: after any session it holds
    exactly the inodes created, opened for more than reading or written since
    they were last released, as read off the requests and their replies. *)
Theorem dirty_set_refines (D : DirBuf) (src : bytes) (sl : SkipList) (rqs : list (N * request D))
    (tr : trace) (reps : list (reply (buf D))) (fs' : ProvFs)
    (Hrun : runs (serve D rqs (new src sl)) tr (reps, fs')) :
  dirty fs' = foldl dirty_step ∅ (zip (snd <$> rqs) reps).
Proof. by rewrite (serve_dirty _ _ _ _ _ _ Hrun). Qed.

Lemma dirty_set_refines_witness :
  let p := serve list_buf demo_requests (new (blit "/src") defaults) in
  dirty (exec_res demo_step p ∅).2 =
    foldl dirty_step ∅ (zip (snd <$> demo_requests) (exec_res demo_step p ∅).1).
Proof.
  intros p. apply (dirty_set_refines list_buf (blit "/src") defaults demo_requests (exec_trace demo_step p ∅)).
  rewrite <-surjective_pairing. apply demo_runs.
Defined.

(** C3: a written file is stamped when it is released.  Once a write to an
    inode succeeded, then whatever requests come in between, as long as they
    neither release the inode nor remove its file, the release stamps the
    file's path with the identity of the releasing process, if the skip list
    lets it. *)
Theorem written_file_stamped_on_release (D : DirBuf) (fs fs' : ProvFs) (pw pid : N)
    (i fh off : Z) (data : bytes) (fh' : Z) (mid : list (N * request D)) (p : bytes) (n : Z)
    (tr : trace) (reps : list (reply (buf D)))
    (Hinv : fs_inv fs) (Hp : path (inodes fs) i = Some p)
    (Hmid : Forall (λ prq, req_ok prq.2 ∧ ¬ releases i prq.2) mid)
    (Hrun : runs (serve D ((pw, ReqWrite i fh off data) :: mid ++ [(pid, ReqRelease i fh')]) fs)
              tr (ReplyWritten n :: reps, fs'))
    (Hans : Forall answer_ok tr) (Hcost : next_ino (inodes fs) + cost tr ≤ u64_max)
    (Hrm : ¬ removed_in p tr) (Hskip : should_stamp (relpath fs p) (skip fs) = true) :
  ∃ t0 t1 tri id now trs r, tr = t0 ++ t1 ∧
    runs (resolve_identity pid) tri id ∧ runs (stamp p id now) trs r ∧
    stamp_part t1 = tri ++ Ev UtcNow now :: trs ++
      match r with Ok _ => [] | Err e => [Ev (LogWarn p (session id) e) tt] end.
Proof.
  rewrite app_comm_cons in Hrun.
  apply serve_app in Hrun as (ta & repsa & fsa & tb & repsb & -> & Hreps & Ha & Hb).
  apply serve_one in Hb as (rep & -> & Hb). apply Forall_app in Hans as [Hans _].
  rewrite cost_app in Hcost. rewrite removed_in_app in Hrm. pose proof (cost_nonneg tb).
  simpl in Ha. apply runs_bind in Ha as (tw & [repw fsw] & t2 & -> & Hw & Hm).
  apply runs_bind in Hm as (tm & [repsm fsm] & t4 & -> & Hm & [-> [= -> ->]]%runs_ret).
  rewrite app_nil_r in *. apply Forall_app in Hans as [Hansw Hansm].
  rewrite cost_app in Hcost. rewrite removed_in_app in Hrm. pose proof (cost_nonneg tm).
  pose proof (cost_nonneg tw).
  injection Hreps as <- _.
  destruct (handle_inv D fs pw (ReqWrite i fh off data) tw (ReplyWritten n) fsw)
    as (Hinvw & Hsw & Hkw & Hnw & _); [done..|lia|].
  destruct (serve_keeps D mid fsw tm repsm fsm i p) as [Hpm Hdm]; [done..|lia| |tauto| |].
  { apply (handle_keeps D fs pw (ReqWrite i fh off data) _ _ Hw (inv_wf _ Hinv)); [lia|done|tauto]. }
  { pose proof (handle_dirty D fs pw (ReqWrite i fh off data) _ _ Hw) as Hd.
    cbn [fst snd dirty_step] in Hd. rewrite Hd. set_solver. }
  destruct (serve_inv D fsw mid tm repsm fsm) as (_ & Hsm & Hkm & _); [done| |done..|lia|].
  { eapply Forall_impl; [exact Hmid|]. by intros ? [? _]. }
  pose proof (handle_stamps D fsm pid (ReqRelease i fh') _ _ Hb) as Hs.
  unfold stamps, stamp_target in Hs. rewrite bool_decide_eq_true_2, Hpm in Hs by done.
  apply maybe_stamp_runs in Hs. unfold relpath in Hs, Hskip.
  rewrite Hsm, Hsw, Hkm, Hkw, Hskip in Hs.
  apply stamp_now_runs in Hs as (tri & id & now & trs & r & ? & ? & ?).
  by exists (tw ++ tm), tb, tri, id, now, trs, r.
Qed.

(** A file of a fresh mount, opened, written, read back and released. *)
Definition demo_written : ProvFs :=
  (exec_res demo_step (handle list_buf 7 (ReqLookup 1 (blit "a")) demo_fs) ∅).2.

Lemma demo_written_inv : fs_inv demo_written.
Proof.
  unfold demo_written.
  pose (p := handle list_buf 7 (ReqLookup 1 (blit "a")) demo_fs).
  eapply (handle_inv list_buf demo_fs 7 (ReqLookup 1 (blit "a")) (exec_trace demo_step p ∅)
    (exec_res demo_step p ∅).1).
  - apply new_inv.
  - by apply (bool_decide_eq_true_1 _).
  - rewrite <-surjective_pairing. apply demo_runs.
  - apply (bool_decide_eq_true_1 _). by vm_compute.
  - by vm_compute.
Qed.

Lemma written_file_stamped_on_release_witness :
  let p := serve list_buf ([(7%N, ReqWrite 2 3 0 (blit "hi")); (8%N, ReqRead 2 3 0 10);
                            (9%N, ReqRelease 2 3)]) demo_written in
  ∃ t0 t1 tri id now trs r, exec_trace demo_step p ∅ = t0 ++ t1 ∧
    runs (resolve_identity 9) tri id ∧ runs (stamp (blit "/src/a") id now) trs r ∧
    stamp_part t1 = tri ++ Ev UtcNow now :: trs ++
      match r with Ok _ => [] | Err e => [Ev (LogWarn (blit "/src/a") (session id) e) tt] end.
Proof.
  intros p.
  apply (written_file_stamped_on_release list_buf demo_written (exec_res demo_step p ∅).2 7 9 2 3 0
    (blit "hi") 3 [(8%N, ReqRead 2 3 0 10)] (blit "/src/a") 2 (exec_trace demo_step p ∅)
    [ReplyData (blit "hi"); ReplyOk]).
  - apply demo_written_inv.
  - by vm_compute.
  - repeat constructor. simpl. tauto.
  - apply (demo_runs p).
  - apply (bool_decide_eq_true_1 _). by vm_compute.
  - by vm_compute.
  - unfold removed_in. apply (bool_decide_eq_true_1 _). by vm_compute.
  - by vm_compute.
Defined.

Close Scope Z_scope.
