(* ===== verification/Readdir.v ===== *)
(** Directory listing and removal as the kernel sees them: reading a directory
    page by page yields every entry once, as it is, and a removed file's inode number is
    dead. *)

From S2P Require Import Prelude RustStr RustPath Sys Skip Xattrs InodeTable FileAttr.
From S2P Require Import ProvFs Confinement Handles Dirty.
From Stdlib Require Import Strings.Byte.

Open Scope Z_scope.

(** ** The directory buffer, as an interface *)

(** [ReplyDirectory::add] appends the entry, or says the buffer is full and
    leaves it; an empty buffer takes one entry. *)
Class LawfulBuf (D : DirBuf) (entries : buf D → list dentry) : Prop := {
  add_full b e : (buf_add D b e).2 = true → entries (buf_add D b e).1 = entries b;
  add_ok b e : (buf_add D b e).2 = false → entries (buf_add D b e).1 = entries b ++ [e];
  add_first b e : entries b = [] → (buf_add D b e).2 = false;
}.

(** A buffer with room for [n] entries. *)
Definition bounded_buf (n : nat) : DirBuf :=
  {| buf := list dentry;
     buf_add b e := if Nat.leb n (length b) then (b, true) else (b ++ [e], false) |}.

#[export] Instance bounded_buf_lawful n : 0%nat ≠ n → LawfulBuf (bounded_buf n) id.
Proof.
  intros Hn. split; simpl; intros b e; try by case_match.
  intros ->. by destruct n.
Qed.

(** ** Definitions *)

(** The entries a listing offers, with the offset after each. *)
Fixpoint numbered (k : Z) (all : list (Z * FileType * bytes)) : list dentry :=
  match all with
  | [] => []
  | (i, ft, name) :: all' => Dentry i (k + 1) ft name :: numbered (k + 1) all'
  end.

(** The entries the system could read. *)
Definition readable (ents : list (io_result dirent)) : list dirent :=
  omap (λ r, match r with Ok ent => Some ent | Err _ => None end) ents.

(** An entry [e] received as the [k]-th child of [dir] shows the directory
    entry [ent]: same name, its type with everything but directories and
    symbolic links a regular file, the offset after it, and a number that leads
    to that very child. *)
Record shows (t : InodeTable) (dir : bytes) (k : nat) (ent : dirent) (e : dentry) : Prop := {
  shows_name : de_name e = d_name ent;
  shows_off : de_off e = Z.of_nat k + 3;
  shows_dir : de_type e = Directory ↔ d_type ent = Ok FtDir;
  shows_symlink : de_type e = Symlink ↔ d_type ent = Ok FtSymlink;
  shows_file : de_type e = RegularFile ↔ d_type ent ≠ Ok FtDir ∧ d_type ent ≠ Ok FtSymlink;
  shows_ino : ∃ q, path t (de_ino e) = Some q ∧ path_eq q (join dir (d_name ent));
}.

(** What [readdir] puts together before it cuts a page from it. *)
Definition listing (t : InodeTable) (ino : Z) (dir : bytes) (ents : list (io_result dirent)) :=
  (ino, Directory, [dot]) :: (ino, Directory, [dot; dot]) :: (list_entries t dir ents).1.

Section Client.
Context (D : DirBuf) (entries : buf D → list dentry) (b0 : buf D).

(** The kernel's side: read pages, each from the offset of the last entry it
    has, until a page is empty. *)
Fixpoint list_dir (fuel : nat) (fs : ProvFs) (ino offset : Z) : prog (list dentry * ProvFs) :=
  match fuel with
  | O => mret ([], fs)
  | S fuel =>
      '(rep, fs') ← readdir D fs ino offset b0;
      match rep with
      | ReplyDirectory b =>
          match last (entries b) with
          | Some e => '(rest, fs'') ← list_dir fuel fs' ino (de_off e); mret (entries b ++ rest, fs'')
          | None => mret ([], fs')
          end
      | _ => mret ([], fs')
      end
  end.
End Client.

(** Every listing of [dir] in the trace is [ents]. *)
Definition lists (dir : bytes) (ents : list (io_result dirent)) (e : event) : Prop :=
  e = Ev (ReadDir dir) (Ok ents).

(** ** Lemmas *)

Section Paging.
Context {D : DirBuf} {entries : buf D → list dentry} `{!LawfulBuf D entries}.

Lemma numbered_length k all : length (numbered k all) = length all.
Proof. revert k. induction all as [|[[??]?] all IH]; intros k; simpl; [done|]. by rewrite IH. Qed.

Lemma numbered_drop k n all : drop n (numbered k all) = numbered (k + Z.of_nat n) (drop n all).
Proof.
  revert k n. induction all as [|[[i ft] name] all IH]; intros k [|n]; simpl; try done.
  - by rewrite Z.add_0_r.
  - rewrite IH. by replace (k + 1 + Z.of_nat n) with (k + Z.of_nat (S n)) by lia.
Qed.

Lemma numbered_lookup_off k all n e : numbered k all !! n = Some e → de_off e = k + Z.of_nat n + 1.
Proof.
  revert k n. induction all as [|[[i ft] name] all IH]; intros k [|n]; simpl; try done.
  - intros [= <-]. simpl. lia.
  - intros H%IH. lia.
Qed.

(** Entries before the offset are not added. *)
Lemma add_entries_skip i off all b :
  i ≤ off → Z.of_nat (length all) + i ≤ i64_max →
  add_entries D i off all b = add_entries D off off (drop (Z.to_nat (off - i)) all) b.
Proof.
  revert i. induction all as [|[[c ft] name] all IH]; intros i Hi Hn; simpl length in Hn.
  - by destruct (Z.to_nat (off - i)).
  - destruct (Z.eq_dec i off) as [-> |Hne]; [by rewrite Z.sub_diag|].
    cbn [add_entries]. replace (i <? off) with true by lia. rewrite IH by lia.
    by replace (Z.to_nat (off - i)) with (S (Z.to_nat (off - (i + 1)))) by lia.
Qed.

(** From the offset on, a prefix of what is left is added. *)
Lemma add_entries_prefix i all b :
  0 ≤ i → Z.of_nat (length all) + i ≤ i64_max →
  ∃ n, entries (add_entries D i i all b) = entries b ++ take n (numbered i all) ∧
       (entries b = [] → all ≠ [] → (n ≠ 0)%nat).
Proof.
  intros Hi Hn.
  cut (∀ off, off ≤ i → ∃ n, entries (add_entries D i off all b) = entries b ++ take n (numbered i all) ∧
       (entries b = [] → all ≠ [] → (n ≠ 0)%nat)); [intros H; by apply H|].
  intros off. revert i b Hi Hn. induction all as [|[[c ft] name] all IH]; intros i b Hi Hn Hoff.
  - exists 0%nat. simpl. by rewrite app_nil_r.
  - cbn [add_entries]. replace (i <? off) with false by lia. simpl length in Hn.
    unfold try_i64. rewrite try_from_in by (unfold i64_min; lia). unfold default. cbn [from_option id].
    destruct (buf_add D b (Dentry c (i + 1) ft name)) as [b' full] eqn:Hb.
    destruct full.
    + exists 0%nat. rewrite app_nil_r. split.
      * pose proof (add_full b (Dentry c (i + 1) ft name)) as H. rewrite Hb in H. by apply H.
      * intros He _. pose proof (add_first b (Dentry c (i + 1) ft name) He) as H. by rewrite Hb in H.
    + pose proof (add_ok b (Dentry c (i + 1) ft name)) as H. rewrite Hb in H. specialize (H eq_refl).
      simpl in H. destruct (IH (i + 1) b') as (n & Hn' & _); [lia..|].
      exists (S n). split; [|done]. rewrite Hn', H. simpl. by rewrite <-app_assoc.
Qed.

(** A page from offset [k] of a listing. *)
Lemma page_spec all k b :
  (k ≤ length all)%nat → Z.of_nat (length all) ≤ i64_max → entries b = [] →
  ∃ n, entries (add_entries D 0 (Z.of_nat k) all b) = take n (drop k (numbered 0 all)) ∧
       ((k < length all)%nat → (n ≠ 0)%nat).
Proof.
  intros Hk Hlen Hb. rewrite add_entries_skip, Z.sub_0_r, Nat2Z.id by lia.
  destruct (add_entries_prefix (Z.of_nat k) (drop k all) b) as (n & Hn & Hpos);
    [lia|rewrite length_drop; lia|].
  exists n. rewrite Hn, Hb, numbered_drop. split; [done|]. intros Hlt. apply Hpos; [done|].
  intros H. apply (f_equal length) in H. rewrite length_drop in H. simpl in H. lia.
Qed.
End Paging.

(** Interning again what a listing interned changes nothing. *)
Lemma intern_rev_mono t p cs n :
  rev t !! cs = Some n → rev (intern t p).2 !! cs = Some n.
Proof.
  intros Hn. unfold intern. destruct (rev t !! components p) as [m|] eqn:E; [done|]. simpl.
  rewrite lookup_insert_ne; [done|]. congruence.
Qed.

Lemma intern_rev_self t p : rev (intern t p).2 !! components p = Some (intern t p).1.
Proof.
  unfold intern. destruct (rev t !! components p) as [m|] eqn:E; [done|]. simpl.
  by rewrite lookup_insert_eq.
Qed.

Lemma list_entries_rev_mono t dir ents cs n :
  rev t !! cs = Some n → rev (list_entries t dir ents).2 !! cs = Some n.
Proof.
  revert t. induction ents as [|[ent|e] ents IH]; intros t Hn; simpl; [done| |by apply IH].
  pose proof (intern_rev_mono t (join dir (d_name ent)) cs n) as Hm.
  destruct (intern t _) as [c t1]. specialize (IH t1).
  destruct (list_entries t1 dir ents) as [all t2]. by apply IH, Hm.
Qed.

Lemma list_entries_again t dir ents t' :
  (∀ cs n, rev (list_entries t dir ents).2 !! cs = Some n → rev t' !! cs = Some n) →
  list_entries t' dir ents = ((list_entries t dir ents).1, t').
Proof.
  revert t. induction ents as [|[ent|e] ents IH]; intros t Hsub; simpl in *; [done| |by apply IH].
  pose proof (intern_rev_self t (join dir (d_name ent))) as Hself.
  destruct (intern t _) as [c t1] eqn:E1. simpl in Hself.
  pose proof (list_entries_rev_mono t1 dir ents _ _ Hself) as Hself2. specialize (IH t1).
  destruct (list_entries t1 dir ents) as [all t2]. simpl in *.
  unfold intern at 1. rewrite (Hsub _ _ Hself2). by rewrite IH.
Qed.

Lemma listing_length t ino dir ents :
  (length (listing t ino dir ents) ≤ length ents + 2)%nat.
Proof.
  unfold listing. simpl. cut (length (list_entries t dir ents).1 ≤ length ents)%nat; [lia|].
  revert t. induction ents as [|[ent|e] ents IH]; intros t; simpl; [done| |specialize (IH t); lia].
  destruct (intern t _) as [c t1]. specialize (IH t1).
  destruct (list_entries t1 dir ents). simpl in *. lia.
Qed.

Section Listing.
Context {D : DirBuf} {entries : buf D → list dentry} `{!LawfulBuf D entries}.
Context (b0 : buf D) (Hb0 : entries b0 = []).
Context (dir : bytes) (ents : list (io_result dirent)) (ino : Z).
Context (Hlen : Z.of_nat (length ents) + 2 ≤ i64_max).

(** One page. *)
Lemma readdir_page fs k tr out :
  path (inodes fs) ino = Some dir → (k ≤ length (listing (inodes fs) ino dir ents))%nat →
  runs (readdir D fs ino (Z.of_nat k) b0) tr out → Forall (lists dir ents) tr →
  ∃ b n, out = (ReplyDirectory b, set_inodes fs (list_entries (inodes fs) dir ents).2) ∧
    entries b = take n (drop k (numbered 0 (listing (inodes fs) ino dir ents))) ∧
    ((k < length (listing (inodes fs) ino dir ents))%nat → (n ≠ 0)%nat).
Proof.
  intros Hp Hk Hr Hl. pose proof (listing_length (inodes fs) ino dir ents) as Hll.
  revert Hr Hl. unfold readdir. rewrite Hp.
  assert (ensures (sys (ReadDir dir) ≫= λ r, match r with
      | Err e => mret (ReplyError (io_err_to_errno e), fs)
      | Ok entries =>
          let '(children, t) := list_entries (inodes fs) dir entries in
          let all := (ino, Directory, [dot]) :: (ino, Directory, [dot; dot]) :: children in
          let offset_usize := default 0 (try_u64 (Z.of_nat k)) in
          mret (ReplyDirectory (add_entries D 0 offset_usize all b0), set_inodes fs t)
      end) (λ tr out, Forall (lists dir ents) tr →
        out = (ReplyDirectory (add_entries D 0 (Z.of_nat k) (listing (inodes fs) ino dir ents) b0),
               set_inodes fs (list_entries (inodes fs) dir ents).2))) as He.
  { apply (ensures_sys_bind (ReadDir dir)). intros [es|e].
    - destruct (list_entries (inodes fs) dir es) as [children t] eqn:E. apply ensures_ret.
      intros [Heq%Ev_inj _]%Forall_cons. injection Heq as ->. unfold listing. rewrite E. simpl.
      unfold try_u64. rewrite try_from_in; [done|]. unfold i64_max, u64_max in *. lia.
    - apply ensures_ret. intros [Heq%Ev_inj _]%Forall_cons. done. }
  intros Hr Hl. rewrite (He _ _ Hr Hl).
  destruct (page_spec (entries:=entries) (listing (inodes fs) ino dir ents) k b0) as (n & Hn & Hpos); [done|lia|done|].
  by eexists _, n.
Qed.

(** Reading on from offset [k], once the children have their numbers. *)
Lemma list_dir_stable fuel fs k tr es :
  path (inodes fs) ino = Some dir → (list_entries (inodes fs) dir ents).2 = inodes fs →
  (k ≤ length (listing (inodes fs) ino dir ents))%nat →
  (length (listing (inodes fs) ino dir ents) - k < fuel)%nat →
  runs (list_dir D entries b0 fuel fs ino (Z.of_nat k)) tr es → Forall (lists dir ents) tr →
  es = (drop k (numbered 0 (listing (inodes fs) ino dir ents)), fs).
Proof.
  revert fs k tr es. induction fuel as [|fuel IH]; intros fs k tr es Hp Hst Hk Hf Hr Hl; [lia|].
  assert (set_inodes fs (list_entries (inodes fs) dir ents).2 = fs) as Hfs
    by (rewrite Hst; by destruct fs).
  cbn [list_dir] in Hr. apply runs_bind in Hr as (t1 & out & t2 & -> & H1 & H2).
  apply Forall_app in Hl as [Hl1 Hl2].
  destruct (readdir_page fs k t1 out) as (b & n & -> & Hb & Hpos); [done..|].
  rewrite Hb, Hfs in H2. clear Hb Hfs H1. set (all := listing (inodes fs) ino dir ents) in *.
  set (rest := drop k (numbered 0 all)) in *.
  assert (length rest = length all - k)%nat as Hrest by (unfold rest; by rewrite length_drop, numbered_length).
  destruct (last (take n rest)) as [e|] eqn:Elast.
  - apply runs_bind in H2 as (t3 & [es' fs''] & t4 & -> & H3 & [-> ->]%runs_ret).
    rewrite app_nil_r in Hl2. apply last_take_Some in Elast as (m & He & Htake).
    pose proof (lookup_lt_Some _ _ _ He) as Hm.
    assert (de_off e = Z.of_nat (k + S m)) as Hoff.
    { unfold rest in He. rewrite lookup_drop in He. apply numbered_lookup_off in He. lia. }
    rewrite Hoff in H3. apply IH in H3; [|done|done|unfold all in *; lia|unfold all in *; lia|done].
    apply pair_equal_spec in H3 as [-> ->]. rewrite Htake. fold all. f_equal.
    replace (drop (k + S m) (numbered 0 all)) with (drop (S m) rest)
      by (unfold rest; rewrite drop_drop; f_equal; lia).
    apply take_drop.
  - apply runs_ret in H2 as [-> ->]. apply last_None in Elast.
    destruct (Nat.eq_dec k (length all)) as [Heq|Hne].
    + rewrite Heq, Nat.sub_diag in Hrest. by rewrite (nil_length_inv rest Hrest).
    + apply (f_equal length) in Elast. rewrite length_take in Elast. simpl in Elast.
      specialize (Hpos ltac:(lia)). lia.
Qed.

(** All pages together. *)
Lemma list_dir_listing fuel fs tr out :
  table_wf (inodes fs) → path (inodes fs) ino = Some dir →
  next_ino (inodes fs) + Z.of_nat (length ents) ≤ u64_max → (length ents + 3 < fuel)%nat →
  runs (list_dir D entries b0 fuel fs ino 0) tr out → Forall (lists dir ents) tr →
  out = (numbered 0 (listing (inodes fs) ino dir ents),
         set_inodes fs (list_entries (inodes fs) dir ents).2).
Proof.
  intros Hwf Hp Hroom Hfuel Hrun Hstat. pose proof (listing_length (inodes fs) ino dir ents) as Hll.
  destruct fuel as [|fuel]; [lia|]. cbn [list_dir] in Hrun.
  apply runs_bind in Hrun as (t1 & page & t2 & -> & H1 & H2).
  apply Forall_app in Hstat as [Hl1 Hl2].
  destruct (readdir_page fs 0 t1 page) as (b & n & -> & Hb & Hpos); [done|lia|done..|].
  set (t' := (list_entries (inodes fs) dir ents).2) in *.
  pose proof (list_entries_again (inodes fs) dir ents t' ltac:(by unfold t')) as Hagain.
  rewrite Hb, drop_0 in H2. clear Hb H1.
  assert (listing t' ino dir ents = listing (inodes fs) ino dir ents) as Hsame
    by (unfold listing; by rewrite Hagain).
  destruct (last (take n (numbered 0 (listing (inodes fs) ino dir ents)))) as [e|] eqn:Elast.
  - apply runs_bind in H2 as (t3 & [es' fs''] & t4 & -> & H3 & [-> ->]%runs_ret).
    rewrite app_nil_r in Hl2. apply last_take_Some in Elast as (m & He & Htake).
    pose proof (lookup_lt_Some _ _ _ He) as Hm. rewrite numbered_length in Hm.
    apply numbered_lookup_off in He. replace (de_off e) with (Z.of_nat (S m)) in H3 by lia.
    apply list_dir_stable in H3; cbn [inodes set_inodes] in *;
      [|by apply list_entries_keeps|by rewrite Hagain|rewrite Hsame; lia|rewrite Hsame; lia|done].
    apply pair_equal_spec in H3 as [-> ->]. rewrite Htake, Hsame. f_equal. apply take_drop.
  - apply runs_ret in H2 as [-> ->]. apply last_None, (f_equal length) in Elast.
    rewrite length_take, numbered_length in Elast. unfold listing in *. simpl in *.
    specialize (Hpos ltac:(lia)). lia.
Qed.
End Listing.

(** *** The children of a listing *)

Lemma numbered_lookup k all n i ft name :
  all !! n = Some (i, ft, name) → numbered k all !! n = Some (Dentry i (k + Z.of_nat n + 1) ft name).
Proof.
  revert k n. induction all as [|[[j gt] m] all IH]; intros k [|n]; simpl; try done.
  - intros [= -> -> ->]. do 2 f_equal. lia.
  - intros H. rewrite (IH _ _ H). do 2 f_equal. lia.
Qed.

Lemma list_type_shows r :
  (list_type r = Directory ↔ r = Ok FtDir) ∧ (list_type r = Symlink ↔ r = Ok FtSymlink) ∧
  (list_type r = RegularFile ↔ r ≠ Ok FtDir ∧ r ≠ Ok FtSymlink).
Proof. by destruct r as [[]|]; simpl; naive_solver. Qed.

Lemma list_entries_children t dir ents :
  table_wf t → next_ino t + Z.of_nat (length ents) ≤ u64_max →
  table_wf (list_entries t dir ents).2 ∧
  Forall2 (λ ent child, child.2 = d_name ent ∧ child.1.2 = list_type (d_type ent) ∧
      ∃ q, path (list_entries t dir ents).2 child.1.1 = Some q ∧ path_eq q (join dir (d_name ent)))
    (readable ents) (list_entries t dir ents).1.
Proof.
  unfold readable. revert t. induction ents as [|[ent|e] ents IH]; intros t Hwf Hn; csimpl.
  - by split.
  - simpl in Hn. destruct (intern_path t Hwf (join dir (d_name ent))) as (q & Hq & Heq & _).
    pose proof (table_step_wf t (OpIntern (join dir (d_name ent))) Hwf ltac:(lia)) as [Hwf1 Hn1].
    simpl in Hwf1, Hn1. destruct (intern t _) as [c t1]. simpl in *.
    destruct (IH t1 Hwf1 ltac:(lia)) as [Hwf2 Hall].
    pose proof (list_entries_keeps dir ents t1 c q Hwf1 ltac:(lia) Hq) as Hc.
    destruct (list_entries t1 dir ents) as [all t2]. simpl in *. split; [done|].
    constructor; [|done]. simpl. eauto.
  - simpl in Hn. apply IH; [done|lia].
Qed.

(** What a removal does. *)
Lemma removal_ensures D fs pid rq parent name dir :
  rq = ReqUnlink parent name ∨ rq = ReqRmdir parent name → path (inodes fs) parent = Some dir →
  ensures (handle D pid rq fs) (λ tr out, out.1 = ReplyOk →
    out.2 = set_inodes fs (forget_path (inodes fs) (join dir name)) ∧
    removed_in (join dir name) tr ∧ length tr = 1%nat).
Proof.
  intros [-> | ->] Hp; cbn [handle]; unfold unlink, rmdir; rewrite Hp.
  all: handler; intros Hok; try done.
  all: split; [done|]; split; [by left|done].
Qed.

(** ** Theorems *)

(** C20: reading a directory page by page, each page from the offset of the last
    entry received, for any page size: the pages together are [.], [..], and
    one entry for each directory entry the system could read, in its order and
    nothing else, each with its name and type and a number that afterwards
    leads to that child; at most [length ents + 4] pages are needed, the inode
    table stays well formed and numbers known before keep their paths. *)
Theorem readdir_pages_complete (D : DirBuf) (entries : buf D → list dentry)
    (Hlaw : LawfulBuf D entries) (b0 : buf D) (Hb0 : entries b0 = []) (fs fs' : ProvFs) (ino : Z)
    (dir : bytes) (ents : list (io_result dirent)) (fuel : nat) (tr : trace) (es : list dentry)
    (Hwf : table_wf (inodes fs)) (Hp : path (inodes fs) ino = Some dir)
    (Hroom : next_ino (inodes fs) + Z.of_nat (length ents) ≤ u64_max)
    (Hlen : Z.of_nat (length ents) + 2 ≤ i64_max) (Hfuel : (length ents + 3 < fuel)%nat)
    (Hrun : runs (list_dir D entries b0 fuel fs ino 0) tr (es, fs'))
    (Hstat : Forall (lists dir ents) tr) :
  (∃ children, es = Dentry ino 1 Directory (blit ".") :: Dentry ino 2 Directory (blit "..") :: children ∧
     length children = length (readable ents) ∧
     ∀ k ent, readable ents !! k = Some ent →
       ∃ e, children !! k = Some e ∧ shows (inodes fs') dir k ent e) ∧
  table_wf (inodes fs') ∧
  (∀ i q, path (inodes fs) i = Some q → path (inodes fs') i = Some q).
Proof.
  apply (list_dir_listing b0 Hb0 dir ents ino Hlen) in Hrun as [= -> ->]; [|done..].
  cbn [inodes set_inodes]. destruct (list_entries_children (inodes fs) dir ents Hwf Hroom) as [Hwf' Hall].
  split_and!; [|done|intros i q; by apply list_entries_keeps].
  eexists. split; [reflexivity|]. split; [by rewrite numbered_length, (Forall2_length _ _ _ Hall)|].
  intros k ent Hk. destruct (Forall2_lookup_l _ _ _ _ _ Hall Hk) as ([[i ft] name] & Hc & Hname & Hft & Hq).
  simpl in *. subst ft name. apply (numbered_lookup (0 + 1 + 1)) in Hc. eexists. split; [exact Hc|].
  destruct (list_type_shows (d_type ent)) as (? & ? & ?). split; simpl; try done. lia.
Qed.

Definition small_dir : list (io_result dirent) :=
  [Ok (Dirent (blit "a") (Ok FtFile)); Err (OsError EIO)].

Lemma readdir_pages_complete_witness :
  let p := list_dir (bounded_buf 2) id [] 9 demo_state 1 0 in
  (exec_res demo_step p ∅).1 =
    [Dentry 1 1 Directory (blit "."); Dentry 1 2 Directory (blit "..");
     Dentry 2 3 RegularFile (blit "a")] ∧
  table_wf (inodes (exec_res demo_step p ∅).2).
Proof.
  intros p. split; [by vm_compute|].
  refine (proj1 (proj2 (readdir_pages_complete (bounded_buf 2) id (bounded_buf_lawful 2 ltac:(done)) [] eq_refl
    demo_state (exec_res demo_step p ∅).2 1 (blit "/src") small_dir 9 (exec_trace demo_step p ∅)
    (exec_res demo_step p ∅).1 _ _ _ _ _ _ _))).
  - apply with_root_wf.
  - by vm_compute.
  - by vm_compute.
  - by vm_compute.
  - simpl. lia.
  - rewrite <-surjective_pairing. apply demo_runs.
  - vm_compute. repeat constructor.
Defined.

(** C21: a successful [unlink] or [rmdir] is one system call on the child and
    drops exactly the numbers of that file: afterwards a request for one of
    them is answered [ENOENT] without touching the system, and every other
    number keeps its path. *)
Theorem removed_file_is_dead (D : DirBuf) (fs fs' : ProvFs) (pid : N) (rq : request D)
    (parent : Z) (name dir : bytes) (tr : trace)
    (Hwf : table_wf (inodes fs)) (Hrq : rq = ReqUnlink parent name ∨ rq = ReqRmdir parent name)
    (Hp : path (inodes fs) parent = Some dir)
    (Hrun : runs (handle D pid rq fs) tr (ReplyOk, fs')) :
  (removed_in (join dir name) tr ∧ length tr = 1%nat) ∧
  (∀ i q, path (inodes fs') i = Some q ↔ path (inodes fs) i = Some q ∧ ¬ path_eq q (join dir name)) ∧
  (∀ i q, path (inodes fs) i = Some q → path_eq q (join dir name) →
     ensures (handle D pid (ReqGetattr i) fs') (λ tr out, tr = [] ∧ out = (ReplyError ENOENT, fs'))).
Proof.
  destruct (removal_ensures D fs pid rq parent name dir Hrq Hp _ _ Hrun eq_refl) as (Hfs & Hr & Hl).
  simpl in Hfs. subst fs'. cbn [inodes set_inodes]. split_and!; [done|done| |].
  - intros i q. by apply forget_path_spec.
  - intros i q Hi Hq. cbn [handle]. unfold getattr. cbn [inodes set_inodes].
    destruct (path (forget_path (inodes fs) (join dir name)) i) as [r|] eqn:E.
    + apply forget_path_spec in E as [Hr' Hne]; [|done]. congruence.
    + by apply ensures_ret.
Qed.

Lemma removed_file_is_dead_witness :
  let fs := demo_written in
  let p := handle list_buf 7 (ReqUnlink 1 (blit "a")) fs in
  path (inodes fs) 2 = Some (blit "/src/a") ∧
  ensures (handle list_buf 7 (ReqGetattr 2) (exec_res demo_step p ∅).2)
    (λ tr out, tr = [] ∧ out = (ReplyError ENOENT, (exec_res demo_step p ∅).2)).
Proof.
  intros fs p. assert (path (inodes fs) 2 = Some (blit "/src/a")) as H2 by (by vm_compute).
  split; [exact H2|].
  refine (proj2 (proj2 (removed_file_is_dead list_buf fs (exec_res demo_step p ∅).2 7
    (ReqUnlink 1 (blit "a")) 1 (blit "a") (blit "/src") (exec_trace demo_step p ∅) _ _ _ _))
    2 _ H2 _).
  - apply (inv_wf _ demo_written_inv).
  - by left.
  - by vm_compute.
  - apply (demo_runs p).
  - by vm_compute.
Defined.

Close Scope Z_scope.
