(* ===== verification/Reader.v ===== *)
(** The reader ([src/reader.rs]): the [user.prov.*] attributes of a path, the
    timestamp and history formats, and the walk over a directory tree. *)

From S2P Require Import Prelude RustStr RustPath Sys History Session Identity Xattrs.

Open Scope Z_scope.

(** ** Definitions *)

Record ProvRecord : Type := {
  rec_session : option str; rec_tool : option str; rec_turn : option str;
  rec_intent : option str; rec_ts : option str; rec_history : option str;
}.

#[export] Instance ProvRecord_eq_dec : EqDecision ProvRecord.
Proof. solve_decision. Defined.

Definition is_none {A} (o : option A) : bool := match o with None => true | Some _ => false end.

(** [ProvRecord::is_empty]. *)
Definition is_empty (r : ProvRecord) : bool :=
  is_none (rec_session r) && is_none (rec_tool r) && is_none (rec_turn r) &&
  is_none (rec_intent r) && is_none (rec_ts r) && is_none (rec_history r).

Definition get_key (path : bytes) (key : str) : prog (io_result (option str)) :=
  r ← sys (XattrGet path key);
  mret (match r with
        | Ok (Some v) => Ok (Some (from_utf8_lossy v))
        | Ok None => Ok None
        | Err e =>
            if decide (raw_os_error e = Some ENODATA ∨ raw_os_error e = Some EOPNOTSUPP)
            then Ok None else Err e
        end).

Definition read_record (path : bytes) : prog (io_result ProvRecord) :=
  _ ←? sys (SymlinkMetadata path);
  se ←? get_key path KEY_SESSION;
  to ←? get_key path KEY_TOOL;
  tu ←? get_key path KEY_TURN;
  it ←? get_key path KEY_INTENT;
  ts ←? get_key path KEY_TS;
  hi ←? get_key path KEY_HISTORY;
  mret (Ok {| rec_session := se; rec_tool := to; rec_turn := tu;
              rec_intent := it; rec_ts := ts; rec_history := hi |}).

Record TsInfo : Type := { raw : str; unix : option Z }.

(** The date library: parsing an RFC 3339 instant to its timestamp, the range
    of timestamps it represents, and rendering one in local time. *)
Section Dates.
Context {DateTime : Type}.
Context (parse_from_rfc3339 : str → option Z).
Context (from_timestamp : Z → option DateTime).
Context (format_local : DateTime → str).

Definition parse_ts (raw : str) : TsInfo :=
  let unix :=
    match parse_i64 (trim raw) with
    | Some n => Some n
    | None => parse_from_rfc3339 (trim raw)
    end in
  {| raw := raw; unix := unix |}.

Definition render_local (unix : Z) : option str :=
  utc ← from_timestamp unix; mret (format_local utc).
End Dates.

(** [split], [trim], [filter], then [take]. *)
Definition parse_history (raw : str) : list str :=
  take MAX_HISTORY (filter (λ s, s ≠ []) (trim <$> split_on comma raw)).

(** ** The walk *)

Record WalkEntry : Type := { we_path : bytes; we_record : io_result ProvRecord }.

(** The [for] loop over one directory: [stack] has its top first. *)
Fixpoint walk_entries (dir : bytes) (entries : list (io_result dirent)) (stack : list bytes)
    (out : list WalkEntry) : prog (list bytes * list WalkEntry) :=
  match entries with
  | [] => mret (stack, out)
  | Err e :: entries' =>
      walk_entries dir entries' stack (out ++ [{| we_path := dir; we_record := Err e |}])
  | Ok entry :: entries' =>
      let path := join dir (d_name entry) in
      match d_type entry with
      | Err e => walk_entries dir entries' stack (out ++ [{| we_path := path; we_record := Err e |}])
      | Ok FtSymlink => walk_entries dir entries' stack out
      | Ok FtDir => walk_entries dir entries' (path :: stack) out
      | Ok FtFile =>
          record ← read_record path;
          walk_entries dir entries' stack (out ++ [{| we_path := path; we_record := record |}])
      | Ok FtOther => walk_entries dir entries' stack out
      end
  end.

(** The [while let Some(dir) = stack.pop()] loop; [None] when the fuel does
    not suffice. *)
Fixpoint walk_loop (fuel : nat) (stack : list bytes) (out : list WalkEntry)
    : prog (option (list WalkEntry)) :=
  match stack with
  | [] => mret (Some out)
  | dir :: stack' =>
      match fuel with
      | O => mret None
      | S fuel' =>
          r ← sys (ReadDir dir);
          match r with
          | Err e => walk_loop fuel' stack' (out ++ [{| we_path := dir; we_record := Err e |}])
          | Ok entries =>
              '(stack2, out2) ← walk_entries dir entries stack' out;
              walk_loop fuel' stack2 out2
          end
      end
  end.

Definition walk_files (fuel : nat) (root : bytes) : prog (option (list WalkEntry)) :=
  walk_loop fuel [root] [].

(** ** Specification *)

(** What the reader makes of one attribute: absent, unsupported and missing
    are all no value. *)
Definition key_value (r : io_result (option bytes)) : io_result (option str) :=
  match r with
  | Ok v => Ok (from_utf8_lossy <$> v)
  | Err (OsError 61) | Err (OsError 95) => Ok None
  | Err e => Err e
  end.

(** The first error of a list of results, or all the values. *)
Fixpoint all_ok {A E} (rs : list (result A E)) : result (list A) E :=
  match rs with
  | [] => Ok []
  | Err e :: _ => Err e
  | Ok a :: rs' => match all_ok rs' with Ok l => Ok (a :: l) | Err e => Err e end
  end.

Definition prov_keys : list str :=
  [KEY_SESSION; KEY_TOOL; KEY_TURN; KEY_INTENT; KEY_TS; KEY_HISTORY].

Definition record_of (vs : list (option str)) : ProvRecord :=
  match vs with
  | [se; to; tu; it; ts; hi] =>
      {| rec_session := se; rec_tool := to; rec_turn := tu;
         rec_intent := it; rec_ts := ts; rec_history := hi |}
  | _ => {| rec_session := None; rec_tool := None; rec_turn := None;
            rec_intent := None; rec_ts := None; rec_history := None |}
  end.

(** ** A system that does not change *)

Section Static.
Context (ans : ∀ c : call, resp c).

Definition static_step (c : call) (w : unit) : resp c * unit := (ans c, tt).

(** Running against fixed answers. *)
Definition eval {A} (p : prog A) : A := exec_res static_step p tt.

Lemma eval_bind {A B} (p : prog A) (f : A → prog B) : eval (p ≫= f) = eval (f (eval p)).
Proof. unfold eval. rewrite exec_res_bind. by destruct (exec_world _ _ _). Qed.

Definition trace_of {A} (p : prog A) : trace := exec_trace static_step p tt.

Lemma trace_of_bind {A B} (p : prog A) (f : A → prog B) :
  trace_of (p ≫= f) = trace_of p ++ trace_of (f (eval p)).
Proof.
  unfold trace_of, eval. unfold exec_trace at 1. rewrite exec_bind. simpl.
  by destruct (exec_world _ _ _).
Qed.

Lemma static_runs {A} (p : prog A) : runs p (trace_of p) (eval p).
Proof. apply exec_runs. Qed.

Lemma eval_sys c : eval (sys c) = ans c.
Proof. done. Qed.

Lemma eval_try {A B E} (p : prog (result A E)) (f : A → prog (result B E)) :
  eval (try_bind p f) = match eval p with Ok a => eval (f a) | Err e => Err e end.
Proof. unfold try_bind. rewrite eval_bind. by destruct (eval p). Qed.

(** What one directory contributes: the records of its files, and the errors
    met while listing it. *)
Definition entry_report (dir : bytes) (r : io_result dirent) : option WalkEntry :=
  match r with
  | Err e => Some {| we_path := dir; we_record := Err e |}
  | Ok ent =>
      let path := join dir (d_name ent) in
      match d_type ent with
      | Err e => Some {| we_path := path; we_record := Err e |}
      | Ok FtFile => Some {| we_path := path; we_record := eval (read_record path) |}
      | Ok _ => None
      end
  end.

Definition dir_report (dir : bytes) : list WalkEntry :=
  match ans (ReadDir dir) with
  | Err e => [{| we_path := dir; we_record := Err e |}]
  | Ok ents => omap (entry_report dir) ents
  end.

(** The directories a directory holds; links to directories are not among
    them. *)
Definition subdir (dir : bytes) (r : io_result dirent) : option bytes :=
  match r with
  | Ok ent => match d_type ent with Ok FtDir => Some (join dir (d_name ent)) | _ => None end
  | Err _ => None
  end.

Definition subdirs (dir : bytes) : list bytes :=
  match ans (ReadDir dir) with Ok ents => omap (subdir dir) ents | Err _ => [] end.

(** The directories below [root], [root] included. *)
Inductive below_dir : bytes → bytes → Prop :=
| below_root root : below_dir root root
| below_sub root d d' : d ∈ subdirs root → below_dir d d' → below_dir root d'.

(** The tree below the directories of a stack is finite and has [n]
    directories. *)
Inductive finite_tree : list bytes → nat → Prop :=
| ft_nil : finite_tree [] 0
| ft_dir d ds n m :
    finite_tree (reverse (subdirs d)) n → finite_tree ds m → finite_tree (d :: ds) (S (n + m)).

(** ** Lemmas *)

Lemma walk_entries_eval dir ents stack out :
  eval (walk_entries dir ents stack out) =
    (reverse (omap (subdir dir) ents) ++ stack, out ++ omap (entry_report dir) ents).
Proof.
  revert stack out. induction ents as [|[ent|e] ents IH]; intros stack out;
    cbn [walk_entries omap list_omap subdir entry_report].
  - by rewrite app_nil_r.
  - destruct (d_type ent) as [[]|e]; rewrite ?eval_bind; cbv beta;
      rewrite IH, ?reverse_cons, <-?app_assoc; done.
  - by rewrite IH, <-app_assoc.
Qed.

(** One directory of the loop. *)
Lemma walk_loop_step fuel d stack out :
  eval (walk_loop (S fuel) (d :: stack) out) =
    eval (walk_loop fuel (reverse (subdirs d) ++ stack) (out ++ dir_report d)).
Proof.
  cbn [walk_loop]. rewrite eval_bind. change (eval (sys (ReadDir d))) with (ans (ReadDir d)). unfold subdirs, dir_report.
  destruct (ans (ReadDir d)) as [ents|e]; [|done].
  by rewrite eval_bind, walk_entries_eval.
Qed.

(** A finite forest is walked with one unit of fuel per directory, and yields
    the report of every directory in it. *)
Lemma walk_loop_forest ds n :
  finite_tree ds n →
  ∃ res, (∀ fuel rest out, eval (walk_loop (n + fuel) (ds ++ rest) out) = eval (walk_loop fuel rest (out ++ res)))
    ∧ ∀ we, we ∈ res ↔ ∃ r d, r ∈ ds ∧ below_dir r d ∧ we ∈ dir_report d.
Proof.
  induction 1 as [|d ds n m _ (res1 & H1 & Hin1) _ (res2 & H2 & Hin2)].
  - exists []. split; [intros; by rewrite app_nil_r|]. intros we. split; [by intros ?%not_elem_of_nil|].
    by intros (r & d & ?%not_elem_of_nil & _).
  - exists (dir_report d ++ res1 ++ res2). split.
    + intros fuel rest out.
      change ((S (n + m) + fuel)%nat) with (S (n + m + fuel)). rewrite <-Nat.add_assoc. simpl app.
      rewrite walk_loop_step, H1, H2. by rewrite <-!app_assoc.
    + intros we. rewrite !elem_of_app, Hin1, Hin2. setoid_rewrite elem_of_cons.
      setoid_rewrite elem_of_reverse. split.
      * intros [?|[(r & d' & ? & ? & ?)|(r & d' & ? & ? & ?)]].
        -- exists d, d. split; [by left|]. split; [constructor|done].
        -- exists d, d'. split; [by left|]. split; [by econstructor|done].
        -- exists r, d'. split; [by right|done].
      * intros (r & d' & [-> |?] & Hb & ?); [|right; right; eauto].
        inversion Hb as [|? d1 ? Hd1 Hb1]; subst; [by left|]. right. left. eauto.
Qed.

(** The walk of a finite tree. *)
Lemma walk_files_finite root n fuel :
  finite_tree [root] n → (n ≤ fuel)%nat →
  ∃ out, eval (walk_files fuel root) = Some out ∧
    ∀ we, we ∈ out ↔ ∃ d, below_dir root d ∧ we ∈ dir_report d.
Proof.
  intros Htree Hfuel.
  destruct (walk_loop_forest [root] n Htree) as (res & Hres & Hin).
  exists res. split.
  - unfold walk_files. replace fuel with (n + (fuel - n))%nat by lia.
    rewrite <-(app_nil_r [root]), Hres. by destruct (fuel - n)%nat.
  - intros we. rewrite Hin. split.
    + intros (r & d & ->%list_elem_of_singleton & ?). by exists d.
    + intros (d & ?). exists root, d. split; [by apply list_elem_of_singleton|done].
Qed.

(** [get_key] reads one attribute. *)
Lemma get_key_eval path key : eval (get_key path key) = key_value (ans (XattrGet path key)).
Proof.
  unfold get_key. rewrite eval_bind. change (eval (sys (XattrGet path key))) with (ans (XattrGet path key)).
  destruct (ans (XattrGet path key)) as [[v|]|[e|m]]; try done.
  unfold eval, exec_res. simpl. unfold ENODATA, EOPNOTSUPP.
  case_decide as H; [by destruct H as [[= ->]|[= ->]]|].
  assert (e ≠ 61 ∧ e ≠ 95) as [? ?] by (split; intros ->; tauto).
  repeat case_match; simplify_eq; done.
Qed.

Lemma read_record_eval path :
  eval (read_record path) =
    match ans (SymlinkMetadata path) with
    | Err e => Err e
    | Ok _ =>
        match all_ok ((λ k, key_value (ans (XattrGet path k))) <$> prov_keys) with
        | Ok vs => Ok (record_of vs)
        | Err e => Err e
        end
    end.
Proof.
  unfold read_record. rewrite eval_try. change (eval (sys (SymlinkMetadata path))) with (ans (SymlinkMetadata path)).
  destruct (ans (SymlinkMetadata path)); [|done]. unfold prov_keys. csimpl.
  repeat (rewrite eval_try, get_key_eval; destruct (key_value _); [|done]). done.
Qed.
End Static.

Lemma parse_history_entries raw : parse_history raw = take MAX_HISTORY (entries raw).
Proof. done. Qed.

(** ** Reading what was stamped *)

Section Store.
Context {W : Type} {step : ∀ c : call, W → resp c * W}
        {xa : W → bytes → str → option bytes} {live : W → bytes → Prop}
        `{!XattrStore step xa live}.

Lemma get_key_store p k w :
  live w p →
  exec_res step (get_key p k) w = Ok (from_utf8_lossy <$> xa w p k) ∧
  live (exec_world step (get_key p k) w) p ∧
  ∀ k', xa (exec_world step (get_key p k) w) p k' = xa w p k'.
Proof.
  intros Hl. destruct (store_get w p k Hl) as (Hg & Hl' & Hx).
  unfold get_key. rewrite exec_res_bind, exec_world_bind.
  rewrite (exec_res_sys step (XattrGet p k)), (exec_world_sys step (XattrGet p k)), Hg.
  split; [by destruct (xa w p k)|]. by split.
Qed.

Lemma get_key_try {B} p k w (f : option str → prog (io_result B)) :
  live w p →
  ∃ w', exec_res step (try_bind (get_key p k) f) w =
          exec_res step (f (from_utf8_lossy <$> xa w p k)) w' ∧
        live w' p ∧ ∀ k', xa w' p k' = xa w p k'.
Proof.
  intros Hl. destruct (get_key_store p k w Hl) as (Hg & Hl' & Hx).
  eexists. rewrite (proj1 (exec_res_try step _ _ w)), Hg. by split_and!.
Qed.

(** On a live path the reader sees exactly the stored attributes. *)
Lemma read_record_store p w :
  live w p →
  exec_res step (read_record p) w = Ok (record_of ((λ k, from_utf8_lossy <$> xa w p k) <$> prov_keys)).
Proof.
  intros Hl. unfold read_record, prov_keys. csimpl.
  destruct (store_metadata w p Hl) as (Hm & Hl1 & Hx).
  rewrite (proj1 (exec_res_try step _ _ w)), (exec_res_sys step (SymlinkMetadata p)), Hm.
  rewrite (exec_world_sys step (SymlinkMetadata p)).
  set (w1 := (step (SymlinkMetadata p) w).2) in *. clearbody w1.
  repeat match goal with |- context [exec_res step (try_bind (get_key p ?k) ?f) ?v] =>
    destruct (get_key_try p k v f ltac:(done)) as (? & -> & ? & ?) end.
  repeat match goal with H : ∀ k', xa _ p k' = _ |- _ => rewrite !H; clear H end. done.
Qed.

(** A run of stamps on one path, each by its own identity. *)
Fixpoint stamp_all (p : bytes) (ids : list (Identity * str)) : prog (io_result unit) :=
  match ids with
  | [] => mret (Ok tt)
  | (id, now) :: ids' => _ ←? stamp p id now; stamp_all p ids'
  end.

Lemma stamp_all_history p ids w prior :
  xa w p KEY_HISTORY ≫= from_utf8 = Some prior ∨ (xa w p KEY_HISTORY = None ∧ prior = []) →
  valid_str prior → Forall (λ x, valid_str (session x.1)) ids → ids ≠ [] →
  exec_res step (stamp_all p ids) w = Ok tt →
  live (exec_world step (stamp_all p ids) w) p ∧
  xa (exec_world step (stamp_all p ids) w) p KEY_HISTORY
    = Some (as_bytes (foldl push_history prior ((λ x, session x.1) <$> ids))).
Proof.
  intros Hprior Hv Hids. revert w prior Hprior Hv.
  induction Hids as [|[id now] ids Hid Hids IH]; intros w prior Hprior Hv Hnil; [done|].
  cbn [stamp_all]. destruct (exec_res_try step (stamp p id now) (λ _, stamp_all p ids) w) as [-> ->].
  destruct (exec_res step (stamp p id now) w) as [[]|e] eqn:E; [|done].
  destruct (stamp_store p id now w E) as (Hl & _ & _ & _ & _ & _ & Hh & _).
  replace (default [] (xa w p KEY_HISTORY ≫= from_utf8)) with prior in Hh
    by (by destruct Hprior as [-> |[-> ->]]).
  simpl in Hid. assert (valid_str (push_history prior (session id))) as Hv'
    by (by apply push_history_valid).
  destruct (decide (ids = [])) as [-> |Hne]; [done|]. csimpl.
  apply IH; [left; by rewrite Hh; simpl; apply from_utf8_as_bytes|done|done].
Qed.
End Store.

(** The strings of an identity are Rust strings. *)
Definition valid_identity (id : Identity) : Prop :=
  valid_str (session id) ∧ valid_str (tool id) ∧
  (∀ t, turn id = Some t → valid_str t) ∧ (∀ i, intent id = Some i → valid_str i).

Section Store.
Context {W : Type} {step : ∀ c : call, W → resp c * W}
        {xa : W → bytes → str → option bytes} {live : W → bytes → Prop}
        `{!XattrStore step xa live}.

(** Reading what a stamp wrote. *)
Lemma stamp_read_store p id now w :
  valid_identity id → valid_str now → exec_res step (stamp p id now) w = Ok tt →
  ∃ r, exec_res step (read_record p) (exec_world step (stamp p id now) w) = Ok r ∧
    is_empty r = false ∧
    rec_session r = Some (session id) ∧ rec_tool r = Some (tool id) ∧
    rec_turn r = (match turn id with Some t => Some t | None => from_utf8_lossy <$> xa w p KEY_TURN end) ∧
    rec_intent r = (match intent id with Some i => Some i | None => from_utf8_lossy <$> xa w p KEY_INTENT end) ∧
    rec_ts r = Some now ∧
    rec_history r = Some (push_history (default [] (xa w p KEY_HISTORY ≫= from_utf8)) (session id)).
Proof.
  intros Hid Hnow Hok.
  destruct (stamp_store p id now w Hok) as (Hl & Hse & Hto & Htu & Hit & Hts & Hhi & _).
  rewrite (read_record_store p _ Hl). eexists. split; [done|].
  destruct Hid as (Hvs & Hvt & Hvu & Hvi). unfold is_empty. simpl.
  rewrite Hse, Hto, Htu, Hit, Hts, Hhi. simpl. split_and!; [done|..].
  1,2,5: by rewrite from_utf8_lossy_as_bytes.
  - destruct (turn id) as [t|]; [simpl; by rewrite from_utf8_lossy_as_bytes by auto|done].
  - destruct (intent id) as [t|]; [simpl; by rewrite from_utf8_lossy_as_bytes by auto|done].
  - rewrite from_utf8_lossy_as_bytes; [done|]. apply push_history_valid; [|done].
    destruct (xa w p KEY_HISTORY) as [h|]; simpl; [|constructor].
    destruct (from_utf8 h) as [s|] eqn:E; [|constructor]. by apply from_utf8_Some in E as [? _].
Qed.
End Store.

(** ** Theorems *)

(** What [read_record] returns on every branch: the error of the metadata
    lookup if the path is not there, otherwise the first error of the six
    attribute reads that is neither "absent" nor "not supported", otherwise
    the record of the values, decoded leniently. *)
Theorem read_record_spec (ans : ∀ c : call, resp c) (p : bytes) :
  eval ans (read_record p) =
    match ans (SymlinkMetadata p) with
    | Err e => Err e
    | Ok _ =>
        match all_ok ((λ k, key_value (ans (XattrGet p k))) <$> prov_keys) with
        | Ok vs => Ok (record_of vs)
        | Err e => Err e
        end
    end.
Proof. apply read_record_eval. Qed.

(** C4: round trip between writer and reader: after a successful stamp on a
    lawful attribute store, [read_record] returns exactly the stamped
    identity, the timestamp and the advanced history; the record is not
    empty; a turn or intent the identity does not have is the old one. *)
Theorem read_record_after_stamp (W : Type) (step : ∀ c : call, W → resp c * W)
    (xa : W → bytes → str → option bytes) (live : W → bytes → Prop)
    (Hstore : XattrStore step xa live) (p : bytes) (id : Identity) (now : str) (w : W)
    (Hid : valid_identity id) (Hnow : valid_str now)
    (Hok : exec_res step (stamp p id now) w = Ok tt) :
  ∃ r, exec_res step (read_record p) (exec_world step (stamp p id now) w) = Ok r ∧
    is_empty r = false ∧
    rec_session r = Some (session id) ∧ rec_tool r = Some (tool id) ∧
    rec_turn r = (match turn id with Some t => Some t | None => from_utf8_lossy <$> xa w p KEY_TURN end) ∧
    rec_intent r = (match intent id with Some i => Some i | None => from_utf8_lossy <$> xa w p KEY_INTENT end) ∧
    rec_ts r = Some now ∧
    rec_history r = Some (push_history (default [] (xa w p KEY_HISTORY ≫= from_utf8)) (session id)).
Proof. by apply (stamp_read_store p id now w). Qed.

Lemma read_record_after_stamp_witness :
  ∃ r, exec_res mem_step (read_record (blit "/a"))
         (exec_world mem_step (stamp (blit "/a") sample_id (lit "t")) ∅) = Ok r ∧
       rec_turn r = Some (lit "3").
Proof.
  destruct (read_record_after_stamp _ mem_step mem_xa mem_live mem_store (blit "/a") sample_id (lit "t") ∅)
    as (r & Hr & _ & _ & _ & Ht & _).
  - unfold valid_identity. simpl. split_and!; try (by intros ? [= <-]; apply (bool_decide_eq_true_1 _)).
    all: try (by apply (bool_decide_eq_true_1 _)).
  - by apply (bool_decide_eq_true_1 _).
  - by vm_compute.
  - by exists r.
Defined.

(** C8: end to end, the history refines a most-recently-used list: after any
    non-empty run of successful stamps on a path that had no history, with
    session ids the CSV can carry, the reader's history is the last five
    distinct sessions, most recent first. *)
Theorem stamped_history_is_mru (W : Type) (step : ∀ c : call, W → resp c * W)
    (xa : W → bytes → str → option bytes) (live : W → bytes → Prop)
    (Hstore : XattrStore step xa live) (p : bytes) (ids : list (Identity * str)) (w : W)
    (Hne : ids ≠ []) (Hids : Forall (λ x, valid_str (session x.1) ∧ clean (session x.1)) ids)
    (Hfresh : xa w p KEY_HISTORY = None)
    (Hok : exec_res step (stamp_all p ids) w = Ok tt) :
  ∃ r, exec_res step (read_record p) (exec_world step (stamp_all p ids) w) = Ok r ∧
    parse_history <$> rec_history r =
      Some (take MAX_HISTORY (nub (reverse ((λ x, session x.1) <$> ids)))).
Proof.
  apply Forall_and in Hids as [Hv Hc].
  destruct (stamp_all_history p ids w [] (or_intror (conj Hfresh eq_refl))) as [Hl Hh];
    [constructor|done..|].
  rewrite (read_record_store p _ Hl). eexists. split; [done|]. simpl. rewrite Hh. simpl.
  assert (valid_str (foldl push_history [] ((λ x, session x.1) <$> ids))) as Hval.
  { apply push_fold_valid; [constructor|]. by apply Forall_fmap. }
  rewrite from_utf8_lossy_as_bytes by done. f_equal.
  rewrite parse_history_entries, entries_fold_push, take_take by (by apply Forall_fmap). done.
Qed.

Lemma stamped_history_is_mru_witness :
  let ids := (λ s, ({| session := lit s; tool := lit "Edit"; turn := None; intent := None |}, lit "t"))
               <$> ["A"; "B"; "A"; "C"; "D"; "E"; "F"]%string in
  ∃ r, exec_res mem_step (read_record (blit "/a"))
         (exec_world mem_step (stamp_all (blit "/a") ids) ∅) = Ok r ∧
    parse_history <$> rec_history r = Some (lit <$> ["F"; "E"; "D"; "C"; "A"]%string).
Proof.
  intros ids.
  apply (stamped_history_is_mru _ mem_step mem_xa mem_live mem_store (blit "/a") ids ∅).
  - done.
  - apply (bool_decide_eq_true_1 _). by vm_compute.
  - done.
  - by vm_compute.
Defined.

(** Both timestamp formats are read back: the decimal seconds the kernel
    module writes, with any surrounding white space and over the whole [i64]
    range, parse to that number without asking the date library; any text that
    is not such a number is what the date library makes of it; the raw value
    is kept. *)
Theorem parse_ts_formats (rfc : str → option Z) (n : Z) (ws ws' : str)
    (Hn : i64_min ≤ n ≤ i64_max)
    (Hws : Forall (λ c, is_whitespace c = true) ws)
    (Hws' : Forall (λ c, is_whitespace c = true) ws') :
  unix (parse_ts rfc (ws ++ display_Z n ++ ws')) = Some n ∧
  raw (parse_ts rfc (ws ++ display_Z n ++ ws')) = ws ++ display_Z n ++ ws' ∧
  ∀ s, parse_i64 (trim s) = None → unix (parse_ts rfc s) = rfc (trim s).
Proof.
  split_and!; [|done|by intros s Hs; unfold parse_ts; rewrite Hs].
  unfold parse_ts. rewrite (trim_by_surround is_whitespace ws); [|done|done|..].
  - unfold parse_i64. by rewrite parse_int_display_Z by (unfold i64_min, i64_max in *; lia).
  - apply display_Z_trimmed.
  - apply display_Z_nonempty.
Qed.

(** No date library is needed for a number. *)
Lemma parse_ts_formats_witness :
  unix (parse_ts (λ _, None) (lit " " ++ display_Z 1779580800 ++ lit "")) = Some 1779580800.
Proof.
  apply parse_ts_formats; [done|..]; apply (bool_decide_eq_true_1 _); by vm_compute.
Defined.

(** C32: the walk of [find] terminates on every finite tree, with one round per
    directory, and is complete and exact: its entries are the records of the
    regular files of the directories reachable from the root without following
    a link, and the errors met there, nothing else. *)
Theorem walk_files_complete (ans : ∀ c : call, resp c) (root : bytes) (n fuel : nat)
    (Htree : finite_tree ans [root] n) (Hfuel : (n ≤ fuel)%nat) :
  ∃ out, eval ans (walk_files fuel root) = Some out ∧
    ∀ we, we ∈ out ↔ ∃ d, below_dir ans root d ∧ we ∈ dir_report ans d.
Proof. by apply (walk_files_finite ans root n fuel). Qed.

(** A tree with a file, a link and one directory with a file. *)
Definition demo_tree (c : call) : resp c :=
  match c with
  | ReadDir p =>
      if decide (p = blit "/r") then
        Ok [Ok (Dirent (blit "f") (Ok FtFile)); Ok (Dirent (blit "l") (Ok FtSymlink));
            Ok (Dirent (blit "d") (Ok FtDir))]
      else if decide (p = blit "/r/d") then Ok [Ok (Dirent (blit "g") (Ok FtFile))]
      else Err (OsError ENOENT)
  | c => (mem_step c ∅).1
  end.

Lemma walk_files_complete_witness :
  finite_tree demo_tree [blit "/r"] 2 ∧
  ∃ out, eval demo_tree (walk_files 2 (blit "/r")) = Some out ∧
    ∀ we, we ∈ out ↔ ∃ d, below_dir demo_tree (blit "/r") d ∧ we ∈ dir_report demo_tree d.
Proof.
  assert (finite_tree demo_tree [blit "/r"] 2) as Ht.
  { apply (ft_dir _ _ _ 1 0); [|constructor].
    change (reverse _) with [blit "/r/d"]. apply (ft_dir _ _ _ 0 0); constructor. }
  split; [exact Ht|]. apply (walk_files_complete demo_tree (blit "/r") 2 2); [exact Ht|lia].
Defined.

Close Scope Z_scope.
