(* ===== verification/EndToEnd.v ===== *)
(** From the overlay to the reader: what a stamping request leaves on a file
    is what [prov] reads back. *)

From S2P Require Import Prelude RustStr RustPath Sys History Skip Session Identity.
From S2P Require Import Xattrs InodeTable FileAttr ProvFs Stamping Reader.
From Stdlib Require Import Strings.Byte.

(** ** The system, as an interface *)

(** Reading a file and the clock leaves attributes alone. *)
Class QuietReads {W : Type} (step : ∀ c : call, W → resp c * W)
    (xa : W → bytes → str → option bytes) : Prop := {
  quiet_file w f p k : xa (step (ReadFile f) w).2 p k = xa w p k;
  quiet_clock w p k : xa (step UtcNow w).2 p k = xa w p k;
}.

#[export] Instance mem_quiet : QuietReads mem_step mem_xa.
Proof. by split. Qed.

(** ** Lemmas *)

Lemma trim_valid s : valid_str s → valid_str (trim s).
Proof. apply valid_str_incl. intros c. apply elem_of_trim_by. Qed.

Lemma parse_chunk_valid chunk kv : parse_chunk chunk = Some kv → valid_str kv.2.
Proof.
  unfold parse_chunk. case_decide; [done|]. destruct (from_utf8 chunk) as [s|] eqn:E; [|done].
  simpl. destruct kv as [k v]. intros [-> _]%split_once_Some.
  apply from_utf8_Some in E as [Hv _]. apply valid_str_app in Hv as [_ Hv]. by apply Forall_cons in Hv as [_ Hv].
Qed.

Lemma env_last_valid key bs v : env_last key (parse_environ bs) = Some v → valid_str v.
Proof.
  unfold env_last, parse_environ. intros Hl%last_Some_elem_of.
  apply list_elem_of_fmap in Hl as (kv & -> & Hkv). apply list_elem_of_filter in Hkv as [_ Hkv].
  apply list_elem_of_omap in Hkv as (chunk & _ & Hc). by eapply parse_chunk_valid.
Qed.

Lemma env_last_nil key : env_last key [] = None.
Proof. done. Qed.

(** Whatever the two [/proc] files hold, the identity is made of Rust
    strings. *)
Lemma resolve_identity_valid pid tr id : runs (resolve_identity pid) tr id → valid_identity id.
Proof.
  intros (re & rc & _ & ->)%resolve_identity_runs. cbv zeta.
  set (env := match re with Ok bs => parse_environ bs | Err _ => [] end).
  set (comm := default (lit "unknown") _).
  assert (∀ key v, env_last key env = Some v → valid_str v) as Henv.
  { intros key v. destruct re as [bs|e]; [apply env_last_valid|done]. }
  assert (valid_str comm) as Hcomm.
  { unfold comm. destruct rc as [bs|e]; [|by apply (bool_decide_eq_true_1 _)].
    destruct (from_utf8 bs) as [s|] eqn:E; simpl; [|by apply (bool_decide_eq_true_1 _)].
    apply trim_valid. by apply from_utf8_Some in E as [? _]. }
  assert (∀ key d, valid_str d → valid_str (default d (env_last key env))) as Hdef.
  { intros key d Hd. destruct (env_last key env) eqn:E; [by eapply Henv|done]. }
  unfold valid_identity. cbn [session tool turn intent]. split_and!; [|by apply Hdef|apply Henv|apply Henv].
  apply Hdef. unfold fallback_session. rewrite !valid_str_app.
  split_and!; [by apply (bool_decide_eq_true_1 _)|done|by apply (bool_decide_eq_true_1 _)|apply display_N_valid].
Qed.

Section Quiet.
Context {W : Type} {step : ∀ c : call, W → resp c * W}
        {xa : W → bytes → str → option bytes} {live : W → bytes → Prop}
        `{!XattrStore step xa live, !QuietReads step xa}.

Lemma resolve_identity_quiet pid w p k :
  xa (exec_world step (resolve_identity pid) w) p k = xa w p k.
Proof.
  apply (calls_only_world step _ (λ w', xa w' p k = xa w p k) _ w) with (2 := resolve_identity_calls pid).
  - intros c w' [-> | ->] Hw; by rewrite quiet_file.
  - done.
Qed.

(** The pieces of [stamp_now], run in a world. *)
Lemma stamp_now_world p pid w :
  let id := exec_res step (resolve_identity pid) w in
  let w1 := exec_world step (resolve_identity pid) w in
  let now := (step UtcNow w1).1 in
  let w2 := (step UtcNow w1).2 in
  exec_res step (stamp p id now) w2 = Ok tt →
  exec_world step (stamp_now p pid) w = exec_world step (stamp p id now) w2.
Proof.
  intros id w1 now w2 Hok. unfold stamp_now. rewrite exec_world_bind. fold id w1.
  rewrite exec_world_bind, (exec_res_sys step UtcNow), (exec_world_sys step UtcNow). fold now w2.
  rewrite exec_world_bind, Hok. done.
Qed.
End Quiet.

(** ** Theorems *)

(** C5: end to end: when a request stamps a file the skip list does not cover,
    and the attribute writes succeed, reading the file back gives the session
    and the tool of the process that made the request, resolved from its
    [/proc] entries, the time of the clock, and a history with that session
    pushed onto the one the file had before. *)
Theorem overlay_stamp_read_back (W : Type) (step : ∀ c : call, W → resp c * W)
    (xa : W → bytes → str → option bytes) (live : W → bytes → Prop)
    (Hstore : XattrStore step xa live) (Hquiet : QuietReads step xa)
    (fs : ProvFs) (pid : N) (names : list bytes) (w : W)
    (Hnames : Forall proper_name names)
    (Hskip : should_skip (skip fs) (names_path names) = false) :
  let p := join_all (source fs) names in
  let id := exec_res step (resolve_identity pid) w in
  let w1 := exec_world step (resolve_identity pid) w in
  let now := (step UtcNow w1).1 in
  valid_str now → exec_res step (stamp p id now) (step UtcNow w1).2 = Ok tt →
  ∃ r, exec_res step (read_record p) (exec_world step (maybe_stamp fs p pid) w) = Ok r ∧
    is_empty r = false ∧ rec_session r = Some (session id) ∧ rec_tool r = Some (tool id) ∧
    (∀ t, turn id = Some t → rec_turn r = Some t) ∧
    (∀ i, intent id = Some i → rec_intent r = Some i) ∧ rec_ts r = Some now ∧
    rec_history r = Some (push_history (default [] (xa w p KEY_HISTORY ≫= from_utf8)) (session id)).
Proof.
  intros p id w1 now Hnow Hok.
  assert (valid_identity id) as Hid by (eapply resolve_identity_valid, exec_runs).
  unfold maybe_stamp, should_stamp, p at 2. rewrite relpath_join_all, Hskip by done. simpl negb. cbv iota.
  rewrite (stamp_now_world p pid w Hok). fold id w1 now.
  set (w2 := (step UtcNow w1).2) in *.
  destruct (stamp_read_store p id now w2 Hid Hnow Hok) as (r & Hr & He & Hse & Hto & Htu & Hit & Hts & Hhi).
  exists r. split_and!; [done..| | |done|].
  - intros t Ht. by rewrite Htu, Ht.
  - intros i Hi. by rewrite Hit, Hi.
  - rewrite Hhi. unfold w2. rewrite (quiet_clock w1). unfold w1. by rewrite resolve_identity_quiet.
Qed.

Lemma overlay_stamp_read_back_witness :
  ∃ r, exec_res mem_step (read_record (blit "/src/a"))
         (exec_world mem_step (maybe_stamp demo_fs (blit "/src/a") 42) ∅) = Ok r ∧
    rec_session r = Some (lit "comm:unknown:pid:42").
Proof.
  destruct (overlay_stamp_read_back _ mem_step mem_xa mem_live mem_store mem_quiet demo_fs 42 [blit "a"] ∅)
    as (r & Hr & _ & Hs & _).
  - apply (bool_decide_eq_true_1 _). by vm_compute.
  - by vm_compute.
  - apply (bool_decide_eq_true_1 _). by vm_compute.
  - by vm_compute.
  - exists r. split; [exact Hr|]. rewrite Hs. by vm_compute.
Defined.
