(* ===== verification/ProvCli.v ===== *)
(** The [prov] command ([src/bin/prov.rs]): the five subcommands, their output
    and their exit codes. *)

From S2P Require Import Prelude RustStr RustPath Sys History Duration Session Identity Xattrs Reader.

Open Scope Z_scope.

(** ** Output values *)

(** [serde_json::Value], as the sources build it: an object is its fields in
    the order they were given. *)
Inductive Value : Type :=
| Null
| Number (z : Z)
| JString (s : str)
| Array (vs : list Value)
| Object (fields : list (str * Value)).

(** [Map::insert]. *)
Fixpoint jinsert (m : list (str * Value)) (k : str) (v : Value) : list (str * Value) :=
  match m with
  | [] => [(k, v)]
  | (k', v') :: m' => if decide (k' = k) then (k, v) :: m' else (k', v') :: jinsert m' k v
  end.

Definition jopt {A} (f : A → Value) (o : option A) : Value :=
  match o with Some a => f a | None => Null end.

Inductive ExitCode : Type := SUCCESS | FAILURE.

Definition push_opt (prefix : str) (o : option str) : str :=
  match o with Some v => prefix ++ v | None => [] end.

Definition fallback_human (f : FallbackFields) : str :=
  let chain := default (lit "?") (comm_chain f) in
  lit "fallback: comm-chain=" ++ chain ++
  push_opt (lit " uid=") (uid f) ++ push_opt (lit " pid=") (pid f) ++
  push_opt (lit " cwd=") (cwd f) ++ push_opt (lit " env=") (env f).

Definition session_kind_human (kind : SessionKind) : str :=
  match kind with
  | AgentNs id => lit "agentns session " ++ id
  | EnrichedFallback f => fallback_human f
  | LegacyFallback comm pid => lit "fallback: comm=" ++ comm ++ lit " pid=" ++ pid
  | Opaque raw => lit "unrecognized: " ++ raw
  end.

Definition session_kind_json (kind : SessionKind) : Value :=
  match kind with
  | AgentNs id => Object [(lit "kind", JString (lit "agentns")); (lit "id", JString id)]
  | EnrichedFallback f =>
      Object [(lit "kind", JString (lit "enriched_fallback"));
              (lit "comm_chain", jopt JString (comm_chain f)); (lit "env", jopt JString (env f));
              (lit "cwd", jopt JString (cwd f)); (lit "pid", jopt JString (pid f));
              (lit "uid", jopt JString (uid f))]
  | LegacyFallback comm pid =>
      Object [(lit "kind", JString (lit "legacy_fallback")); (lit "comm", JString comm);
              (lit "pid", JString pid)]
  | Opaque raw => Object [(lit "kind", JString (lit "opaque")); (lit "raw", JString raw)]
  end.

(** [slice::join] with a string separator. *)
Fixpoint join_str (sep : str) (ls : list str) : str :=
  match ls with
  | [] => []
  | [l] => l
  | l :: ls' => l ++ sep ++ join_str sep ls'
  end.

Definition println (line : str) : prog unit := sys (Println line).
Definition eprintln (line : str) : prog unit := sys (Eprintln line).

(** [Path::display]. *)
Definition display (p : bytes) : str := from_utf8_lossy p.

Definition print_opt (prefix : str) (o : option str) (show : str → str) : prog unit :=
  match o with Some v => println (prefix ++ show v) | None => mret tt end.

(** ** Commands *)

Section Commands.
(** The libraries: the rendering of a JSON value and of an I/O error, the
    debug rendering of a string, and the dates. *)
Context {DateTime : Type}.
Context (json_display : Value → str) (error_display : io_error → str) (debug : str → str).
Context (parse_from_rfc3339 : str → option Z).
Context (from_timestamp : Z → option DateTime) (format_local : DateTime → str).

Definition ts_info (raw : str) : TsInfo := parse_ts parse_from_rfc3339 raw.
Definition local_of (info : TsInfo) : option str :=
  unix info ≫= render_local from_timestamp format_local.

Definition load_record (path : bytes) : prog (result ProvRecord ExitCode) :=
  r ← read_record path;
  match r with
  | Ok rec => mret (Ok rec)
  | Err e =>
      _ ← eprintln (lit "prov: " ++ display path ++ lit ": " ++ error_display e);
      mret (Err FAILURE)
  end.

Definition no_provenance (json : bool) : prog ExitCode :=
  _ ← (if json then println (json_display (Object [])) else println (lit "no provenance"));
  mret SUCCESS.

Definition ts_human_line (raw : str) : str :=
  let info := ts_info raw in
  match local_of info with
  | Some local => local ++ lit " (raw: " ++ raw ++ lit ")"
  | None => lit "(unparseable; raw: " ++ raw ++ lit ")"
  end.

Definition ts_json (info : TsInfo) : Value :=
  Object [(lit "raw", JString (raw info)); (lit "unix", jopt Number (unix info));
          (lit "local", jopt JString (local_of info))].

Definition cmd_show (path : bytes) (json : bool) : prog ExitCode :=
  r ← load_record path;
  match r with
  | Err code => mret code
  | Ok rec =>
      if is_empty rec then no_provenance json
      else if json then
        let session_json := jopt (λ s, session_kind_json (classify s)) (rec_session rec) in
        let ts_json := jopt (λ t, ts_json (ts_info t)) (rec_ts rec) in
        let out := Object [
          (lit "session", session_json); (lit "tool", jopt JString (rec_tool rec));
          (lit "turn", jopt JString (rec_turn rec)); (lit "intent", jopt JString (rec_intent rec));
          (lit "ts", ts_json);
          (lit "history", jopt (λ h, Array (JString <$> parse_history h)) (rec_history rec))] in
        _ ← println (json_display out);
        mret SUCCESS
      else
        _ ← println (lit "path:    " ++ display path);
        _ ← print_opt (lit "session: ") (rec_session rec)
              (λ s, s ++ lit " (" ++ session_kind_human (classify s) ++ lit ")");
        _ ← print_opt (lit "tool:    ") (rec_tool rec) id;
        _ ← print_opt (lit "turn:    ") (rec_turn rec) id;
        _ ← print_opt (lit "intent:  ") (rec_intent rec) id;
        _ ← print_opt (lit "ts:      ") (rec_ts rec) ts_human_line;
        _ ← print_opt (lit "history: ") (rec_history rec) (λ h, join_str (lit ", ") (parse_history h));
        mret SUCCESS
  end.

Definition cmd_who (path : bytes) (json : bool) : prog ExitCode :=
  r ← load_record path;
  match r with
  | Err code => mret code
  | Ok rec =>
      match rec_session rec with
      | None => no_provenance json
      | Some session =>
          let kind := classify session in
          _ ← (if json then println (json_display (session_kind_json kind))
               else println (session_kind_human kind));
          mret SUCCESS
      end
  end.

Definition cmd_when (path : bytes) (json : bool) : prog ExitCode :=
  r ← load_record path;
  match r with
  | Err code => mret code
  | Ok rec =>
      match rec_ts rec with
      | None => no_provenance json
      | Some ts =>
          let info := ts_info ts in
          _ ← (if json then println (json_display (ts_json info)) else println (ts_human_line ts));
          mret SUCCESS
      end
  end.

(** The entry of the history with its raw id. *)
Definition chain_json (s : str) : Value :=
  match session_kind_json (classify s) with
  | Object m => Object (jinsert m (lit "raw") (JString s))
  | v => v
  end.

(** The [for (i, s) in entries.iter().enumerate()] loop. *)
Fixpoint print_chain (i : N) (entries : list str) : prog unit :=
  match entries with
  | [] => mret tt
  | s :: entries' =>
      let kind := classify s in
      _ ← println (display_N i ++ lit ": " ++ session_kind_human kind);
      print_chain (i + 1) entries'
  end.

Definition cmd_chain (path : bytes) (json : bool) : prog ExitCode :=
  r ← load_record path;
  match r with
  | Err code => mret code
  | Ok rec =>
      match rec_history rec with
      | None => no_provenance json
      | Some history =>
          let entries := parse_history history in
          if decide (entries = []) then no_provenance json
          else
            _ ← (if json then println (json_display (Array (chain_json <$> entries)))
                 else print_chain 0 entries);
            mret SUCCESS
      end
  end.

(** ** find *)

Record FindArgs : Type := {
  f_tool : option str; f_since : option str; f_session : option str; f_intent : option str;
}.

(** The cutoff of [--since]: the inner [Err] is the exit code after an invalid
    duration, [None] a panic of the parser. *)
Definition find_cutoff (since : option str) : prog (option (result (option Z) ExitCode)) :=
  match since with
  | None => mret (Some (Ok None))
  | Some s =>
      match parse_duration s with
      | None => mret None
      | Some (Ok dur) =>
          now ← sys SystemNow;
          let now_secs := default i64_max (try_i64 (match now with Ok n => n | Err _ => 0 end)) in
          let dur_secs := default i64_max (try_i64 dur) in
          mret (Some (Ok (Some (sat_sub_i64 now_secs dur_secs))))
      | Some (Err e) =>
          _ ← eprintln (lit "prov: invalid --since: " ++ duration_message debug e);
          mret (Some (Err FAILURE))
      end
  end.

(** The filters of the loop, in order; an empty record never matches. *)
Definition find_match (args : FindArgs) (cutoff : option Z) (rec : ProvRecord) : bool :=
  if is_empty rec then false
  else if (match f_tool args with Some t => bool_decide (rec_tool rec ≠ Some t) | None => false end)
  then false
  else if (match f_session args with
           | Some prefix =>
               negb (match rec_session rec with Some s => starts_with prefix s | None => false end)
           | None => false
           end) then false
  else if (match f_intent args with Some i => bool_decide (rec_intent rec ≠ Some i) | None => false end)
  then false
  else match cutoff with
       | Some cutoff =>
           match rec_ts rec ≫= (λ t, unix (ts_info t)) with
           | Some u => cutoff <=? u
           | None => false
           end
       | None => true
       end.

Fixpoint find_loop (args : FindArgs) (cutoff : option Z) (entries : list WalkEntry)
    (had_error : bool) (matches : list (bytes * ProvRecord))
    : prog (bool * list (bytes * ProvRecord)) :=
  match entries with
  | [] => mret (had_error, matches)
  | we :: entries' =>
      match we_record we with
      | Err e =>
          _ ← eprintln (lit "prov: " ++ display (we_path we) ++ lit ": " ++ error_display e);
          find_loop args cutoff entries' true matches
      | Ok rec =>
          if find_match args cutoff rec
          then find_loop args cutoff entries' had_error (matches ++ [(we_path we, rec)])
          else find_loop args cutoff entries' had_error matches
      end
  end.

Definition find_json (m : bytes * ProvRecord) : Value :=
  let '(path, rec) := m in
  Object [(lit "path", JString (display path)); (lit "session", jopt JString (rec_session rec));
          (lit "tool", jopt JString (rec_tool rec)); (lit "turn", jopt JString (rec_turn rec));
          (lit "intent", jopt JString (rec_intent rec)); (lit "ts", jopt JString (rec_ts rec))].

Definition tab : char := 9%N.
Definition find_line (m : bytes * ProvRecord) : str :=
  let '(path, rec) := m in
  display path ++ tab :: lit "tool=" ++ default (lit "-") (rec_tool rec) ++
  tab :: lit "session=" ++ default (lit "-") (rec_session rec) ++
  tab :: lit "ts=" ++ default (lit "-") (rec_ts rec).

Fixpoint print_matches (matches : list (bytes * ProvRecord)) : prog unit :=
  match matches with
  | [] => mret tt
  | m :: matches' => _ ← println (find_line m); print_matches matches'
  end.

(** How a command ends: [Panicked] for a panic, [OutOfFuel] when the walk was
    not given enough. *)
Inductive outcome : Type := Exited (code : ExitCode) | Panicked | OutOfFuel.

Definition cmd_find (fuel : nat) (root : bytes) (args : FindArgs) (json : bool) : prog outcome :=
  c ← find_cutoff (f_since args);
  match c with
  | None => mret Panicked
  | Some (Err code) => mret (Exited code)
  | Some (Ok cutoff_unix) =>
      w ← walk_files fuel root;
      match w with
      | None => mret OutOfFuel
      | Some entries =>
          '(had_error, matches) ← find_loop args cutoff_unix entries false [];
          _ ← (if json then println (json_display (Array (find_json <$> matches)))
               else print_matches matches);
          mret (Exited (if had_error && bool_decide (matches = []) then FAILURE else SUCCESS))
      end
  end.

(** ** main *)

Inductive Command : Type :=
| Show (path : bytes) (json : bool)
| Who (path : bytes) (json : bool)
| When (path : bytes) (json : bool)
| Chain (path : bytes) (json : bool)
| Find (root : bytes) (args : FindArgs) (json : bool).

Definition main (fuel : nat) (command : Command) : prog outcome :=
  match command with
  | Show path json => Exited <$> cmd_show path json
  | Who path json => Exited <$> cmd_who path json
  | When path json => Exited <$> cmd_when path json
  | Chain path json => Exited <$> cmd_chain path json
  | Find root args json => cmd_find fuel root args json
  end.
End Commands.

(** ** Specification *)

(** The lines a run writes. *)
Definition stdout (tr : trace) : list str :=
  omap (λ e, match ev_call e with Println l => Some l | _ => None end) tr.
Definition stderr (tr : trace) : list str :=
  omap (λ e, match ev_call e with Eprintln l => Some l | _ => None end) tr.

(** Calls that look and never touch. *)
Definition reader_call (c : call) : Prop :=
  match c with
  | SymlinkMetadata _ | XattrGet _ _ | ReadDir _ | SystemNow | Println _ | Eprintln _ => True
  | _ => False
  end.

(** Calls that write no line. *)
Definition silent (c : call) : Prop :=
  match c with SymlinkMetadata _ | XattrGet _ _ | ReadDir _ => True | _ => False end.

(** What a file must be for [find]: each filter that was given holds. *)
Definition selects (rfc : str → option Z) (args : FindArgs) (cutoff : option Z) (rec : ProvRecord) : Prop :=
  is_empty rec = false ∧
  (∀ t, f_tool args = Some t → rec_tool rec = Some t) ∧
  (∀ p, f_session args = Some p → ∃ r, rec_session rec = Some (p ++ r)) ∧
  (∀ i, f_intent args = Some i → rec_intent rec = Some i) ∧
  (∀ c, cutoff = Some c → ∃ t u, rec_ts rec = Some t ∧ unix (parse_ts rfc t) = Some u ∧ c ≤ u).

(** The cutoff in exact arithmetic: now less the duration, both clamped to the
    largest [i64]. *)
Definition cutoff_spec (now : result Z unit) (d : Z) : Z :=
  Z.min i64_max (match now with Ok n => n | Err _ => 0 end) - Z.min i64_max d.

Definition we_error (we : WalkEntry) : bool :=
  match we_record we with Err _ => true | Ok _ => false end.

(** *** What an inspecting command reports *)

(** A session in one line: by its kind, with the fields that are known. *)
Definition labelled (label : string) (o : option str) : list str :=
  match o with Some v => [lit label ++ v] | None => [] end.

Definition kind_text (k : SessionKind) : str :=
  match k with
  | AgentNs i => lit "agentns session " ++ i
  | LegacyFallback c p => join_str (lit " ") [lit "fallback:"; lit "comm=" ++ c; lit "pid=" ++ p]
  | EnrichedFallback f =>
      join_str (lit " ") (lit "fallback:" :: (lit "comm-chain=" ++ default (lit "?") (comm_chain f)) ::
        labelled "uid=" (uid f) ++ labelled "pid=" (pid f) ++ labelled "cwd=" (cwd f) ++ labelled "env=" (env f))
  | Opaque r => lit "unrecognized: " ++ r
  end.

(** Its JSON fields after the kind's name; a field that is not known is null. *)
Definition kind_fields (k : SessionKind) : str * list (str * option str) :=
  match k with
  | AgentNs i => (lit "agentns", [(lit "id", Some i)])
  | LegacyFallback c p => (lit "legacy_fallback", [(lit "comm", Some c); (lit "pid", Some p)])
  | EnrichedFallback f =>
      (lit "enriched_fallback", [(lit "comm_chain", comm_chain f); (lit "env", env f); (lit "cwd", cwd f);
                                 (lit "pid", pid f); (lit "uid", uid f)])
  | Opaque r => (lit "opaque", [(lit "raw", Some r)])
  end.

Definition nullable (o : option str) : Value := default Null (JString <$> o).

Definition object_of (kind : str) (fields : list (str * option str)) : Value :=
  Object ((lit "kind", JString kind) :: (prod_map id nullable <$> fields)).

Definition kind_value (k : SessionKind) : Value := object_of (kind_fields k).1 (kind_fields k).2.

(** An entry of the chain also carries the raw id. *)
Definition chain_value (s : str) : Value :=
  match classify s with
  | Opaque _ => kind_value (Opaque s)
  | k => object_of (kind_fields k).1 ((kind_fields k).2 ++ [(lit "raw", Some s)])
  end.

(** ** Lemmas *)

Lemma stdout_app t1 t2 : stdout (t1 ++ t2) = stdout t1 ++ stdout t2.
Proof. apply omap_app. Qed.
Lemma stderr_app t1 t2 : stderr (t1 ++ t2) = stderr t1 ++ stderr t2.
Proof. apply omap_app. Qed.

Lemma silent_quiet {A} (p : prog A) tr a :
  calls_only silent p → runs p tr a → stdout tr = [] ∧ stderr tr = [].
Proof.
  intros Hp Hr. specialize (Hp tr a Hr). clear Hr.
  induction Hp as [|[[] r] tr He _ [IH1 IH2]]; done.
Qed.

Lemma read_record_silent p : calls_only silent (read_record p).
Proof. unfold read_record, get_key. calls; done. Qed.

Lemma walk_entries_silent dir ents stack out : calls_only silent (walk_entries dir ents stack out).
Proof.
  revert stack out. induction ents as [|[ent|e] ents IH]; intros stack out; cbn [walk_entries];
    [apply calls_only_ret| |apply IH].
  destruct (d_type ent) as [[]|e]; try apply IH.
  apply calls_only_bind; [apply read_record_silent|intros; apply IH].
Qed.

Lemma walk_files_silent fuel root : calls_only silent (walk_files fuel root).
Proof.
  unfold walk_files. generalize [root] (@nil WalkEntry).
  induction fuel as [|fuel IH]; intros [|d ds] out; cbn [walk_loop]; try apply calls_only_ret.
  apply calls_only_bind; [by apply (calls_only_sys _ (ReadDir d))|]. intros [ents|e]; [|apply IH].
  apply calls_only_bind; [apply walk_entries_silent|]. intros [? ?]. apply IH.
Qed.

Lemma silent_reader c : silent c → reader_call c.
Proof. by destruct c. Qed.

#[export] Hint Resolve read_record_silent walk_files_silent silent_reader : provfs.

Lemma session_kind_json_kind k :
  ∃ name fields, session_kind_json k = Object ((lit "kind", JString name) :: fields).
Proof. destruct k; by eexists _, _. Qed.

Lemma jopt_inj o o' : jopt JString o = jopt JString o' → o = o'.
Proof. by destruct o, o'; intros [=]; subst. Qed.

Lemma default_max_clamp z : 0 ≤ z → default i64_max (try_i64 z) = Z.min i64_max z.
Proof.
  intros Hz. unfold try_i64. destruct (Z.le_gt_cases z i64_max).
  - rewrite try_from_in by (unfold i64_min; lia). simpl. lia.
  - rewrite try_from_out by lia. simpl. lia.
Qed.

(** The three kinds of filter. *)
Lemma filter_exact (o r : option str) :
  (match o with Some t => bool_decide (r ≠ Some t) | None => false end) = false ↔
  ∀ t, o = Some t → r = Some t.
Proof.
  destruct o as [t|]; [|split; [by intros _ t|done]]. rewrite bool_decide_eq_false. split.
  - intros H t' [= <-]. destruct (decide (r = Some t)); tauto.
  - intros H Hn. by apply Hn, H.
Qed.

Lemma filter_prefix (o r : option str) :
  (match o with
   | Some p => negb (match r with Some s => starts_with p s | None => false end)
   | None => false
   end) = false ↔ ∀ p, o = Some p → ∃ t, r = Some (p ++ t).
Proof.
  destruct o as [p|]; [|split; [by intros _ p|done]]. rewrite negb_false_iff. split.
  - intros H p' [= <-]. destruct r as [s|]; [|done]. apply starts_with_spec in H as [t ->]. by exists t.
  - intros H. destruct (H p eq_refl) as [t ->]. apply starts_with_spec. by exists t.
Qed.

Lemma filter_since (cutoff : option Z) (r : option str) (f : str → option Z) :
  (match cutoff with
   | Some c => match r ≫= f with Some u => c <=? u | None => false end
   | None => true
   end) = true ↔ ∀ c, cutoff = Some c → ∃ t u, r = Some t ∧ f t = Some u ∧ c ≤ u.
Proof.
  destruct cutoff as [c|]; [|split; [by intros _ c|done]]. split.
  - intros H c' [= <-]. destruct r as [t|]; [|done]. simpl in H.
    destruct (f t) as [u|] eqn:E; [|done]. exists t, u. split; [done|]. split; [done|lia].
  - intros H. destruct (H c eq_refl) as (t & u & -> & Hu & ?). simpl. rewrite Hu. lia.
Qed.

Lemma find_match_selects rfc args cutoff rec :
  find_match rfc args cutoff rec = true ↔ selects rfc args cutoff rec.
Proof.
  unfold selects. rewrite <-filter_exact, <-filter_prefix, <-(filter_exact (f_intent args)).
  rewrite <-(filter_since cutoff (rec_ts rec) (λ t, unix (parse_ts rfc t))).
  unfold find_match, ts_info. repeat case_match; split; intros H'; (tauto || by destruct_and?).
Qed.

(** The matches of a list of entries, in order. *)
Definition selected (rfc : str → option Z) (args : FindArgs) (cutoff : option Z) (we : WalkEntry)
    : option (bytes * ProvRecord) :=
  match we_record we with
  | Ok rec => if find_match rfc args cutoff rec then Some (we_path we, rec) else None
  | Err _ => None
  end.

Lemma find_loop_ensures error_display rfc args cutoff entries had ms :
  ensures (find_loop error_display rfc args cutoff entries had ms)
    (λ tr out, stdout tr = [] ∧
       out = (had || existsb we_error entries, ms ++ omap (selected rfc args cutoff) entries)).
Proof.
  revert had ms. induction entries as [|we entries IH]; intros had ms; cbn [find_loop].
  - apply ensures_ret. by rewrite orb_false_r, app_nil_r.
  - cbn [existsb omap list_omap]. unfold we_error at 1, selected at 1.
    destruct (we_record we) as [rec|e].
    + case_match; (eapply ensures_mono; [apply IH|]); intros tr out [? ->];
        by rewrite <-?app_assoc.
    + apply (ensures_sys_bind (Eprintln _)). intros []. eapply ensures_mono; [apply IH|].
      intros tr out [? ->]. split; [done|]. by rewrite orb_true_r.
Qed.

Lemma print_matches_ensures ms :
  ensures (print_matches ms) (λ tr _, stdout tr = find_line <$> ms).
Proof.
  induction ms as [|m ms IH]; cbn [print_matches]; [by apply ensures_ret|].
  apply (ensures_sys_bind (Println _)). intros []. eapply ensures_mono; [apply IH|].
  intros tr u H. csimpl. by rewrite <-H.
Qed.

(** A system whose clock is not before the epoch and never changes. *)
Section Static.
Context (ans : ∀ c : call, resp c).
Context (Hclock : ∀ n, ans SystemNow = Ok n → 0 ≤ n).

Definition since_cutoff (since : option str) : result (option Z) DurationError :=
  match since with
  | None => Ok None
  | Some s =>
      match duration_spec (trim s) with
      | Ok d => Ok (Some (cutoff_spec (ans SystemNow) d))
      | Err e => Err e
      end
  end.

Lemma find_cutoff_eval debug since :
  eval ans (find_cutoff debug since) =
    Some (match since_cutoff since with Ok c => Ok c | Err _ => Err FAILURE end) ∧
  stdout (trace_of ans (find_cutoff debug since)) = [].
Proof.
  unfold find_cutoff, since_cutoff. destruct since as [s|]; [|done].
  rewrite parse_duration_eq. pose proof (duration_spec_range (trim s)) as Hd.
  destruct (duration_spec (trim s)) as [d|e]; [|done].
  specialize (Hd d eq_refl). split; [|done].
  rewrite eval_bind. change (eval ans (sys SystemNow)) with (ans SystemNow).
  assert (0 ≤ (match ans SystemNow with Ok n => n | Err _ => 0 end)) as Hn
    by (destruct (ans SystemNow); [auto|done]).
  rewrite !default_max_clamp by lia. unfold eval, exec_res. simpl. do 3 f_equal.
  unfold cutoff_spec, sat_sub_i64, i64_min, i64_max in *. lia.
Qed.
End Static.

Section Find.
Context (json_display : Value → str) (error_display : io_error → str) (debug : str → str).
Context (rfc : str → option Z).

Abbreviation prov_find := (cmd_find json_display error_display debug rfc).

(** What [find] prints for its matches, and its exit code. *)
Definition find_output (json : bool) (ms : list (bytes * ProvRecord)) : list str :=
  if json then [json_display (Array (find_json <$> ms))] else find_line <$> ms.

Definition find_code (entries : list WalkEntry) (ms : list (bytes * ProvRecord)) : ExitCode :=
  if existsb we_error entries && bool_decide (ms = []) then FAILURE else SUCCESS.

Lemma print_find_ensures (json : bool) ms :
  ensures (if json then println (json_display (Array (find_json <$> ms))) else print_matches ms)
    (λ tr _, stdout tr = find_output json ms).
Proof.
  destruct json; [by apply (ensures_sys (Println _))|apply print_matches_ensures].
Qed.

Lemma selected_elem args cutoff (entries : list WalkEntry) path rec :
  (path, rec) ∈ omap (selected rfc args cutoff) entries ↔
  {| we_path := path; we_record := Ok rec |} ∈ entries ∧ selects rfc args cutoff rec.
Proof.
  rewrite list_elem_of_omap. unfold selected. split.
  - intros ([p [r|e]] & Hin & H); [|done]. simpl in H.
    destruct (find_match rfc args cutoff r) eqn:E; [|done]. injection H as -> ->.
    by apply find_match_selects in E.
  - intros [Hin H%find_match_selects]. eexists. split; [exact Hin|]. simpl. by rewrite H.
Qed.

Lemma cmd_find_eval (ans : ∀ c : call, resp c) fuel root args (json : bool) entries c :
  (∀ n, ans SystemNow = Ok n → 0 ≤ n) →
  eval ans (walk_files fuel root) = Some entries → since_cutoff ans (f_since args) = Ok c →
  let ms := omap (selected rfc args c) entries in
  eval ans (prov_find fuel root args json) = Exited (find_code entries ms) ∧
  stdout (trace_of ans (prov_find fuel root args json)) = find_output json ms.
Proof.
  intros Hclock Hw Hc ms. destruct (find_cutoff_eval ans Hclock debug (f_since args)) as [He Ht].
  rewrite Hc in He. unfold cmd_find. rewrite eval_bind, trace_of_bind, He, stdout_app, Ht.
  rewrite eval_bind, trace_of_bind, Hw, stdout_app.
  rewrite (proj1 (silent_quiet _ _ _ (walk_files_silent fuel root) (static_runs ans _))).
  destruct (find_loop_ensures error_display rfc args c entries false [] _ _ (static_runs ans _)) as [Hs Hl].
  rewrite eval_bind, trace_of_bind, Hl, stdout_app, Hs. cbv beta iota. simpl app. fold ms.
  rewrite eval_bind, trace_of_bind, stdout_app.
  rewrite (print_find_ensures json ms _ _ (static_runs ans _)).
  split; [done|]. by rewrite app_nil_r.
Qed.
End Find.

(** ** Theorems *)

(** C12: [prov find] is correct on every finite tree: it ends, never panics,
    and prints, in the order of the walk, exactly the regular files below the
    root whose record satisfies every filter given, the cutoff being the exact
    difference of the clock and the duration; it fails only if nothing matched
    and something could not be read, or the duration was invalid, in which
    case it prints nothing. *)
Theorem find_correct (json_display : Value → str) (error_display : io_error → str)
    (debug : str → str) (rfc : str → option Z) (ans : ∀ c : call, resp c) (root : bytes)
    (args : FindArgs) (json : bool) (n fuel : nat)
    (Htree : finite_tree ans [root] n) (Hfuel : (n ≤ fuel)%nat)
    (Hclock : ∀ n, ans SystemNow = Ok n → 0 ≤ n) :
  let p := cmd_find json_display error_display debug rfc fuel root args json in
  match since_cutoff ans (f_since args) with
  | Err _ => eval ans p = Exited FAILURE ∧ stdout (trace_of ans p) = []
  | Ok c =>
      ∃ entries ms,
        (∀ we, we ∈ entries ↔ ∃ d, below_dir ans root d ∧ we ∈ dir_report ans d) ∧
        (∀ path rec, (path, rec) ∈ ms ↔
           {| we_path := path; we_record := Ok rec |} ∈ entries ∧ selects rfc args c rec) ∧
        eval ans p = Exited (find_code entries ms) ∧
        stdout (trace_of ans p) = find_output json_display json ms
  end.
Proof.
  intros p. destruct (since_cutoff ans (f_since args)) as [c|e] eqn:Ec.
  - destruct (walk_files_finite ans root n fuel Htree Hfuel) as (entries & Hw & Hin).
    exists entries, (omap (selected rfc args c) entries).
    split; [exact Hin|]. split; [apply selected_elem|].
    by apply cmd_find_eval.
  - unfold p, cmd_find. destruct (find_cutoff_eval ans Hclock debug (f_since args)) as [He Ht].
    rewrite Ec in He. rewrite eval_bind, trace_of_bind, He, stdout_app, Ht. done.
Qed.

(** No file below [/r/d] was stamped by [Edit]; the one in [/r] was. *)
Definition stamped_tree (c : call) : resp c :=
  match c with
  | XattrGet p k =>
      if decide (p = blit "/r/f" ∧ k = KEY_TOOL) then Ok (Some (blit "Edit")) else Ok None
  | c => demo_tree c
  end.

Definition edit_args : FindArgs :=
  {| f_tool := Some (lit "Edit"); f_since := None; f_session := None; f_intent := None |}.

Lemma find_correct_witness :
  let p := cmd_find (λ _, []) (λ _, []) id (λ _, None) 2 (blit "/r") edit_args false in
  ∃ entries ms,
    (∀ we, we ∈ entries ↔ ∃ d, below_dir stamped_tree (blit "/r") d ∧ we ∈ dir_report stamped_tree d) ∧
    (∀ path rec, (path, rec) ∈ ms ↔
       {| we_path := path; we_record := Ok rec |} ∈ entries ∧ selects (λ _, None) edit_args None rec) ∧
    eval stamped_tree p = Exited (find_code entries ms) ∧
    stdout (trace_of stamped_tree p) = find_output (λ _, []) false ms.
Proof.
  intros p.
  apply (find_correct (λ _, []) (λ _, []) id (λ _, None) stamped_tree (blit "/r") edit_args false 2 2).
  - apply (ft_dir _ _ _ 1 0); [|constructor].
    change (reverse _) with [blit "/r/d"]. apply (ft_dir _ _ _ 0 0); constructor.
  - lia.
  - intros n [= <-]. done.
Defined.

Section Contracts.
Context {DateTime : Type}.
Context (json_display : Value → str) (error_display : io_error → str) (debug : str → str).
Context (rfc : str → option Z) (from_timestamp : Z → option DateTime) (format_local : DateTime → str).

Abbreviation prov_main := (main json_display error_display debug rfc from_timestamp format_local).

Lemma load_record_calls p : calls_only reader_call (load_record error_display p).
Proof.
  unfold load_record, eprintln. apply calls_only_bind.
  - eapply calls_only_impl; [|apply read_record_silent]. apply silent_reader.
  - intros [rec|e]; calls; done.
Qed.

Lemma no_provenance_calls json : calls_only reader_call (no_provenance json_display json).
Proof. unfold no_provenance, println. calls; done. Qed.

Lemma print_chain_calls i entries : calls_only reader_call (print_chain i entries).
Proof.
  revert i. induction entries as [|s entries IH]; intros i; cbn [print_chain]; [apply calls_only_ret|].
  apply calls_only_bind; [by apply (calls_only_sys _ (Println _))|intros; apply IH].
Qed.

Lemma print_opt_calls prefix o show : calls_only reader_call (print_opt prefix o show).
Proof. unfold print_opt, println. calls; done. Qed.

Lemma find_calls fuel root args json :
  calls_only reader_call (cmd_find json_display error_display debug rfc fuel root args json).
Proof.
  unfold cmd_find, find_cutoff, println, eprintln. apply calls_only_bind; [calls; done|].
  intros [[c|]|]; try apply calls_only_ret. apply calls_only_bind.
  { eapply calls_only_impl; [|apply walk_files_silent]. apply silent_reader. }
  intros [entries|]; [|apply calls_only_ret]. apply calls_only_bind.
  - generalize false (@nil (bytes * ProvRecord)).
    induction entries as [|we entries IH]; intros had ms; cbn [find_loop]; [apply calls_only_ret|].
    destruct (we_record we); [case_match; apply IH|].
    apply calls_only_bind; [by apply (calls_only_sys _ (Eprintln _))|intros; apply IH].
  - intros [had ms]. apply calls_only_bind; [|intros; apply calls_only_ret].
    destruct json; [by apply (calls_only_sys _ (Println _))|].
    induction ms as [|m ms IH]; cbn [print_matches]; [apply calls_only_ret|].
    apply calls_only_bind; [by apply (calls_only_sys _ (Println _))|intros; apply IH].
Qed.

(** The file an inspecting command looks at. *)
Definition inspected (c : Command) : option bytes :=
  match c with Show p _ | Who p _ | When p _ | Chain p _ => Some p | Find _ _ _ => None end.

(** A timestamp: in local time if it is an instant, and always raw. *)
Definition ts_text (t : str) : str :=
  match unix (parse_ts rfc t) ≫= render_local from_timestamp format_local with
  | Some local => join_str (lit " ") [local; lit "(raw: " ++ t ++ lit ")"]
  | None => lit "(unparseable; raw: " ++ t ++ lit ")"
  end.

Definition ts_value (t : str) : Value :=
  let instant := unix (parse_ts rfc t) in
  Object [(lit "raw", JString t); (lit "unix", default Null (Number <$> instant));
          (lit "local", nullable (instant ≫= render_local from_timestamp format_local))].

(** The lines on stdout for a record that could be read: nothing known about
    what was asked is [no provenance], or the empty object in JSON. *)
Definition nothing (json : bool) : list str :=
  if json then [json_display (Object [])] else [lit "no provenance"].

Definition show_value (rec : ProvRecord) : Value :=
  Object [(lit "session", default Null (kind_value ∘ classify <$> rec_session rec));
          (lit "tool", nullable (rec_tool rec)); (lit "turn", nullable (rec_turn rec));
          (lit "intent", nullable (rec_intent rec)); (lit "ts", default Null (ts_value <$> rec_ts rec));
          (lit "history", default Null (Array ∘ fmap JString ∘ parse_history <$> rec_history rec))].

Definition show_lines (p : bytes) (rec : ProvRecord) : list str :=
  (lit "path:    " ++ display p) ::
  labelled "session: " ((λ s, s ++ lit " (" ++ kind_text (classify s) ++ lit ")") <$> rec_session rec) ++
  labelled "tool:    " (rec_tool rec) ++ labelled "turn:    " (rec_turn rec) ++
  labelled "intent:  " (rec_intent rec) ++ labelled "ts:      " (ts_text <$> rec_ts rec) ++
  labelled "history: " (join_str (lit ", ") ∘ parse_history <$> rec_history rec).

Definition chain_lines (entries : list str) : list str :=
  imap (λ i s, display_N (N.of_nat i) ++ lit ": " ++ kind_text (classify s)) entries.

Definition report (c : Command) (rec : ProvRecord) : list str :=
  match c with
  | Show p json =>
      match rec with
      | {| rec_session := None; rec_tool := None; rec_turn := None; rec_intent := None; rec_ts := None;
           rec_history := None |} => nothing json
      | _ => if json then [json_display (show_value rec)] else show_lines p rec
      end
  | Who _ json =>
      match classify <$> rec_session rec with
      | Some k => [if json then json_display (kind_value k) else kind_text k]
      | None => nothing json
      end
  | When _ json =>
      match rec_ts rec with
      | Some t => [if json then json_display (ts_value t) else ts_text t]
      | None => nothing json
      end
  | Chain _ json =>
      match parse_history (default [] (rec_history rec)) with
      | [] => nothing json
      | entries => if json then [json_display (Array (chain_value <$> entries))] else chain_lines entries
      end
  | Find _ _ _ => []
  end.

(** *** The report is what the commands print *)

Lemma kind_text_eq k : session_kind_human k = kind_text k.
Proof.
  destruct k as [i|[cc e w p u]|c p|r]; try done. simpl. unfold fallback_human. simpl.
  destruct e, w, p, u; simpl; rewrite ?app_nil_r, <-?app_assoc; done.
Qed.

Lemma kind_value_eq k : session_kind_json k = kind_value k.
Proof. by destruct k as [i|[[] [] [] [] []]|c p|r]. Qed.

Lemma chain_value_eq s : chain_json s = chain_value s.
Proof.
  unfold chain_json, chain_value. rewrite kind_value_eq.
  destruct (classify s) as [i|[[] [] [] [] []]|c p|r]; by vm_compute.
Qed.

(** A program that only prints: the lines, and the value it returns. *)
Definition prints {A} (p : prog A) (lines : list str) (a : A) : Prop :=
  ensures p (λ tr b, stderr tr = [] ∧ stdout tr = lines ∧ b = a).

Lemma prints_ret {A} (a : A) : prints (mret a) [] a.
Proof. by apply ensures_ret. Qed.

Lemma prints_line line : prints (println line) [line] tt.
Proof. apply (ensures_sys (Println _)). by intros []. Qed.

Lemma prints_bind {A B} (p : prog A) (f : A → prog B) l1 l2 a b :
  prints p l1 a → prints (f a) l2 b → prints (p ≫= f) (l1 ++ l2) b.
Proof.
  intros Hp Hf. eapply ensures_bind; [exact Hp|]. intros tr a' (He & Ho & ->).
  eapply ensures_mono; [exact Hf|]. intros tr' b' (He' & Ho' & ->).
  by rewrite stderr_app, stdout_app, He, Ho, He', Ho'.
Qed.

Lemma prints_one line : prints (_ ← println line; mret SUCCESS) [line] SUCCESS.
Proof. eapply (prints_bind _ _ [_] []); [apply prints_line|apply prints_ret]. Qed.

Lemma prints_opt label o show o' :
  show <$> o = o' → prints (print_opt (lit label) o show) (labelled label o') tt.
Proof. intros <-. destruct o; [apply prints_line|apply prints_ret]. Qed.

Lemma prints_nothing json : prints (no_provenance json_display json) (nothing json) SUCCESS.
Proof. destruct json; apply prints_one. Qed.

Lemma prints_chain i entries :
  prints (print_chain (N.of_nat i) entries)
    (imap (λ k s, display_N (N.of_nat (i + k)) ++ lit ": " ++ kind_text (classify s)) entries) tt.
Proof.
  revert i. induction entries as [|s entries IH]; intros i; [apply prints_ret|].
  cbn [print_chain imap]. rewrite Nat.add_0_r, <-kind_text_eq.
  eapply (prints_bind _ _ [_]); [apply prints_line|].
  replace (N.of_nat i + 1)%N with (N.of_nat (S i)) by lia.
  rewrite (imap_ext _ (λ k s, display_N (N.of_nat (S i + k)) ++ lit ": " ++ kind_text (classify s))); [apply IH|].
  intros k x _. simpl. by rewrite Nat.add_succ_r.
Qed.

(** How a command ends on the file [p]: with the lines of the record, or with
    the error of reading it. *)
Definition reported (p : bytes) (lines : ProvRecord → list str) (tr : trace) (code : ExitCode) : Prop :=
  ∃ tr0 r tr1, tr = tr0 ++ tr1 ∧ runs (read_record p) tr0 r ∧
    match r with
    | Ok rec => code = SUCCESS ∧ stderr tr = [] ∧ stdout tr = lines rec
    | Err e => code = FAILURE ∧ stdout tr = [] ∧
        stderr tr = [lit "prov: " ++ display p ++ lit ": " ++ error_display e]
    end.

Lemma load_then p (f : ProvRecord → prog ExitCode) lines :
  (∀ rec, prints (f rec) (lines rec) SUCCESS) →
  ensures (load_record error_display p ≫= λ r, match r with Err code => mret code | Ok rec => f rec end)
    (reported p lines).
Proof.
  intros Hf. apply ensures_assoc. eapply ensures_bind; [by intros tr0 r Hr; exact Hr|].
  intros tr0 r Hr. destruct (silent_quiet _ _ _ (read_record_silent p) Hr) as [Ho He].
  destruct r as [rec|e]; simpl.
  - eapply ensures_mono; [apply Hf|]. intros tr1 code (He1 & Ho1 & ->). exists tr0, (Ok rec), tr1.
    by rewrite stderr_app, stdout_app, Ho, He.
  - apply (ensures_sys_bind (Eprintln _)). intros []. apply ensures_ret. exists tr0, (Err e). eexists.
    split; [done|]. split; [done|]. by rewrite stderr_app, stdout_app, Ho, He.
Qed.

Lemma ts_text_eq t : ts_human_line rfc from_timestamp format_local t = ts_text t.
Proof.
  unfold ts_human_line, ts_text, local_of, ts_info. destruct (unix _ ≫= _); [|done].
  done.
Qed.

Lemma ts_value_eq t : ts_json from_timestamp format_local (ts_info rfc t) = ts_value t.
Proof.
  unfold ts_value, ts_json, local_of, ts_info, nullable.
  assert (raw (parse_ts rfc t) = t) as -> by done.
  by destruct (unix (parse_ts rfc t)) as [u|]; simpl; [destruct (render_local _ _ u)|].
Qed.

Lemma jopt_default {A} (f g : A → Value) o : (∀ a, f a = g a) → jopt f o = default Null (g <$> o).
Proof. intros H. destruct o; [apply H|done]. Qed.

(** Each command prints its report. *)
Lemma cmd_show_reports p json :
  ensures (cmd_show json_display error_display rfc from_timestamp format_local p json)
    (reported p (report (Show p json))).
Proof.
  apply load_then. intros rec. cbn [report].
  replace (match rec with {| rec_session := _ |} => _ end)
    with (if is_empty rec then nothing json else if json then [json_display (show_value rec)] else show_lines p rec)
    by (by destruct rec as [[] [] [] [] [] []]).
  destruct (is_empty rec); [apply prints_nothing|]. destruct json.
  - cbv zeta. rewrite (jopt_default _ (kind_value ∘ classify)) by (intros; apply kind_value_eq).
    rewrite (jopt_default (λ t, ts_json _ _ _) ts_value) by apply ts_value_eq.
    rewrite !(jopt_default JString JString), (jopt_default _ (Array ∘ fmap JString ∘ parse_history)) by done.
    apply prints_one.
  - eapply (prints_bind _ _ [_]); [apply prints_line|]. rewrite <-(app_nil_r (labelled "history: " _)).
    repeat (eapply prints_bind; [apply prints_opt|]); [..|apply prints_ret]; try apply option_fmap_id; [|..|done];
      apply option_fmap_ext; intros x; rewrite ?kind_text_eq, ?ts_text_eq; done.
Qed.

Lemma cmd_who_reports p json :
  ensures (cmd_who json_display error_display p json) (reported p (report (Who p json))).
Proof.
  apply load_then. intros rec. cbn [report].
  destruct (rec_session rec) as [s|]; [|apply prints_nothing]. cbv zeta.
  rewrite kind_value_eq, kind_text_eq. destruct json; apply prints_one.
Qed.

Lemma cmd_when_reports p json :
  ensures (cmd_when json_display error_display rfc from_timestamp format_local p json)
    (reported p (report (When p json))).
Proof.
  apply load_then. intros rec. cbn [report].
  destruct (rec_ts rec) as [t|]; [|apply prints_nothing]. cbv zeta.
  rewrite ts_value_eq, ts_text_eq. destruct json; apply prints_one.
Qed.

Lemma cmd_chain_reports p json :
  ensures (cmd_chain json_display error_display p json) (reported p (report (Chain p json))).
Proof.
  apply load_then. intros rec. cbn [report].
  destruct (rec_history rec) as [h|]; [|apply prints_nothing]. cbv zeta. change (default [] (Some h)) with h.
  destruct (parse_history h) as [|s entries]; [apply prints_nothing|].
  rewrite decide_False by done. destruct json.
  - rewrite (list_fmap_ext chain_json chain_value) by (intros; apply chain_value_eq). apply prints_one.
  - rewrite <-(app_nil_r (chain_lines _)). eapply prints_bind; [|apply prints_ret].
    exact (prints_chain 0 (s :: entries)).
Qed.

(** C37: [prov] only looks: no command changes a file, an attribute or the
    clock; it makes metadata, attribute and directory reads, and prints. *)
Theorem prov_never_writes (fuel : nat) (command : Command) :
  calls_only reader_call (prov_main fuel command).
Proof.
  destruct command as [p json|p json|p json|p json|root args json]; cbn [main]; [..|apply find_calls].
  all: apply calls_only_bind; [|intros; apply calls_only_ret].
  all: apply calls_only_bind; [apply load_record_calls|intros [rec|code]; [|apply calls_only_ret]].
  - destruct (is_empty rec); [apply no_provenance_calls|].
    destruct json; [unfold println; calls; done|].
    apply calls_only_bind; [by apply (calls_only_sys _ (Println _))|intros].
    do 6 (apply calls_only_bind; [apply print_opt_calls|intros]). apply calls_only_ret.
  - destruct (rec_session rec); [unfold println; calls; done|apply no_provenance_calls].
  - destruct (rec_ts rec); [unfold println; calls; done|apply no_provenance_calls].
  - destruct (rec_history rec) as [h|]; [|apply no_provenance_calls].
    cbv zeta. case_decide; [apply no_provenance_calls|].
    apply calls_only_bind; [|intros; apply calls_only_ret].
    destruct json; [by apply (calls_only_sys _ (Println _))|apply print_chain_calls].
Qed.

(** C36: what [show], [who], [when] and [chain] do, for every content of the
    file's attributes: if the record cannot be read the command fails, with one
    line on stderr that names the file and the error, and nothing on stdout;
    otherwise it succeeds, stderr stays empty and stdout is exactly the report
    of the record, in words or as one JSON value, where a file without what was
    asked for is [no provenance] or the empty object, and not an error.  None
    of them panics. *)
Theorem inspect_output_contract (fuel : nat) (command : Command) (p : bytes)
    (Hc : inspected command = Some p) :
  ensures (prov_main fuel command) (λ tr out,
    ∃ tr0 r tr1, tr = tr0 ++ tr1 ∧ runs (read_record p) tr0 r ∧
      match r with
      | Ok rec => out = Exited SUCCESS ∧ stderr tr = [] ∧ stdout tr = report command rec
      | Err e => out = Exited FAILURE ∧ stdout tr = [] ∧
          stderr tr = [lit "prov: " ++ display p ++ lit ": " ++ error_display e]
      end).
Proof.
  destruct command; try discriminate; injection Hc as ->; cbn [main]; eapply ensures_bind.
  all: try apply cmd_show_reports; try apply cmd_who_reports;
       try apply cmd_when_reports; try apply cmd_chain_reports.
  all: intros tr code (tr0 & r & tr1 & -> & Hr & H); apply ensures_ret; exists tr0, r, tr1.
  all: rewrite app_nil_r; do 2 (split; [done|]); destruct r; destruct H as (-> & ? & ?); done.
Qed.
End Contracts.

(** A file the overlay stamped for a shell with pid 42. *)
Definition bash_stamp (c : call) : resp c :=
  match c with
  | XattrGet p k =>
      if decide (k = KEY_SESSION) then Ok (Some (as_bytes (fallback_session (lit "bash") 42))) else Ok None
  | c => (mem_step c ∅).1
  end.

Lemma inspect_output_contract_witness :
  let prov := main (DateTime:=unit) (λ _, []) (λ _, []) id (λ _, None) (λ _, None) (λ _, []) 0 (Who (blit "/a") false) in
  ∃ r : io_result ProvRecord, match r with
       | Ok rec => stdout (trace_of bash_stamp prov) =
           report (λ _, []) (λ _, None) (λ _ : Z, @None unit) (λ _, []) (Who (blit "/a") false) rec
       | Err _ => False
       end.
Proof.
  intros prov.
  destruct (inspect_output_contract (λ _, []) (λ _, []) id (λ _, None) (λ _ : Z, @None unit) (λ _, []) 0
    (Who (blit "/a") false) (blit "/a") eq_refl _ _ (static_runs bash_stamp prov)) as (tr0 & r & tr1 & _ & _ & H).
  exists r. destruct r as [rec|e]; [apply H|].
  destruct H as (Ho & _). assert (eval bash_stamp prov = Exited SUCCESS) as Hs by (by vm_compute).
  by rewrite Hs in Ho.
Defined.

(** The JSON of a session loses nothing: two classifications with the same
    JSON are the same, and an entry of [chain --json] determines the raw
    session id it stands for. *)
Theorem session_json_faithful (k k' : SessionKind) (s s' : str) :
  (session_kind_json k = session_kind_json k' ↔ k = k') ∧ (chain_json s = chain_json s' ↔ s = s').
Proof.
  split; (split; [|by intros ->]).
  - destruct k as [i|f|c p|r], k' as [i'|f'|c' p'|r']; try discriminate.
    1,3,4: by intros [=]; subst.
    intros H. injection H as H1%jopt_inj H2%jopt_inj H3%jopt_inj H4%jopt_inj H5%jopt_inj.
    destruct f, f'; simpl in *. by subst.
  - intros H. apply (f_equal (λ v, match v with Object m => List.find (λ kv, bool_decide (kv.1 = lit "raw")) m | _ => None end)) in H.
    assert (∀ t, match chain_json t with
      | Object m => List.find (λ kv, bool_decide (kv.1 = lit "raw")) m | _ => None end
      = Some (lit "raw", JString t)) as Hraw.
    { intros t. unfold chain_json. destruct (classify t); by vm_compute. }
    rewrite !Hraw in H. by injection H.
Qed.

Section Who.
Context (json_display : Value → str) (error_display : io_error → str).

(** C35: from stamp to [prov who]: for a file the overlay stamped for a process
    without a session, [prov who] prints the name and the pid of that
    process. *)
Theorem who_names_fallback (ans : ∀ c : call, resp c) (p : bytes) (comm : str) (pid : N)
    (rec : ProvRecord)
    (Hread : eval ans (read_record p) = Ok rec)
    (Hsess : ans (XattrGet p KEY_SESSION) = Ok (Some (as_bytes (fallback_session comm pid))))
    (Hvalid : valid_str comm) (Hne : comm ≠ [])
    (Hno : contains (lit ":pid:") (comm ++ lit ":pid") = false) :
  eval ans (cmd_who json_display error_display p false) = SUCCESS ∧
  stdout (trace_of ans (cmd_who json_display error_display p false)) =
    [lit "fallback: comm=" ++ comm ++ lit " pid=" ++ display_N pid].
Proof.
  assert (rec_session rec = Some (fallback_session comm pid)) as Hrec.
  { rewrite read_record_eval in Hread. destruct (ans (SymlinkMetadata p)); [|done].
    unfold prov_keys in Hread. csimpl in Hread. rewrite Hsess in Hread. cbn [key_value fmap option_fmap option_map] in Hread.
    rewrite from_utf8_lossy_as_bytes in Hread.
    - cbn [all_ok] in Hread. repeat (case_match; simplify_eq; try done).
    - unfold fallback_session. rewrite !valid_str_app. split_and!; [by apply (bool_decide_eq_true_1 _)|done| |].
      + by apply (bool_decide_eq_true_1 _).
      + apply display_N_valid. }
  unfold cmd_who, load_record. rewrite eval_bind, trace_of_bind, stdout_app.
  rewrite eval_bind, trace_of_bind, stdout_app, Hread.
  rewrite (proj1 (silent_quiet _ _ _ (read_record_silent p) (static_runs ans _))).
  change (eval ans (mret ?x)) with x. cbv beta iota. rewrite Hrec.
  change (fallback_session comm pid) with (render_legacy comm (display_N pid)).
  rewrite (classify_legacy comm (display_N pid)); [|done|apply display_N_nonempty|done].
  done.
Qed.
End Who.

Lemma who_names_fallback_witness :
  stdout (trace_of bash_stamp (cmd_who (λ _, []) (λ _, []) (blit "/a") false)) =
    [lit "fallback: comm=bash pid=42"].
Proof.
  eapply (who_names_fallback (λ _, []) (λ _, []) bash_stamp (blit "/a") (lit "bash") 42).
  - by vm_compute.
  - done.
  - by apply (bool_decide_eq_true_1 _).
  - done.
  - by vm_compute.
Defined.

Close Scope Z_scope.
