(* ===== verification/Main.v ===== *)
(** The [provfs] command ([src/main.rs]): the checks before the mount and the
    exit codes. *)

From S2P Require Import Prelude RustStr RustPath Sys History Skip InodeTable ProvFs.

Open Scope Z_scope.

(** ** Definitions *)

Record Cli : Type := {
  cli_source : bytes; cli_mount : bytes; cli_skip : str; cli_foreground : bool;
}.

Section Main.
Context (debug_path : bytes → str) (error_display : io_error → str).

(** The exit code, and the filesystem handed to the FUSE session if one was. *)
Definition main (cli : Cli) : prog (Z * option ProvFs) :=
  source_dir ← sys (IsDir (cli_source cli));
  if negb source_dir then
    _ ← sys (Eprintln (lit "provfs: --source " ++ debug_path (cli_source cli) ++ lit " is not a directory"));
    mret (2, None)
  else
    mount_dir ← sys (IsDir (cli_mount cli));
    if negb mount_dir then
      _ ← sys (Eprintln (lit "provfs: --mount " ++ debug_path (cli_mount cli) ++ lit " is not a directory"));
      mret (2, None)
    else
      let skip := if decide (cli_skip cli = []) then defaults else from_user_spec (cli_skip cli) in
      let fs := new (cli_source cli) skip in
      r ← sys (Mount (cli_mount cli));
      match r with
      | Err e =>
          _ ← sys (Eprintln (lit "provfs: mount failed: " ++ error_display e));
          mret (3, Some fs)
      | Ok _ => mret (0, Some fs)
      end.

(** ** Lemmas *)

Lemma from_user_spec_nil : from_user_spec [] = defaults.
Proof. by vm_compute. Qed.

(** ** Theorems *)

(** C40: [provfs] mounts only over directories and with the right filter: it
    asks for the mount exactly when source and mount point are directories,
    and then hands over a fresh filesystem on the source whose skip list is
    the defaults extended by the user's prefixes; it exits with 2 before the
    mount, 3 after a failed one, 0 otherwise, with a line on stderr unless
    0. *)
Theorem main_mounts_checked (cli : Cli) :
  ensures (main cli) (λ tr out,
    match out with
    | (0, Some fs) =>
        tr = [Ev (IsDir (cli_source cli)) true; Ev (IsDir (cli_mount cli)) true;
              Ev (Mount (cli_mount cli)) (Ok tt)] ∧
        fs = new (cli_source cli) (from_user_spec (cli_skip cli))
    | (3, Some fs) =>
        ∃ e, tr = [Ev (IsDir (cli_source cli)) true; Ev (IsDir (cli_mount cli)) true;
                   Ev (Mount (cli_mount cli)) (Err e);
                   Ev (Eprintln (lit "provfs: mount failed: " ++ error_display e)) tt]
    | (2, None) =>
        (∃ line, tr = [Ev (IsDir (cli_source cli)) false; Ev (Eprintln line) tt]) ∨
        (∃ line, tr = [Ev (IsDir (cli_source cli)) true; Ev (IsDir (cli_mount cli)) false;
                       Ev (Eprintln line) tt])
    | _ => False
    end).
Proof.
  unfold main. apply (ensures_sys_bind (IsDir _)). intros [|]; simpl negb; cbv iota.
  - apply (ensures_sys_bind (IsDir _)). intros [|]; simpl negb; cbv iota.
    + apply (ensures_sys_bind (Mount _)). intros [[]|e].
      * apply ensures_ret. split; [done|]. case_decide as H; [|done].
        by rewrite H, from_user_spec_nil.
      * apply (ensures_sys_bind (Eprintln _)). intros []. apply ensures_ret. by exists e.
    + apply (ensures_sys_bind (Eprintln _)). intros []. apply ensures_ret. right. by eexists.
  - apply (ensures_sys_bind (Eprintln _)). intros []. apply ensures_ret. left. by eexists.
Qed.
End Main.

Close Scope Z_scope.
