(* ===== verification/CStr.v ===== *)
(** C strings in fixed buffers, as the kernel module under [lsm] uses them: a
    buffer is a list of bytes of its length, a string in it ends at its first
    NUL.  The kernel's [snprintf], [scnprintf], [strscpy] and [strsep], and
    the logged resources a kernel function takes and gives back. *)

From S2P Require Import Prelude RustStr.
From Stdlib Require Import Strings.Byte Numbers.DecimalFacts Numbers.DecimalN.

(** ** Buffers *)

Abbreviation NUL := Byte.x00.

(** The string at the start of a buffer. *)
Fixpoint cstr (buf : bytes) : bytes :=
  match buf with
  | [] => []
  | b :: buf' => if decide (b = NUL) then [] else b :: cstr buf'
  end.

(** Overwrite from an offset; what lies outside stays. *)
Definition store (buf : bytes) (off : nat) (data : bytes) : bytes :=
  take off buf ++ data ++ drop (off + length data) buf.

(** [snprintf(buf + off, size, "%s", text)]: at most [size - 1] bytes and a
    NUL; the length of the whole text is returned. *)
Definition snprintf (buf : bytes) (off size : nat) (text : bytes) : nat * bytes :=
  (length text, if (size =? 0)%nat then buf else store buf off (take (size - 1) text ++ [NUL])).

(** [scnprintf(buf, size, "%s", text)]: as [snprintf] at the start, with the
    number of bytes that were written. *)
Definition scnprintf (buf : bytes) (size : nat) (text : bytes) : nat * bytes :=
  (Nat.min (length text) (size - 1), (snprintf buf 0 size text).2).

(** [strscpy(dst, src, sizeof(dst))]. *)
Definition strscpy (dst src : bytes) : bytes :=
  (snprintf dst 0 (length dst) (cstr src)).2.

(** [buf[0] = '\0']. *)
Definition clear (buf : bytes) : bytes := store buf 0 [NUL].

(** [%u] and [%lld]. *)
Definition fmt_u (z : Z) : bytes := as_bytes (display_N (Z.to_N z)).
Definition fmt_lld (z : Z) : bytes := as_bytes (display_Z z).

(** ** Specification *)

Definition nonul (s : bytes) : Prop := NUL ∉ s.

#[export] Instance nonul_dec s : Decision (nonul s).
Proof. unfold nonul. apply _. Defined.

(** A writer at [off] in a buffer of length [len] has produced [s]. *)
Record at_offset (len : nat) (buf : bytes) (off : nat) (s : bytes) : Prop := {
  at_offset_len : length buf = len;
  at_offset_take : take off buf = s;
  at_offset_nonul : nonul s;
  at_offset_room : off < len;
}.

(** ** Lemmas *)

Lemma nonul_app s t : nonul (s ++ t) ↔ nonul s ∧ nonul t.
Proof. unfold nonul. rewrite elem_of_app. tauto. Qed.

Lemma nonul_take n s : nonul s → nonul (take n s).
Proof. unfold nonul. intros H Hn. apply H. by apply elem_of_take in Hn as (?&?%list_elem_of_lookup_2&_). Qed.

Lemma nonul_cstr buf : nonul (cstr buf).
Proof.
  unfold nonul. induction buf as [|b buf IH]; simpl; [apply not_elem_of_nil|].
  case_decide; [apply not_elem_of_nil|]. apply not_elem_of_cons. naive_solver.
Qed.

Lemma cstr_app_nul s buf : nonul s → cstr (s ++ NUL :: buf) = s.
Proof.
  unfold nonul. induction s as [|b s IH]; simpl; [done|].
  rewrite not_elem_of_cons. intros [Hb Hs]. rewrite decide_False by congruence. by rewrite IH.
Qed.

Lemma cstr_id s : nonul s → cstr s = s.
Proof.
  unfold nonul. induction s as [|b s IH]; simpl; [done|].
  rewrite not_elem_of_cons. intros [Hb Hs]. rewrite decide_False by congruence. by rewrite IH.
Qed.

Lemma cstr_length buf : length (cstr buf) ≤ length buf.
Proof. induction buf as [|b buf IH]; simpl; [done|]. case_decide; simpl; lia. Qed.

(** A buffer either is all string or has its string followed by a NUL. *)
Lemma cstr_split buf : buf = cstr buf ∨ ∃ rest, buf = cstr buf ++ NUL :: rest.
Proof.
  induction buf as [|b buf [IH|[rest IH]]]; simpl; [by left|..];
    (case_decide as Hb; [subst b; right; by eexists|]).
  - left. by f_equal.
  - right. exists rest. simpl. by f_equal.
Qed.

Lemma length_store buf off data : off + length data ≤ length buf → length (store buf off data) = length buf.
Proof. intros H. unfold store. rewrite !length_app, length_take, length_drop. lia. Qed.

Lemma length_snprintf buf off size text :
  off + size ≤ length buf → length (snprintf buf off size text).2 = length buf.
Proof.
  intros H. unfold snprintf. simpl. case_match eqn:E; [done|]. apply Nat.eqb_neq in E.
  apply length_store. rewrite length_app, length_take. simpl. lia.
Qed.

Lemma length_strscpy dst src : length (strscpy dst src) = length dst.
Proof. by apply length_snprintf. Qed.

Lemma length_clear buf : buf ≠ [] → length (clear buf) = length buf.
Proof. intros H. apply length_store. destruct buf; simpl; [done|lia]. Qed.

Lemma clear_written buf : buf ≠ [] → at_offset (length buf) (clear buf) 0 [].
Proof.
  intros H. split; [by apply length_clear|done|apply not_elem_of_nil|].
  destruct buf; simpl; [done|lia].
Qed.

Lemma cstr_clear buf : cstr (clear buf) = [].
Proof. done. Qed.

(** One [snprintf] of a writer: the whole text when it fits, what fits of it
    otherwise. *)
Lemma snprintf_fits len buf off s text :
  at_offset len buf off s → nonul text → length text < len - off →
  at_offset len (snprintf buf off (len - off) text).2 (off + length text) (s ++ text) ∧
  cstr (snprintf buf off (len - off) text).2 = s ++ text.
Proof.
  intros [Hl Ht Hs Hr] Hn Hfit. unfold snprintf. simpl.
  replace (len - off =? 0) with false by lia. rewrite take_ge by lia.
  assert (Hst : store buf off (text ++ [NUL]) = (s ++ text) ++ NUL :: drop (off + length (text ++ [NUL])) buf).
  { unfold store. rewrite Ht. by simplify_list_eq. }
  assert (Hls : length s = off) by (rewrite <-Ht, length_take; lia).
  split; [split|].
  - rewrite length_store; [done|]. rewrite length_app. simpl. lia.
  - rewrite Hst. rewrite take_app_le by (rewrite length_app; lia). apply take_ge. rewrite length_app. lia.
  - by apply nonul_app.
  - lia.
  - rewrite Hst. apply cstr_app_nul. by apply nonul_app.
Qed.

Lemma snprintf_cut len buf off s text :
  at_offset len buf off s → nonul text → len - off ≤ length text →
  at_offset len (snprintf buf off (len - off) text).2 off s ∧
  cstr (snprintf buf off (len - off) text).2 = s ++ take (len - off - 1) text.
Proof.
  intros [Hl Ht Hs Hr] Hn Hcut. unfold snprintf. simpl.
  replace (len - off =? 0) with false by lia. set (d := take _ text).
  assert (Hd : length d = len - off - 1) by (unfold d; rewrite length_take; lia).
  assert (Hst : store buf off (d ++ [NUL]) = (s ++ d) ++ NUL :: drop (off + length (d ++ [NUL])) buf).
  { unfold store. rewrite Ht. by simplify_list_eq. }
  assert (Hls : length s = off) by (rewrite <-Ht, length_take; lia).
  split; [split|].
  - rewrite length_store; [done|]. rewrite length_app. simpl. lia.
  - rewrite Hst, <-app_assoc, take_app_le by lia. apply take_ge. lia.
  - done.
  - done.
  - rewrite Hst. apply cstr_app_nul. apply nonul_app. split; [done|]. by apply nonul_take.
Qed.

(** At the start of a buffer the text is cut to the buffer. *)
Lemma cstr_snprintf_start buf text :
  buf ≠ [] → nonul text →
  cstr (snprintf buf 0 (length buf) text).2 = take (length buf - 1) text.
Proof.
  intros Hb Hn. unfold snprintf, store. simpl.
  replace (length buf =? 0) with false by (destruct buf; done).
  rewrite <-app_assoc. apply cstr_app_nul. by apply nonul_take.
Qed.

Lemma cstr_strscpy dst src :
  dst ≠ [] → cstr (strscpy dst src) = take (length dst - 1) (cstr src).
Proof. intros H. apply cstr_snprintf_start; [done|apply nonul_cstr]. Qed.

(** Copying a buffer into one of the same size loses nothing of its string. *)
Lemma cstr_strscpy_same dst src :
  dst ≠ [] → length (cstr src) < length dst → cstr (strscpy dst src) = cstr src.
Proof. intros H Hl. rewrite cstr_strscpy by done. apply take_ge. lia. Qed.

(** *** Decimal output *)

Lemma ascii_as_bytes s :
  Forall (λ c, (c < 128)%N) s → as_bytes s = byte_of_N <$> s.
Proof.
  induction 1 as [|c s Hc _ IH]; [done|]. csimpl. rewrite IH. unfold encode_char.
  by replace (c <? 0x80)%N with true by lia.
Qed.

Lemma nonul_as_bytes s : 0%N ∉ s → valid_str s → nonul (as_bytes s).
Proof.
  intros H0 Hs H. assert (0%N ∈ from_utf8_lossy (as_bytes s)) as Hin.
  { apply list_elem_of_split in H as (a & b & ->). rewrite from_utf8_lossy_ascii by done.
    rewrite elem_of_app, elem_of_cons. tauto. }
  by rewrite from_utf8_lossy_as_bytes in Hin.
Qed.

Lemma display_Z_elem z c : c ∈ display_Z z → c = 45%N ∨ is_ascii_digit c = true.
Proof.
  unfold display_Z. destruct (z <? 0)%Z; [rewrite elem_of_cons|];
    naive_solver eauto using display_N_elem.
Qed.

Lemma display_Z_valid z : valid_str (display_Z z).
Proof.
  apply Forall_forall. intros c [->|Hc]%display_Z_elem; [done|by apply digit_valid].
Qed.

Lemma nonul_fmt_u z : nonul (fmt_u z).
Proof.
  apply nonul_as_bytes; [|apply display_N_valid]. intros H%display_N_elem. done.
Qed.

Lemma nonul_fmt_lld z : nonul (fmt_lld z).
Proof.
  apply nonul_as_bytes; [|apply display_Z_valid]. by intros [?|?]%display_Z_elem.
Qed.

Lemma digits_value_lower acc s :
  (0 ≤ acc)%Z → Forall (λ c, is_ascii_digit c = true) s →
  (acc * 10 ^ Z.of_nat (length s) ≤ digits_value acc s)%Z.
Proof.
  intros Ha Hs. revert acc Ha. induction Hs as [|c s Hc Hs IH]; intros acc Ha.
  { unfold digits_value. simpl. lia. }
  apply is_ascii_digit_spec in Hc. unfold digits_value in *. cbn [foldl length].
  etrans; [|apply IH; lia]. rewrite Nat2Z.inj_succ, Z.pow_succ_r by lia. nia.
Qed.

(** A number below [10 ^ k] has at most [k] digits. *)
Lemma display_N_length n k : (0 < k) → (Z.of_N n < 10 ^ Z.of_nat k)%Z → length (display_N n) ≤ k.
Proof.
  intros Hk Hn. destruct (Nat.le_gt_cases (length (display_N n)) k) as [|Hlt]; [done|exfalso].
  pose proof (display_N_digits n) as Hd. pose proof (digits_value_display n) as Hv.
  destruct (display_N n) as [|c s] eqn:E; [simpl in Hlt; lia|].
  apply Forall_cons in Hd as [Hc%is_ascii_digit_spec Hs]. simpl in Hlt.
  destruct (decide (c = 48%N)) as [->|Hne].
  - assert (n = 0%N) as ->; [|vm_compute in E; simplify_eq/=; lia].
    assert (Hu : N.to_uint n = Decimal.unorm (N.to_uint n)).
    { by rewrite <-DecimalN.Unsigned.to_of, DecimalN.Unsigned.of_to. }
    unfold display_N in E. unfold Decimal.unorm in Hu.
    destruct (Decimal.nzhead (N.to_uint n)) as [|u| | | | | | | | |] eqn:Hz;
      rewrite Hu in E; try done; [|by apply nzhead_nonzero in Hz].
    rewrite <-(DecimalN.Unsigned.of_to n), Hu. done.
  - pose proof (digits_value_lower (Z.of_N c - 48) s ltac:(lia) Hs) as Hl.
    unfold digits_value in *. cbn [foldl] in Hv. rewrite Z.mul_0_l, Z.add_0_l in Hv. rewrite Hv in Hl.
    assert (10 ^ Z.of_nat k ≤ 10 ^ Z.of_nat (length s))%Z by (apply Z.pow_le_mono_r; lia).
    nia.
Qed.

Lemma as_bytes_display_N_length n : length (as_bytes (display_N n)) = length (display_N n).
Proof.
  rewrite length_as_bytes. apply str_len_ascii. eapply Forall_impl; [apply display_N_digits|].
  intros c. simpl. unfold is_ascii_digit. lia.
Qed.

Lemma fmt_u_length z : (z < 2 ^ 32)%Z → length (fmt_u z) ≤ 10.
Proof.
  intros Hz. unfold fmt_u. rewrite as_bytes_display_N_length. apply display_N_length; [lia|].
  change (10 ^ Z.of_nat 10)%Z with 10000000000%Z. change (2 ^ 32)%Z with 4294967296%Z in Hz. lia.
Qed.

Lemma fmt_lld_length z : (i64_min ≤ z ≤ i64_max)%Z → length (fmt_lld z) ≤ 20.
Proof.
  unfold i64_min, i64_max. intros Hz. unfold fmt_lld, display_Z.
  assert (Hp : (10 ^ Z.of_nat 19 = 10000000000000000000)%Z) by done.
  destruct (z <? 0)%Z.
  - simpl. rewrite as_bytes_display_N_length.
    pose proof (display_N_length (Z.to_N (- z)) 19 ltac:(lia)). lia.
  - rewrite as_bytes_display_N_length.
    pose proof (display_N_length (Z.to_N z) 19 ltac:(lia)). lia.
Qed.

#[export] Hint Resolve nonul_fmt_u nonul_fmt_lld nonul_cstr nonul_take : provfs.
