(* ===== verification/LsmIdent.v ===== *)
(** What the kernel module records about a writer at the moment a file is
    closed ([lsm/provfs_lsm.c]): the chain of its ancestors' names, variables
    of its environment, its working directory, and the session value composed
    of them.  What the kernel answers (task list, memory, paths, allocations)
    is a record; buffers start with arbitrary contents. *)

From S2P Require Import Prelude RustStr CStr.
From Stdlib Require Import Strings.Byte.

Open Scope nat_scope.

(** ** Resources a kernel function takes and gives back *)

(** The places where the module allocates. *)
Inductive site : Type := EnvBlock | CwdBuf | CwdPage | PathBuf.

Inductive resource : Type := RMm | RPath | RTasklist | RSkipLock | RMem (s : site).
Inductive revent : Type := Take (r : resource) | Give (r : resource).

#[export] Instance site_eq_dec : EqDecision site.
Proof. solve_decision. Defined.
#[export] Instance resource_eq_dec : EqDecision resource.
Proof. solve_decision. Defined.

(** A computation with the resource events it makes, in order. *)
Definition logged (A : Type) : Type := list revent * A.

#[export] Instance logged_mret : MRet logged := λ A a, ([], a).
#[export] Instance logged_mbind : MBind logged := λ A B f p, (p.1 ++ (f p.2).1, (f p.2).2).

Definition tell (e : revent) : logged unit := ([e], tt).

(** The resources held after the events, innermost first; [None] when one is
    given back that is not the innermost one held. *)
Fixpoint brackets (held : list resource) (l : list revent) : option (list resource) :=
  match l with
  | [] => Some held
  | Take r :: l' => brackets (r :: held) l'
  | Give r :: l' =>
      match held with
      | r' :: held' => if decide (r = r') then brackets held' l' else None
      | [] => None
      end
  end.

Definition balanced (l : list revent) : Prop := ∀ held, brackets held l = Some held.

(** ** What the kernel knows of a writer *)

Definition TASK_COMM_LEN : nat := 16.
Definition PATH_MAX : nat := 4096.
Definition PROV_CHAIN_MAX : nat := 128.
Definition PROV_CHAIN_LEVELS : nat := 3.
Definition PROV_ENV_KEY_MAX : nat := 24.
Definition PROV_ENV_VAL_MAX : nat := 48.
Definition PROV_ENV_SCAN_MAX : nat := 4096.
Definition PROV_IDENT_MAX : nat := 256.
Definition PROV_TS_MAX : nat := 24.
Definition PROV_FIELD_MAX : nat := 64.

Record task_struct : Type := { t_comm : bytes; t_pid : Z }.

(** [access_remote_vm] from an address, at most so many bytes. *)
Record mm_struct : Type := {
  env_start : Z; env_end : Z; access_remote_vm : Z → nat → bytes;
}.

(** A [struct path]: whether its two pointers are there, and what
    [d_absolute_path] renders ([None] for an error or [NULL]). *)
Record kpath : Type := {
  p_mnt : bool; p_dentry : bool; d_absolute_path : option bytes;
}.

(** [current->nsproxy->agent_ns]; [None] when one of the pointers is [NULL]. *)
Inductive agent_ns : Type := InitAgentNs | ChildAgentNs (session_id : Z).

Record current : Type := {
  lineage : list task_struct;  (** the task, its [real_parent], and so on *)
  cur_tgid : Z;
  cur_uid : Z;
  cur_mm : option mm_struct;
  cur_fs : option kpath;
  cur_ns : option agent_ns;
  kmalloc : site → bool;
}.

(** The contents buffers have before they are written. *)
Record memory : Type := {
  m_chain : bytes; m_cwd : bytes;
  m_session : bytes; m_ts : bytes; m_envsig : bytes;
  m_tool : bytes; m_turn : bytes; m_intent : bytes;
}.

(** ** Definitions *)

(** *** The chain of ancestors *)

Definition provfs_is_root_comm (comm : bytes) : bool :=
  bool_decide (comm = blit "init") || bool_decide (comm = blit "systemd") ||
  bool_decide (comm = blit "kthreadd").

(** Copies the name into a buffer of [TASK_COMM_LEN]. *)
Definition get_task_comm (t : task_struct) : bytes :=
  cstr (strscpy (replicate TASK_COMM_LEN NUL) (t_comm t)).

(** The [for] loop, at [off] in [buf]. *)
Fixpoint chain_loop (levels : nat) (ts : list task_struct) (buf : bytes) (off : nat) : nat * bytes :=
  match levels, ts with
  | S levels', t :: parents =>
      let comm := get_task_comm t in
      if provfs_is_root_comm comm then (off, buf)
      else
        let buflen := length buf in
        let '(n, buf') := snprintf buf off (buflen - off) ((if off =? 0 then [] else blit ">") ++ comm) in
        if buflen - off <=? n then (off, buf')
        else match parents with
             | p :: _ =>
                 if ((t_pid p =? 1) || (t_pid p =? 0))%Z then (off + n, buf')
                 else chain_loop levels' parents buf' (off + n)
             | [] => (off + n, buf')
             end
  | _, _ => (off, buf)
  end.

Definition provfs_build_comm_chain (cur : current) (buf : bytes) : logged (nat * bytes) :=
  if length buf =? 0 then mret (0, buf)
  else
    _ ← tell (Take RTasklist);
    let r := chain_loop PROV_CHAIN_LEVELS (lineage cur) (clear buf) 0 in
    _ ← tell (Give RTasklist);
    mret r.

(** *** The environment *)

Definition provfs_env_keys : list bytes :=
  [blit "CLAUDE_TOOL="; blit "AGORABUS_SID="; blit "CLAUDE_SESSION_ID="].
Definition provfs_key_tool : list bytes := [blit "CLAUDE_TOOL="].
Definition provfs_key_turn : list bytes := [blit "CLAUDE_TURN="].
Definition provfs_key_intent : list bytes := [blit "AGENTNS_INTENT="].

Record provfs_env_target : Type := {
  keys : list bytes; dest : bytes; keep_prefix : bool; filled : bool;
}.

Definition fill (tgt : provfs_env_target) (text : bytes) : provfs_env_target :=
  {| keys := keys tgt; dest := (scnprintf (dest tgt) (length (dest tgt)) text).2;
     keep_prefix := keep_prefix tgt; filled := true |}.

(** What a matching entry renders. *)
Definition render_env (keep : bool) (k val : bytes) : bytes :=
  if keep then
    let kn := if PROV_ENV_KEY_MAX <=? length k - 1 then PROV_ENV_KEY_MAX - 1 else length k - 1 in
    take kn k ++ blit "=" ++ take PROV_ENV_VAL_MAX val
  else val.

(** The loop over the candidate keys of one target. *)
Fixpoint scan_keys (entry : bytes) (ks : list bytes) (tgt : provfs_env_target) : provfs_env_target :=
  match ks with
  | [] => tgt
  | k :: ks' =>
      if (length entry <=? length k) || negb (starts_with k entry) then scan_keys entry ks' tgt
      else fill tgt (render_env (keep_prefix tgt) k (drop (length k) entry))
  end.

Definition scan_target (entry : bytes) (tgt : provfs_env_target) : provfs_env_target :=
  if filled tgt then tgt else scan_keys entry (keys tgt) tgt.

(** The [while] loop over the entries: [env] is what is left of the block. *)
Fixpoint scan_entries (fuel : nat) (env : bytes) (targets : list provfs_env_target)
    : list provfs_env_target :=
  match fuel, env with
  | S fuel', _ :: _ =>
      let entry := cstr env in
      scan_entries fuel' (drop (length entry + 1) env) (scan_target entry <$> targets)
  | _, _ => targets
  end.

Definition provfs_scan_env (cur : current) (targets : list provfs_env_target)
    : logged (list provfs_env_target) :=
  match cur_mm cur with
  | None => mret targets
  | Some mm =>
      _ ← tell (Take RMm);
      let start := env_start mm in
      let end_ := env_end mm in
      if ((start =? 0) || (end_ =? 0) || (end_ <=? start))%Z then
        _ ← tell (Give RMm); mret targets
      else
        let len := Nat.min (Z.to_nat (end_ - start)) PROV_ENV_SCAN_MAX in
        if negb (kmalloc cur EnvBlock) then _ ← tell (Give RMm); mret targets
        else
          _ ← tell (Take (RMem EnvBlock));
          let env := access_remote_vm mm start len in
          let targets' := if length env =? 0 then targets else scan_entries (length env) env targets in
          _ ← tell (Give (RMem EnvBlock));
          _ ← tell (Give RMm);
          mret targets'
  end.

Definition dest_at (targets : list provfs_env_target) (i : nat) : bytes :=
  default [] (dest <$> targets !! i).

(** The four buffers, filled by one scan. *)
Definition provfs_scan_writer_env (cur : current) (envsig tool turn intent : bytes)
    : logged (bytes * bytes * bytes * bytes) :=
  targets ← provfs_scan_env cur
    [ {| keys := provfs_env_keys; dest := clear envsig; keep_prefix := true; filled := false |};
      {| keys := provfs_key_tool; dest := clear tool; keep_prefix := false; filled := false |};
      {| keys := provfs_key_turn; dest := clear turn; keep_prefix := false; filled := false |};
      {| keys := provfs_key_intent; dest := clear intent; keep_prefix := false; filled := false |} ];
  mret (dest_at targets 0, dest_at targets 1, dest_at targets 2, dest_at targets 3).

(** *** The working directory *)

Definition provfs_build_cwd (cur : current) (buf : bytes) : logged (nat * bytes) :=
  if length buf =? 0 then mret (0, buf)
  else
    let buf := clear buf in
    match cur_fs cur with
    | None => mret (0, buf)
    | Some pwd =>
        _ ← tell (Take RPath);
        if negb (p_dentry pwd) || negb (p_mnt pwd) then _ ← tell (Give RPath); mret (0, buf)
        else if negb (kmalloc cur CwdPage) then _ ← tell (Give RPath); mret (0, buf)
        else
          _ ← tell (Take (RMem CwdPage));
          let out := match d_absolute_path pwd with
                     | Some p => scnprintf buf (length buf) (cstr p)
                     | None => (0, buf)
                     end in
          _ ← tell (Give (RMem CwdPage));
          _ ← tell (Give RPath);
          mret out
    end.

(** *** The session value *)

(** One field: [snprintf(buf + off, buflen - off, "%s" label "%s", off ? ";" :
    "", value)], and [off] advanced when it fitted. *)
Definition append_field (st : nat * bytes) (label value : bytes) : nat * bytes :=
  let '(off, buf) := st in
  let buflen := length buf in
  let '(n, buf') := snprintf buf off (buflen - off) ((if off =? 0 then [] else blit ";") ++ label ++ value) in
  ((if (0 <? n) && (n <? buflen - off) then off + n else off), buf').

(** The block that renders the working directory in a buffer of its own. *)
Definition append_cwd (cur : current) (mem : memory) (st : nat * bytes) : logged (nat * bytes) :=
  if kmalloc cur CwdBuf then
    _ ← tell (Take (RMem CwdBuf));
    '(n, cwd) ← provfs_build_cwd cur (m_cwd mem);
    let st := if 0 <? n then append_field st (blit "cwd:") (cstr cwd) else st in
    _ ← tell (Give (RMem CwdBuf));
    mret st
  else mret st.

Definition provfs_build_fallback (cur : current) (mem : memory) (buf envsig : bytes) : logged bytes :=
  let uid := cur_uid cur in
  let pid := (cur_tgid cur `mod` 2 ^ 32)%Z in
  let buflen := length buf in
  let st := (0, clear buf) in
  '(n, chain) ← provfs_build_comm_chain cur (m_chain mem);
  let st := if 0 <? n then append_field st (blit "comm-chain:") (cstr chain) else st in
  let st := if decide (cstr envsig = []) then st else append_field st (blit "env:") (cstr envsig) in
  st ← append_cwd cur mem st;
  let st := append_field st (blit "pid:") (fmt_u pid) in
  let '(_, buf) := append_field st (blit "uid:") (fmt_u uid) in
  mret (if decide (cstr buf = []) then
          (snprintf buf 0 buflen (blit "pid:" ++ fmt_u pid ++ blit ";uid:" ++ fmt_u uid)).2
        else buf).

(** [CONFIG_AGENT_NS], and the formatting of a session id, which belongs to
    the namespace code: its return value and the buffer it leaves. *)
Section AgentNs.
Context (config_agent_ns : bool).
Context (agent_session_id_format : Z → bytes → Z * bytes).

Definition provfs_build_session (cur : current) (mem : memory) (buf envsig : bytes) : logged bytes :=
  match config_agent_ns, cur_ns cur with
  | true, Some (ChildAgentNs id) =>
      let '(n, buf') := agent_session_id_format id buf in
      if (0 <? n)%Z then mret buf' else provfs_build_fallback cur mem buf' envsig
  | _, _ => provfs_build_fallback cur mem buf envsig
  end.
End AgentNs.

(** ** Specification *)

(** The names the chain takes: up to three levels, up to the first root name,
    and up to the child of process 1 or 0. *)
Fixpoint chain_names (levels : nat) (ts : list task_struct) : list bytes :=
  match levels, ts with
  | S levels', t :: parents =>
      if provfs_is_root_comm (get_task_comm t) then []
      else get_task_comm t ::
        match parents with
        | p :: _ => if ((t_pid p =? 1) || (t_pid p =? 0))%Z then [] else chain_names levels' parents
        | [] => []
        end
  | _, _ => []
  end.

(** [>]-separated, with no separator before the first non-empty name. *)
Definition chain_add (acc comm : bytes) : bytes := acc ++ (if decide (acc = []) then [] else blit ">") ++ comm.
Definition chain_text (cur : current) : bytes := foldl chain_add [] (chain_names PROV_CHAIN_LEVELS (lineage cur)).

(** The first entry of an environment that defines one of the keys with a
    non-empty value: the key and the value. *)
Definition match_entry (ks : list bytes) (entry : bytes) : option (bytes * bytes) :=
  k ← list_find (λ k, length k < length entry ∧ k `prefix_of` entry) ks;
  mret (k.2, drop (length k.2) entry).

Fixpoint first_match (ks : list bytes) (entries : list bytes) : option (bytes * bytes) :=
  match entries with
  | [] => None
  | e :: entries' =>
      match match_entry ks e with Some r => Some r | None => first_match ks entries' end
  end.

(** The environment a scan sees: nothing when the memory is gone, the block is
    empty or there is no memory to read it into; at most the first 4096
    bytes. *)
Definition visible_env (cur : current) : list bytes :=
  match cur_mm cur with
  | Some mm =>
      if ((env_start mm =? 0) || (env_end mm =? 0) || (env_end mm <=? env_start mm))%Z
         || negb (kmalloc cur EnvBlock) then []
      else split_on NUL (access_remote_vm mm (env_start mm)
             (Nat.min (Z.to_nat (env_end mm - env_start mm)) PROV_ENV_SCAN_MAX))
  | None => []
  end.

(** What a lookup renders into a buffer of a size. *)
Definition env_value (cur : current) (ks : list bytes) (keep : bool) (size : nat) : bytes :=
  match first_match ks (visible_env cur) with
  | Some (k, val) => take (size - 1) (render_env keep k val)
  | None => []
  end.

(** A buffer holding a string, with its end known. *)
Definition holds (buf : bytes) (s : bytes) : Prop :=
  at_offset (length buf) buf (length s) s ∧ cstr buf = s.

#[global] Arguments append_field : simpl never.
#[global] Arguments clear : simpl never.

(** ** Lemmas *)

(** *** Balanced events *)

Lemma brackets_app held l1 l2 :
  brackets held (l1 ++ l2) = held' ← brackets held l1; brackets held' l2.
Proof.
  revert held. induction l1 as [|[r|r] l1 IH]; intros held; simpl; [done|done|].
  destruct held as [|r' held]; [done|]. by case_decide.
Qed.

Lemma balanced_nil : balanced [].
Proof. by intros held. Qed.

Lemma balanced_seq l1 l2 : balanced l1 → balanced l2 → balanced (l1 ++ l2).
Proof. intros H1 H2 held. rewrite brackets_app, H1. simpl. by rewrite H2. Qed.

Lemma balanced_wrap r l : balanced l → balanced (Take r :: l ++ [Give r]).
Proof.
  intros H held. simpl. rewrite brackets_app, H. simpl. by rewrite decide_True.
Qed.

Lemma balanced_pair r l : balanced l → balanced (Take r :: Give r :: l).
Proof. intros H held. simpl. by rewrite decide_True. Qed.

#[export] Hint Resolve balanced_nil balanced_seq balanced_wrap balanced_pair : provfs.

Lemma comm_chain_balanced cur buf : balanced (provfs_build_comm_chain cur buf).1.
Proof. unfold provfs_build_comm_chain. case_match; apply (balanced_pair _ []) || idtac; auto with provfs. Qed.

Lemma scan_env_balanced cur targets : balanced (provfs_scan_env cur targets).1.
Proof.
  unfold provfs_scan_env. destruct (cur_mm cur) as [mm|]; [|apply balanced_nil].
  simpl. repeat case_match; simpl; [by apply (balanced_pair RMm [])..|].
  apply (balanced_wrap RMm [Take (RMem EnvBlock); Give (RMem EnvBlock)]).
  by apply balanced_pair.
Qed.

Lemma cwd_balanced cur buf : balanced (provfs_build_cwd cur buf).1.
Proof.
  unfold provfs_build_cwd. case_match; [apply balanced_nil|].
  destruct (cur_fs cur) as [pwd|]; [|apply balanced_nil].
  simpl. repeat case_match; simpl; try by apply (balanced_pair RPath []).
  all: apply (balanced_wrap RPath [Take (RMem CwdPage); Give (RMem CwdPage)]);
    by apply balanced_pair.
Qed.

Lemma append_cwd_balanced cur mem st : balanced (append_cwd cur mem st).1.
Proof.
  unfold append_cwd, mbind, logged_mbind. case_match; [|apply balanced_nil]. simpl.
  pose proof (cwd_balanced cur (m_cwd mem)) as Hw.
  destruct (provfs_build_cwd cur (m_cwd mem)) as [l [n cwd]]. simpl in *.
  by apply balanced_wrap.
Qed.

Lemma fallback_balanced cur mem buf envsig : balanced (provfs_build_fallback cur mem buf envsig).1.
Proof.
  unfold provfs_build_fallback, mbind, logged_mbind. simpl.
  pose proof (comm_chain_balanced cur (m_chain mem)) as Hc.
  destruct (provfs_build_comm_chain cur (m_chain mem)) as [l1 [n chain]]. simpl in *.
  apply balanced_seq; [done|]. apply balanced_seq; [apply append_cwd_balanced|].
  by case_match.
Qed.

(** *** The chain *)

Lemma get_task_comm_nonul t : nonul (get_task_comm t).
Proof. apply nonul_cstr. Qed.

Lemma get_task_comm_length t : length (get_task_comm t) ≤ 15.
Proof.
  unfold get_task_comm. rewrite cstr_strscpy by done. rewrite length_take. rewrite length_replicate. unfold TASK_COMM_LEN. lia.
Qed.

Lemma holds_clear buf : buf ≠ [] → holds (clear buf) [].
Proof. intros H. split; [|done]. rewrite length_clear by done. by apply clear_written. Qed.

(** Appending a text that fits. *)
Lemma holds_snprintf buf s text :
  holds buf s → nonul text → length s + length text < length buf →
  holds (snprintf buf (length s) (length buf - length s) text).2 (s ++ text).
Proof.
  intros [Hw _] Hn Hfit.
  destruct (snprintf_fits _ _ _ _ text Hw Hn) as [Hw' Hc]; [lia|].
  split; [|done]. by rewrite (at_offset_len _ _ _ _ Hw'), length_app.
Qed.

Lemma length_holds_snprintf buf s text :
  holds buf s → length (snprintf buf (length s) (length buf - length s) text).2 = length buf.
Proof. intros [[_ _ _ Hr] _]. apply length_snprintf. lia. Qed.

Lemma chain_sep_length (s : bytes) : length (if (length s =? 0) then [] else blit ">") ≤ 1.
Proof. destruct (length s =? 0); vm_compute; lia. Qed.

Lemma chain_loop_spec levels ts buf s :
  holds buf s → length s + 16 * levels < length buf →
  ∃ buf', let text := foldl chain_add s (chain_names levels ts) in
    chain_loop levels ts buf (length s) = (length text, buf') ∧ holds buf' text ∧
    length buf' = length buf ∧ length text ≤ length s + 16 * levels.
Proof.
  revert ts buf s. induction levels as [|levels IH]; intros ts buf s Hh Hl; simpl.
  { exists buf. split_and!; [done..|lia]. }
  destruct ts as [|t parents]; simpl; [exists buf; split_and!; [done..|lia]|].
  case_match eqn:Hroot; simpl; [exists buf; split_and!; [done..|lia]|].
  set (text := _ ++ get_task_comm t).
  pose proof (chain_sep_length s). pose proof (get_task_comm_length t).
  assert (Hadd : s ++ text = chain_add s (get_task_comm t)).
  { unfold text, chain_add. destruct s; [done|]. by rewrite decide_False. }
  assert (Hn : nonul text).
  { apply nonul_app. split; [|apply get_task_comm_nonul]. case_match; apply (bool_decide_eq_true_1 _); done. }
  assert (Ht : length text ≤ 16) by (unfold text; rewrite length_app; lia).
  assert (Hs' : length s + length text = length (chain_add s (get_task_comm t)))
    by (rewrite <-Hadd, length_app; done).
  pose proof (holds_snprintf buf s text Hh Hn ltac:(lia)) as Hh'.
  pose proof (length_holds_snprintf buf s text Hh) as Hlen.
  rewrite Hadd in Hh'. unfold snprintf in *. cbv zeta. cbn [snd] in Hh', Hlen.
  replace (length buf - length s <=? length text) with false by lia.
  match type of Hh' with holds ?b _ => set (buf2 := b) in * end. rewrite Hs'.
  assert (Hstop : ∃ buf', (length (chain_add s (get_task_comm t)), buf2)
      = (length (chain_add s (get_task_comm t)), buf') ∧ holds buf' (chain_add s (get_task_comm t)) ∧
      length buf' = length buf ∧ length (chain_add s (get_task_comm t)) ≤ length s + 16 * S levels)
    by (exists buf2; split_and!; [done..|lia]).
  destruct parents as [|p parents']; [done|].
  destruct ((t_pid p =? 1)%Z || (t_pid p =? 0)%Z); [done|].
  destruct (IH (p :: parents') buf2 _ Hh') as (buf' & -> & Hb & Hbl & Hlt); [lia|].
  exists buf'. split_and!; [done|done|lia|lia].
Qed.

Lemma comm_chain_spec cur buf :
  length buf = PROV_CHAIN_MAX →
  ∃ buf', (provfs_build_comm_chain cur buf).2 = (length (chain_text cur), buf') ∧
    cstr buf' = chain_text cur ∧ length (chain_text cur) ≤ 48.
Proof.
  intros Hl. unfold provfs_build_comm_chain. rewrite Hl. cbv [Nat.eqb PROV_CHAIN_MAX].
  assert (buf ≠ []) as Hne by (by intros ->).
  destruct (chain_loop_spec PROV_CHAIN_LEVELS (lineage cur) (clear buf) []) as (buf' & Hc & [_ Hs] & _ & Hlt).
  - by apply holds_clear.
  - rewrite length_clear, Hl by done. unfold PROV_CHAIN_MAX, PROV_CHAIN_LEVELS. simpl. lia.
  - exists buf'. split_and!; [exact Hc|exact Hs|exact Hlt].
Qed.

(** *** The environment *)

Lemma scan_keys_match entry ks tgt :
  scan_keys entry ks tgt =
  match match_entry ks entry with
  | Some (k, val) => fill tgt (render_env (keep_prefix tgt) k val)
  | None => tgt
  end.
Proof.
  induction ks as [|k ks IH]; [done|]. unfold match_entry in *. simpl.
  pose proof (starts_with_prefix k entry) as Hp.
  destruct (decide (length k < length entry ∧ k `prefix_of` entry)) as [[Hl Hk]|Hn].
  - replace (length entry <=? length k) with false by lia. apply Hp in Hk. by rewrite Hk.
  - rewrite IH.
    assert ((length entry <=? length k) || negb (starts_with k entry) = true) as ->.
    { destruct (starts_with k entry); [|by rewrite orb_true_r].
      destruct (Nat.leb_spec (length entry) (length k)); [done|]. exfalso. apply Hn. split; [lia|by apply Hp]. }
    by destruct (list_find _ ks) as [[i k']|].
Qed.

Lemma scan_target_empty tgt : scan_target [] tgt = tgt.
Proof. unfold scan_target. case_match; [done|]. by induction (keys tgt). Qed.

Lemma scan_targets_empty (targets : list provfs_env_target) : scan_target [] <$> targets = targets.
Proof. induction targets; csimpl; [done|]. rewrite scan_target_empty. by f_equal. Qed.

(** The loop visits the NUL-separated entries in order. *)
Lemma scan_entries_split fuel env (targets : list provfs_env_target) :
  length env ≤ fuel →
  scan_entries fuel env targets =
  foldl (λ (ts : list provfs_env_target) e, scan_target e <$> ts) targets (split_on NUL env).
Proof.
  revert env targets. induction fuel as [|fuel IH]; intros env targets Hf.
  { destruct env; [|simpl in Hf; lia]. simpl. by rewrite scan_targets_empty. }
  destruct env as [|b env']; [simpl; by rewrite scan_targets_empty|].
  cbn [scan_entries]. set (env := b :: env') in *. clearbody env. clear b env'.
  destruct (cstr_split env) as [He|[rest He]].
  - rewrite drop_ge by (rewrite <-He; lia). rewrite IH by (simpl; lia).
    rewrite (split_on_no_sep NUL env) by (rewrite He; apply nonul_cstr).
    simpl. by rewrite <-He, scan_targets_empty.
  - pose proof (nonul_cstr env) as Hn. rewrite He at 2.
    set (e := cstr env) in *. clearbody e. subst env.
    replace (e ++ NUL :: rest) with ((e ++ [NUL]) ++ rest) at 1 by (by rewrite <-app_assoc).
    rewrite drop_app_length' by (rewrite length_app; done).
    rewrite IH; [|rewrite length_app in Hf; simpl in Hf; lia].
    by rewrite split_on_app.
Qed.

Lemma foldl_map_targets entries (targets : list provfs_env_target) :
  foldl (λ (ts : list provfs_env_target) e, scan_target e <$> ts) targets entries =
  (λ tgt, foldl (λ tgt e, scan_target e tgt) tgt entries) <$> targets.
Proof.
  revert targets. induction entries as [|e entries IH]; intros targets; simpl.
  - by rewrite list_fmap_id.
  - rewrite IH, <-list_fmap_compose. done.
Qed.

Lemma filled_fixed entries tgt :
  filled tgt = true → foldl (λ tgt e, scan_target e tgt) tgt entries = tgt.
Proof. intros H. induction entries; simpl; [done|]. unfold scan_target at 2. by rewrite H. Qed.

(** A target ends up with the first entry that matches it, whatever the other
    targets of the scan are. *)
Lemma scan_target_first entries tgt :
  filled tgt = false →
  foldl (λ tgt e, scan_target e tgt) tgt entries =
  match first_match (keys tgt) entries with
  | Some (k, val) => fill tgt (render_env (keep_prefix tgt) k val)
  | None => tgt
  end.
Proof.
  intros H. induction entries as [|e entries IH]; simpl; [done|].
  unfold scan_target at 2. rewrite H, scan_keys_match.
  destruct (match_entry (keys tgt) e) as [[k val]|]; [by apply filled_fixed|done].
Qed.

Lemma visible_env_scan cur (targets : list provfs_env_target) :
  (provfs_scan_env cur targets).2 =
  foldl (λ (ts : list provfs_env_target) e, scan_target e <$> ts) targets (visible_env cur).
Proof.
  unfold provfs_scan_env, visible_env. destruct (cur_mm cur) as [mm|]; [|done]. simpl.
  case_match; simpl; [done|]. destruct (kmalloc cur EnvBlock); simpl; [|done].
  set (env := access_remote_vm _ _ _). case_match eqn:Hz.
  - apply Nat.eqb_eq in Hz. destruct env; [|done]. simpl. by rewrite scan_targets_empty.
  - by apply scan_entries_split.
Qed.

Lemma first_match_nonul ks entries k val :
  first_match ks entries = Some (k, val) → Forall nonul entries → nonul val ∧ k ∈ ks.
Proof.
  intros Hm Hall. induction Hall as [|e entries He _ IH]; simpl in Hm; [done|].
  unfold match_entry in *.
  destruct (list_find _ ks) as [[i k']|] eqn:E; simpl in Hm; [|by apply IH].
  injection Hm as -> <-. apply list_find_Some in E as (Hi & _ & _).
  split; [|by eapply list_elem_of_lookup_2].
  intros Hin. apply He. rewrite <-(take_drop (length k) e). apply elem_of_app. by right.
Qed.

Lemma visible_env_nonul cur : Forall nonul (visible_env cur).
Proof.
  unfold visible_env. destruct (cur_mm cur) as [mm|]; [|constructor].
  case_match; [constructor|]. apply split_on_no_sep_pieces.
Qed.

Definition all_keys : list bytes := provfs_env_keys ++ provfs_key_turn ++ provfs_key_intent.

Lemma render_env_nonul keep k val : k ∈ all_keys → nonul val → nonul (render_env keep k val).
Proof.
  intros Hk Hv. assert (nonul k) as Hnk.
  { assert (Forall nonul all_keys) as Hall by (by apply (bool_decide_eq_true_1 _); vm_compute).
    by apply (proj1 (Forall_forall _ _) Hall). }
  unfold render_env. destruct keep; [|done].
  rewrite !nonul_app. split_and!; [by apply nonul_take|by apply (bool_decide_eq_true_1 _)|by apply nonul_take].
Qed.

Lemma env_value_nonul cur ks keep size : ks ⊆ all_keys → nonul (env_value cur ks keep size).
Proof.
  intros Hks. unfold env_value. destruct (first_match ks _) as [[k val]|] eqn:E; [|apply not_elem_of_nil].
  apply first_match_nonul in E as [Hv Hk]; [|apply visible_env_nonul].
  apply nonul_take, render_env_nonul; [by apply Hks|done].
Qed.

Lemma fill_value ks buf keep text :
  buf ≠ [] → nonul text →
  cstr (dest (fill {| keys := ks; dest := clear buf; keep_prefix := keep; filled := false |} text)) =
  take (length buf - 1) text.
Proof.
  intros Hb Hn. unfold fill, scnprintf. cbn [dest snd]. rewrite cstr_snprintf_start; [|unfold clear, store; done|done].
  by rewrite length_clear.
Qed.

(** One target of the writer's scan. *)
Lemma target_value cur ks buf keep :
  buf ≠ [] → ks ⊆ all_keys →
  cstr (dest (foldl (λ tgt e, scan_target e tgt)
    {| keys := ks; dest := clear buf; keep_prefix := keep; filled := false |} (visible_env cur))) =
  env_value cur ks keep (length buf).
Proof.
  intros Hb Hks. rewrite scan_target_first by done. simpl keys. unfold env_value.
  destruct (first_match ks (visible_env cur)) as [[k val]|] eqn:E; [|done].
  apply first_match_nonul in E as [Hv Hk]; [|apply visible_env_nonul].
  apply fill_value; [done|]. apply render_env_nonul; [by apply Hks|done].
Qed.

Lemma length_fill tgt text : length (dest (fill tgt text)) = length (dest tgt).
Proof. by apply length_snprintf. Qed.

Lemma target_length cur ks buf keep :
  buf ≠ [] →
  length (dest (foldl (λ tgt e, scan_target e tgt)
    {| keys := ks; dest := clear buf; keep_prefix := keep; filled := false |} (visible_env cur))) = length buf.
Proof.
  intros Hb. rewrite scan_target_first by done. case_match; [case_match; rewrite length_fill|];
    by apply length_clear.
Qed.

Definition outcome_values (r : bytes * bytes * bytes * bytes) : list bytes :=
  [cstr r.1.1.1; cstr r.1.1.2; cstr r.1.2; cstr r.2].

Lemma writer_env_values cur envsig tool turn intent :
  envsig ≠ [] → tool ≠ [] → turn ≠ [] → intent ≠ [] →
  outcome_values (provfs_scan_writer_env cur envsig tool turn intent).2 =
    [env_value cur provfs_env_keys true (length envsig);
     env_value cur provfs_key_tool false (length tool);
     env_value cur provfs_key_turn false (length turn);
     env_value cur provfs_key_intent false (length intent)].
Proof.
  intros He Ht Hu Hi. unfold provfs_scan_writer_env, mbind, logged_mbind. cbn [snd mret logged_mret].
  rewrite visible_env_scan, foldl_map_targets. unfold outcome_values, dest_at. cbn [fmap list_fmap lookup list_lookup fst snd option_fmap option_map default id].
  by rewrite !target_value by (done || set_solver).
Qed.

Definition outcome_lengths (r : bytes * bytes * bytes * bytes) : list nat :=
  [length r.1.1.1; length r.1.1.2; length r.1.2; length r.2].

Lemma writer_env_lengths cur envsig tool turn intent :
  envsig ≠ [] → tool ≠ [] → turn ≠ [] → intent ≠ [] →
  outcome_lengths (provfs_scan_writer_env cur envsig tool turn intent).2 =
    [length envsig; length tool; length turn; length intent].
Proof.
  intros He Ht Hu Hi. unfold provfs_scan_writer_env, mbind, logged_mbind. cbn [snd mret logged_mret].
  rewrite visible_env_scan, foldl_map_targets. unfold outcome_lengths, dest_at. cbn [fmap list_fmap lookup list_lookup fst snd option_fmap option_map default id].
  by rewrite !target_length.
Qed.

Lemma writer_env_balanced cur envsig tool turn intent :
  balanced (provfs_scan_writer_env cur envsig tool turn intent).1.
Proof.
  unfold provfs_scan_writer_env, mbind, logged_mbind. simpl. rewrite app_nil_r. apply scan_env_balanced.
Qed.

(** A definition of one of the keys, with a non-empty value. *)
Definition defines (ks : list bytes) (entry : bytes) : Prop :=
  ∃ k val, k ∈ ks ∧ val ≠ [] ∧ entry = k ++ val.

Lemma match_entry_Some ks entry k val :
  match_entry ks entry = Some (k, val) → k ∈ ks ∧ val ≠ [] ∧ entry = k ++ val.
Proof.
  unfold match_entry. destruct (list_find _ ks) as [[i k']|] eqn:E; [|done].
  intros [= -> <-]. apply list_find_Some in E as (Hi & [Hl [v ->]] & _).
  rewrite drop_app_length. split_and!; [by eapply list_elem_of_lookup_2| |done].
  intros ->. rewrite app_nil_r in Hl. lia.
Qed.

Lemma match_entry_None ks entry : match_entry ks entry = None → ¬ defines ks entry.
Proof.
  unfold match_entry. destruct (list_find _ ks) as [[i k']|] eqn:E; [done|].
  intros _ (k & val & Hk & Hv & ->). apply list_find_None in E.
  apply (proj1 (Forall_forall _ _) E k Hk). split; [|by exists val].
  rewrite length_app. destruct val; simpl; [done|lia].
Qed.

Lemma first_match_spec ks entries :
  match first_match ks entries with
  | Some (k, val) => ∃ before after, entries = before ++ (k ++ val) :: after ∧
      k ∈ ks ∧ val ≠ [] ∧ Forall (λ e, ¬ defines ks e) before
  | None => Forall (λ e, ¬ defines ks e) entries
  end.
Proof.
  induction entries as [|e entries IH]; simpl; [constructor|].
  destruct (match_entry ks e) as [[k val]|] eqn:E.
  - apply match_entry_Some in E as (Hk & Hv & ->). exists [], entries. by split_and!.
  - apply match_entry_None in E. destruct (first_match ks entries) as [[k val]|].
    + destruct IH as (a & b & -> & ? & ? & ?). exists (e :: a), b. split_and!; try done. by constructor.
    + by constructor.
Qed.

(** ** Theorems *)

(** C24: one pass over the writer's environment leaves in each of the four
    buffers exactly what a lookup of its own would: the first entry, in block
    order, that defines one of its keys with a non-empty value (as
    [KEY=value] with the value cut to 48 bytes, or bare), cut to the buffer;
    nothing when there is none or the environment cannot be read.  Every
    resource of the pass is given back. *)
Theorem scan_writer_env_first_match (cur : current) (envsig tool turn intent : bytes)
    (He : envsig ≠ []) (Ht : tool ≠ []) (Hu : turn ≠ []) (Hi : intent ≠ []) :
  let r := provfs_scan_writer_env cur envsig tool turn intent in
  outcome_values r.2 =
    [env_value cur provfs_env_keys true (length envsig);
     env_value cur provfs_key_tool false (length tool);
     env_value cur provfs_key_turn false (length turn);
     env_value cur provfs_key_intent false (length intent)] ∧
  balanced r.1 ∧
  ∀ ks, match first_match ks (visible_env cur) with
        | Some (k, val) => ∃ before after, visible_env cur = before ++ (k ++ val) :: after ∧
            k ∈ ks ∧ val ≠ [] ∧ Forall (λ e, ¬ defines ks e) before
        | None => Forall (λ e, ¬ defines ks e) (visible_env cur)
        end.
Proof.
  split_and!; [by apply writer_env_values|apply writer_env_balanced|intros ks; apply first_match_spec].
Qed.

(** A shell of user 1000 whose environment names a tool and a turn. *)
Definition sample_env : bytes :=
  blit "PATH=/bin" ++ NUL :: blit "AGORABUS_SID=" ++ NUL :: blit "CLAUDE_TURN=42" ++ NUL ::
  blit "CLAUDE_TOOL=Edit" ++ NUL :: blit "AGORABUS_SID=s1" ++ [NUL].

Definition sample_mm (env : bytes) : mm_struct :=
  {| env_start := 4096; env_end := 4096 + Z.of_nat (length env);
     access_remote_vm := λ a n, take n (drop (Z.to_nat (a - 4096)) env) |}.

Definition sample_writer (env cwd : bytes) : current :=
  {| lineage := [ {| t_comm := blit "sed"; t_pid := 812 |};
                  {| t_comm := blit "bash"; t_pid := 800 |};
                  {| t_comm := blit "systemd"; t_pid := 1 |} ];
     cur_tgid := 812; cur_uid := 1000;
     cur_mm := Some (sample_mm env);
     cur_fs := Some {| p_mnt := true; p_dentry := true; d_absolute_path := Some cwd |};
     cur_ns := None; kmalloc := λ _, true |}.

(** Stack contents before the writes. *)
Definition junk (n : nat) : bytes := replicate n Byte.xff.
Definition sample_memory : memory :=
  {| m_chain := junk PROV_CHAIN_MAX; m_cwd := junk PATH_MAX; m_session := junk PROV_IDENT_MAX;
     m_ts := junk PROV_TS_MAX; m_envsig := junk (PROV_ENV_KEY_MAX + PROV_ENV_VAL_MAX + 2);
     m_tool := junk PROV_FIELD_MAX; m_turn := junk PROV_FIELD_MAX; m_intent := junk PROV_FIELD_MAX |}.

Lemma scan_writer_env_first_match_witness :
  outcome_values (provfs_scan_writer_env (sample_writer sample_env (blit "/home"))
    (junk 74) (junk 64) (junk 64) (junk 64)).2 =
  [blit "CLAUDE_TOOL=Edit"; blit "Edit"; blit "42"; []].
Proof.
  destruct (scan_writer_env_first_match (sample_writer sample_env (blit "/home"))
    (junk 74) (junk 64) (junk 64) (junk 64)) as [H _]; [done..|].
  rewrite H. apply (bool_decide_eq_true_1 _). by vm_compute.
Defined.
