(* ===== verification/LsmSession.v ===== *)
(** The session value the kernel module writes when the writer has no agent
    namespace ([provfs_build_fallback], [lsm/provfs_lsm.c]): what the buffer
    holds, byte for byte, for every length of its fields, and what the Rust
    reader makes of it. *)

From S2P Require Import Prelude RustStr CStr Session LsmIdent.
From Stdlib Require Import Strings.Byte.

Open Scope nat_scope.

(** ** Specification *)

Definition semi : byte := Byte.x3b.

Definition pid_text (cur : current) : bytes := fmt_u (cur_tgid cur `mod` 2 ^ 32).
Definition uid_text (cur : current) : bytes := fmt_u (cur_uid cur).

(** The working directory as rendered, empty when any step of it fails. *)
Definition cwd_text (cur : current) : bytes :=
  match cur_fs cur with
  | Some pwd =>
      if p_dentry pwd && p_mnt pwd && kmalloc cur CwdBuf && kmalloc cur CwdPage then
        take (PATH_MAX - 1) (cstr (default [] (d_absolute_path pwd)))
      else []
  | None => []
  end.

Definition seg (label text : bytes) : list bytes := if decide (text = []) then [] else [label ++ text].

(** The fields that come before the working directory. *)
Definition head_segs (cur : current) (envsig : bytes) : list bytes :=
  seg (blit "comm-chain:") (chain_text cur) ++ seg (blit "env:") (cstr envsig).

(** A field is kept when the value with it still leaves room for the NUL. *)
Definition keep (kept : list bytes) (s : list bytes) : list bytes :=
  if length (join_with semi (kept ++ s)) <? PROV_IDENT_MAX then s else [].

Definition cwd_kept (cur : current) (envsig : bytes) : list bytes :=
  keep (head_segs cur envsig) (seg (blit "cwd:") (cwd_text cur)).
Definition pid_kept (cur : current) (envsig : bytes) : list bytes :=
  keep (head_segs cur envsig ++ cwd_kept cur envsig) [blit "pid:" ++ pid_text cur].

(** Everything before the user id. *)
Definition front (cur : current) (envsig : bytes) : list bytes :=
  head_segs cur envsig ++ cwd_kept cur envsig ++ pid_kept cur envsig.

Definition fallback_segs (cur : current) (envsig : bytes) : list bytes :=
  front cur envsig ++ [blit "uid:" ++ uid_text cur].

Definition fallback_text (cur : current) (envsig : bytes) : bytes :=
  take (PROV_IDENT_MAX - 1) (join_with semi (fallback_segs cur envsig)).

(** Buffers have their declared sizes, and the numbers their C types. *)
Record memory_ok (mem : memory) : Prop := {
  chain_ok : length (m_chain mem) = PROV_CHAIN_MAX;
  cwd_ok : length (m_cwd mem) = PATH_MAX;
}.

Definition envsig_ok (envsig : bytes) : Prop :=
  length (cstr envsig) < PROV_ENV_KEY_MAX + PROV_ENV_VAL_MAX + 2.

Definition uid_ok (cur : current) : Prop := (0 ≤ cur_uid cur < 2 ^ 32)%Z.

(** ** Lemmas *)

(** *** The writer of fields *)

(** [buf] is a buffer of 256 bytes in which [kept] are the fields so far and
    the string is [shown]. *)
Record fields_in (st : nat * bytes) (kept : list bytes) (shown : bytes) : Prop := {
  fi_written : at_offset PROV_IDENT_MAX st.2 st.1 (join_with semi kept);
  fi_cstr : cstr st.2 = shown;
  fi_nonempty : Forall (λ s, s ≠ []) kept;
}.

Lemma fields_off st kept shown : fields_in st kept shown → st.1 = length (join_with semi kept).
Proof. intros [[Hl <- _ Hr] _ _]. rewrite length_take. lia. Qed.

Lemma join_nonempty kept : Forall (λ s, s ≠ []) kept → kept ≠ [] → join_with semi kept ≠ [].
Proof.
  intros Hk Hne. destruct kept as [|s kept]; [done|]. apply Forall_cons in Hk as [Hs _].
  destruct s; [done|]. by destruct kept.
Qed.

(** The separator the code writes makes the join. *)
Lemma join_snoc st kept shown s :
  fields_in st kept shown →
  join_with semi kept ++ (if st.1 =? 0 then [] else blit ";") ++ s = join_with semi (kept ++ [s]).
Proof.
  intros Hf. rewrite (fields_off _ _ _ Hf). destruct Hf as [_ _ Hk].
  destruct (decide (kept = [])) as [-> |Hne]; [done|].
  pose proof (join_nonempty kept Hk Hne). rewrite join_with_app by done.
  by destruct (join_with semi kept).
Qed.

Lemma append_field_spec st kept shown label text :
  fields_in st kept shown → label ≠ [] → nonul label → nonul text →
  fields_in (append_field st label text) (kept ++ keep kept [label ++ text])
    (take (PROV_IDENT_MAX - 1) (join_with semi (kept ++ [label ++ text]))).
Proof.
  intros Hf Hlab Hnl Hnt. pose proof (join_snoc _ _ _ (label ++ text) Hf) as Hj.
  pose proof (fields_off _ _ _ Hf) as Hoff. destruct Hf as [Hw Hs Hk].
  unfold append_field. destruct st as [off buf]. cbn [fst snd] in *.
  assert (Hlen : length buf = PROV_IDENT_MAX) by apply Hw. rewrite Hlen. unfold keep.
  pose proof (at_offset_room _ _ _ _ Hw) as Hroom.
  set (tx := (if off =? 0 then _ else _) ++ label ++ text) in *.
  assert (Hn : nonul tx).
  { unfold tx. rewrite !nonul_app. split; [|done].
    destruct (off =? 0); by apply (bool_decide_eq_true_1 _). }
  assert (Hpos : 0 < length tx).
  { unfold tx. rewrite !length_app. destruct label; simpl; [done|lia]. }
  rewrite <-Hj, length_app, <-Hoff. unfold snprintf at 1. cbv beta iota zeta.
  destruct (Nat.ltb_spec (off + length tx) PROV_IDENT_MAX) as [Hfit|Hcut].
  - destruct (snprintf_fits _ _ _ _ tx Hw Hn) as [Hw' Hc']; [lia|].
    replace (0 <? length tx) with true by lia.
    replace (length tx <? PROV_IDENT_MAX - off) with true by lia. simpl (true && true).
    split; cbn [fst snd].
    + by rewrite <-Hj.
    + unfold snprintf in Hc'. cbn [snd] in Hc'. rewrite Hc'. symmetry. apply take_ge.
      rewrite length_app. lia.
    + apply Forall_app. split; [done|]. apply Forall_singleton. by destruct label.
  - destruct (snprintf_cut _ _ _ _ tx Hw Hn) as [Hw' Hc']; [lia|].
    replace (length tx <? PROV_IDENT_MAX - off) with false by lia. rewrite andb_false_r.
    split; cbn [fst snd]; rewrite ?app_nil_r; [done| |done].
    unfold snprintf in Hc'. cbn [snd] in Hc'. rewrite Hc'.
    rewrite take_app, (take_ge (join_with semi kept)) by lia. do 2 f_equal. lia.
Qed.

(** A field that is only written when its text is there. *)
Lemma append_seg_spec (b : bool) st kept shown label text :
  fields_in st kept shown → label ≠ [] → nonul label → nonul text →
  (b = true ↔ text ≠ []) →
  ∃ shown', fields_in (if b then append_field st label text else st)
    (kept ++ keep kept (seg label text)) shown'.
Proof.
  intros Hf Hl Hnl Hnt Hb. unfold seg. destruct (decide (text = [])) as [He|He].
  - destruct b; [naive_solver|]. exists shown. unfold keep. case_match; by rewrite app_nil_r.
  - destruct b; [|naive_solver]. eexists. by eapply append_field_spec.
Qed.

(** *** The whole value *)

Lemma cwd_spec cur buf :
  length buf = PATH_MAX → kmalloc cur CwdBuf = true →
  ∃ buf', (provfs_build_cwd cur buf).2 = (length (cwd_text cur), buf') ∧ cstr buf' = cwd_text cur.
Proof.
  intros Hl Hk. unfold provfs_build_cwd, cwd_text. rewrite Hl, Hk. cbv [Nat.eqb PATH_MAX].
  assert (Hb : buf ≠ []) by (by intros ->).
  destruct (cur_fs cur) as [pwd|]; [|by exists (clear buf)].
  cbv [mbind logged_mbind tell mret logged_mret]. cbn [snd].
  destruct (p_dentry pwd), (p_mnt pwd), (kmalloc cur CwdPage); try by exists (clear buf).
  simpl andb. cbn [snd orb negb].
  destruct (d_absolute_path pwd) as [p|]; [|by exists (clear buf)].
  eexists. unfold scnprintf. split.
  - cbn [snd default]. rewrite length_take, length_clear, Hl by done. unfold PATH_MAX.
    rewrite Nat.min_comm. done.
  - assert (Hc : length (clear buf) = PATH_MAX) by (by rewrite length_clear).
    change 4096 with PATH_MAX. rewrite <-Hc.
    by rewrite cstr_snprintf_start by (unfold clear, store; done || apply nonul_cstr).
Qed.

Lemma nonul_chain cur : nonul (chain_text cur).
Proof.
  destruct (comm_chain_spec cur (junk PROV_CHAIN_MAX)) as (buf' & _ & <- & _); [done|].
  apply nonul_cstr.
Qed.

Lemma nonul_cwd cur : nonul (cwd_text cur).
Proof.
  unfold cwd_text. destruct (cur_fs cur); [|apply not_elem_of_nil].
  case_match; [apply nonul_take, nonul_cstr|apply not_elem_of_nil].
Qed.

Ltac label := first [done | by apply (bool_decide_eq_true_1 _)].

Lemma append_cwd_spec cur mem st :
  memory_ok mem →
  (append_cwd cur mem st).2 =
  if 0 <? length (cwd_text cur) then append_field st (blit "cwd:") (cwd_text cur) else st.
Proof.
  intros [_ Hcw]. unfold append_cwd. destruct (kmalloc cur CwdBuf) eqn:Hk.
  - destruct (cwd_spec cur (m_cwd mem) Hcw Hk) as (cwd & Hw & Hws).
    cbv [mbind logged_mbind]. rewrite Hw. cbn [fst snd]. by rewrite Hws.
  - unfold cwd_text. rewrite Hk. destruct (cur_fs cur); [|done].
    by rewrite andb_false_r, andb_false_l.
Qed.

(** The fields before the process id, with their texts. *)
Definition fields_state (cur : current) (buf envsig : bytes) : nat * bytes :=
  let st0 := (0, clear buf) in
  let st1 := if 0 <? length (chain_text cur) then append_field st0 (blit "comm-chain:") (chain_text cur) else st0 in
  let st2 := if decide (cstr envsig = []) then st1 else append_field st1 (blit "env:") (cstr envsig) in
  if 0 <? length (cwd_text cur) then append_field st2 (blit "cwd:") (cwd_text cur) else st2.

Lemma fallback_fields cur mem buf envsig :
  memory_ok mem →
  (provfs_build_fallback cur mem buf envsig).2 =
  let st := append_field (append_field (fields_state cur buf envsig) (blit "pid:") (pid_text cur))
              (blit "uid:") (uid_text cur) in
  if decide (cstr st.2 = []) then
    (snprintf st.2 0 (length buf) (blit "pid:" ++ pid_text cur ++ blit ";uid:" ++ uid_text cur)).2
  else st.2.
Proof.
  intros Hm. unfold provfs_build_fallback, fields_state.
  destruct (comm_chain_spec cur (m_chain mem) (chain_ok _ Hm)) as (chain & Hc & Hcs & _).
  cbv [mbind logged_mbind mret logged_mret]. rewrite Hc. cbn [fst snd]. rewrite Hcs, append_cwd_spec by done.
  fold (pid_text cur). fold (uid_text cur). by destruct (append_field _ (blit "uid:") _) as [off b].
Qed.

Lemma nonempty_length (s : bytes) : (0 <? length s) = true ↔ s ≠ [].
Proof. destruct s; simpl; split; done || lia. Qed.

Lemma keep_fits kept s : length (join_with semi (kept ++ s)) < PROV_IDENT_MAX → keep kept s = s.
Proof. intros H. unfold keep. by rewrite (proj2 (Nat.ltb_lt _ _) H). Qed.

Lemma length_join_app (l1 l2 : list bytes) :
  length (join_with semi (l1 ++ l2)) ≤ length (join_with semi l1) + 1 + length (join_with semi l2).
Proof.
  destruct (decide (l1 = [])) as [->|H1]; [simpl; lia|].
  destruct (decide (l2 = [])) as [->|H2]; [rewrite app_nil_r; lia|].
  rewrite join_with_app, length_app by done. simpl. lia.
Qed.

Lemma length_seg label text : length (join_with semi (seg label text)) ≤ length label + length text.
Proof. unfold seg. case_decide; simpl; [lia|]. rewrite length_app. lia. Qed.

Lemma chain_text_length cur : length (chain_text cur) ≤ 48.
Proof. by destruct (comm_chain_spec cur (junk PROV_CHAIN_MAX)) as (b & _ & _ & ?). Qed.

Lemma chain_seg_length cur : length (join_with semi (seg (blit "comm-chain:") (chain_text cur))) ≤ 59.
Proof.
  pose proof (length_seg (blit "comm-chain:") (chain_text cur)). pose proof (chain_text_length cur).
  assert (length (blit "comm-chain:") = 11) by done. lia.
Qed.

Lemma head_length cur envsig : envsig_ok envsig → length (join_with semi (head_segs cur envsig)) ≤ 137.
Proof.
  intros He. unfold envsig_ok, PROV_ENV_KEY_MAX, PROV_ENV_VAL_MAX in He. unfold head_segs.
  etrans; [apply length_join_app|].
  pose proof (chain_seg_length cur). pose proof (length_seg (blit "env:") (cstr envsig)).
  assert (length (blit "env:") = 4) by done. lia.
Qed.

Lemma fields_state_spec cur buf envsig :
  length buf = PROV_IDENT_MAX → envsig_ok envsig →
  ∃ shown, fields_in (fields_state cur buf envsig) (head_segs cur envsig ++ cwd_kept cur envsig) shown.
Proof.
  intros Hl He. assert (Hb : buf ≠ []) by (by intros ->).
  assert (fields_in (0, clear buf) [] []) as H0.
  { split; [|done|constructor]. rewrite <-Hl. by apply clear_written. }
  unfold fields_state.
  destruct (append_seg_spec (0 <? length (chain_text cur)) _ _ _ (blit "comm-chain:") (chain_text cur) H0)
    as (s1 & H1); [done|label|apply nonul_chain|apply nonempty_length|].
  rewrite app_nil_l, keep_fits in H1 by (pose proof (chain_seg_length cur); unfold PROV_IDENT_MAX; simpl; lia).
  destruct (append_seg_spec (bool_decide (cstr envsig ≠ [])) _ _ _ (blit "env:") (cstr envsig) H1)
    as (s2 & H2); [done|label|apply nonul_cstr|apply bool_decide_eq_true|].
  fold (head_segs cur envsig) in H2.
  rewrite keep_fits in H2
    by (fold (head_segs cur envsig); pose proof (head_length cur envsig He); unfold PROV_IDENT_MAX; lia).
  fold (head_segs cur envsig) in H2.
  destruct (append_seg_spec (0 <? length (cwd_text cur)) _ _ _ (blit "cwd:") (cwd_text cur) H2)
    as (s3 & H3); [done|label|apply nonul_cwd|apply nonempty_length|].
  fold (cwd_kept cur envsig) in H3. exists s3.
  replace (if decide (cstr envsig = []) then _ else _) with
    (if bool_decide (cstr envsig ≠ []) then
       append_field (if 0 <? length (chain_text cur) then
         append_field (0, clear buf) (blit "comm-chain:") (chain_text cur) else (0, clear buf))
         (blit "env:") (cstr envsig)
     else if 0 <? length (chain_text cur) then
       append_field (0, clear buf) (blit "comm-chain:") (chain_text cur) else (0, clear buf)); [done|].
  case_decide; [rewrite bool_decide_eq_false_2 by naive_solver|rewrite bool_decide_eq_true_2 by done]; done.
Qed.

(** The value is never empty: the process id alone always fits. *)
Lemma fallback_shows cur mem buf envsig :
  memory_ok mem → length buf = PROV_IDENT_MAX → envsig_ok envsig →
  cstr (provfs_build_fallback cur mem buf envsig).2 = fallback_text cur envsig ∧
  fallback_text cur envsig ≠ [] ∧
  length (provfs_build_fallback cur mem buf envsig).2 = PROV_IDENT_MAX.
Proof.
  intros Hm Hl He. rewrite fallback_fields by done. cbv zeta.
  destruct (fields_state_spec cur buf envsig Hl He) as (s3 & H3).
  pose proof (append_field_spec _ _ _ (blit "pid:") (pid_text cur) H3 ltac:(done) ltac:(label)
    (nonul_fmt_u _)) as H4.
  pose proof (append_field_spec _ _ _ (blit "uid:") (uid_text cur) H4 ltac:(done) ltac:(label)
    (nonul_fmt_u _)) as H5.
  fold (pid_kept cur envsig) in H5.
  set (st := append_field _ (blit "uid:") _) in *.
  assert (Hs : cstr st.2 = fallback_text cur envsig).
  { rewrite (fi_cstr _ _ _ H5). unfold fallback_text, fallback_segs, front. by rewrite <-!app_assoc. }
  assert (fallback_text cur envsig ≠ []) as Hne.
  { unfold fallback_text, fallback_segs. intros Ht. apply (f_equal length) in Ht.
    rewrite length_take in Ht. unfold PROV_IDENT_MAX in Ht.
    destruct (decide (front cur envsig = [])) as [Hf|Hf].
    - rewrite Hf, app_nil_l in Ht. cbn [join_with] in Ht. rewrite length_app in Ht.
      change (length (blit "uid:")) with 4 in Ht. cbn [length] in Ht. lia.
    - rewrite join_with_app, length_app in Ht by done. cbn [length] in Ht. lia. }
  rewrite decide_False by (by rewrite Hs). split_and!; [done..|].
  apply (at_offset_len _ _ _ _ (fi_written _ _ _ H5)).
Qed.

(** *** What the reader makes of it *)

Definition ascii (s : bytes) : Prop := Forall (λ b, (to_N b < 128)%N) s.

#[export] Instance ascii_dec s : Decision (ascii s).
Proof. unfold ascii. apply _. Defined.

Lemma lossy_nil : from_utf8_lossy [] = [].
Proof. done. Qed.

Lemma lossy_label l s : ascii l → from_utf8_lossy (l ++ s) = (to_N <$> l) ++ from_utf8_lossy s.
Proof.
  induction 1 as [|b l Hb _ IH]; [done|].
  change ((b :: l) ++ s) with ([] ++ b :: (l ++ s)). rewrite from_utf8_lossy_ascii by done.
  rewrite lossy_nil, IH. done.
Qed.

Lemma lossy_join segs :
  from_utf8_lossy (join_with semi segs) = join_with semicolon (from_utf8_lossy <$> segs).
Proof.
  induction segs as [|s segs IH]; [done|]. destruct segs as [|s' segs]; [done|].
  rewrite join_with_cons by done. rewrite from_utf8_lossy_ascii by done. rewrite IH. done.
Qed.

Lemma lossy_semi s : semi ∉ s → semicolon ∉ from_utf8_lossy s.
Proof.
  intros Hs Hc. apply from_utf8_lossy_elem in Hc as (b & Hb & Hn); [|done].
  assert (b = semi) as -> by (by apply byte_to_N_inj). done.
Qed.

(** The fields the module meant to write, less those that did not fit. *)
Definition lsm_fields (cur : current) (envsig : bytes) : FallbackFields :=
  {| comm_chain := if decide (chain_text cur = []) then None else Some (from_utf8_lossy (chain_text cur));
     env := if decide (cstr envsig = []) then None else Some (from_utf8_lossy (cstr envsig));
     cwd := if decide (cwd_kept cur envsig = []) then None else Some (from_utf8_lossy (cwd_text cur));
     pid := if decide (pid_kept cur envsig = []) then None else Some (from_utf8_lossy (pid_text cur));
     uid := Some (from_utf8_lossy (uid_text cur)) |}.

Lemma lossy_field label text key :
  ascii label → (to_N <$> label) = key ++ [colon] →
  from_utf8_lossy (label ++ text) = key ++ colon :: from_utf8_lossy text.
Proof. intros Ha Hk. rewrite lossy_label, Hk by done. by rewrite <-app_assoc. Qed.

Ltac field_label := first [by apply (bool_decide_eq_true_1 _); vm_compute | by vm_compute].

Lemma lossy_seg label text key :
  ascii label → (to_N <$> label) = key ++ [colon] →
  from_utf8_lossy <$> seg label text =
  field key (if decide (text = []) then None else Some (from_utf8_lossy text)).
Proof.
  intros Ha Hk. unfold seg. case_decide; [done|]. csimpl. by rewrite (lossy_field _ _ key).
Qed.

Lemma lossy_kept kept label text key :
  ascii label → (to_N <$> label) = key ++ [colon] →
  from_utf8_lossy <$> keep kept (seg label text) =
  field key (if decide (keep kept (seg label text) = []) then None else Some (from_utf8_lossy text)).
Proof.
  intros Ha Hk. unfold keep. case_match; [|done]. rewrite (lossy_seg _ _ key) by done.
  unfold seg. destruct (decide (text = [])) as [|Hn]; [done|].
  rewrite decide_False; done.
Qed.

Lemma fallback_segs_rendered cur envsig :
  join_with semicolon (from_utf8_lossy <$> fallback_segs cur envsig) = render_enriched (lsm_fields cur envsig).
Proof.
  unfold fallback_segs, front, head_segs, render_enriched, enriched_segments.
  rewrite !fmap_app, <-!app_assoc. cbn [comm_chain env cwd pid uid lsm_fields]. f_equal.
  rewrite (lossy_seg _ _ (lit "comm-chain")) by field_label.
  rewrite (lossy_seg _ _ (lit "env")) by field_label.
  unfold cwd_kept. rewrite (lossy_kept _ _ _ (lit "cwd")) by field_label.
  assert (Hp : seg (blit "pid:") (pid_text cur) = [blit "pid:" ++ pid_text cur]).
  { unfold seg. rewrite decide_False; [done|]. intros H. unfold pid_text, fmt_u in H.
    apply (f_equal length) in H. rewrite as_bytes_display_N_length in H.
    pose proof (display_N_nonempty (Z.to_N (cur_tgid cur `mod` 2 ^ 32))). by destruct (display_N _). }
  unfold pid_kept. rewrite <-Hp. rewrite (lossy_kept _ _ _ (lit "pid")) by field_label.
  change (from_utf8_lossy <$> [blit "uid:" ++ uid_text cur]) with [from_utf8_lossy (blit "uid:" ++ uid_text cur)].
  by rewrite (lossy_field _ _ (lit "uid")) by field_label.
Qed.

Definition separable_writer (cur : current) (envsig : bytes) : Prop :=
  (semi ∉ chain_text cur) ∧ (semi ∉ cstr envsig) ∧ (semi ∉ cwd_text cur).

Lemma fmt_u_no_semi z : semi ∉ fmt_u z.
Proof.
  intros H. assert (semicolon ∈ display_N (Z.to_N z)) as Hin.
  { rewrite <-(from_utf8_lossy_as_bytes (display_N (Z.to_N z))) by apply display_N_valid.
    unfold fmt_u in H. apply list_elem_of_split in H as (a & b & ->).
    rewrite from_utf8_lossy_ascii by done. apply elem_of_app. right. left. }
  by apply display_N_elem in Hin.
Qed.

Lemma lsm_fields_separable cur envsig : separable_writer cur envsig → separable (lsm_fields cur envsig).
Proof.
  intros (H1 & H2 & H3) v Hv. cbn [lsm_fields comm_chain env cwd pid uid] in Hv.
  repeat (apply elem_of_cons in Hv as [Hv|Hv];
    [try case_decide; try done; injection Hv as ->; apply lossy_semi; try done; apply fmt_u_no_semi|]).
  by apply not_elem_of_nil in Hv.
Qed.

Lemma classify_fallback cur envsig :
  chain_text cur ≠ [] → separable_writer cur envsig →
  length (join_with semi (fallback_segs cur envsig)) < PROV_IDENT_MAX →
  classify (from_utf8_lossy (fallback_text cur envsig)) = EnrichedFallback (lsm_fields cur envsig).
Proof.
  intros Hc Hs Hl. unfold fallback_text. rewrite take_ge by lia.
  rewrite lossy_join, fallback_segs_rendered. apply classify_render.
  - cbn [lsm_fields comm_chain]. rewrite decide_False by done. by eexists.
  - by apply lsm_fields_separable.
Qed.

(** Without a chain the value begins with another label, which the reader does
    not know. *)
Lemma classify_other_label l s :
  l ∈ [blit "env:"; blit "cwd:"; blit "pid:"; blit "uid:"] →
  classify (from_utf8_lossy (l ++ s)) = Opaque (from_utf8_lossy (l ++ s)).
Proof.
  intros Hl. rewrite lossy_label.
  - set (r := from_utf8_lossy s). clearbody r. unfold classify. rewrite colon_not_agentns.
    + unfold parse_legacy_fallback.
      repeat (apply elem_of_cons in Hl as [->|Hl]; [done|]). by apply not_elem_of_nil in Hl.
    + apply elem_of_app. left.
      repeat (apply elem_of_cons in Hl as [->|Hl]; [by apply (bool_decide_eq_true_1 _)|]).
      by apply not_elem_of_nil in Hl.
  - repeat (apply elem_of_cons in Hl as [->|Hl]; [by apply (bool_decide_eq_true_1 _)|]).
    by apply not_elem_of_nil in Hl.
Qed.

Lemma fallback_first_label cur envsig :
  chain_text cur = [] →
  ∃ l text rest, fallback_segs cur envsig = (l ++ text) :: rest ∧
    l ∈ [blit "env:"; blit "cwd:"; blit "pid:"; blit "uid:"].
Proof.
  intros Hc. unfold fallback_segs, front, head_segs, cwd_kept, pid_kept, keep, seg.
  rewrite (decide_True (P := chain_text cur = [])) by done.
  repeat case_match; cbn [app]; do 3 eexists; (split; [reflexivity|]); set_solver.
Qed.

Lemma classify_no_chain cur envsig :
  chain_text cur = [] →
  let v := from_utf8_lossy (fallback_text cur envsig) in classify v = Opaque v.
Proof.
  intros Hc. destruct (fallback_first_label cur envsig Hc) as (l & text & rest & Hs & Hl).
  assert (∃ r, fallback_text cur envsig = l ++ r) as [r ->]; [|by apply classify_other_label].
  unfold fallback_text. rewrite Hs. destruct (join_with_head semi l text rest) as [r ->].
  assert (length l = 4) as H4
    by (repeat (apply elem_of_cons in Hl as [->|Hl]; [done|]); by apply not_elem_of_nil in Hl).
  exists (take (PROV_IDENT_MAX - 1 - 4) r). rewrite take_app, (take_ge l), H4 by (unfold PROV_IDENT_MAX; lia).
  done.
Qed.

(** *** Which fields are kept *)

Lemma pid_seg_length cur : length (blit "pid:" ++ pid_text cur) ≤ 14.
Proof.
  rewrite length_app. change (length (blit "pid:")) with 4. unfold pid_text.
  pose proof (fmt_u_length (cur_tgid cur `mod` 2 ^ 32) ltac:(apply Z.mod_pos_bound; done)). lia.
Qed.

Lemma uid_seg_length cur : uid_ok cur → length (blit "uid:" ++ uid_text cur) ≤ 14.
Proof.
  intros Hu. rewrite length_app. change (length (blit "uid:")) with 4. unfold uid_text.
  pose proof (fmt_u_length (cur_uid cur) ltac:(apply Hu)). lia.
Qed.

Lemma length_join_snoc (l : list bytes) s :
  length (join_with semi (l ++ [s])) ≤ length (join_with semi l) + 1 + length s.
Proof. apply length_join_app. Qed.

(** Fields that leave thirty bytes are followed by both numbers. *)
Lemma numbers_fit cur envsig :
  uid_ok cur →
  length (join_with semi (head_segs cur envsig ++ cwd_kept cur envsig)) + 30 < PROV_IDENT_MAX →
  pid_kept cur envsig = [blit "pid:" ++ pid_text cur] ∧
  length (join_with semi (fallback_segs cur envsig)) < PROV_IDENT_MAX.
Proof.
  intros Hu Hl. pose proof (pid_seg_length cur). pose proof (uid_seg_length cur Hu).
  assert (Hp : pid_kept cur envsig = [blit "pid:" ++ pid_text cur]).
  { apply keep_fits. etrans; [apply Nat.lt_succ_r, length_join_snoc|]. lia. }
  split; [done|]. unfold fallback_segs, front. rewrite Hp.
  set (l := head_segs _ _ ++ cwd_kept _ _) in *. rewrite app_assoc. fold l. rewrite <-app_assoc.
  pose proof (length_join_snoc (l ++ [blit "pid:" ++ pid_text cur]) (blit "uid:" ++ uid_text cur)).
  pose proof (length_join_snoc l (blit "pid:" ++ pid_text cur)).
  rewrite <-app_assoc in *. lia.
Qed.

Lemma short_cwd_kept cur envsig :
  envsig_ok envsig → length (cwd_text cur) ≤ 83 →
  cwd_kept cur envsig = seg (blit "cwd:") (cwd_text cur) ∧
  length (join_with semi (head_segs cur envsig ++ seg (blit "cwd:") (cwd_text cur))) ≤ 225.
Proof.
  intros He Hc. pose proof (head_length cur envsig He) as Hh.
  assert (length (join_with semi (head_segs cur envsig ++ seg (blit "cwd:") (cwd_text cur))) ≤ 225) as Hl.
  { etrans; [apply length_join_app|]. pose proof (length_seg (blit "cwd:") (cwd_text cur)).
    assert (length (blit "cwd:") = 4) by done. lia. }
  split; [|done]. apply keep_fits. unfold PROV_IDENT_MAX. lia.
Qed.

(** ** Theorems *)

(** C14: whatever the writer, the fallback is a non-empty string of at most 255
    bytes: its fields in their fixed order, each kept if the value with it
    still fits, then the user id, the whole cut at 255.  The chain and the
    environment field are never dropped, and nothing is when the working
    directory has at most 83 bytes; when the working directory itself does
    not fit it alone is missing.  All resources are given back. *)
Theorem fallback_bounds (cur : current) (mem : memory) (buf envsig : bytes)
    (Hm : memory_ok mem) (Hb : length buf = PROV_IDENT_MAX) (He : envsig_ok envsig) (Hu : uid_ok cur) :
  let r := provfs_build_fallback cur mem buf envsig in
  let v := cstr r.2 in
  let head := head_segs cur envsig in
  let cwd := seg (blit "cwd:") (cwd_text cur) in
  let numbers := [blit "pid:" ++ pid_text cur; blit "uid:" ++ uid_text cur] in
  v = take 255 (join_with semi (head ++ keep head cwd ++ keep (head ++ keep head cwd) [blit "pid:" ++ pid_text cur] ++
                                [blit "uid:" ++ uid_text cur])) ∧
  0 < length v ≤ 255 ∧
  (∃ rest, v = join_with semi head ++ rest) ∧
  (length (cwd_text cur) ≤ 83 → v = join_with semi (head ++ cwd ++ numbers)) ∧
  (keep head cwd = [] → v = join_with semi (head ++ numbers)) ∧
  balanced r.1.
Proof.
  cbv zeta. destruct (fallback_shows cur mem buf envsig Hm Hb He) as (Hv & Hne & _). rewrite Hv.
  pose proof (head_length cur envsig He) as Hh. fold (cwd_kept cur envsig). fold (pid_kept cur envsig).
  assert (Hfits : ∀ c, cwd_kept cur envsig = c →
    length (join_with semi (head_segs cur envsig ++ c)) ≤ 225 →
    fallback_text cur envsig = join_with semi (head_segs cur envsig ++ c ++
      [blit "pid:" ++ pid_text cur; blit "uid:" ++ uid_text cur])).
  { intros c Hc Hl. destruct (numbers_fit cur envsig Hu) as [Hp Hlen]; [rewrite Hc; unfold PROV_IDENT_MAX; lia|].
    unfold fallback_text. rewrite take_ge by lia. unfold fallback_segs, front. rewrite Hc, Hp.
    by rewrite <-!app_assoc. }
  split_and!.
  - unfold fallback_text, fallback_segs, front. by rewrite <-!app_assoc.
  - destruct (fallback_text cur envsig); simpl; [done|lia].
  - unfold fallback_text. rewrite length_take. unfold PROV_IDENT_MAX. lia.
  - unfold fallback_text, fallback_segs, front. rewrite <-!app_assoc.
    set (rest := cwd_kept _ _ ++ _). assert (rest ≠ []) as Hr by (unfold rest; by destruct (cwd_kept _ _), (pid_kept _ _)).
    destruct (decide (head_segs cur envsig = [])) as [->|Hhd]; [by eexists|].
    rewrite join_with_app by done. rewrite take_app, take_ge by (unfold PROV_IDENT_MAX; lia). by eexists.
  - intros Hc. destruct (short_cwd_kept cur envsig He Hc) as [Hk Hl]. by apply Hfits.
  - intros Hk. rewrite (Hfits [] Hk); [done|]. rewrite app_nil_r. lia.
  - apply fallback_balanced.
Qed.

Lemma sample_memory_ok : memory_ok sample_memory.
Proof. split; apply length_replicate. Qed.

Lemma fallback_bounds_witness :
  cstr (provfs_build_fallback (sample_writer [] (blit "/home")) sample_memory (junk PROV_IDENT_MAX) [NUL]).2 =
  blit "comm-chain:sed>bash;cwd:/home;pid:812;uid:1000".
Proof.
  destruct (fallback_bounds (sample_writer [] (blit "/home")) sample_memory (junk PROV_IDENT_MAX) [NUL])
    as (_ & _ & _ & H & _); [apply sample_memory_ok|done|vm_compute; lia|by vm_compute|].
  rewrite H by (vm_compute; lia). by vm_compute.
Defined.

(** *** The session as the reader classifies it *)

Section AgentNs.
Context (config_agent_ns : bool).
Context (agent_session_id_format : Z → bytes → Z * bytes).
Context (hex : Z → bytes).

(** The namespace code renders an id as 32 hex digits and returns their
    number, in a buffer that has room for them. *)
Definition format_ok : Prop := ∀ id buf, 32 < length buf →
  (agent_session_id_format id buf).1 = 32%Z ∧ cstr (agent_session_id_format id buf).2 = hex id ∧
  length (agent_session_id_format id buf).2 = length buf ∧
  length (hex id) = 32 ∧ ascii (hex id) ∧ Forall (λ b, is_ascii_hexdigit (to_N b) = true) (hex id).

(** C13: what the module writes as the session is what the reader makes of it:
    the id of an agent namespace is an AgentNS id; a fallback with a chain in
    which every field fitted and no field has a semicolon is classified back
    to its fields; a fallback without a chain (a writer that is itself named
    init, systemd or kthreadd, or nameless ones) is opaque to the reader. *)
Theorem lsm_session_classified (cur : current) (mem : memory) (buf envsig : bytes)
    (Hf : format_ok) (Hm : memory_ok mem) (Hb : length buf = PROV_IDENT_MAX) (He : envsig_ok envsig) :
  let v := from_utf8_lossy (cstr
    (provfs_build_session config_agent_ns agent_session_id_format cur mem buf envsig).2) in
  match config_agent_ns, cur_ns cur with
  | true, Some (ChildAgentNs id) => classify v = AgentNs (to_N <$> hex id)
  | _, _ =>
      (chain_text cur ≠ [] → separable_writer cur envsig →
       length (join_with semi (fallback_segs cur envsig)) < PROV_IDENT_MAX →
       classify v = EnrichedFallback (lsm_fields cur envsig)) ∧
      (chain_text cur = [] → classify v = Opaque v)
  end.
Proof.
  assert (Hfall : ∀ b, length b = PROV_IDENT_MAX →
    let v := from_utf8_lossy (cstr (provfs_build_fallback cur mem b envsig).2) in
    (chain_text cur ≠ [] → separable_writer cur envsig →
       length (join_with semi (fallback_segs cur envsig)) < PROV_IDENT_MAX →
       classify v = EnrichedFallback (lsm_fields cur envsig)) ∧
    (chain_text cur = [] → classify v = Opaque v)).
  { intros b Hlb. cbv zeta. destruct (fallback_shows cur mem b envsig Hm Hlb He) as (-> & _).
    split; [apply classify_fallback|apply classify_no_chain]. }
  unfold provfs_build_session.
  destruct config_agent_ns; [|by apply Hfall].
  destruct (cur_ns cur) as [[|id]|]; [by apply Hfall| |by apply Hfall].
  destruct (Hf id buf) as (Hn & Hc & _ & Hlen & Ha & Hx); [rewrite Hb; unfold PROV_IDENT_MAX; lia|].
  destruct (agent_session_id_format id buf) as [n buf']. simpl in Hn, Hc. subst n. cbn [snd].
  change (0 <? 32)%Z with true. cbv iota. change (mret buf').2 with buf'. rewrite Hc.
  rewrite <-(app_nil_r (hex id)), lossy_label, lossy_nil, !app_nil_r by done.
  unfold classify. rewrite (proj2 (is_agentns_id_spec _)); [done|]. split.
  - by rewrite length_fmap.
  - by apply Forall_fmap.
Qed.
End AgentNs.

(** An id of 128 bits as 32 hex digits. *)
Definition hex_digit (n : Z) : byte :=
  let n := Z.to_N n in byte_of_N (if (n <? 10)%N then 48 + n else 87 + n).
Definition sample_hex (id : Z) : bytes :=
  (λ i, hex_digit (Z.land (Z.shiftr id (4 * Z.of_nat (31 - i))) 15)) <$> seq 0 32.
Definition sample_format (id : Z) (buf : bytes) : Z * bytes :=
  (32%Z, (snprintf buf 0 (length buf) (sample_hex id)).2).

Lemma hex_digit_ok n : (0 ≤ n < 16)%Z → is_ascii_hexdigit (to_N (hex_digit n)) = true.
Proof.
  intros Hn. unfold hex_digit. case_match; rewrite to_N_byte_of_N by lia;
    unfold is_ascii_hexdigit, is_ascii_digit; lia.
Qed.

Lemma sample_hex_digits id : Forall (λ b, is_ascii_hexdigit (to_N b) = true) (sample_hex id).
Proof.
  unfold sample_hex. apply Forall_fmap, Forall_forall. intros i _. apply hex_digit_ok.
  change 15%Z with (Z.ones 4). rewrite Z.land_ones by lia. by apply Z.mod_pos_bound.
Qed.

Lemma hexdigit_small c : is_ascii_hexdigit c = true → (0 < c < 128)%N.
Proof. unfold is_ascii_hexdigit, is_ascii_digit. lia. Qed.

Lemma sample_format_ok : format_ok sample_format sample_hex.
Proof.
  intros id buf Hl. pose proof (sample_hex_digits id) as Hx. split_and!; try done.
  - unfold sample_format. cbn [snd]. rewrite cstr_snprintf_start.
    + apply take_ge. change (length (sample_hex id)) with 32. lia.
    + by destruct buf; [simpl in Hl; lia|].
    + intros H. apply (proj1 (Forall_forall _ _) Hx), hexdigit_small in H. simpl in H. lia.
  - by apply length_snprintf.
  - eapply Forall_impl; [exact Hx|]. intros b Hb. simpl in *. apply hexdigit_small in Hb. lia.
Qed.

Lemma lsm_session_classified_witness :
  classify (lit "comm-chain:sed>bash;cwd:/home;pid:812;uid:1000") =
    EnrichedFallback (lsm_fields (sample_writer [] (blit "/home")) [NUL]).
Proof.
  destruct (lsm_session_classified false sample_format sample_hex
    (sample_writer [] (blit "/home")) sample_memory (junk PROV_IDENT_MAX) [NUL]) as [H _];
    [apply sample_format_ok|apply sample_memory_ok|done|vm_compute; lia|].
  rewrite <-H; [by vm_compute|done| |vm_compute; lia].
  split_and!; by apply (bool_decide_eq_true_1 _); vm_compute.
Defined.

(** The last field can be cut instead of dropped: with a working directory
    of 224 bytes the process id does not fit and the user id loses its last
    digits, so that the reader reports user 10 for a file user 1000 wrote. *)
Theorem fallback_uid_cut :
  let cur := sample_writer [] (blit "/" ++ replicate 223 Byte.x61) in
  let v := cstr (provfs_build_fallback cur sample_memory (junk PROV_IDENT_MAX) [NUL]).2 in
  cur_uid cur = 1000%Z ∧ length v = 255 ∧
  ∃ f, classify (from_utf8_lossy v) = EnrichedFallback f ∧ pid f = None ∧ uid f = Some (lit "10").
Proof.
  cbv zeta. set (cur := sample_writer _ _).
  destruct (fallback_shows cur sample_memory (junk PROV_IDENT_MAX) [NUL]) as (-> & _);
    [apply sample_memory_ok|done|vm_compute; lia|].
  split_and!; [done|by vm_compute|]. eexists. split_and!; by vm_compute.
Qed.
