(* ===== verification/LsmSkip.v ===== *)
(** The kernel module's skip list ([lsm/provfs_work.c]): matching a path, the
    sysctl that replaces the list, and the lock between them, down to the
    bytes that are copied under it. *)

From S2P Require Import Prelude RustStr CStr LsmIdent.
From Stdlib Require Import Strings.Byte.

Open Scope nat_scope.

(** ** Definitions *)

Definition comma_byte : byte := Byte.x2c.

Definition PROVFS_SKIP_MAX : nat := 1024.
Definition PROVFS_SKIP_DEFAULT : bytes :=
  blit "/proc/,/sys/,/dev/,/run/,/tmp/,/var/run/,/var/cache/," ++
  blit "/var/lib/pacman/,/.git/,/node_modules/,/target/,/.cargo/registry/".

(** A [char] array initialised from a literal. *)
Definition char_array (n : nat) (s : bytes) : bytes := s ++ replicate (n - length s) NUL.
Definition provfs_skip_prefixes_init : bytes := char_array PROVFS_SKIP_MAX PROVFS_SKIP_DEFAULT.

(** [strsep(&cursor, ",")]: the token, and the cursor it leaves. *)
Definition strsep (cursor : option bytes) : option (bytes * option bytes) :=
  match cursor with
  | None => None
  | Some s =>
      match split_once comma_byte s with
      | Some (tok, rest) => Some (tok, Some rest)
      | None => Some (s, None)
      end
  end.

(** The [while] loop; every token but the last takes a byte of the list. *)
Fixpoint match_loop (fuel : nat) (cursor : option bytes) (path : bytes) : bool :=
  match strsep cursor with
  | None => false
  | Some (tok, cursor') =>
      if negb (bool_decide (tok = [])) && contains tok path then true
      else match fuel with S fuel' => match_loop fuel' cursor' path | O => false end
  end.

(** [buf] is the shared list, [junk] what the local buffer held before. *)
Definition provfs_path_skipped (buf junk : bytes) (path : option bytes) : logged bool :=
  match path with
  | None => mret true
  | Some path =>
      _ ← tell (Take RSkipLock);
      let local := strscpy junk buf in
      _ ← tell (Give RSkipLock);
      let list := cstr local in
      mret (match_loop (S (length list)) (Some list) path)
  end.

(** [proc_dostring] gets the staging copy and answers its return value and
    what it leaves there. *)
Definition provfs_sysctl_skip_prefixes (proc_dostring : bool → bytes → Z * bytes)
    (write : bool) (buf junk : bytes) : logged (Z * bytes) :=
  _ ← tell (Take RSkipLock);
  let staging := strscpy junk buf in
  _ ← tell (Give RSkipLock);
  let '(ret, staging) := proc_dostring write staging in
  if negb (ret =? 0)%Z || negb write then mret (ret, buf)
  else
    _ ← tell (Take RSkipLock);
    let buf := strscpy buf staging in
    _ ← tell (Give RSkipLock);
    mret (0%Z, buf).

(** ** Copying under the lock *)

(** One byte of [strscpy(dst, src, sizeof(dst))]: the new [dst], and whether
    that was the last one. *)
Definition copy_byte (dst src : bytes) (k : nat) : bytes * bool :=
  if S k <? length dst then
    let c := default NUL (src !! k) in (<[k := c]> dst, bool_decide (c = NUL))
  else (<[k := NUL]> dst, true).

(** Where a thread is. *)
Inductive skip_pc : Type :=
| SIdle
| SCopy (k : nat) (local : bytes)      (** a matcher or a sysctl access, holding the read lock *)
| SDone (local : bytes)                (** it has its snapshot *)
| SStaged (staging : bytes)            (** a sysctl write before [write_lock] *)
| SStore (k : nat) (staging : bytes).  (** holding the write lock *)

Record skip_state : Type := {
  shared : bytes;                (** [provfs_skip_prefixes_buf] *)
  readers : gset nat;            (** [provfs_skip_lock] *)
  writer : option nat;
  threads : gmap nat skip_pc;    (** a thread that is not there is idle *)
  published : list bytes;        (** the lists there have been, oldest first *)
}.

Definition pc_of (s : skip_state) (i : nat) : skip_pc := default SIdle (threads s !! i).
Definition set_pc (i : nat) (pc : skip_pc) (s : skip_state) : skip_state :=
  {| shared := shared s; readers := readers s; writer := writer s;
     threads := <[i := pc]> (threads s); published := published s |}.

Inductive skip_action : Type :=
| ARead (local : bytes)      (** [read_lock], with what the local buffer holds *)
| ACopy                      (** one byte, and the unlock after the last *)
| AStage (staging : bytes)   (** [proc_dostring] wrote the snapshot's buffer *)
| AWrite                     (** [write_lock] *)
| AReturn.                   (** of a matcher, and of a sysctl access that reads or fails *)

Definition skip_step (i : nat) (a : skip_action) (s : skip_state) : option skip_state :=
  match a, pc_of s i with
  | ARead local, SIdle =>
      match writer s with
      | None => Some (set_pc i (SCopy 0 local) {| shared := shared s; readers := {[i]} ∪ readers s;
                  writer := None; threads := threads s; published := published s |})
      | Some _ => None
      end
  | ACopy, SCopy k local =>
      let '(local', last) := copy_byte local (shared s) k in
      Some (if last then set_pc i (SDone local') {| shared := shared s; readers := readers s ∖ {[i]};
                           writer := writer s; threads := threads s; published := published s |}
            else set_pc i (SCopy (S k) local') s)
  | AStage staging, SDone _ => Some (set_pc i (SStaged staging) s)
  | AWrite, SStaged staging =>
      match writer s with
      | None => if decide (readers s = ∅) then
                  Some (set_pc i (SStore 0 staging) {| shared := shared s; readers := readers s;
                          writer := Some i; threads := threads s; published := published s |})
                else None
      | Some _ => None
      end
  | ACopy, SStore k staging =>
      let '(shared', last) := copy_byte (shared s) staging k in
      Some (if last then set_pc i SIdle {| shared := shared'; readers := readers s; writer := None;
                           threads := threads s; published := published s ++ [cstr shared'] |}
            else set_pc i (SStore (S k) staging) {| shared := shared'; readers := readers s;
                   writer := writer s; threads := threads s; published := published s |})
  | AReturn, SDone _ => Some (set_pc i SIdle s)
  | _, _ => None
  end.

Fixpoint skip_steps (l : list (nat * skip_action)) (s : skip_state) : option skip_state :=
  match l with
  | [] => Some s
  | (i, a) :: l' => match skip_step i a s with Some s' => skip_steps l' s' | None => None end
  end.

Definition skip_boot : skip_state :=
  {| shared := provfs_skip_prefixes_init; readers := ∅; writer := None; threads := ∅;
     published := [PROVFS_SKIP_DEFAULT] |}.

(** ** Specification *)

(** A list buffer: of its size, with a terminated string in it. *)
Record list_ok (buf : bytes) : Prop := {
  list_length : length buf = PROVFS_SKIP_MAX;
  list_terminated : length (cstr buf) < PROVFS_SKIP_MAX;
}.

(** A path is skipped by a list when a non-empty item of it occurs in it. *)
Definition skips (list path : bytes) : Prop :=
  ∃ tok before after, tok ∈ split_on comma_byte list ∧ tok ≠ [] ∧ path = before ++ tok ++ after.

(** [k] bytes of [src] are in [dst], none of them a NUL. *)
Record copied (k : nat) (src dst : bytes) : Prop := {
  copied_take : take k dst = take k src;
  copied_nonul : nonul (take k src);
  copied_room : k < length dst;
}.

(** The invariant of the lock and the buffers. *)
Record skip_ok (s : skip_state) : Prop := {
  sk_length : length (shared s) = PROVFS_SKIP_MAX;
  sk_copy : ∀ i k local, pc_of s i = SCopy k local →
    i ∈ readers s ∧ length local = PROVFS_SKIP_MAX ∧ copied k (shared s) local;
  sk_store : ∀ i k staging, pc_of s i = SStore k staging →
    writer s = Some i ∧ length staging = PROVFS_SKIP_MAX ∧ copied k staging (shared s);
  sk_writer : ∀ i, writer s = Some i → readers s = ∅ ∧ ∃ k staging, pc_of s i = SStore k staging;
  sk_staged : ∀ i staging, pc_of s i = SStaged staging → length staging = PROVFS_SKIP_MAX;
  sk_free : writer s = None →
    last (published s) = Some (cstr (shared s)) ∧ length (cstr (shared s)) < PROVFS_SKIP_MAX;
  sk_done : ∀ i local, pc_of s i = SDone local → cstr local ∈ published s;
}.

(** Buffers handed to the code have its size. *)
Definition sized (a : skip_action) : Prop :=
  match a with
  | ARead local => length local = PROVFS_SKIP_MAX
  | AStage staging => length staging = PROVFS_SKIP_MAX
  | _ => True
  end.

(** ** Lemmas *)

(** *** Matching *)

Lemma match_loop_split fuel list path :
  length list < fuel →
  match_loop fuel (Some list) path =
  existsb (λ tok, negb (bool_decide (tok = [])) && contains tok path) (split_on comma_byte list).
Proof.
  revert list. induction fuel as [|fuel IH]; intros list Hf; [lia|].
  cbn [match_loop strsep]. destruct (split_once comma_byte list) as [[tok rest]|] eqn:E.
  - apply split_once_Some in E as [-> Hc]. rewrite split_on_app by done. cbn [existsb].
    case_match; [done|]. apply IH. rewrite length_app in Hf. simpl in Hf. lia.
  - apply split_once_None in E. rewrite split_on_no_sep by done. cbn [existsb].
    rewrite orb_false_r. case_match; [done|]. by destruct fuel.
Qed.

Lemma skips_spec list path :
  existsb (λ tok, negb (bool_decide (tok = [])) && contains tok path) (split_on comma_byte list) = true ↔
  skips list path.
Proof.
  rewrite existsb_exists. unfold skips. split.
  - intros (tok & Hin & H). apply andb_true_iff in H as [Hne Hc].
    apply negb_true_iff, bool_decide_eq_false in Hne. apply contains_spec in Hc as (a & b & ->).
    exists tok, a, b. split_and!; [by apply list_elem_of_In|done|done].
  - intros (tok & a & b & Hin & Hne & ->). exists tok. split; [by apply list_elem_of_In|].
    apply andb_true_iff. rewrite negb_true_iff, bool_decide_eq_false. split; [done|].
    apply contains_spec. by eexists _, _.
Qed.

(** The matcher and the sysctl run alone. *)
Lemma snapshot_list buf junk : list_ok buf → length junk = PROVFS_SKIP_MAX → cstr (strscpy junk buf) = cstr buf.
Proof.
  intros [_ Ht] Hj. apply cstr_strscpy_same; [by intros ->|]. by rewrite Hj.
Qed.

Lemma path_skipped_spec buf junk path :
  list_ok buf → length junk = PROVFS_SKIP_MAX →
  ((provfs_path_skipped buf junk path).2 = true ↔
   match path with Some p => skips (cstr buf) p | None => True end) ∧
  balanced (provfs_path_skipped buf junk path).1.
Proof.
  intros Hb Hj. destruct path as [p|]; [|split; [done|apply balanced_nil]]. unfold provfs_path_skipped.
  cbv [mbind logged_mbind tell mret logged_mret]. cbn [fst snd]. rewrite snapshot_list by done.
  split; [|by apply balanced_pair]. rewrite match_loop_split by lia. apply skips_spec.
Qed.

(** A sysctl write replaces the list by what was staged, cut to the buffer; a
    failed or a reading access leaves it. *)
Lemma sysctl_skip_prefixes_spec proc_dostring write buf junk :
  list_ok buf → length junk = PROVFS_SKIP_MAX →
  let r := (provfs_sysctl_skip_prefixes proc_dostring write buf junk).2 in
  let answer := proc_dostring write (strscpy junk buf) in
  r.1 = answer.1 ∧ list_ok r.2 ∧
  cstr r.2 = (if write && (answer.1 =? 0)%Z then take (PROVFS_SKIP_MAX - 1) (cstr answer.2) else cstr buf) ∧
  balanced (provfs_sysctl_skip_prefixes proc_dostring write buf junk).1.
Proof.
  intros Hb Hj. unfold provfs_sysctl_skip_prefixes. cbv [mbind logged_mbind tell mret logged_mret]. cbn [fst snd].
  destruct (proc_dostring write (strscpy junk buf)) as [ret staging]. cbn [fst snd].
  destruct (Z.eqb_spec ret 0) as [->|Hr], write; cbn [negb orb andb fst snd].
  2-4: split_and!; [done..|by apply balanced_pair].
  pose proof (list_length _ Hb) as Hl. assert (Hne : buf ≠ []) by (by intros ->).
  split_and!; [done| | |by do 2 apply balanced_pair].
  - split; [by rewrite length_strscpy|]. rewrite cstr_strscpy, Hl by done. rewrite length_take.
    unfold PROVFS_SKIP_MAX. lia.
  - by rewrite cstr_strscpy, Hl.
Qed.

(** *** Copying *)

Lemma take_snoc_lookup {A} (l : list A) k x : l !! k = Some x → take (S k) l = take k l ++ [x].
Proof. intros H. by rewrite (take_S_r _ _ _ H). Qed.

Lemma copy_byte_more k src dst dst' :
  copied k src dst → length src = length dst → copy_byte dst src k = (dst', false) →
  copied (S k) src dst' ∧ length dst' = length dst.
Proof.
  intros [Ht Hn Hr] Hl. unfold copy_byte. case_match eqn:Hk; [|done]. apply Nat.ltb_lt in Hk.
  destruct (lookup_lt_is_Some_2 src k ltac:(lia)) as [c Hc]. rewrite Hc. simpl.
  intros [= <- Hnul]. apply bool_decide_eq_false in Hnul.
  split; [|by rewrite length_insert]. split.
  - rewrite (take_snoc_lookup _ k c) by (by apply list_lookup_insert_eq).
    rewrite (take_snoc_lookup src k c) by done. rewrite take_insert_ge by lia. by rewrite Ht.
  - rewrite (take_snoc_lookup src k c) by done. apply nonul_app. split; [done|].
    unfold nonul. rewrite list_elem_of_singleton. congruence.
  - by rewrite length_insert.
Qed.

(** The prefix that was copied, when the next byte ends it. *)
Lemma cstr_at_nul l k : nonul (take k l) → l !! k = Some NUL → cstr l = take k l.
Proof.
  intros Hn Hk. rewrite <-(take_drop_middle l k NUL Hk) at 1. by apply cstr_app_nul.
Qed.

Lemma cstr_take_nonul l k : nonul (take k l) → take k (cstr l) = take k l.
Proof.
  destruct (cstr_split l) as [E|[rest E]]; [by rewrite <-E|].
  intros Hn. destruct (Nat.le_gt_cases k (length (cstr l))) as [Hk|Hk].
  - rewrite E at 2. by rewrite take_app_le.
  - exfalso. apply Hn. rewrite E. apply list_elem_of_lookup. exists (length (cstr l)).
    rewrite lookup_take_lt by done. by apply list_lookup_middle.
Qed.

Lemma copy_byte_last k src dst dst' :
  copied k src dst → length src = length dst → copy_byte dst src k = (dst', true) →
  cstr dst' = take (length dst - 1) (cstr src) ∧ length dst' = length dst.
Proof.
  intros [Ht Hn Hr] Hl Hc.
  assert (Hstop : ∀ d, d = <[k := NUL]> dst → cstr d = take k src ∧ length d = length dst).
  { intros d ->. split; [|by rewrite length_insert].
    rewrite (cstr_at_nul _ k); [by rewrite take_insert_ge, Ht|by rewrite take_insert_ge, Ht|].
    by apply list_lookup_insert_eq. }
  unfold copy_byte in Hc. case_match eqn:Hk; injection Hc as <-.
  - match goal with H : bool_decide _ = true |- _ => apply bool_decide_eq_true in H as Hc end.
    rewrite Hc. destruct (Hstop _ eq_refl) as [-> ->]. split; [|done].
    apply Nat.ltb_lt in Hk.
    destruct (lookup_lt_is_Some_2 src k ltac:(lia)) as [c Hsrc]. rewrite Hsrc in Hc. simpl in Hc. subst c.
    rewrite (cstr_at_nul src k) by done. symmetry. apply take_ge. rewrite length_take. lia.
  - destruct (Hstop _ eq_refl) as [-> ->]. split; [|done]. apply Nat.ltb_ge in Hk.
    replace (length dst - 1) with k by lia. by rewrite cstr_take_nonul.
Qed.

Lemma copied_start src dst : dst ≠ [] → copied 0 src dst.
Proof. intros H. split; [done|apply not_elem_of_nil|]. destruct dst; simpl; [done|lia]. Qed.

(** *** The invariant *)

Lemma pc_of_set i pc s j : pc_of (set_pc i pc s) j = if decide (i = j) then pc else pc_of s j.
Proof.
  unfold pc_of. simpl. case_decide; [subst|]; by rewrite ?lookup_insert_eq, ?lookup_insert_ne.
Qed.

Lemma pc_of_threads i pc s s' j :
  threads s' = threads s → pc_of (set_pc i pc s') j = if decide (i = j) then pc else pc_of s j.
Proof. intros H. rewrite pc_of_set. unfold pc_of. by rewrite H. Qed.

(** A thread that copies excludes a writer. *)
Lemma copying_no_writer s i k local : skip_ok s → pc_of s i = SCopy k local → writer s = None.
Proof.
  intros Hs Hi. destruct (writer s) as [j|] eqn:Hw; [|done].
  apply (sk_writer s Hs) in Hw as [Hr _]. apply (sk_copy s Hs) in Hi as [Hin _]. set_solver.
Qed.

(** The writer is alone. *)
Lemma storing_alone s i k staging :
  skip_ok s → pc_of s i = SStore k staging →
  readers s = ∅ ∧ (∀ j k' st', pc_of s j = SStore k' st' → j = i) ∧
  (∀ j k' l', pc_of s j ≠ SCopy k' l').
Proof.
  intros Hs Hi. apply (sk_store s Hs) in Hi as (Hw & _).
  destruct (sk_writer s Hs i Hw) as [Hr _]. split_and!; [done| |].
  - intros j k' st' (Hw' & _)%(sk_store s Hs). congruence.
  - intros j k' l' (Hin & _)%(sk_copy s Hs). set_solver.
Qed.

(** Cases on whether a thread is the one that moved. *)
Ltac moved := rewrite pc_of_threads with (s := _) by reflexivity; case_decide; simplify_eq.

Ltac by_thread s :=
  repeat match goal with
  | H : pc_of (set_pc ?i ?pc ?s') ?j = _ |- _ =>
      rewrite (pc_of_threads i pc s s' j) in H by reflexivity; case_decide; simplify_eq
  | |- context [pc_of (set_pc ?i ?pc ?s') ?j] =>
      rewrite (pc_of_threads i pc s s' j) by reflexivity; case_decide; simplify_eq
  end.

Lemma read_ok s i local s' :
  skip_ok s → length local = PROVFS_SKIP_MAX → skip_step i (ARead local) s = Some s' → skip_ok s'.
Proof.
  intros Hs Hl H. unfold skip_step in H. destruct (pc_of s i) eqn:Hi; try done.
  destruct (writer s) as [|] eqn:Hw; simplify_eq. destruct Hs as [H1 H2 H3 H4 H5 H6 H7].
  split; cbn [set_pc shared readers writer published].
  - done.
  - intros j k l Hj. by_thread s.
    + split_and!; [set_solver|done|]. apply copied_start. by intros ->.
    + destruct (H2 _ _ _ Hj) as (? & ? & ?). split_and!; [set_solver|done..].
  - intros j k l Hj. by_thread s. by destruct (H3 _ _ _ Hj) as (? & ? & ?); simplify_eq.
  - done.
  - intros j l Hj. by_thread s. by eapply H5.
  - intros _. by apply H6.
  - intros j l Hj. by_thread s. by eapply H7.
Qed.

(** A matcher copies a byte, or its last one. *)
Lemma copy_read_ok s i k local s' :
  skip_ok s → pc_of s i = SCopy k local → skip_step i ACopy s = Some s' → skip_ok s'.
Proof.
  intros Hs Hi H. unfold skip_step in H. rewrite Hi in H.
  pose proof (copying_no_writer s i k local Hs Hi) as Hw.
  destruct Hs as [H1 H2 H3 H4 H5 H6 H7]. destruct (H2 _ _ _ Hi) as (Hin & Hl & Hc).
  destruct (copy_byte local (shared s) k) as [local' last] eqn:E. injection H as <-.
  destruct last.
  + destruct (copy_byte_last _ _ _ _ Hc ltac:(lia) E) as [Hs' Hl'].
    split; cbn [set_pc shared readers writer published].
    * done.
    * intros j k' l Hj. by_thread s. destruct (H2 _ _ _ Hj) as (? & ? & ?). split_and!; [set_solver|done..].
    * intros j k' l Hj. by_thread s. by eapply H3.
    * intros j Hj. congruence.
    * intros j l Hj. by_thread s. by eapply H5.
    * done.
    * intros j l Hj. by_thread s; [|by eapply H7]. rewrite Hs'.
      destruct (H6 Hw) as [Hp Ht]. rewrite take_ge by (rewrite Hl; lia).
      by apply last_Some_elem_of.
  + destruct (copy_byte_more _ _ _ _ Hc ltac:(lia) E) as [Hc' Hl'].
    split; cbn [set_pc shared readers writer published].
    * done.
    * intros j k' l Hj. by_thread s; [split_and!; [done|lia|done]|by apply H2].
    * intros j k' l Hj. by_thread s. by eapply H3.
    * intros j Hj. congruence.
    * intros j l Hj. by_thread s. by eapply H5.
    * done.
    * intros j l Hj. by_thread s. by eapply H7.
Qed.

(** The writer copies a byte, or its last one. *)
Lemma copy_store_ok s i k staging s' :
  skip_ok s → pc_of s i = SStore k staging → skip_step i ACopy s = Some s' → skip_ok s'.
Proof.
  intros Hs Hi H. unfold skip_step in H. rewrite Hi in H.
  destruct (storing_alone s i k staging Hs Hi) as (Hr & Honly & Hnone).
  destruct Hs as [H1 H2 H3 H4 H5 H6 H7]. destruct (H3 _ _ _ Hi) as (Hw & Hl & Hc).
  destruct (copy_byte (shared s) staging k) as [shared' last] eqn:E. injection H as <-.
  destruct last.
  + destruct (copy_byte_last _ _ _ _ Hc ltac:(lia) E) as [Hs' Hl'].
    split; cbn [set_pc shared readers writer published].
    * lia.
    * intros j k' l Hj. by_thread s. by apply Hnone in Hj.
    * intros j k' l Hj. by_thread s. by apply Honly in Hj.
    * done.
    * intros j l Hj. by_thread s. by eapply H5.
    * intros _. split; [by rewrite last_snoc|]. rewrite Hs', length_take. unfold PROVFS_SKIP_MAX in *. lia.
    * intros j l Hj. by_thread s. apply elem_of_app. left. by eapply H7.
  + destruct (copy_byte_more _ _ _ _ Hc ltac:(lia) E) as [Hc' Hl'].
    split; cbn [set_pc shared readers writer published].
    * lia.
    * intros j k' l Hj. by_thread s. by apply Hnone in Hj.
    * intros j k' l Hj. by_thread s; [done|]. by apply Honly in Hj.
    * intros j Hj. split; [done|]. rewrite Hw in Hj. injection Hj as ->. exists (S k), staging. by_thread s. done.
    * intros j l Hj. by_thread s. by eapply H5.
    * congruence.
    * intros j l Hj. by_thread s. by eapply H7.
Qed.

Lemma stage_ok s i staging s' :
  skip_ok s → length staging = PROVFS_SKIP_MAX → skip_step i (AStage staging) s = Some s' → skip_ok s'.
Proof.
  intros Hs Hl H. unfold skip_step in H. destruct (pc_of s i) eqn:Hi; simplify_eq.
  destruct Hs as [H1 H2 H3 H4 H5 H6 H7]. split; cbn [set_pc shared readers writer published]; try done.
  - intros j k l Hj. by_thread s. by apply H2.
  - intros j k l Hj. by_thread s. by eapply H3.
  - intros j Hj. destruct (H4 j Hj) as (? & k & st & Hp). split; [done|].
    exists k, st. by_thread s; congruence.
  - intros j l Hj. by_thread s; [done|]. by eapply H5.
  - intros j l Hj. by_thread s. by eapply H7.
Qed.

Lemma write_ok s i s' : skip_ok s → skip_step i AWrite s = Some s' → skip_ok s'.
Proof.
  intros Hs H. unfold skip_step in H. destruct (pc_of s i) eqn:Hi; simplify_eq.
  destruct (writer s) eqn:Hw; simplify_eq. case_decide as Hr; simplify_eq.
  destruct Hs as [H1 H2 H3 H4 H5 H6 H7]. split; cbn [set_pc shared readers writer published]; try done.
  - intros j k l Hj. by_thread s. by apply H2.
  - intros j k l Hj. by_thread s.
    + split_and!; [done|by eapply H5|]. apply copied_start. intros E. by rewrite E in H1.
    + destruct (H3 _ _ _ Hj) as (? & _). congruence.
  - intros j [= <-]. split; [done|]. do 2 eexists. by_thread s. done.
  - intros j l Hj. by_thread s. by eapply H5.
  - intros j l Hj. by_thread s. by eapply H7.
Qed.

Lemma return_ok s i s' : skip_ok s → skip_step i AReturn s = Some s' → skip_ok s'.
Proof.
  intros Hs H. unfold skip_step in H. destruct (pc_of s i) eqn:Hi; simplify_eq.
  destruct Hs as [H1 H2 H3 H4 H5 H6 H7]. split; cbn [set_pc shared readers writer published]; try done.
  - intros j k l Hj. by_thread s. by apply H2.
  - intros j k l Hj. by_thread s. by eapply H3.
  - intros j Hj. destruct (H4 j Hj) as (? & k & st & Hp). split; [done|].
    exists k, st. by_thread s; congruence.
  - intros j l Hj. by_thread s. by eapply H5.
  - intros j l Hj. by_thread s. by eapply H7.
Qed.

Lemma skip_steps_ok l s s' :
  Forall (λ ia, sized ia.2) l → skip_ok s → skip_steps l s = Some s' → skip_ok s'.
Proof.
  intros Hl. revert s. induction Hl as [|[i a] l Ha _ IH]; intros s Hs; simpl; [by intros [= <-]|].
  destruct (skip_step i a s) as [s1|] eqn:H; [|done]. apply IH. destruct a; simpl in Ha.
  - by eapply read_ok.
  - destruct (pc_of s i) eqn:Hi; [|by eapply copy_read_ok| | |by eapply copy_store_ok].
    all: unfold skip_step in H; by rewrite Hi in H.
  - by eapply stage_ok.
  - by eapply write_ok.
  - by eapply return_ok.
Qed.

Lemma skip_boot_ok : skip_ok skip_boot.
Proof.
  split; try (intros i *; done).
  - by vm_compute.
  - intros _. split; [by vm_compute|]. change (cstr (shared skip_boot)) with (cstr provfs_skip_prefixes_init).
    vm_compute. lia.
Qed.

(** *** Where the lists come from *)

(** Every list there has been is the built-in one or one that was staged. *)
Record staged_only (P : bytes → Prop) (s : skip_state) : Prop := {
  so_published : ∀ x, x ∈ published s →
    x = PROVFS_SKIP_DEFAULT ∨ ∃ staging, P staging ∧ x = take (PROVFS_SKIP_MAX - 1) (cstr staging);
  so_staged : ∀ i staging, pc_of s i = SStaged staging → P staging;
  so_store : ∀ i k staging, pc_of s i = SStore k staging → P staging;
}.

Lemma staged_step (P : bytes → Prop) i a s s' :
  (∀ staging, a = AStage staging → P staging) → skip_ok s → staged_only P s →
  skip_step i a s = Some s' → staged_only P s'.
Proof.
  intros Ha Hs [H1 H2 H3] H. unfold skip_step in H.
  destruct a as [local| |staging| |]; destruct (pc_of s i) as [|k l|l|st|k st] eqn:Hi; try done;
    repeat case_match; simplify_eq.
  all: split; cbn [set_pc published];
    [try exact H1|intros j * Hj; by_thread s; eauto|intros j * Hj; by_thread s; eauto].
  intros x [Hx|Hx]%elem_of_app; [by apply H1|]. apply list_elem_of_singleton in Hx as ->.
  right. exists st. split; [by eapply H3|].
  destruct (sk_store s Hs _ _ _ Hi) as (_ & Hl & Hc). pose proof (sk_length s Hs) as Hsl.
  match goal with E : copy_byte _ _ _ = _ |- _ =>
    destruct (copy_byte_last _ _ _ _ Hc ltac:(lia) E) as [-> _] end.
  by rewrite Hsl.
Qed.

Lemma skip_run_ok (P : bytes → Prop) l s s' :
  Forall (λ ia, sized ia.2 ∧ ∀ staging, ia.2 = AStage staging → P staging) l →
  skip_ok s → staged_only P s → skip_steps l s = Some s' → skip_ok s' ∧ staged_only P s'.
Proof.
  intros Hl. revert s. induction Hl as [|[i a] l [Hz Ha] _ IH]; intros s Hs Hp; simpl; [by intros [= <-]|].
  destruct (skip_step i a s) as [s1|] eqn:H; [|done]. apply IH.
  - apply (skip_steps_ok [(i, a)] s); [by constructor|done|]. simpl. by rewrite H.
  - by eapply staged_step.
Qed.

(** ** Theorems *)

(** C11: a matcher never sees a torn list: in any interleaving of matchers and
    sysctl writes, byte by byte, a finished snapshot is the built-in list or
    the whole of one value that was written, cut at 1023 bytes; the matcher
    then skips a path exactly when a non-empty item of that list occurs in it,
    and a path it cannot render. *)
Theorem skip_list_never_torn (l : list (nat * skip_action)) (s : skip_state) (i : nat) (local : bytes)
    (Hl : Forall (λ ia, sized ia.2) l) (Hs : skip_steps l skip_boot = Some s) (Hi : pc_of s i = SDone local) :
  ∃ list,
    (list = PROVFS_SKIP_DEFAULT ∨
     ∃ j staging, (j, AStage staging) ∈ l ∧ list = take (PROVFS_SKIP_MAX - 1) (cstr staging)) ∧
    (∀ path, match_loop (S (length (cstr local))) (Some (cstr local)) path = true ↔ skips list path).
Proof.
  destruct (skip_run_ok (λ st, ∃ j, (j, AStage st) ∈ l) l skip_boot s) as [Hok [Hpub _ _]].
  - apply Forall_forall. intros [j a] Hin. split; [by apply (proj1 (Forall_forall _ _) Hl _ Hin)|].
    simpl. intros st ->. by exists j.
  - apply skip_boot_ok.
  - split; [|done..]. intros x ->%list_elem_of_singleton. by left.
  - done.
  - exists (cstr local). split.
    + apply (sk_done s Hok), Hpub in Hi as [?|(st & [j ?] & ?)]; [by left|right; by exists j, st].
    + intros path. rewrite match_loop_split by lia. apply skips_spec.
Qed.

(** A writer publishes [/a/] while a matcher waits for the lock. *)
Definition sample_staging : bytes := char_array PROVFS_SKIP_MAX (blit "/a/,").

Definition sample_skip_run : list (nat * skip_action) :=
  [(1, ARead (junk PROVFS_SKIP_MAX))] ++ replicate (S (length PROVFS_SKIP_DEFAULT)) (1, ACopy) ++
  [(1, AStage sample_staging); (1, AWrite)] ++ replicate 5 (1, ACopy) ++
  [(0, ARead (junk PROVFS_SKIP_MAX))] ++ replicate 5 (0, ACopy).

Definition sample_skip_state : skip_state := default skip_boot (skip_steps sample_skip_run skip_boot).
Definition sample_snapshot : bytes :=
  match pc_of sample_skip_state 0 with SDone local => local | _ => [] end.

Lemma skip_list_never_torn_witness :
  ∃ list, (∀ path, match_loop (S (length (cstr sample_snapshot))) (Some (cstr sample_snapshot)) path = true ↔
    skips list path).
Proof.
  destruct (skip_list_never_torn sample_skip_run sample_skip_state 0 sample_snapshot) as (list & _ & H).
  - unfold sample_skip_run. rewrite !Forall_app. split_and!.
    + constructor; [apply length_replicate|constructor].
    + apply Forall_forall. by intros x [-> _]%elem_of_replicate.
    + repeat constructor.
    + apply Forall_forall. by intros x [-> _]%elem_of_replicate.
    + constructor; [apply length_replicate|constructor].
    + apply Forall_forall. by intros x [-> _]%elem_of_replicate.
  - by vm_compute.
  - by vm_compute.
  - by exists list.
Defined.
