(* ===== verification/LsmWork.v ===== *)
(** Deferred stamping in the kernel module ([lsm/provfs_work.c]): the bounded
    queue.  Any number of closing tasks run [provfs_enqueue_stamp] at the same
    time as the workers run [provfs_stamp_worker] and an administrator changes
    [queue_max]; an execution is a sequence of their atomic steps. *)

From S2P Require Import Prelude RustStr CStr Xattrs LsmIdent.
From Stdlib Require Import Strings.Byte.

Open Scope Z_scope.

(** ** Definitions *)

(** A dentry is known by the path it stands for. *)
Abbreviation dentry := bytes.

(** [int] and [long long] arithmetic of the atomics. *)
Definition to_int (z : Z) : Z := (z + 2 ^ 31) mod 2 ^ 32 - 2 ^ 31.
Definition to_llong (z : Z) : Z := (z + 2 ^ 63) mod 2 ^ 64 - 2 ^ 63.

Record provfs_stamp_work : Type := {
  w_dentry : dentry;
  w_session : bytes; w_ts : bytes; w_tool : bytes; w_turn : bytes; w_intent : bytes;
}.

(** The arguments of [provfs_enqueue_stamp]; [None] is [NULL]. *)
Record enqueue_args : Type := {
  a_dentry : option dentry;
  a_session : option bytes; a_ts : option bytes;
  a_tool : option bytes; a_turn : option bytes; a_intent : option bytes;
}.

(** [kzalloc] and the copies. *)
Definition make_work (d : dentry) (session ts : bytes) (a : enqueue_args) : provfs_stamp_work :=
  {| w_dentry := d;
     w_session := strscpy (replicate PROV_IDENT_MAX NUL) session;
     w_ts := strscpy (replicate PROV_TS_MAX NUL) ts;
     w_tool := strscpy (replicate PROV_FIELD_MAX NUL) (default [] (a_tool a));
     w_turn := strscpy (replicate PROV_FIELD_MAX NUL) (default [] (a_turn a));
     w_intent := strscpy (replicate PROV_FIELD_MAX NUL) (default [] (a_intent a)) |}.

(** The attribute writes of one work item, in order. *)
Definition unless_empty (key : str) (buf : bytes) : list (str * bytes) :=
  if decide (cstr buf = []) then [] else [(key, cstr buf)].

Definition worker_writes (w : provfs_stamp_work) : list (str * bytes) :=
  [(KEY_SESSION, cstr (w_session w)); (KEY_TS, cstr (w_ts w))] ++
  unless_empty KEY_TOOL (w_tool w) ++ unless_empty KEY_TURN (w_turn w) ++
  unless_empty KEY_INTENT (w_intent w).

(** Where a task is inside [provfs_enqueue_stamp]. *)
Inductive enq_pc : Type :=
| EIdle
| EGuards (a : enqueue_args)                                 (** at the [NULL] tests *)
| EDepth (d : dentry) (session ts : bytes) (a : enqueue_args) (** at [atomic_read] *)
| ELimit (seen : Z) (d : dentry) (session ts : bytes) (a : enqueue_args)
                                                             (** at [READ_ONCE], the depth read *)
| EAlloc (d : dentry) (session ts : bytes) (a : enqueue_args) (** at [kzalloc] *)
| EInc (w : provfs_stamp_work)                               (** at [atomic_inc] *)
| EQueue (w : provfs_stamp_work)                             (** at [queue_work] *)
| EUndo (w : provfs_stamp_work)                              (** at [dput], [kfree] *)
| EDrop.                                                     (** at [atomic64_inc] *)

(** Where a worker is inside [provfs_stamp_worker]. *)
Inductive work_pc : Type :=
| WWrite (w : provfs_stamp_work) (rest : list (str * bytes))
| WDec                                                       (** after [dput] *)
| WFree.

Record module_state : Type := {
  wq : bool;                       (** [provfs_wq] is not [NULL] *)
  depth : Z; dropped : Z; queue_max : Z;
  slots : list enq_pc;             (** the tasks that may be in the hook at once *)
  pending : list provfs_stamp_work;
  running : list work_pc;
  refs : gmap dentry Z;            (** references the module holds *)
  store_of : gmap (dentry * str) bytes; (** the attributes *)
  entered : nat; finished : nat; drops : nat; (** how many calls, so far *)
}.

Definition set_slots f s := {| wq := wq s; depth := depth s; dropped := dropped s;
  queue_max := queue_max s; slots := f (slots s); pending := pending s; running := running s;
  refs := refs s; store_of := store_of s; entered := entered s; finished := finished s; drops := drops s |}.
Definition set_depth z s := {| wq := wq s; depth := to_int z; dropped := dropped s;
  queue_max := queue_max s; slots := slots s; pending := pending s; running := running s;
  refs := refs s; store_of := store_of s; entered := entered s; finished := finished s; drops := drops s |}.
Definition set_work p r s := {| wq := wq s; depth := depth s; dropped := dropped s;
  queue_max := queue_max s; slots := slots s; pending := p; running := r;
  refs := refs s; store_of := store_of s; entered := entered s; finished := finished s; drops := drops s |}.
Definition set_store x s := {| wq := wq s; depth := depth s; dropped := dropped s;
  queue_max := queue_max s; slots := slots s; pending := pending s; running := running s;
  refs := refs s; store_of := x; entered := entered s; finished := finished s; drops := drops s |}.
Definition set_max m s := {| wq := wq s; depth := depth s; dropped := dropped s;
  queue_max := m; slots := slots s; pending := pending s; running := running s;
  refs := refs s; store_of := store_of s; entered := entered s; finished := finished s; drops := drops s |}.
Definition add_ref (n : Z) (d : dentry) s := {| wq := wq s; depth := depth s; dropped := dropped s;
  queue_max := queue_max s; slots := slots s; pending := pending s; running := running s;
  refs := <[d := default 0 (refs s !! d) + n]> (refs s); store_of := store_of s;
  entered := entered s; finished := finished s; drops := drops s |}.
Definition count_entered s := {| wq := wq s; depth := depth s; dropped := dropped s;
  queue_max := queue_max s; slots := slots s; pending := pending s; running := running s;
  refs := refs s; store_of := store_of s; entered := S (entered s); finished := finished s; drops := drops s |}.
Definition count_finished s := {| wq := wq s; depth := depth s; dropped := dropped s;
  queue_max := queue_max s; slots := slots s; pending := pending s; running := running s;
  refs := refs s; store_of := store_of s; entered := entered s; finished := S (finished s); drops := drops s |}.
Definition count_drop s := {| wq := wq s; depth := depth s; dropped := to_llong (dropped s + 1);
  queue_max := queue_max s; slots := slots s; pending := pending s; running := running s;
  refs := refs s; store_of := store_of s; entered := entered s; finished := finished s; drops := S (drops s) |}.

Definition goto (i : nat) (pc : enq_pc) : module_state → module_state := set_slots (λ l, <[i := pc]> l).

(** One step of the task in slot [i]; [ok] is the answer of [kzalloc] or
    [queue_work]. *)
Definition enqueue_step (i : nat) (ok : bool) (s : module_state) : option module_state :=
  match slots s !! i with
  | Some (EGuards a) =>
      Some (match wq s, a_dentry a, a_session a, a_ts a with
            | true, Some d, Some session, Some ts => goto i (EDepth d session ts a) s
            | _, _, _, _ => goto i EDrop s
            end)
  | Some (EDepth d session ts a) => Some (goto i (ELimit (depth s) d session ts a) s)
  | Some (ELimit seen d session ts a) =>
      Some (if queue_max s <=? seen then goto i EDrop s else goto i (EAlloc d session ts a) s)
  | Some (EAlloc d session ts a) =>
      Some (if ok then goto i (EInc (make_work d session ts a)) (add_ref 1 d s) else goto i EDrop s)
  | Some (EInc w) => Some (goto i (EQueue w) (set_depth (depth s + 1) s))
  | Some (EQueue w) =>
      Some (if ok then goto i EIdle (set_work (pending s ++ [w]) (running s) s)
            else goto i (EUndo w) (set_depth (depth s - 1) s))
  | Some (EUndo w) => Some (goto i EDrop (add_ref (-1) (w_dentry w) s))
  | Some EDrop => Some (goto i EIdle (count_drop s))
  | _ => None
  end.

(** One step of the worker running item [j]; [ok] is the answer of
    [__vfs_setxattr_noperm], which is ignored. *)
Definition worker_step (j : nat) (ok : bool) (s : module_state) : option module_state :=
  match running s !! j with
  | Some (WWrite w ((key, value) :: rest)) =>
      let s := set_work (pending s) (<[j := WWrite w rest]> (running s)) s in
      Some (if ok then set_store (<[(w_dentry w, key) := value]> (store_of s)) s else s)
  | Some (WWrite w []) =>
      Some (add_ref (-1) (w_dentry w) (set_work (pending s) (<[j := WDec]> (running s)) s))
  | Some WDec => Some (set_depth (depth s - 1) (set_work (pending s) (<[j := WFree]> (running s)) s))
  | Some WFree => Some (count_finished (set_work (pending s) (delete j (running s)) s))
  | None => None
  end.

Definition provfs_queue_max_min : Z := 1.
Definition provfs_queue_max_max : Z := Z.shiftl 1 20.

Inductive action : Type :=
| ACall (i : nat) (a : enqueue_args)  (** a task calls [provfs_enqueue_stamp] *)
| AEnqueue (i : nat) (ok : bool)
| AStart (k : nat)                    (** the workqueue starts a pending item *)
| AWork (j : nat) (ok : bool)
| ASetMax (v : Z).                    (** [proc_dointvec_minmax] *)

Definition step (a : action) (s : module_state) : option module_state :=
  match a with
  | ACall i args =>
      match slots s !! i with
      | Some EIdle => Some (goto i (EGuards args) (count_entered s))
      | _ => None
      end
  | AEnqueue i ok => enqueue_step i ok s
  | AStart k =>
      match pending s !! k with
      | Some w => Some (set_work (delete k (pending s)) (running s ++ [WWrite w (worker_writes w)]) s)
      | None => None
      end
  | AWork j ok => worker_step j ok s
  | ASetMax v =>
      Some (if (provfs_queue_max_min <=? v) && (v <=? provfs_queue_max_max) then set_max v s else s)
  end.

Fixpoint steps (l : list action) (s : module_state) : option module_state :=
  match l with
  | [] => Some s
  | a :: l' => match step a s with Some s' => steps l' s' | None => None end
  end.

(** The two read-only sysctls: a snapshot of the counter, or the refusal of a
    write. *)
Definition EPERM : Z := 1.
Definition provfs_sysctl_depth (write : bool) (s : module_state) : Z + Z :=
  if write then inl (- EPERM) else inr (depth s).
Definition provfs_sysctl_dropped (write : bool) (s : module_state) : Z + Z :=
  if write then inl (- EPERM) else inr (dropped s).

(** [provfs_enqueue_stamp] run from its call to its return with no other step
    in between; [alloc] and [queue] are the answers of [kzalloc] and
    [queue_work].  The longest path takes eight steps. *)
Fixpoint run_slot (fuel : nat) (i : nat) (alloc queue : bool) (s : module_state) : option module_state :=
  match slots s !! i with
  | Some EIdle => Some s
  | Some pc =>
      match fuel with
      | O => None
      | S fuel' =>
          let ok := match pc with EAlloc _ _ _ _ => alloc | _ => queue end in
          match enqueue_step i ok s with
          | Some s' => run_slot fuel' i alloc queue s'
          | None => None
          end
      end
  | None => None
  end.

Definition provfs_enqueue_stamp (i : nat) (a : enqueue_args) (alloc queue : bool) (s : module_state)
    : option module_state :=
  match step (ACall i a) s with
  | Some s' => run_slot 8 i alloc queue s'
  | None => None
  end.

(** [provfs_work_init]: the answers are those of [alloc_workqueue] and
    [register_sysctl]; the state at boot has its counters at zero. *)
Definition ENOMEM : Z := 12.

Definition boot_state (n : nat) : module_state :=
  {| wq := false; depth := 0; dropped := 0; queue_max := 1024; slots := replicate n EIdle;
     pending := []; running := []; refs := ∅; store_of := ∅;
     entered := 0; finished := 0; drops := 0 |}.

Definition set_wq b s := {| wq := b; depth := depth s; dropped := dropped s;
  queue_max := queue_max s; slots := slots s; pending := pending s; running := running s;
  refs := refs s; store_of := store_of s; entered := entered s; finished := finished s; drops := drops s |}.

(** The returned value, whether the sysctl table is there, and the state. *)
Definition provfs_work_init (alloc_ok register_ok : bool) (s : module_state) : Z * bool * module_state :=
  let s := set_wq alloc_ok s in
  if negb (wq s) then (- ENOMEM, false, s) else (0, register_ok, s).

Definition sum_of {A} (f : A → Z) (l : list A) : Z := foldr (λ x z, f x + z) 0 l.

(** The workqueue run until it is empty, one item at a time. *)
Definition work_action (s : module_state) : option action :=
  match running s, pending s with
  | _ :: _, _ => Some (AWork 0 true)
  | [], _ :: _ => Some (AStart 0)
  | [], [] => None
  end.

Fixpoint drain (fuel : nat) (s : module_state) : module_state :=
  match fuel, work_action s with
  | S fuel', Some a => match step a s with Some s' => drain fuel' s' | None => s end
  | _, _ => s
  end.

(** How many steps the workers still have to make. *)
Definition run_size (pc : work_pc) : Z :=
  match pc with WWrite _ rest => Z.of_nat (length rest) + 3 | WDec => 2 | WFree => 1 end.
Definition pending_size (w : provfs_stamp_work) : Z := Z.of_nat (length (worker_writes w)) + 4.
Definition work_size (s : module_state) : Z :=
  sum_of run_size (running s) + sum_of pending_size (pending s).

(** [provfs_work_exit]: [destroy_workqueue] drains the queue. *)
Definition provfs_work_exit (s : module_state) : module_state :=
  if wq s then set_wq false (drain (Z.to_nat (work_size s)) s) else s.

(** ** Specification *)

(** Counted in [queue_depth]; past the reading of a depth below [m] and not yet
    counted; in the call. *)
Definition slot_depth (pc : enq_pc) : Z := match pc with EQueue _ => 1 | _ => 0 end.
Definition slot_admitted (m : Z) (pc : enq_pc) : Z :=
  match pc with
  | ELimit seen _ _ _ _ => if seen <? m then 1 else 0
  | EAlloc _ _ _ _ | EInc _ => 1
  | _ => 0
  end.
Definition slot_busy (pc : enq_pc) : Z := match pc with EIdle => 0 | _ => 1 end.
Definition run_depth (pc : work_pc) : Z := match pc with WWrite _ _ | WDec => 1 | WFree => 0 end.

(** References to a dentry. *)
Definition work_ref (d : dentry) (w : provfs_stamp_work) : Z := if decide (w_dentry w = d) then 1 else 0.
Definition slot_ref (d : dentry) (pc : enq_pc) : Z :=
  match pc with EInc w | EQueue w | EUndo w => work_ref d w | _ => 0 end.
Definition run_ref (d : dentry) (pc : work_pc) : Z :=
  match pc with WWrite w _ => work_ref d w | _ => 0 end.

Definition live (s : module_state) : Z :=
  sum_of slot_depth (slots s) + Z.of_nat (length (pending s)) + sum_of run_depth (running s).

Definition ref_count (s : module_state) (d : dentry) : Z := default 0 (refs s !! d).

(** The invariant of the queue with [n] tasks in the hook at most and a
    [queue_max] that stays at most [m]. *)
Record queue_ok (n : nat) (m : Z) (s : module_state) : Prop := {
  ok_slots : length (slots s) = n;
  ok_depth : depth s = live s;
  ok_bound : live s + sum_of (slot_admitted m) (slots s) ≤ m + Z.of_nat n - 1;
  ok_max : provfs_queue_max_min ≤ queue_max s ≤ m;
  ok_refs : ∀ d, ref_count s d =
    sum_of (slot_ref d) (slots s) + sum_of (work_ref d) (pending s) + sum_of (run_ref d) (running s);
  ok_calls : Z.of_nat (entered s) = Z.of_nat (finished s) + Z.of_nat (drops s) +
    sum_of slot_busy (slots s) + Z.of_nat (length (pending s)) + Z.of_nat (length (running s));
  ok_dropped : dropped s = to_llong (Z.of_nat (drops s));
}.

(** Few enough tasks for the depth to stay an [int]. *)
Definition tasks_ok (n : nat) : Prop := (0 < n)%nat ∧ Z.of_nat n < 2 ^ 31 - 2 ^ 20.

(** The request a call makes when it is admitted. *)
Definition admitted_work (a : enqueue_args) (alloc queue : bool) (s : module_state)
    : option provfs_stamp_work :=
  d ← a_dentry a; session ← a_session a; ts ← a_ts a;
  if wq s && (depth s <? queue_max s) && alloc && queue then Some (make_work d session ts a) else None.

(** ** Lemmas *)

Section Sums.
Context {A : Type} (f : A → Z).

Lemma sum_of_insert l i x y : l !! i = Some x → sum_of f (<[i := y]> l) = sum_of f l - f x + f y.
Proof.
  revert i. induction l as [|z l IH]; intros [|i] H; simplify_eq/=; [lia|].
  rewrite IH by done. lia.
Qed.

Lemma sum_of_delete l i x : l !! i = Some x → sum_of f (delete i l) = sum_of f l - f x.
Proof.
  revert i. induction l as [|z l IH]; intros [|i] H; simplify_eq/=; [lia|].
  rewrite IH by done. lia.
Qed.

Lemma sum_of_snoc l x : sum_of f (l ++ [x]) = sum_of f l + f x.
Proof. induction l as [|y l IH]; simpl; [lia|]. rewrite IH. lia. Qed.

Lemma sum_of_nonneg l : (∀ x, 0 ≤ f x) → 0 ≤ sum_of f l.
Proof. intros H. induction l as [|x l IH]; simpl; [lia|]. specialize (H x). lia. Qed.

Lemma sum_of_le_length l : (∀ x, f x ≤ 1) → sum_of f l ≤ Z.of_nat (length l).
Proof. intros H. induction l as [|x l IH]; simpl; [lia|]. specialize (H x). lia. Qed.

Lemma sum_of_lt_length l i x :
  (∀ x, f x ≤ 1) → l !! i = Some x → f x ≤ 0 → sum_of f l ≤ Z.of_nat (length l) - 1.
Proof.
  intros H Hi Hx.
  rewrite <-(take_drop_middle l i x Hi). rewrite length_app. simpl.
  assert (∀ l1 l2, sum_of f (l1 ++ l2) = sum_of f l1 + sum_of f l2) as Happ.
  { induction l1 as [|y l1 IH]; intros l2; simpl; [lia|]. rewrite IH. lia. }
  rewrite Happ. simpl. pose proof (sum_of_le_length (take i l) H).
  pose proof (sum_of_le_length (drop (S i) l) H). lia.
Qed.

Lemma sum_of_zero l : (∀ x, x ∈ l → f x = 0) → sum_of f l = 0.
Proof.
  induction l as [|x l IH]; intros H; simpl; [done|].
  rewrite (H x) by left. rewrite IH; [done|]. intros y Hy. apply H. by right.
Qed.
End Sums.

Lemma length_delete_lookup {A} (l : list A) i x : l !! i = Some x → length (delete i l) = (length l - 1)%nat.
Proof. intros H. rewrite length_delete by (by eexists). lia. Qed.

Lemma to_int_id z : - 2 ^ 31 ≤ z < 2 ^ 31 → to_int z = z.
Proof. intros H. unfold to_int. rewrite Z.mod_small; lia. Qed.

Lemma to_llong_add z k : to_llong (to_llong z + k) = to_llong (z + k).
Proof.
  unfold to_llong. f_equal.
  replace ((z + 2 ^ 63) mod 2 ^ 64 - 2 ^ 63 + k + 2 ^ 63) with ((z + 2 ^ 63) mod 2 ^ 64 + k) by lia.
  rewrite Zplus_mod_idemp_l. f_equal. lia.
Qed.

Lemma live_nonneg s : 0 ≤ live s.
Proof.
  unfold live. pose proof (sum_of_nonneg slot_depth (slots s) ltac:(by intros [])).
  pose proof (sum_of_nonneg run_depth (running s) ltac:(by intros [])). lia.
Qed.

Lemma slot_admitted_range m pc : 0 ≤ slot_admitted m pc ≤ 1.
Proof. destruct pc; simpl; try case_match; lia. Qed.

Lemma admitted_nonneg m s : 0 ≤ sum_of (slot_admitted m) (slots s).
Proof. apply sum_of_nonneg. intros pc. apply slot_admitted_range. Qed.

Lemma ref_count_add s n d d' :
  ref_count (add_ref n d s) d' = ref_count s d' + (if decide (d = d') then n else 0).
Proof.
  unfold ref_count. simpl. destruct (decide (d = d')) as [->|Hd].
  - by rewrite lookup_insert_eq.
  - rewrite lookup_insert_ne by done. lia.
Qed.

(** Unfolds a changed state and rewrites the sums over the changed list. *)
Ltac sums :=
  unfold live, ref_count in *; simpl in *;
  repeat match goal with
  | H : slots ?s !! ?i = Some ?x |- context [sum_of ?f (<[?i := ?y]> (slots ?s))] =>
      rewrite (sum_of_insert f (slots s) i x y H)
  | H : running ?s !! ?i = Some ?x |- context [sum_of ?f (<[?i := ?y]> (running ?s))] =>
      rewrite (sum_of_insert f (running s) i x y H)
  | H : running ?s !! ?i = Some ?x |- context [sum_of ?f (delete ?i (running ?s))] =>
      rewrite (sum_of_delete f (running s) i x H)
  | H : running ?s !! ?i = Some ?x |- context [length (delete ?i (running ?s))] =>
      rewrite (length_delete_lookup (running s) i x H); apply lookup_lt_Some in H as ?
  | H : pending ?s !! ?i = Some ?x |- context [sum_of ?f (delete ?i (pending ?s))] =>
      rewrite (sum_of_delete f (pending s) i x H)
  | H : pending ?s !! ?i = Some ?x |- context [length (delete ?i (pending ?s))] =>
      rewrite (length_delete_lookup (pending s) i x H); apply lookup_lt_Some in H as ?
  | |- context [sum_of ?f (?l ++ [?x])] => rewrite (sum_of_snoc f l x)
  end;
  rewrite ?length_insert, ?length_app; simpl.

(** References: the change of the map and of the sums, dentry by dentry. *)
Lemma work_ref_make d' d se ts a : work_ref d' (make_work d se ts a) = if decide (d = d') then 1 else 0.
Proof. done. Qed.

Lemma refs_insert (m : gmap dentry Z) d z d' :
  default 0 (<[d := z]> m !! d') = if decide (d = d') then z else default 0 (m !! d').
Proof.
  case_decide as Hd; [subst|]; by rewrite ?lookup_insert_eq, ?lookup_insert_ne.
Qed.

Lemma work_ref_eq d w : w_dentry w = d → work_ref d w = 1.
Proof. intros <-. unfold work_ref. by rewrite decide_True. Qed.
Lemma work_ref_ne d w : w_dentry w ≠ d → work_ref d w = 0.
Proof. intros H. unfold work_ref. by rewrite decide_False. Qed.

Ltac count_refs Hr :=
  let d' := fresh "d'" in intros d'; specialize (Hr d'); sums;
  rewrite ?refs_insert, ?work_ref_make; repeat case_decide; subst;
  rewrite ?work_ref_eq, ?work_ref_ne by done; lia.

(** The administrator sets no value above [m] that is accepted. *)
Definition caps (m : Z) (a : action) : Prop :=
  match a with ASetMax v => v ≤ m ∨ provfs_queue_max_max < v | _ => True end.

#[export] Instance caps_dec m a : Decision (caps m a).
Proof. destruct a; apply _. Defined.

Section Steps.
Context (n : nat) (m : Z) (Hn : tasks_ok n) (Hm : m ≤ provfs_queue_max_max).

Lemma live_range s : queue_ok n m s → 0 ≤ live s < 2 ^ 31 - 1.
Proof.
  intros Hq. pose proof (live_nonneg s). pose proof (admitted_nonneg m s).
  destruct Hn as [_ Hlt]. pose proof (ok_bound n m s Hq) as Hb.
  unfold provfs_queue_max_max in Hm. change (Z.shiftl 1 20) with (2 ^ 20) in Hm. lia.
Qed.

Lemma enqueue_step_ok i ok s s' :
  queue_ok n m s → enqueue_step i ok s = Some s' → queue_ok n m s'.
Proof.
  intros Hq Hs. pose proof (live_range s Hq) as Hlive. destruct Hq as [Hl Hd Hb Hmax Hr Hc Hx].
  unfold enqueue_step in Hs. destruct (slots s !! i) as [[]|] eqn:Hi; simplify_eq.
  all: repeat case_match; unfold goto; split; sums; try done; try lia.
  all: try count_refs Hr.
  - pose proof (sum_of_lt_length (slot_admitted m) (slots s) i _ ltac:(apply slot_admitted_range) Hi ltac:(done)). case_match; lia.
  - case_match; lia.
  - case_match; lia.
  - rewrite to_int_id; lia.
  - rewrite to_int_id; lia.
  - rewrite Hx, to_llong_add. f_equal. lia.
Qed.

Lemma worker_step_ok j ok s s' :
  queue_ok n m s → worker_step j ok s = Some s' → queue_ok n m s'.
Proof.
  intros Hq Hs. pose proof (live_range s Hq) as Hlive. destruct Hq as [Hl Hd Hb Hmax Hr Hc Hx].
  unfold worker_step in Hs. destruct (running s !! j) as [[w [|[key value] rest]| |]|] eqn:Hj; simplify_eq.
  all: repeat case_match; split; sums; try done; try lia.
  all: try count_refs Hr.
  rewrite to_int_id; lia.
Qed.

Lemma step_ok a s s' : caps m a → queue_ok n m s → step a s = Some s' → queue_ok n m s'.
Proof.
  intros Hcap Hq. destruct a as [i args|i ok|k|j ok|v]; simpl; [|by apply enqueue_step_ok| |by apply worker_step_ok|].
  - destruct (slots s !! i) as [[]|] eqn:Hi; intros ?; simplify_eq.
    destruct Hq as [Hl Hd Hb Hmax Hr Hc Hx]. unfold goto. split; sums; try done; try lia. count_refs Hr.
  - destruct (pending s !! k) as [w|] eqn:Hk; intros ?; simplify_eq.
    destruct Hq as [Hl Hd Hb Hmax Hr Hc Hx]. split; sums; try done; try lia. count_refs Hr.
  - intros ?; simplify_eq. case_match; [|done]. simpl in Hcap. destruct Hq as [Hl Hd Hb Hmax Hr Hc Hx].
    split; sums; try done. lia.
Qed.

Lemma steps_ok l s s' : Forall (caps m) l → queue_ok n m s → steps l s = Some s' → queue_ok n m s'.
Proof.
  revert s. induction l as [|a l IH]; intros s Hall Hq; simpl; [by intros [= <-]|].
  apply Forall_cons in Hall as [??].
  destruct (step a s) as [s1|] eqn:Hs; [|done]. apply IH; [done|]. by eapply step_ok.
Qed.
End Steps.

Lemma boot_ok n m b : 1024 ≤ m → queue_ok n m (set_wq b (boot_state n)).
Proof.
  intros Hm. assert (H : ∀ f, f EIdle = 0 → sum_of f (replicate n EIdle) = 0).
  { intros f Hf. apply sum_of_zero. by intros x [-> _]%elem_of_replicate. }
  split; unfold live, ref_count; simpl; rewrite ?H by done; try done.
  - by rewrite length_replicate.
  - lia.
  - intros d. by rewrite H.
Qed.

(** *** The workers *)

Definition by_workers (a : action) : Prop :=
  match a with AStart _ | AWork _ _ => True | _ => False end.

(** Every step of a worker is one less to make. *)
Lemma worker_progress a s s' :
  by_workers a → step a s = Some s' → work_size s' = work_size s - 1 ∧ slots s' = slots s ∧ wq s' = wq s.
Proof.
  intros Ha Hs. unfold work_size. destruct a as [| |k|j ok|]; try done; simpl in Hs.
  - destruct (pending s !! k) as [w|] eqn:Hk; simplify_eq.
    assert (Hw : pending_size w = Z.of_nat (length (worker_writes w)) + 4) by done.
    generalize dependent (worker_writes w). intros ws Hw. sums. split_and!; [lia|done..].
  - unfold worker_step in Hs.
    destruct (running s !! j) as [[w [|[key value] rest]| |]|] eqn:Hj; simplify_eq;
      repeat case_match; sums; split_and!; try done; lia.
Qed.

Lemma work_size_nonneg s : 0 ≤ work_size s.
Proof.
  unfold work_size.
  pose proof (sum_of_nonneg run_size (running s) ltac:(intros []; simpl; lia)).
  pose proof (sum_of_nonneg pending_size (pending s) ltac:(intros; unfold pending_size; lia)). lia.
Qed.

Lemma workers_progress l s s' :
  Forall by_workers l → steps l s = Some s' →
  work_size s' = work_size s - Z.of_nat (length l) ∧ slots s' = slots s.
Proof.
  intros Hl. revert s. induction Hl as [|a l Ha _ IH]; intros s; simpl; [intros [= <-]; split; [lia|done]|].
  destruct (step a s) as [s1|] eqn:Hs; [|done]. intros Hss.
  apply worker_progress in Hs as (H1 & H2 & _); [|done]. apply IH in Hss as [-> ->]. split; [lia|done].
Qed.

(** As long as there is work a worker can make a step. *)
Lemma work_action_enabled s a :
  work_action s = Some a → by_workers a ∧ is_Some (step a s) ∧ (∀ m, caps m a).
Proof.
  unfold work_action. destruct (running s) as [|pc r] eqn:Hr.
  - destruct (pending s) as [|w p] eqn:Hp; [done|]. intros [= <-]. split_and!; [done| |done].
    simpl. rewrite Hp. by eexists.
  - intros [= <-]. split_and!; [done| |done]. simpl. unfold worker_step. rewrite Hr. simpl.
    destruct pc as [w [|[]]| |]; by eexists.
Qed.

Lemma work_action_None s : work_action s = None → running s = [] ∧ pending s = [].
Proof. unfold work_action. by destruct (running s), (pending s). Qed.

(** The schedule [drain] follows. *)
Lemma drain_schedule fuel s :
  work_size s ≤ Z.of_nat fuel →
  ∃ l, Forall by_workers l ∧ (∀ m, Forall (caps m) l) ∧ steps l s = Some (drain fuel s) ∧
    running (drain fuel s) = [] ∧ pending (drain fuel s) = [].
Proof.
  revert s. induction fuel as [|fuel IH]; intros s Hf.
  all: destruct (work_action s) as [a|] eqn:Ha.
  1, 3: pose proof (work_action_enabled s a Ha) as (Hw & [s1 Hs1] & Hcap);
    destruct (worker_progress a s s1 Hw Hs1) as (Hsz & _ & _); pose proof (work_size_nonneg s1).
  - lia.
  - simpl. rewrite Ha, Hs1. destruct (IH s1) as (l & Hl & Hc & Hss & Hr & Hp); [lia|].
    exists (a :: l). split_and!; try done; [by constructor|by constructor|]. simpl. by rewrite Hs1.
  - apply work_action_None in Ha as [??]. simpl. by exists [].
  - pose proof (work_action_None s Ha) as [??]. simpl. rewrite Ha. by exists [].
Qed.

(** *** One call alone *)

Lemma goto_lookup i pc s x : slots s !! i = Some x → slots (goto i pc s) !! i = Some pc.
Proof. intros H. apply list_lookup_insert_eq. by eapply lookup_lt_Some. Qed.

Lemma slots_restored {A} (l : list A) i x y : l !! i = Some x → <[i := x]> (<[i := y]> l) = l.
Proof. intros H. by rewrite list_insert_insert_eq, list_insert_id. Qed.

Lemma to_int_there_back z : - 2 ^ 31 ≤ z < 2 ^ 31 → to_int (to_int (z + 1) - 1) = z.
Proof.
  intros H. unfold to_int.
  replace ((z + 1 + 2 ^ 31) mod 2 ^ 32 - 2 ^ 31 - 1 + 2 ^ 31) with ((z + 1 + 2 ^ 31) mod 2 ^ 32 - 1) by lia.
  rewrite Zminus_mod_idemp_l. replace (z + 1 + 2 ^ 31 - 1) with (z + 2 ^ 31) by lia.
  rewrite Z.mod_small; lia.
Qed.

(** What a call leaves unchanged whatever it does. *)
Definition same_module (s s' : module_state) : Prop :=
  slots s' = slots s ∧ running s' = running s ∧ store_of s' = store_of s ∧ wq s' = wq s ∧
  queue_max s' = queue_max s ∧ finished s' = finished s ∧ entered s' = S (entered s).

Lemma ref_back (m : gmap dentry Z) d d' :
  default 0 (<[d := default 0 (<[d := default 0 (m !! d) + 1]> m !! d) + -1]>
               (<[d := default 0 (m !! d) + 1]> m) !! d') = default 0 (m !! d').
Proof.
  rewrite refs_insert, lookup_insert_eq. case_decide; [subst; simpl; lia|].
  by rewrite lookup_insert_ne.
Qed.

Lemma goto_next i pc s :
  (i < length (slots s))%nat → slots (goto i pc s) !! i = Some pc.
Proof. apply list_lookup_insert_eq. Qed.

Lemma run_idle i alloc queue f s : slots s !! i = Some EIdle → run_slot f i alloc queue s = Some s.
Proof. intros H. destruct f; simpl; by rewrite H. Qed.

(** One step of the run. *)
Lemma run_step i alloc queue f s pc s' :
  slots s !! i = Some pc → pc ≠ EIdle →
  enqueue_step i (match pc with EAlloc _ _ _ _ => alloc | _ => queue end) s = Some s' →
  run_slot (S f) i alloc queue s = run_slot f i alloc queue s'.
Proof. intros H Hpc Hs. simpl. rewrite H. destruct pc; [done|..]; by rewrite Hs. Qed.

Ltac one_step :=
  erewrite run_step; [|eassumption|done|unfold enqueue_step;
    match goal with H : slots ?s !! ?i = _ |- context [slots ?s !! ?i] => rewrite H end; reflexivity].

Lemma run_drop i alloc queue f s :
  slots s !! i = Some EDrop → run_slot (S f) i alloc queue s = Some (goto i EIdle (count_drop s)).
Proof.
  intros H. one_step. apply run_idle, goto_next. by eapply lookup_lt_Some.
Qed.

Lemma run_queue i alloc queue f s w :
  slots s !! i = Some (EQueue w) →
  run_slot (S (S (S f))) i alloc queue s = Some
    (if queue then goto i EIdle (set_work (pending s ++ [w]) (running s) s)
     else goto i EIdle (count_drop (goto i EDrop (add_ref (-1) (w_dentry w)
            (goto i (EUndo w) (set_depth (depth s - 1) s)))))).
Proof.
  intros H. apply lookup_lt_Some in H as Hl. one_step. destruct queue.
  - by apply run_idle, goto_next.
  - assert (H2 : slots (goto i (EUndo w) (set_depth (depth s - 1) s)) !! i = Some (EUndo w)) by (by apply goto_next).
    one_step. apply run_drop, goto_next. simpl. by rewrite length_insert.
Qed.

Lemma run_alloc i alloc queue f s d se ts a :
  slots s !! i = Some (EAlloc d se ts a) →
  run_slot (S (S (S (S (S f))))) i alloc queue s = if alloc then
      run_slot (S (S (S f))) i alloc queue (goto i (EQueue (make_work d se ts a)) (set_depth (depth s + 1)
        (goto i (EInc (make_work d se ts a)) (add_ref 1 d s))))
    else Some (goto i EIdle (count_drop (goto i EDrop s))).
Proof.
  intros H. apply lookup_lt_Some in H as Hl. one_step. destruct alloc.
  - set (w := make_work d se ts a).
    assert (H2 : slots (goto i (EInc w) (add_ref 1 d s)) !! i = Some (EInc w)) by (by apply goto_next).
    by one_step.
  - by apply run_drop, goto_next.
Qed.

Lemma run_depth_test i alloc queue f s d se ts a :
  slots s !! i = Some (EDepth d se ts a) →
  run_slot (S (S (S f))) i alloc queue s =
    let s' := goto i (ELimit (depth s) d se ts a) s in
    if queue_max s <=? depth s then Some (goto i EIdle (count_drop (goto i EDrop s')))
    else run_slot (S f) i alloc queue (goto i (EAlloc d se ts a) s').
Proof.
  intros H. apply lookup_lt_Some in H as Hl. one_step.
  assert (H2 : slots (goto i (ELimit (depth s) d se ts a) s) !! i = Some (ELimit (depth s) d se ts a))
    by (by apply goto_next).
  one_step. cbv zeta. change (queue_max (goto i _ s)) with (queue_max s). case_match; [|done].
  apply run_drop, goto_next. simpl. by rewrite length_insert.
Qed.

Ltac restored := simpl; rewrite ?list_insert_insert_eq; by apply list_insert_id.

Lemma enqueue_alone i a alloc queue s :
  slots s !! i = Some EIdle → - 2 ^ 31 ≤ depth s < 2 ^ 31 - 1 →
  ∃ s', provfs_enqueue_stamp i a alloc queue s = Some s' ∧ same_module s s' ∧
    match admitted_work a alloc queue s with
    | Some w => pending s' = pending s ++ [w] ∧ depth s' = depth s + 1 ∧ drops s' = drops s ∧
        dropped s' = dropped s ∧ ∀ d, ref_count s' d = ref_count s d + work_ref d w
    | None => pending s' = pending s ∧ depth s' = depth s ∧ drops s' = S (drops s) ∧
        dropped s' = to_llong (dropped s + 1) ∧ ∀ d, ref_count s' d = ref_count s d
    end.
Proof.
  intros Hi Hd. apply lookup_lt_Some in Hi as Hlt. unfold provfs_enqueue_stamp, admitted_work.
  cbn [step]. rewrite Hi. set (s1 := goto i (EGuards a) (count_entered s)).
  assert (H1 : slots s1 !! i = Some (EGuards a)) by (by apply goto_next).
  assert (Hl1 : (i < length (slots s1))%nat) by (by eapply lookup_lt_Some).
  assert (Hdrop : ∃ s', run_slot 7 i alloc queue (goto i EDrop s1) = Some s' ∧ same_module s s' ∧
    pending s' = pending s ∧ depth s' = depth s ∧ drops s' = S (drops s) ∧
    dropped s' = to_llong (dropped s + 1) ∧ ∀ d, ref_count s' d = ref_count s d).
  { eexists. split; [by apply run_drop, goto_next|]. unfold same_module. split_and!; try done; restored. }
  erewrite run_step; [|exact H1|done|unfold enqueue_step; rewrite H1; reflexivity].
  change (wq s1) with (wq s).
  destruct (wq s), (a_dentry a) as [d|], (a_session a) as [se|], (a_ts a) as [ts|]; try exact Hdrop.
  cbn [mbind option_bind andb]. clear Hdrop. set (s2 := goto i (EDepth d se ts a) s1).
  assert (H2 : slots s2 !! i = Some (EDepth d se ts a)) by (by apply goto_next).
  rewrite (run_depth_test _ _ _ _ _ _ _ _ _ H2), Z.leb_antisym. cbv zeta.
  change (queue_max s2) with (queue_max s). change (depth s2) with (depth s).
  destruct (depth s <? queue_max s); cbn [negb andb].
  2: { eexists. split; [done|]. unfold same_module. split_and!; try done; restored. }
  set (s3 := goto i (EAlloc d se ts a) (goto i (ELimit (depth s) d se ts a) s2)).
  assert (H3 : slots s3 !! i = Some (EAlloc d se ts a)) by (apply goto_next; simpl; by rewrite !length_insert).
  rewrite (run_alloc _ _ _ _ _ _ _ _ _ H3). destruct alloc; cbn [andb].
  2: { eexists. split; [done|]. unfold same_module. split_and!; try done; restored. }
  set (w := make_work d se ts a).
  erewrite run_queue; [|apply goto_next; simpl; rewrite !length_insert; exact Hlt].
  destruct queue; eexists; (split; [done|]); unfold same_module; split_and!; try done; try restored.
  - simpl. apply to_int_id. lia.
  - intros d'. unfold ref_count. simpl. rewrite refs_insert.
    change (work_ref d' w) with (if decide (d = d') then 1 else 0).
    case_decide; subst; lia.
  - simpl. apply to_int_there_back. lia.
  - intros d'. apply ref_back.
Qed.

(** ** Theorems *)

(** The module's state after its initialisation. *)
Definition init_state (n : nat) (alloc_ok register_ok : bool) : module_state :=
  (provfs_work_init alloc_ok register_ok (boot_state n)).2.

Lemma init_ok n m alloc_ok register_ok : 1024 ≤ m → queue_ok n m (init_state n alloc_ok register_ok).
Proof. intros Hm. unfold init_state, provfs_work_init. case_match; by apply boot_ok. Qed.

Lemma reachable_ok n m alloc_ok register_ok l s :
  tasks_ok n → 1024 ≤ m ≤ provfs_queue_max_max → Forall (caps m) l →
  steps l (init_state n alloc_ok register_ok) = Some s → queue_ok n m s.
Proof.
  intros Hn [Hm Hmax] Hl Hs. by eapply steps_ok; [..|apply init_ok, Hm|exact Hs].
Qed.

(** C10: in every state the module reaches, whatever the interleaving of at
    most [n] closing tasks, the workers and the administrator: the depth
    counter is the number of items queued or being written, and exceeds the
    largest [queue_max] by less than the number of tasks; the references held
    on each dentry are those of the items that name it; every call is
    accounted for, as finished, dropped or in flight, and the dropped counter
    counts the drops. *)
Theorem queue_invariant (n : nat) (m : Z) (alloc_ok register_ok : bool) (l : list action) (s : module_state)
    (Hn : tasks_ok n) (Hm : 1024 ≤ m ≤ provfs_queue_max_max) (Hl : Forall (caps m) l)
    (Hs : steps l (init_state n alloc_ok register_ok) = Some s) :
  depth s = live s ∧ 0 ≤ depth s ≤ m + Z.of_nat n - 1 ∧
  (∀ d, ref_count s d =
    sum_of (slot_ref d) (slots s) + sum_of (work_ref d) (pending s) + sum_of (run_ref d) (running s)) ∧
  Z.of_nat (entered s) = Z.of_nat (finished s) + Z.of_nat (drops s) +
    sum_of slot_busy (slots s) + Z.of_nat (length (pending s)) + Z.of_nat (length (running s)) ∧
  dropped s = to_llong (Z.of_nat (drops s)).
Proof.
  destruct (reachable_ok n m _ _ l s Hn Hm Hl Hs) as [? Hd Hb ? Hr Hc Hx].
  pose proof (live_nonneg s). pose proof (admitted_nonneg m s). rewrite Hd. split_and!; try done; lia.
Qed.

(** Two tasks close the same file. *)
Definition sample_call (session ts : bytes) : enqueue_args :=
  {| a_dentry := Some (blit "/f"); a_session := Some session; a_ts := Some ts;
     a_tool := Some (blit "Edit"); a_turn := Some []; a_intent := None |}.

Definition enqueue_both : list action :=
  [ACall 0 (sample_call (blit "A") (blit "1")); ACall 1 (sample_call (blit "B") (blit "2"))] ++
  concat (replicate 6 [AEnqueue 0 true; AEnqueue 1 true]).

Lemma enqueue_both_caps : Forall (caps 1024) enqueue_both.
Proof. apply (bool_decide_eq_true_1 _). by vm_compute. Qed.

Definition after_both : module_state :=
  default (boot_state 2) (steps enqueue_both (init_state 2 true true)).

Lemma queue_invariant_witness : depth after_both = 2 ∧ ref_count after_both (blit "/f") = 2.
Proof.
  destruct (queue_invariant 2 1024 true true enqueue_both after_both) as (Hd & _ & Hr & _);
    [split; [lia|by vm_compute]|by split; vm_compute|apply enqueue_both_caps|by vm_compute|].
  rewrite Hd, Hr. by split; vm_compute.
Defined.

(** C23: the workqueue always empties: every step a worker makes is one less of
    a number fixed beforehand, and while there is work some worker can make a
    step.  When no task is in the hook, draining the queue on exit leaves it
    empty with a depth of zero and no reference held, and every call finished
    or dropped. *)
Theorem queue_drains (n : nat) (alloc_ok register_ok : bool) (l : list action) (s : module_state)
    (Hn : tasks_ok n) (Hs : steps l (init_state n alloc_ok register_ok) = Some s)
    (Hl : Forall (caps provfs_queue_max_max) l) (Hidle : Forall (λ pc, pc = EIdle) (slots s)) (Hwq : wq s = true) :
  (∀ l' s', Forall by_workers l' → steps l' s = Some s' →
     work_size s' + Z.of_nat (length l') = work_size s) ∧
  (running s ≠ [] ∨ pending s ≠ [] → ∃ a s', by_workers a ∧ step a s = Some s') ∧
  let e := provfs_work_exit s in
  wq e = false ∧ pending e = [] ∧ running e = [] ∧ depth e = 0 ∧ (∀ d, ref_count e d = 0) ∧
  entered e = (finished e + drops e)%nat.
Proof.
  assert (Hm : 1024 ≤ provfs_queue_max_max ≤ provfs_queue_max_max) by (by split; vm_compute).
  pose proof (reachable_ok n _ _ _ l s Hn Hm Hl Hs) as Hq. split_and!.
  - intros l' s' Hw Hs'. apply workers_progress in Hs' as [-> _]; [lia|done].
  - intros Hne. destruct (work_action s) as [a|] eqn:Ha.
    + apply work_action_enabled in Ha as (Hw & [s' ?] & _). by exists a, s'.
    + apply work_action_None in Ha as [??]. by destruct Hne.
  - cbv zeta. unfold provfs_work_exit. rewrite Hwq.
    destruct (drain_schedule (Z.to_nat (work_size s)) s) as (l' & Hw & Hc & Hs' & Hr & Hp);
      [pose proof (work_size_nonneg s); lia|].
    set (e := drain _ s) in *. assert (Hsl : slots e = slots s) by (by eapply workers_progress).
    destruct (steps_ok n _ Hn ltac:(done) l' s e (Hc _) Hq Hs') as [_ Hd _ _ Hrf Hcl _].
    assert (Hz : ∀ f, f EIdle = 0 → sum_of f (slots e) = 0).
    { intros f Hf. apply sum_of_zero. rewrite Hsl. intros x Hx.
      by rewrite (proj1 (Forall_forall _ _) Hidle x Hx). }
    unfold live, ref_count in *. simpl.
    rewrite ?Hp, ?Hr, ?Hz in Hd, Hcl by done. simpl in Hd, Hcl. split_and!; try done; [|lia].
    intros d. rewrite Hrf, Hp, Hr. simpl. rewrite Hz; done.
Qed.

Lemma queue_drains_witness :
  depth (provfs_work_exit after_both) = 0 ∧ entered (provfs_work_exit after_both) =
    (finished (provfs_work_exit after_both) + drops (provfs_work_exit after_both))%nat.
Proof.
  destruct (queue_drains 2 true true enqueue_both after_both) as (_ & _ & H);
    [split; [lia|by vm_compute]|by vm_compute|apply (bool_decide_eq_true_1 _); by vm_compute
    |vm_compute; by repeat constructor|by vm_compute|].
  cbv zeta in H. destruct H as (_ & _ & _ & Hd & _ & He). split; [exact Hd|exact He].
Defined.

(** C19: one call, with no other step in between, in any state the module
    reaches: a request with a dentry, a session and a timestamp, when there is
    a workqueue, the depth is below the limit and the kernel has memory, is
    appended to the queue with its values copied and one reference taken; any
    other request is dropped, counted, and leaves queue, depth and references
    as they were.  Nothing is written. *)
Theorem enqueue_outcomes (n : nat) (alloc_ok register_ok : bool) (l : list action) (s : module_state)
    (i : nat) (a : enqueue_args) (alloc queue : bool)
    (Hn : tasks_ok n) (Hs : steps l (init_state n alloc_ok register_ok) = Some s)
    (Hl : Forall (caps provfs_queue_max_max) l) (Hi : slots s !! i = Some EIdle) :
  ∃ s', provfs_enqueue_stamp i a alloc queue s = Some s' ∧ same_module s s' ∧
    match a_dentry a, a_session a, a_ts a, wq s && (depth s <? queue_max s) && alloc && queue with
    | Some d, Some session, Some ts, true =>
        pending s' = pending s ++ [make_work d session ts a] ∧ depth s' = depth s + 1 ∧
        dropped s' = dropped s ∧
        ∀ d', ref_count s' d' = ref_count s d' + (if decide (d = d') then 1 else 0)
    | _, _, _, _ =>
        pending s' = pending s ∧ depth s' = depth s ∧ dropped s' = to_llong (dropped s + 1) ∧
        ∀ d', ref_count s' d' = ref_count s d'
    end.
Proof.
  assert (Hm : 1024 ≤ provfs_queue_max_max ≤ provfs_queue_max_max) by (by split; vm_compute).
  pose proof (reachable_ok n _ _ _ l s Hn Hm Hl Hs) as Hq.
  pose proof (live_range n _ Hn ltac:(done) s Hq) as Hr. rewrite <-(ok_depth _ _ _ Hq) in Hr.
  destruct (enqueue_alone i a alloc queue s Hi ltac:(lia)) as (s' & Hs' & Hsame & Hout).
  exists s'. split; [done|]. split; [done|]. unfold admitted_work in Hout.
  destruct (a_dentry a) as [d|], (a_session a) as [se|], (a_ts a) as [ts|]; cbn [mbind option_bind] in Hout;
    try (destruct Hout as (? & ? & ? & ? & ?); by split_and!).
  destruct (wq s && (depth s <? queue_max s) && alloc && queue);
    destruct Hout as (? & ? & ? & ? & ?); by split_and!.
Qed.

Lemma enqueue_outcomes_witness :
  ∃ s', provfs_enqueue_stamp 1 (sample_call (blit "C") (blit "3")) true true after_both = Some s' ∧
    depth s' = 3.
Proof.
  destruct (enqueue_outcomes 2 true true enqueue_both after_both 1 (sample_call (blit "C") (blit "3")) true true)
    as (s' & H1 & _ & H2); [split; [lia|by vm_compute]|by vm_compute
    |apply (bool_decide_eq_true_1 _); by vm_compute|by vm_compute|].
  exists s'. split; [exact H1|].
  assert (Hd : wq after_both && (depth after_both <? queue_max after_both) && true && true = true) by (by vm_compute).
  rewrite Hd in H2. cbn [sample_call a_dentry a_session a_ts] in H2. destruct H2 as (_ & -> & _). by vm_compute.
Defined.

Close Scope Z_scope.
