(* ===== verification/LsmHook.v ===== *)
(** The hook of the kernel module ([provfs_file_release], [lsm/provfs_lsm.c])
    from the close of a file to the attributes the Rust reader finds on it:
    which closes are stamped and with what, the deferred writes of the worker,
    and [read_record] on their result. *)

From S2P Require Import Prelude RustStr Sys Session Xattrs Reader.
From S2P Require Import CStr LsmIdent LsmSession LsmSkip LsmWork.
From Stdlib Require Import Strings.Byte.

Open Scope nat_scope.

(** ** Definitions *)

(** A [struct file]: whether it was opened for writing, its path, the dentry
    and the inode's mode behind it. *)
Record kfile : Type := {
  fmode_write : bool;
  f_path : kpath;
  f_dentry : option dentry;
  f_mode : option Z;
}.

Definition S_ISREG (mode : Z) : bool := (Z.land mode 61440 =? 32768)%Z.

Section Hook.
Context (config_agent_ns : bool).
Context (agent_session_id_format : Z → bytes → Z * bytes).

(** The file's own guards. *)
Definition stampable_file (f : kfile) : option dentry :=
  if negb (p_mnt (f_path f)) || negb (p_dentry (f_path f)) then None
  else
    d ← f_dentry f;
    mode ← f_mode f;
    if S_ISREG mode then Some d else None.

(** [skip] is the shared list, [skip_junk] the matcher's local buffer, [now]
    the clock; the result is the call to [provfs_enqueue_stamp], if any. *)
Definition provfs_stamp (cur : current) (mem : memory) (skip skip_junk : bytes) (now : Z) (f : kfile)
    : logged (option enqueue_args) :=
  match stampable_file f with
  | None => mret None
  | Some d =>
      if negb (kmalloc cur PathBuf) then mret None
      else
        _ ← tell (Take (RMem PathBuf));
        match d_absolute_path (f_path f) with
        | None => _ ← tell (Give (RMem PathBuf)); mret None
        | Some path_str =>
            skipped ← provfs_path_skipped skip skip_junk (Some (cstr path_str));
            _ ← tell (Give (RMem PathBuf));
            if (skipped : bool) then mret None
            else
              '(envsig, tool, turn, intent) ←
                provfs_scan_writer_env cur (m_envsig mem) (m_tool mem) (m_turn mem) (m_intent mem);
              session ← provfs_build_session config_agent_ns agent_session_id_format cur mem (m_session mem) envsig;
              let ts := (snprintf (m_ts mem) 0 (length (m_ts mem)) (fmt_lld now)).2 in
              mret (Some {| a_dentry := Some d; a_session := Some session; a_ts := Some ts;
                            a_tool := Some tool; a_turn := Some turn; a_intent := Some intent |})
        end
  end.

Definition provfs_file_release (cur : current) (mem : memory) (skip skip_junk : bytes) (now : Z) (f : kfile)
    : logged (option enqueue_args) :=
  if negb (fmode_write f) then mret None else provfs_stamp cur mem skip skip_junk now f.
End Hook.

(** The worker as a program of attribute writes, whose answers it ignores. *)
Fixpoint write_attrs (d : dentry) (kvs : list (str * bytes)) : prog unit :=
  match kvs with
  | [] => mret tt
  | (key, value) :: kvs' => _ ← sys (XattrSet d key value); write_attrs d kvs'
  end.

Definition provfs_stamp_worker (w : provfs_stamp_work) : prog unit :=
  write_attrs (w_dentry w) (worker_writes w).

(** [provfs_init]: the hook stays registered whatever the queue answers. *)
Definition provfs_init (alloc_ok register_ok : bool) (s : module_state) : Z * module_state :=
  let '(ret, _, s) := provfs_work_init alloc_ok register_ok s in
  if negb (ret =? 0)%Z then (ret, s) else (0%Z, s).

(** ** Specification *)

(** All the buffers have their declared sizes. *)
Record buffers_ok (mem : memory) : Prop := {
  bo_memory : memory_ok mem;
  bo_session : length (m_session mem) = PROV_IDENT_MAX;
  bo_ts : length (m_ts mem) = PROV_TS_MAX;
  bo_envsig : length (m_envsig mem) = PROV_ENV_KEY_MAX + PROV_ENV_VAL_MAX + 2;
  bo_tool : length (m_tool mem) = PROV_FIELD_MAX;
  bo_turn : length (m_turn mem) = PROV_FIELD_MAX;
  bo_intent : length (m_intent mem) = PROV_FIELD_MAX;
}.

(** A close that is stamped. *)
Definition stamped_close (cur : current) (skip : bytes) (f : kfile) (d : dentry) : Prop :=
  fmode_write f = true ∧ p_mnt (f_path f) = true ∧ p_dentry (f_path f) = true ∧
  f_dentry f = Some d ∧ (∃ mode, f_mode f = Some mode ∧ S_ISREG mode = true) ∧
  kmalloc cur PathBuf = true ∧
  ∃ path, d_absolute_path (f_path f) = Some path ∧ ¬ skips (cstr skip) (cstr path).

(** The environment field of the fallback, and the session value. *)
Definition envsig_text (cur : current) : bytes :=
  env_value cur provfs_env_keys true (PROV_ENV_KEY_MAX + PROV_ENV_VAL_MAX + 2).

Definition session_text (config : bool) (hex : Z → bytes) (cur : current) : bytes :=
  match config, cur_ns cur with
  | true, Some (ChildAgentNs id) => hex id
  | _, _ => fallback_text cur (envsig_text cur)
  end.

Definition field_text (cur : current) (ks : list bytes) : bytes := env_value cur ks false PROV_FIELD_MAX.

(** A terminated string in a buffer of a size. *)
Definition c_string (size : nat) (buf : bytes) (s : bytes) : Prop :=
  length buf = size ∧ cstr buf = s ∧ length s < size.

(** ** Lemmas *)

Lemma fallback_text_cstr cur e1 e2 : cstr e1 = cstr e2 → fallback_text cur e1 = fallback_text cur e2.
Proof.
  intros H. unfold fallback_text, fallback_segs, front, pid_kept, cwd_kept, head_segs. by rewrite H.
Qed.

Lemma env_value_length cur ks keep size : 0 < size → length (env_value cur ks keep size) < size.
Proof.
  intros H. unfold env_value. destruct (first_match _ _) as [[k val]|]; [rewrite length_take|simpl]; lia.
Qed.

Lemma envsig_keys : provfs_env_keys ⊆ all_keys.
Proof. unfold all_keys. set_solver. Qed.

Lemma cstr_envsig_text cur : cstr (envsig_text cur) = envsig_text cur.
Proof. apply cstr_id, env_value_nonul, envsig_keys. Qed.

Section Session.
Context (config_agent_ns : bool) (agent_session_id_format : Z → bytes → Z * bytes) (hex : Z → bytes).
Context (Hf : format_ok agent_session_id_format hex).
Abbreviation build := (provfs_build_session config_agent_ns agent_session_id_format).

Lemma build_session_string cur mem buf envsig :
  memory_ok mem → length buf = PROV_IDENT_MAX → cstr envsig = envsig_text cur →
  c_string PROV_IDENT_MAX (build cur mem buf envsig).2 (session_text config_agent_ns hex cur) ∧
  balanced (build cur mem buf envsig).1.
Proof.
  intros Hm Hb He.
  assert (Hfall : c_string PROV_IDENT_MAX (provfs_build_fallback cur mem buf envsig).2
      (fallback_text cur (envsig_text cur)) ∧ balanced (provfs_build_fallback cur mem buf envsig).1).
  { split; [|apply fallback_balanced].
    assert (Ho : envsig_ok envsig) by (unfold envsig_ok; rewrite He; apply env_value_length; lia).
    destruct (fallback_shows cur mem buf envsig Hm Hb Ho) as (Hs & _ & Hl).
    rewrite (fallback_text_cstr cur (envsig_text cur) envsig) by (by rewrite cstr_envsig_text).
    split_and!; [done|done|]. unfold fallback_text. rewrite length_take. unfold PROV_IDENT_MAX. lia. }
  unfold provfs_build_session, session_text. destruct config_agent_ns; [|done].
  destruct (cur_ns cur) as [[|id]|]; [done| |done]. clear Hfall.
  destruct (Hf id buf) as (Hn & Hc & Hl & Hlen & _); [rewrite Hb; unfold PROV_IDENT_MAX; lia|].
  destruct (agent_session_id_format id buf) as [n buf']. simpl in Hn, Hc, Hl. subst n.
  change (0 <? 32)%Z with true. cbv iota. unfold mret, logged_mret. cbn [fst snd]. split; [|apply balanced_nil].
  split_and!; [lia|done|]. rewrite Hlen. unfold PROV_IDENT_MAX. lia.
Qed.

(** *** The hook *)

Lemma stampable_file_Some f d :
  stampable_file f = Some d ↔
  p_mnt (f_path f) = true ∧ p_dentry (f_path f) = true ∧ f_dentry f = Some d ∧
  ∃ mode, f_mode f = Some mode ∧ S_ISREG mode = true.
Proof.
  unfold stampable_file. destruct (p_mnt (f_path f)), (p_dentry (f_path f)); cbn [negb orb].
  2-4: split; [done|by intros (? & ? & _)].
  destruct (f_dentry f) as [d'|]; cbn [mbind option_bind]; [|split; [done|by intros (_ & _ & ? & _)]].
  destruct (f_mode f) as [mode|]; cbn [mbind option_bind]; [|split; [done|by intros (_ & _ & _ & ? & ? & _)]].
  destruct (S_ISREG mode) eqn:E.
  - split; [intros [= ->]; split_and!; try done; by exists mode|by intros (_ & _ & -> & _)].
  - split; [done|]. intros (_ & _ & _ & m & [= <-] & Hm). congruence.
Qed.

(** The values of the request, for the writer's own buffers. *)
Definition request_values (cur : current) (now : Z) (d : dentry) (a : enqueue_args) : Prop :=
  a_dentry a = Some d ∧
  (∃ b, a_session a = Some b ∧ c_string PROV_IDENT_MAX b (session_text config_agent_ns hex cur)) ∧
  (∃ b, a_ts a = Some b ∧ c_string PROV_TS_MAX b (fmt_lld now)) ∧
  (∃ b, a_tool a = Some b ∧ c_string PROV_FIELD_MAX b (field_text cur provfs_key_tool)) ∧
  (∃ b, a_turn a = Some b ∧ c_string PROV_FIELD_MAX b (field_text cur provfs_key_turn)) ∧
  (∃ b, a_intent a = Some b ∧ c_string PROV_FIELD_MAX b (field_text cur provfs_key_intent)).

Lemma ts_string buf now :
  length buf = PROV_TS_MAX → (i64_min ≤ now ≤ i64_max)%Z →
  c_string PROV_TS_MAX (snprintf buf 0 (length buf) (fmt_lld now)).2 (fmt_lld now).
Proof.
  intros Hl Hnow. pose proof (fmt_lld_length now Hnow) as Hlen. unfold PROV_TS_MAX in *. split_and!.
  - by rewrite length_snprintf.
  - rewrite cstr_snprintf_start by (apply nonul_fmt_lld || by intros ->). apply take_ge. lia.
  - lia.
Qed.

Lemma scan_strings cur mem :
  buffers_ok mem →
  let r := provfs_scan_writer_env cur (m_envsig mem) (m_tool mem) (m_turn mem) (m_intent mem) in
  cstr r.2.1.1.1 = envsig_text cur ∧
  c_string PROV_FIELD_MAX r.2.1.1.2 (field_text cur provfs_key_tool) ∧
  c_string PROV_FIELD_MAX r.2.1.2 (field_text cur provfs_key_turn) ∧
  c_string PROV_FIELD_MAX r.2.2 (field_text cur provfs_key_intent) ∧ balanced r.1.
Proof.
  intros [_ _ _ He Ht Hu Hi] r.
  assert (m_envsig mem ≠ [] ∧ m_tool mem ≠ [] ∧ m_turn mem ≠ [] ∧ m_intent mem ≠ []) as (?&?&?&?)
    by (split_and!; intros E; by rewrite E in *).
  pose proof (writer_env_values cur (m_envsig mem) (m_tool mem) (m_turn mem) (m_intent mem)) as Hv.
  pose proof (writer_env_lengths cur (m_envsig mem) (m_tool mem) (m_turn mem) (m_intent mem)) as Hl.
  fold r in Hv, Hl. unfold outcome_values, outcome_lengths in *. rewrite He, Ht, Hu, Hi in *.
  specialize (Hv ltac:(done) ltac:(done) ltac:(done) ltac:(done)) as [= V1 V2 V3 V4].
  specialize (Hl ltac:(done) ltac:(done) ltac:(done) ltac:(done)) as [= L1 L2 L3 L4].
  split_and!; try done; try (split_and!; [done|done|apply env_value_length; unfold PROV_FIELD_MAX; lia]).
  apply writer_env_balanced.
Qed.

Abbreviation release := (provfs_file_release config_agent_ns agent_session_id_format).

Lemma file_release_spec cur mem skip skip_junk now f :
  buffers_ok mem → list_ok skip → length skip_junk = PROVFS_SKIP_MAX → (i64_min ≤ now ≤ i64_max)%Z →
  let r := release cur mem skip skip_junk now f in
  balanced r.1 ∧
  match r.2 with
  | Some a => ∃ d, stamped_close cur skip f d ∧ request_values cur now d a
  | None => ∀ d, ¬ stamped_close cur skip f d
  end.
Proof.
  intros Hm Hsk Hsj Hnow. unfold provfs_file_release, provfs_stamp.
  destruct (fmode_write f) eqn:Hw; cbn [negb].
  2: { split; [apply balanced_nil|]. intros d (? & _). congruence. }
  destruct (stampable_file f) as [d|] eqn:Hd.
  2: { split; [apply balanced_nil|]. intros d (_ & H1 & H2 & H3 & H4 & _).
       assert (stampable_file f = Some d) by (by apply stampable_file_Some). congruence. }
  apply stampable_file_Some in Hd as (Hp1 & Hp2 & Hd & mode & Hmode & Hreg).
  destruct (kmalloc cur PathBuf) eqn:Hk; cbn [negb].
  2: { split; [apply balanced_nil|]. intros d' (_ & _ & _ & _ & _ & ? & _). congruence. }
  destruct (d_absolute_path (f_path f)) as [path|] eqn:Hpath.
  2: { split; [by apply balanced_pair, balanced_nil|]. intros d' (_ & _ & _ & _ & _ & _ & ? & ? & _). congruence. }
  destruct (path_skipped_spec skip skip_junk (Some (cstr path)) Hsk Hsj) as [Hskip Hbal].
  cbv [mbind logged_mbind tell mret logged_mret]. cbn [fst snd].
  destruct (provfs_path_skipped skip skip_junk (Some (cstr path))) as [l1 skipped].
  cbn [fst snd] in *. destruct skipped; cbn [fst snd].
  { split; [by apply balanced_wrap|]. intros d' (_ & _ & _ & _ & _ & _ & p & Hp & Hn).
    rewrite Hpath in Hp. injection Hp as <-. by apply Hn, Hskip. }
  destruct (scan_strings cur mem Hm) as (He & Ht & Hu & Hi & Hscan).
  destruct (provfs_scan_writer_env cur _ _ _ _) as [l2 [[[envsig tool] turn] intent]].
  cbn [fst snd] in *.
  destruct (build_session_string cur mem (m_session mem) envsig (bo_memory _ Hm) (bo_session _ Hm) He)
    as [Hse Hbs].
  destruct (build cur mem (m_session mem) envsig) as [l3 session]. cbn [fst snd] in *. split.
  - change (balanced ((Take (RMem PathBuf) :: l1 ++ [Give (RMem PathBuf)] ++ l2 ++ l3 ++ []))).
    rewrite app_nil_r. replace (Take (RMem PathBuf) :: l1 ++ [Give (RMem PathBuf)] ++ l2 ++ l3)
      with ((Take (RMem PathBuf) :: l1 ++ [Give (RMem PathBuf)]) ++ l2 ++ l3)
      by (simpl; by rewrite <-!app_assoc).
    apply balanced_seq; [by apply balanced_wrap|]. by apply balanced_seq.
  - exists d. split.
    + split_and!; try done; [by exists mode|]. exists path. split; [done|]. intros H. by apply Hskip in H.
    + split_and!; try done; cbn [a_session a_ts a_tool a_turn a_intent]; eexists; (split; [done|]); try done.
      apply ts_string; [apply Hm|done].
Qed.
End Session.

(** *** The worker and the reader *)

(** Every write succeeds. *)
Fixpoint all_set {W} (step : ∀ c : call, W → resp c * W) (d : dentry) (kvs : list (str * bytes)) (w : W) : Prop :=
  match kvs with
  | [] => True
  | (key, value) :: kvs' =>
      (step (XattrSet d key value) w).1 = Ok tt ∧ all_set step d kvs' (step (XattrSet d key value) w).2
  end.

(** What a list of writes leaves for a key. *)
Fixpoint left_by (kvs : list (str * bytes)) (k : str) (old : option bytes) : option bytes :=
  match kvs with
  | [] => old
  | (k', v) :: kvs' => left_by kvs' k (if decide (k' = k) then Some v else old)
  end.

Lemma left_by_app l1 l2 k old : left_by (l1 ++ l2) k old = left_by l2 k (left_by l1 k old).
Proof. revert old. induction l1 as [|[k' v] l1 IH]; intros old; simpl; [done|apply IH]. Qed.

Lemma left_by_unless k' buf k old :
  left_by (unless_empty k' buf) k old =
  if decide (k' = k ∧ cstr buf ≠ []) then Some (cstr buf) else old.
Proof.
  unfold unless_empty. case_decide as He; simpl.
  - rewrite decide_False; [done|]. by intros [_ ?].
  - destruct (decide (k' = k)); [rewrite decide_True by done|rewrite decide_False by naive_solver]; done.
Qed.

Section Store.
Context {W : Type} {step : ∀ c : call, W → resp c * W}
        {xa : W → bytes → str → option bytes} {live : W → bytes → Prop}
        `{!XattrStore step xa live}.

Lemma write_attrs_store d kvs w :
  all_set step d kvs w →
  (kvs = [] ∨ live (exec_world step (write_attrs d kvs) w) d) ∧
  ∀ k, xa (exec_world step (write_attrs d kvs) w) d k = left_by kvs k (xa w d k).
Proof.
  revert w. induction kvs as [|[key value] kvs IH]; intros w Hset; [split; [by left|done]|].
  destruct Hset as [Hr Hset]. cbn [write_attrs]. rewrite exec_world_bind.
  rewrite (exec_world_sys step (XattrSet d key value)). destruct (IH _ Hset) as [Hl Hx].
  destruct (store_set _ _ _ _ Hr) as [Hlive Hk]. split.
  - right. by destruct Hl as [->|?].
  - intros k. rewrite Hx. cbn [left_by]. case_decide as Hkk; [subst k; by rewrite Hk|].
    by rewrite store_set_other.
Qed.
End Store.

(** What the worker leaves for each key; it never writes the history. *)
Lemma worker_leaves w old :
  left_by (worker_writes w) KEY_SESSION old = Some (cstr (w_session w)) ∧
  left_by (worker_writes w) KEY_TS old = Some (cstr (w_ts w)) ∧
  left_by (worker_writes w) KEY_TOOL old = (if decide (cstr (w_tool w) = []) then old else Some (cstr (w_tool w))) ∧
  left_by (worker_writes w) KEY_TURN old = (if decide (cstr (w_turn w) = []) then old else Some (cstr (w_turn w))) ∧
  left_by (worker_writes w) KEY_INTENT old =
    (if decide (cstr (w_intent w) = []) then old else Some (cstr (w_intent w))) ∧
  left_by (worker_writes w) KEY_HISTORY old = old.
Proof.
  unfold worker_writes. rewrite !left_by_app, !left_by_unless. cbn [left_by].
  split_and!; repeat case_decide; try done; naive_solver.
Qed.

Lemma strscpy_string size n buf s :
  c_string size buf s → n = size → cstr (strscpy (replicate n NUL) buf) = s.
Proof.
  intros (_ & Hs & Hl) ->. rewrite cstr_strscpy_same; [done| |].
  - destruct size; [lia|done].
  - by rewrite Hs, length_replicate.
Qed.

(** ** Theorems *)

(** C15: a close is stamped exactly when the file was opened for writing, has a
    path, is a regular file and is not skipped (and there is memory to render
    its path); the request then names its dentry, and each of its five values
    is a terminated string within a buffer of the declared size: the session,
    the decimal time and the three variables of the writer.  On every path of
    the hook all resources are given back in reverse order. *)
Theorem release_request_well_formed (config_agent_ns : bool) (agent_session_id_format : Z → bytes → Z * bytes)
    (hex : Z → bytes) (Hf : format_ok agent_session_id_format hex)
    (cur : current) (mem : memory) (skip skip_junk : bytes) (now : Z) (f : kfile)
    (Hm : buffers_ok mem) (Hsk : list_ok skip) (Hsj : length skip_junk = PROVFS_SKIP_MAX)
    (Hnow : (i64_min ≤ now ≤ i64_max)%Z) :
  let r := provfs_file_release config_agent_ns agent_session_id_format cur mem skip skip_junk now f in
  balanced r.1 ∧
  match r.2 with
  | Some a => ∃ d, stamped_close cur skip f d ∧ request_values config_agent_ns hex cur now d a
  | None => ∀ d, ¬ stamped_close cur skip f d
  end.
Proof. by apply file_release_spec. Qed.

Definition sample_file (path : bytes) : kfile :=
  {| fmode_write := true; f_path := {| p_mnt := true; p_dentry := true; d_absolute_path := Some path |};
     f_dentry := Some path; f_mode := Some 33188%Z |}.

Lemma sample_buffers_ok : buffers_ok sample_memory.
Proof. split; try apply length_replicate. apply sample_memory_ok. Qed.

Lemma default_list_ok : list_ok provfs_skip_prefixes_init.
Proof. split; vm_compute; [done|lia]. Qed.

Definition sample_request (env path : bytes) : option enqueue_args :=
  (provfs_file_release false sample_format (sample_writer env (blit "/home")) sample_memory
     provfs_skip_prefixes_init (junk PROVFS_SKIP_MAX) 1779580800 (sample_file path)).2.

Lemma release_request_well_formed_witness :
  sample_request sample_env (blit "/home/u/.git/HEAD") = None ∧
  ∀ d, ¬ stamped_close (sample_writer sample_env (blit "/home")) provfs_skip_prefixes_init
           (sample_file (blit "/home/u/.git/HEAD")) d.
Proof.
  assert (Hnone : sample_request sample_env (blit "/home/u/.git/HEAD") = None) by (by vm_compute).
  split; [exact Hnone|].
  destruct (release_request_well_formed false sample_format sample_hex sample_format_ok
    (sample_writer sample_env (blit "/home")) sample_memory provfs_skip_prefixes_init (junk PROVFS_SKIP_MAX)
    1779580800 (sample_file (blit "/home/u/.git/HEAD"))) as [_ H].
  - apply sample_buffers_ok.
  - apply default_list_ok.
  - apply length_replicate.
  - vm_compute. by split.
  - unfold sample_request in Hnone. rewrite Hnone in H. exact H.
Defined.

(** The old value of a key unless a new text replaces it. *)
Definition or_old (text : bytes) (old : option bytes) : option str :=
  if decide (text = []) then from_utf8_lossy <$> old else Some (from_utf8_lossy text).

(** C6: end to end in the kernel: when a close is stamped, its request admitted
    and the worker's writes succeed, [read_record] returns the session value
    composed at the close, the time of the close in decimal, which the reader
    parses back to that very second, and the tool, turn and intent of the
    writer's environment, or the file's former ones for those the writer does
    not have; the history is not touched. *)
Theorem lsm_stamp_read_back (W : Type) (step : ∀ c : call, W → resp c * W)
    (xa : W → bytes → str → option bytes) (live : W → bytes → Prop) (Hstore : XattrStore step xa live)
    (config_agent_ns : bool) (agent_session_id_format : Z → bytes → Z * bytes)
    (hex : Z → bytes) (Hf : format_ok agent_session_id_format hex)
    (cur : current) (mem : memory) (skip skip_junk : bytes) (now : Z) (f : kfile)
    (Hm : buffers_ok mem) (Hsk : list_ok skip) (Hsj : length skip_junk = PROVFS_SKIP_MAX)
    (Hnow : (i64_min ≤ now ≤ i64_max)%Z) (a : enqueue_args) (alloc queue : bool) (s : module_state)
    (wk : provfs_stamp_work) (w : W) (parse_from_rfc3339 : str → option Z)
    (Ha : (provfs_file_release config_agent_ns agent_session_id_format cur mem skip skip_junk now f).2 = Some a)
    (Hwk : admitted_work a alloc queue s = Some wk)
    (Hset : all_set step (w_dentry wk) (worker_writes wk) w) :
  let d := w_dentry wk in
  f_dentry f = Some d ∧
  ∃ r, exec_res step (read_record d) (exec_world step (provfs_stamp_worker wk) w) = Ok r ∧
    rec_session r = Some (from_utf8_lossy (session_text config_agent_ns hex cur)) ∧
    rec_ts r = Some (display_Z now) ∧ unix (parse_ts parse_from_rfc3339 (display_Z now)) = Some now ∧
    rec_tool r = or_old (field_text cur provfs_key_tool) (xa w d KEY_TOOL) ∧
    rec_turn r = or_old (field_text cur provfs_key_turn) (xa w d KEY_TURN) ∧
    rec_intent r = or_old (field_text cur provfs_key_intent) (xa w d KEY_INTENT) ∧
    rec_history r = from_utf8_lossy <$> xa w d KEY_HISTORY.
Proof.
  destruct (file_release_spec config_agent_ns agent_session_id_format hex Hf cur mem skip skip_junk now f
    Hm Hsk Hsj Hnow) as [_ Hr]. rewrite Ha in Hr.
  destruct Hr as (d & (_ & _ & _ & Hd & _) & Hreq).
  destruct Hreq as (Ed & (bs & Es & Hs) & (bt & Et & Ht) & (bo & Eo & Ho) & (bu & Eu & Hu) & (bi & Ei & Hi)).
  unfold admitted_work in Hwk. rewrite Ed, Es, Et in Hwk. cbn [mbind option_bind] in Hwk.
  case_match; [|done]. injection Hwk as <-. cbv zeta. cbn [make_work w_dentry] in *. split; [done|].
  set (wk := make_work d bs bt a) in *.
  destruct (write_attrs_store (xa:=xa) (live:=live) d (worker_writes wk) w Hset) as [[?|Hl] Hx]; [done|].
  change (write_attrs d (worker_writes wk)) with (provfs_stamp_worker wk) in Hl, Hx.
  rewrite (read_record_store d _ Hl). eexists. split; [done|].
  cbn [prov_keys fmap list_fmap record_of rec_session rec_tool rec_turn rec_intent rec_ts rec_history].
  rewrite !Hx.
  assert (Hv : cstr (w_session wk) = session_text config_agent_ns hex cur ∧ cstr (w_ts wk) = fmt_lld now ∧
    cstr (w_tool wk) = field_text cur provfs_key_tool ∧ cstr (w_turn wk) = field_text cur provfs_key_turn ∧
    cstr (w_intent wk) = field_text cur provfs_key_intent).
  { unfold wk, make_work. rewrite Eo, Eu, Ei. cbn [w_session w_ts w_tool w_turn w_intent default].
    split_and!; by eapply strscpy_string. }
  destruct Hv as (V1 & V2 & V3 & V4 & V5).
  destruct (worker_leaves wk (xa w d KEY_SESSION)) as (-> & _).
  destruct (worker_leaves wk (xa w d KEY_TOOL)) as (_ & _ & -> & _).
  destruct (worker_leaves wk (xa w d KEY_TURN)) as (_ & _ & _ & -> & _).
  destruct (worker_leaves wk (xa w d KEY_INTENT)) as (_ & _ & _ & _ & -> & _).
  destruct (worker_leaves wk (xa w d KEY_TS)) as (_ & -> & _).
  destruct (worker_leaves wk (xa w d KEY_HISTORY)) as (_ & _ & _ & _ & _ & ->).
  rewrite V1, V2, V3, V4, V5. unfold or_old. split_and!; try done; try (by case_decide).
  - simpl. f_equal. apply from_utf8_lossy_as_bytes, display_Z_valid.
  - unfold parse_ts. cbn [unix]. unfold trim. rewrite trim_by_id by apply display_Z_trimmed.
    unfold parse_i64. by rewrite parse_int_display_Z by (unfold i64_min, i64_max in *; lia).
Qed.

Definition sample_args : enqueue_args :=
  default (sample_call [] []) (sample_request sample_env (blit "/home/u/a")).
Definition sample_work : provfs_stamp_work :=
  make_work (blit "/home/u/a") (default [] (a_session sample_args)) (default [] (a_ts sample_args)) sample_args.

Lemma lsm_stamp_read_back_witness :
  ∃ r, exec_res mem_step (read_record (blit "/home/u/a"))
         (exec_world mem_step (provfs_stamp_worker sample_work) ∅) = Ok r ∧
    rec_session r = Some (lit "comm-chain:sed>bash;env:CLAUDE_TOOL=Edit;cwd:/home;pid:812;uid:1000") ∧
    rec_tool r = Some (lit "Edit") ∧ rec_intent r = None.
Proof.
  destruct (lsm_stamp_read_back _ mem_step mem_xa mem_live mem_store false sample_format sample_hex
    sample_format_ok (sample_writer sample_env (blit "/home")) sample_memory provfs_skip_prefixes_init
    (junk PROVFS_SKIP_MAX) 1779580800 (sample_file (blit "/home/u/a"))) with
    (a := sample_args) (alloc := true) (queue := true) (s := init_state 2 true true) (wk := sample_work)
    (w := (∅ : mem_world)) (parse_from_rfc3339 := λ _ : str, @None Z) as (_ & r & Hr & Hs & _ & _ & Ht & _ & Hi & _).
  - apply sample_buffers_ok.
  - apply default_list_ok.
  - apply length_replicate.
  - vm_compute. by split.
  - by vm_compute.
  - by vm_compute.
  - by vm_compute.
  - exists r. split; [exact Hr|]. rewrite Hs, Ht, Hi.
    clear. split_and!; apply (bool_decide_eq_true_1 _); by vm_compute.
Defined.
