(* ===== verification/LsmStore.v ===== *)
(** What the deferred queue of the kernel module leaves on files
    ([lsm/provfs_work.c]): over every interleaving of closing tasks and workers
    no attribute is invented, and once the queue is empty none is lost; two
    stamps of one file may still mix. *)

From S2P Require Import Prelude RustStr CStr Xattrs LsmIdent LsmWork.
From Stdlib Require Import Strings.Byte.

Open Scope Z_scope.

(** ** Specification *)

(** A work item asks for an attribute: the session and the timestamp always, a
    tool, a turn or an intent when it is not empty. *)
Inductive wants (w : provfs_stamp_work) : str → bytes → Prop :=
| wants_session : wants w KEY_SESSION (cstr (w_session w))
| wants_ts : wants w KEY_TS (cstr (w_ts w))
| wants_tool : cstr (w_tool w) ≠ [] → wants w KEY_TOOL (cstr (w_tool w))
| wants_turn : cstr (w_turn w) ≠ [] → wants w KEY_TURN (cstr (w_turn w))
| wants_intent : cstr (w_intent w) ≠ [] → wants w KEY_INTENT (cstr (w_intent w)).

(** A call of the history [l] that has what a stamp needs, and the item it
    makes. *)
Definition called (l : list action) (d : dentry) (session ts : bytes) (a : enqueue_args) : Prop :=
  (∃ i, ACall i a ∈ l) ∧ a_dentry a = Some d ∧ a_session a = Some session ∧ a_ts a = Some ts.

Definition came (l : list action) (w : provfs_stamp_work) : Prop :=
  ∃ d session ts a, called l d session ts a ∧ w = make_work d session ts a.

(** An attribute of a file some item, waiting or being written, has still to
    write. *)
Definition waits (d : dentry) (key : str) (v : bytes) (w : provfs_stamp_work) : Prop :=
  w_dentry w = d ∧ wants w key v.
Definition in_hand (d : dentry) (key : str) (v : bytes) (pc : work_pc) : Prop :=
  match pc with WWrite w rest => w_dentry w = d ∧ (key, v) ∈ rest | _ => False end.
Definition to_write (s : module_state) (d : dentry) (key : str) (v : bytes) : Prop :=
  Exists (waits d key v) (pending s) ∨ Exists (in_hand d key v) (running s).

(** A worker's step whose attribute write, if it is one, succeeds. *)
Definition succeeds (a : action) : Prop :=
  match a with AStart _ => True | AWork _ ok => ok = true | _ => False end.

(** The attributes of [d] in state [s]. *)
Definition attr (s : module_state) (d : dentry) (key : str) : option bytes := store_of s !! (d, key).

(** ** Lemmas *)

Lemma unless_empty_elem key v k buf :
  (key, v) ∈ unless_empty k buf ↔ key = k ∧ v = cstr buf ∧ cstr buf ≠ [].
Proof.
  unfold unless_empty. case_decide as H; rewrite ?list_elem_of_singleton; [|naive_solver].
  split; [by intros ?%not_elem_of_nil|tauto].
Qed.

Lemma wants_writes w key v : wants w key v ↔ (key, v) ∈ worker_writes w.
Proof.
  unfold worker_writes. rewrite !elem_of_app, !elem_of_cons, !unless_empty_elem. split.
  - intros []; tauto.
  - intros [[[= -> ->]|[[= -> ->]|[]%not_elem_of_nil]]|[(-> & -> & ?)|[(-> & -> & ?)|(-> & -> & ?)]]].
    + apply wants_session.
    + apply wants_ts.
    + by apply wants_tool.
    + by apply wants_turn.
    + by apply wants_intent.
Qed.

Lemma wants_det w key v v' : wants w key v → wants w key v' → v = v'.
Proof. by destruct 1; inversion 1. Qed.

(** One element of a list set apart. *)
Lemma Exists_apart {A} (P : A → Prop) l j x :
  l !! j = Some x → (Exists P l ↔ P x ∨ Exists P (delete j l)) ∧
    ∀ y, Exists P (<[j := y]> l) ↔ P y ∨ Exists P (delete j l).
Proof.
  intros H. split; [|intros y; rewrite insert_take_drop by (by eapply lookup_lt_Some)].
  1: rewrite <-(take_drop_middle l j x H) at 1.
  all: rewrite delete_take_drop, !Exists_app, Exists_cons; tauto.
Qed.

(** *** What one step of a worker does to a file *)

Section Steps.
Context (d : dentry) (key : str).

(** Either it writes the attribute, with a value that was to be written, or it
    leaves it, and leaves it to be written unless the write failed. *)
Lemma worker_effect a s s1 :
  by_workers a → step a s = Some s1 →
  (∀ v, to_write s1 d key v → to_write s d key v) ∧
  ((∃ v, to_write s d key v ∧ attr s1 d key = Some v) ∨
   attr s1 d key = attr s d key ∧ (succeeds a → ∀ v, to_write s d key v → to_write s1 d key v)).
Proof.
  intros Ha Hs. unfold to_write, attr. destruct a as [| |k|j ok|]; try done; simpl in Hs.
  - destruct (pending s !! k) as [w|] eqn:Hk; simplify_eq. simpl.
    assert (∀ v, waits d key v w ↔ in_hand d key v (WWrite w (worker_writes w))) as Hw
      by (intros v; unfold waits; simpl; by rewrite wants_writes).
    split; [|right; split; [done|intros _]]; intros v;
      rewrite (proj1 (Exists_apart (waits d key v) _ _ _ Hk)), Exists_app, Exists_cons, Exists_nil, Hw; tauto.
  - unfold worker_step in Hs. destruct (running s !! j) as [pc|] eqn:Hj; [|done].
    pose proof (λ v, Exists_apart (in_hand d key v) _ _ _ Hj) as Hr.
    destruct pc as [w [|[key' v'] rest]| |]; simplify_eq; [|destruct ok|..]; simpl.
    all: split; [intros v; destruct (Hr v) as [-> Hi]; rewrite ?Hi; simpl; rewrite ?elem_of_cons; tauto|].
    1, 3, 4, 5: right; split; [done|]; intros Hok v; destruct (Hr v) as [-> Hi]; rewrite ?Hi; simpl; rewrite ?elem_of_nil; done || tauto.
    destruct (decide (w_dentry w = d ∧ key' = key)) as [[<- <-]|Hne].
    + left. exists v'. split; [|apply lookup_insert_eq]. right. apply (proj1 (Hr v')). left. simpl. set_solver.
    + right. rewrite lookup_insert_ne by naive_solver. split; [done|]. intros _ v.
      destruct (Hr v) as [-> Hi]. rewrite Hi. simpl. rewrite elem_of_cons. naive_solver.
Qed.

(** A schedule of workers changes an attribute to a value that was to be
    written, or not at all. *)
Lemma workers_effect l s s' :
  Forall by_workers l → steps l s = Some s' →
  attr s' d key = attr s d key ∨ ∃ v, to_write s d key v ∧ attr s' d key = Some v.
Proof.
  intros Hl. revert s. induction Hl as [|a l Ha _ IH]; intros s; simpl; [by intros [= <-]; left|].
  destruct (step a s) as [s1|] eqn:Hs; [|done]. intros Hss.
  destruct (worker_effect a s s1 Ha Hs) as [Hsub Heff].
  destruct (IH s1 Hss) as [Heq|(v & Hv & Heq)]; [|right; exists v; auto].
  rewrite Heq. destruct Heff as [(v & ? & ->)|[-> _]]; eauto.
Qed.

(** When all is written and no write failed, every attribute that was to be
    written is there. *)
Lemma workers_write l s s' v :
  Forall by_workers l → Forall succeeds l → steps l s = Some s' → pending s' = [] → running s' = [] →
  to_write s d key v → ∃ v', to_write s d key v' ∧ attr s' d key = Some v'.
Proof.
  intros Hl Hok Hss Hp Hr. revert s Hss. induction Hl as [|a l Ha Hl IH]; intros s; simpl.
  - intros [= ->]. unfold to_write. rewrite Hp, Hr, !Exists_nil. tauto.
  - apply Forall_cons in Hok as [Hoka Hok]. destruct (step a s) as [s1|] eqn:Hs; [|done].
    intros Hss Hv. destruct (worker_effect a s s1 Ha Hs) as [Hsub [(v1 & Hv1 & Heq)|[_ Hkeep]]].
    + destruct (workers_effect l s1 s' Hl Hss) as [->|(v' & Hv' & ->)]; eauto.
    + destruct (IH Hok s1 Hss (Hkeep Hoka v Hv)) as (v' & Hv' & ->). eauto.
Qed.
End Steps.

(** *** Where the values come from *)

Section Calls.
Context (l0 : list action).

Definition slot_from (pc : enq_pc) : Prop :=
  match pc with
  | EGuards a => ∃ i, ACall i a ∈ l0
  | EDepth d se ts a | ELimit _ d se ts a | EAlloc d se ts a => called l0 d se ts a
  | EInc w | EQueue w | EUndo w => came l0 w
  | EIdle | EDrop => True
  end.

Definition run_from (pc : work_pc) : Prop :=
  match pc with
  | WWrite w rest => came l0 w ∧ ∀ kv, kv ∈ rest → kv ∈ worker_writes w
  | _ => True
  end.

(** Everything in the state goes back to a call of [l0]. *)
Record from_calls (s : module_state) : Prop := {
  from_slots : Forall slot_from (slots s);
  from_pending : Forall (came l0) (pending s);
  from_running : Forall run_from (running s);
  from_store : ∀ d key v, attr s d key = Some v → ∃ w, came l0 w ∧ waits d key v w;
}.

Lemma enqueue_from i ok s s1 : from_calls s → enqueue_step i ok s = Some s1 → from_calls s1.
Proof.
  intros [Hs Hp Hr Hst] H. unfold enqueue_step in H.
  destruct (slots s !! i) as [pc|] eqn:Hi; [|done].
  pose proof (proj1 (Forall_lookup _ _) Hs i pc Hi) as Hpc.
  destruct pc as [|a|d se ts a|seen d se ts a|d se ts a|w|w|w|]; simplify_eq; simpl in Hpc.
  all: repeat case_match; split; simpl; try done; try (apply Forall_app; split; [done|by repeat constructor]).
  all: apply Forall_insert; try done; simpl.
  by exists d, se, ts, a.
Qed.

Lemma worker_from j ok s s1 : from_calls s → worker_step j ok s = Some s1 → from_calls s1.
Proof.
  intros [Hs Hp Hr Hst] H. unfold worker_step in H.
  destruct (running s !! j) as [pc|] eqn:Hj; [|done].
  pose proof (proj1 (Forall_lookup _ _) Hr j pc Hj) as Hpc.
  destruct pc as [w [|[key value] rest]| |]; simplify_eq; simpl in Hpc.
  2: destruct Hpc as [Hw Hin]; destruct ok.
  all: split; simpl; try done; try (by apply Forall_insert); try (by apply Forall_delete).
  1, 3: apply Forall_insert; [done|]; split; [done|]; intros kv ?; apply Hin; by right.
  intros d k v. unfold attr. simpl. destruct (decide ((w_dentry w, key) = (d, k))) as [[= <- <-]|Hne].
  - rewrite lookup_insert_eq. intros [= <-]. exists w. split; [done|]. split; [done|].
    apply wants_writes, Hin. by left.
  - rewrite lookup_insert_ne by done. apply Hst.
Qed.

Lemma steps_from l s s1 :
  (∀ a, a ∈ l → a ∈ l0) → from_calls s → steps l s = Some s1 → from_calls s1.
Proof.
  revert s. induction l as [|a l IH]; intros s Hl Hf; simpl; [by intros [= <-]|].
  destruct (step a s) as [s2|] eqn:Hs; [|done]. apply IH; [intros a' ?; apply Hl; by right|].
  clear IH s1. destruct a as [i args|i ok|k|j ok|v]; simpl in Hs.
  - destruct (slots s !! i) as [[]|]; simplify_eq. destruct Hf as [Hsl Hp Hr Hst]. split; simpl; try done.
    apply Forall_insert; [done|]. exists i. apply Hl. by left.
  - by eapply enqueue_from.
  - destruct (pending s !! k) as [w|] eqn:Hk; simplify_eq. destruct Hf as [Hsl Hp Hr Hst]. split; simpl; try done.
    + by apply Forall_delete.
    + apply Forall_app. split; [done|]. constructor; [|done]. split; [|done].
      exact (proj1 (Forall_lookup _ _) Hp k w Hk).
  - by eapply worker_from.
  - case_match; simplify_eq; by destruct Hf.
Qed.
End Calls.

Lemma reachable_from n alloc_ok register_ok l s :
  steps l (init_state n alloc_ok register_ok) = Some s → from_calls l s.
Proof.
  apply steps_from; [done|].
  assert (Forall (slot_from l) (replicate n EIdle)) as H
    by (apply Forall_forall; by intros x [-> _]%elem_of_replicate).
  unfold init_state, provfs_work_init. case_match; by split.
Qed.

(** With nothing in the workers' hands, what is to be written is what the
    waiting items ask for. *)
Lemma to_write_waiting s d key v :
  running s = [] → to_write s d key v ↔ ∃ w, w ∈ pending s ∧ waits d key v w.
Proof. intros Hr. unfold to_write. rewrite Hr, Exists_nil, Exists_exists. tauto. Qed.

(** ** Theorems *)

(** C25: what the queue leaves on files.  In every state the module reaches,
    whatever the interleaving, an attribute of a file is one that a call on that
    very file asked for: none is invented, moved to another file or given to
    another key.  From a moment with no item in a worker's hands, any schedule
    of the workers that empties the queue, no attribute write failing, leaves
    each attribute with a value one of the waiting items of that file asks for,
    or as it was when none asks; in particular a file with one waiting item
    gets exactly its attributes, and no item is lost. *)
Theorem queue_stamps_files (n : nat) (alloc_ok register_ok : bool) (l0 l : list action) (s s' : module_state)
    (Hs : steps l0 (init_state n alloc_ok register_ok) = Some s) (Hidle : running s = [])
    (Hl : Forall by_workers l) (Hok : Forall succeeds l) (Hs' : steps l s = Some s')
    (Hend : pending s' = [] ∧ running s' = []) (d : dentry) (key : str) :
  (∀ v, attr s d key = Some v → ∃ w, came l0 w ∧ waits d key v w) ∧
  ((∃ w v, w ∈ pending s ∧ waits d key v w ∧ attr s' d key = Some v) ∨
   (∀ w v, w ∈ pending s → ¬ waits d key v w) ∧ attr s' d key = attr s d key).
Proof.
  split; [by apply (from_store _ _ (reachable_from n _ _ l0 s Hs))|].
  pose proof (λ v, to_write_waiting s d key v Hidle) as Hw.
  destruct (decide (Exists (λ w, w_dentry w = d ∧ key ∈ (worker_writes w).*1) (pending s))) as [Hex|Hno].
  - apply Exists_exists in Hex as (w & Hin & Hd & ([k v] & -> & Hkv)%list_elem_of_fmap). left.
    destruct (workers_write d k l s s' v) as (v' & (w' & ? & ?)%Hw & ?); try done; [by destruct Hend..| |eauto].
    apply Hw. exists w. split; [done|]. split; [done|]. by apply wants_writes.
  - right. assert (∀ w v, w ∈ pending s → ¬ waits d key v w) as Hnone.
    { intros w v Hin [Hd Hv%wants_writes]. apply Hno, Exists_exists. exists w. split_and!; [done..|].
      apply list_elem_of_fmap. by exists (key, v). }
    split; [done|]. destruct (workers_effect d key l s s' Hl Hs') as [?|(v & (w & Hin & Hwt)%Hw & _)]; [done|].
    by destruct (Hnone w v Hin).
Qed.

(** Both items of [after_both], one after the other. *)
Definition one_by_one : list action :=
  concat (replicate 2 (AStart 0 :: replicate 6 (AWork 0 true))).

Lemma queue_stamps_files_witness :
  let s' := default (boot_state 2) (steps one_by_one after_both) in
  is_Some (attr s' (blit "/f") KEY_TS) ∧ attr s' (blit "/g") KEY_TS = None.
Proof.
  intros s'.
  assert (H : ∀ d key, (∃ w v, w ∈ pending after_both ∧ waits d key v w ∧ attr s' d key = Some v) ∨
    (∀ w v, w ∈ pending after_both → ¬ waits d key v w) ∧ attr s' d key = attr after_both d key).
  { intros d key. refine (proj2 (queue_stamps_files 2 true true enqueue_both one_by_one after_both s' _ _ _ _ _ _ d key)).
    - vm_compute. reflexivity.
    - vm_compute. reflexivity.
    - by repeat constructor.
    - by repeat constructor.
    - vm_compute. reflexivity.
    - split; vm_compute; reflexivity. }
  split; [|by vm_compute].
  destruct (H (blit "/f") KEY_TS) as [(w & v & _ & _ & ->)|[Hno _]]; [by eexists|].
  set (w := make_work (blit "/f") (blit "A") (blit "1") (sample_call (blit "A") (blit "1"))).
  destruct (Hno w (cstr (w_ts w))); [vm_compute; by left|]. split; [by vm_compute|]. apply wants_ts.
Defined.

(** A schedule that leaves the file between the two writers. *)
Definition mixing : list action :=
  [AStart 0; AStart 0; AWork 0 true; AWork 1 true; AWork 1 true; AWork 0 true].

Definition optional_writes (w : provfs_stamp_work) : list (str * bytes) :=
  unless_empty KEY_TOOL (w_tool w) ++ unless_empty KEY_TURN (w_turn w) ++ unless_empty KEY_INTENT (w_intent w).

(** The two kinds of steps it is made of. *)
Lemma start_first s w p :
  pending s = w :: p →
  step (AStart 0) s = Some (set_work p (running s ++ [WWrite w (worker_writes w)]) s).
Proof. intros Hp. unfold step. by rewrite Hp. Qed.

Lemma write_succeeds s j w key v rest :
  running s !! j = Some (WWrite w ((key, v) :: rest)) →
  step (AWork j true) s = Some (set_store (<[(w_dentry w, key) := v]> (store_of s))
    (set_work (pending s) (<[j := WWrite w rest]> (running s)) s)).
Proof. intros Hj. unfold step, worker_step. by rewrite Hj. Qed.

Lemma steps_cons a l s s1 : step a s = Some s1 → steps (a :: l) s = steps l s1.
Proof. intros H. simpl. by rewrite H. Qed.

Lemma mixing_steps s w1 w2 :
  running s = [] → pending s = [w1; w2] → w_dentry w1 = w_dentry w2 →
  ∃ s1, steps mixing s = Some s1 ∧ pending s1 = [] ∧
    running s1 = [WWrite w1 (optional_writes w1); WWrite w2 (optional_writes w2)] ∧
    attr s1 (w_dentry w1) KEY_SESSION = Some (cstr (w_session w2)) ∧
    attr s1 (w_dentry w1) KEY_TS = Some (cstr (w_ts w1)).
Proof.
  intros Hr Hp Hd. unfold mixing.
  rewrite (steps_cons _ _ _ _ (start_first s w1 [w2] Hp)), Hr.
  erewrite steps_cons by (by apply start_first).
  do 4 (erewrite steps_cons by (by apply write_succeeds)).
  eexists. split; [reflexivity|]. split; [reflexivity|]. split; [reflexivity|].
  unfold attr. cbn [store_of set_store set_work]. rewrite <-Hd. split; [|apply lookup_insert_eq].
  rewrite !lookup_insert_ne by (by intros [=]). apply lookup_insert_eq.
Qed.

Lemma steps_app l1 l2 s s1 : steps l1 s = Some s1 → steps (l1 ++ l2) s = steps l2 s1.
Proof.
  revert s. induction l1 as [|a l1 IH]; intros s; simpl; [by intros [= ->]|].
  destruct (step a s); [apply IH|done].
Qed.

Lemma optional_writes_keys w key v : (key, v) ∈ optional_writes w → key ≠ KEY_SESSION ∧ key ≠ KEY_TS.
Proof.
  unfold optional_writes. rewrite !elem_of_app, !unless_empty_elem.
  intros [(-> & _)|[(-> & _)|(-> & _)]]; done.
Qed.

(** Two waiting stamps of one file can mix: the workqueue runs its items
    concurrently, so one item's session can stay beside the other one's
    timestamp. *)
Lemma workers_can_mix s w1 w2 :
  running s = [] → pending s = [w1; w2] → w_dentry w1 = w_dentry w2 →
  ∃ l s', Forall by_workers l ∧ steps l s = Some s' ∧ running s' = [] ∧ pending s' = [] ∧
    attr s' (w_dentry w1) KEY_SESSION = Some (cstr (w_session w2)) ∧
    attr s' (w_dentry w1) KEY_TS = Some (cstr (w_ts w1)).
Proof.
  intros Hr Hp Hd. destruct (mixing_steps s w1 w2 Hr Hp Hd) as (s1 & Hs1 & Hp1 & Hr1 & Hse & Hts).
  destruct (drain_schedule (Z.to_nat (work_size s1)) s1) as (l & Hl & _ & Hss & Hre & Hpe);
    [pose proof (work_size_nonneg s1); lia|].
  exists (mixing ++ l), (drain (Z.to_nat (work_size s1)) s1). split_and!; [|by rewrite (steps_app _ _ _ s1)|done|done|..].
  { apply Forall_app. split; [by repeat constructor|done]. }
  all: rewrite <-?Hse, <-?Hts.
  all: match goal with |- attr _ ?d ?key = _ =>
         destruct (workers_effect d key l s1 _ Hl Hss) as [->|(v & Hv & _)]; [done|exfalso] end.
  all: revert Hv; unfold to_write; rewrite Hp1, Hr1, Exists_nil, !Exists_cons, Exists_nil; simpl.
  all: intros [[]|[[_ H%optional_writes_keys]|[[_ H%optional_writes_keys]|[]]]]; tauto.
Qed.

Close Scope Z_scope.
