(* ===== verification/Tests.v ===== *)
(** The repository's own tests, run on the model: every [#[test]] function of
    the sources and of [tests/integration.rs] as a boolean with the inputs and
    the assertions of the test, a Module per source file.  Tests on files run
    against an in-memory system that starts with one empty temporary directory
    and the process 1; the date library is a parameter. *)

From S2P Require Import Prelude RustStr RustPath Sys History Skip Duration Session Identity.
From S2P Require Import Xattrs InodeTable ProvFs Reader.
From Stdlib Require Import Strings.Byte.

Open Scope Z_scope.

(** ** The system the tests run on *)

(** The files that exist, as (directory, name, type), and their attributes. *)
Record test_world : Type := { files : list (bytes * bytes * ftype); attrs : mem_world }.

(** [TempDir::new()]: the directory is there, and empty. *)
Definition tmp : bytes := blit "/tmp/t".
Definition fresh : test_world := {| files := []; attrs := ∅ |}.

Definition exists_at (w : test_world) (p : bytes) : bool :=
  existsb (λ f, bool_decide (join f.1.1 f.1.2 = p)) (files w).

Definition entries_of (w : test_world) (dir : bytes) : list (io_result dirent) :=
  (λ f, Ok {| d_name := f.1.2; d_type := Ok f.2 |}) <$> filter (λ f, f.1.1 = dir) (files w).

(** [/proc/1/comm]; [/proc/1/environ] is not readable without privileges. *)
Definition proc_file (p : bytes) : io_result bytes :=
  if decide (p = blit "/proc/1/comm") then Ok (blit "systemd" ++ [Byte.x0a]) else Err (OsError ENOENT).

(** Attributes live on files that exist. *)
Definition test_step (c : call) (w : test_world) : resp c * test_world :=
  match c as c0 return resp c0 * test_world with
  | ReadDir p => (Ok (entries_of w p), w)
  | ReadFile p => (proc_file p, w)
  | SymlinkMetadata p => (if exists_at w p then Ok tt else Err (OsError ENOENT), w)
  | XattrGet p k =>
      (if exists_at w p then (mem_step (XattrGet p k) (attrs w)).1 else Err (OsError ENOENT), w)
  | XattrSet p k v =>
      if exists_at w p then
        let r := mem_step (XattrSet p k v) (attrs w) in
        (r.1, {| files := files w; attrs := r.2 |})
      else (Err (OsError ENOENT), w)
  | c => ((mem_step c ∅).1, w)
  end.

(** A test: a function of the world, in the state monad. *)
Definition test (A : Type) : Type := test_world → A * test_world.
#[export] Instance test_mret : MRet test := λ A a w, (a, w).
#[export] Instance test_mbind : MBind test := λ A B f m w, let r := m w in f r.1 r.2.

Definition run {A} (p : prog A) : test A := λ w, (exec_res test_step p w, exec_world test_step p w).

(** [fs::write] and [File::create], and [fs::create_dir], of the name [n] in
    the directory [d], as far as the code under test sees them. *)
Definition new_entry (d n : bytes) (t : ftype) : test bytes :=
  λ w, (join d n, {| files := files w ++ [(d, n, t)]; attrs := attrs w |}).

(** [xattr::set(..).is_ok()] and [xattr::remove(..)], called by the tests. *)
Definition xattr_set (p : bytes) (k : str) (v : bytes) : test bool :=
  r ← run (sys (XattrSet p k v)); mret (match r with Ok _ => true | Err _ => false end).
Definition xattr_remove (p : bytes) (k : str) : test unit :=
  λ w, (tt, {| files := files w; attrs := delete (p, k) (attrs w) |}).

(** The probe of both [xattr_supported]s: set an attribute, remove it again. *)
Definition probe_set (probe : str) (p : bytes) : test bool :=
  ok ← xattr_set p probe (blit "1");
  if (ok : bool) then _ ← xattr_remove p probe; mret true else mret false.

Definition passes (t : test bool) : bool := (t fresh).1.

(** [is_ok], [is_err], [==] and [!=] of the assertions. *)
Definition is_ok {A E} (r : result A E) : bool := match r with Ok _ => true | Err _ => false end.
Definition is_err {A E} (r : result A E) : bool := negb (is_ok r).
Definition eqb {A} `{EqDecision A} (x y : A) : bool := bool_decide (x = y).
Definition neb {A} `{EqDecision A} (x y : A) : bool := negb (eqb x y).

(** [assert_eq!(x.as_deref(), Some(s))] *)
Definition is_some_str (o : option str) (s : string) : bool := eqb o (Some (lit s)).

(** ** [duration.rs] *)

Module duration.
(** [parse_duration] answers seconds; an overflow panics. *)
Definition parses (s : string) (secs : Z) : bool :=
  match parse_duration (lit s) with Some (Ok n) => n =? secs | _ => false end.
Definition rejects (s : string) : bool :=
  match parse_duration (lit s) with Some (Err _) => true | _ => false end.

Definition parses_hours : bool := parses "24h" (24 * 3600).
Definition parses_days : bool := parses "7d" (7 * 86400).
Definition parses_minutes : bool := parses "30m" (30 * 60).
Definition parses_seconds : bool := parses "10s" 10.
Definition rejects_empty : bool := rejects "".
Definition rejects_missing_unit : bool := rejects "24".
Definition rejects_missing_magnitude : bool := rejects "h".
Definition rejects_unknown_unit : bool := rejects "24w".
Definition trims_whitespace : bool := parses "  24h  " (24 * 3600).

Definition tests : list bool :=
  [parses_hours; parses_days; parses_minutes; parses_seconds; rejects_empty;
   rejects_missing_unit; rejects_missing_magnitude; rejects_unknown_unit; trims_whitespace].
End duration.

(** ** [history.rs] *)

Module history.
Definition pushes (prior s got : string) : bool := eqb (push_history (lit prior) (lit s)) (lit got).

Definition first_push_into_empty : bool := pushes "" "a" "a".
Definition dedup_when_pushing_existing_head : bool := pushes "a,b,c" "a" "a,b,c".
Definition dedup_when_pushing_existing_tail : bool := pushes "a,b,c" "c" "c,a,b".
Definition truncates_at_max : bool :=
  let prior := lit "a,b,c,d,e" in
  let got := push_history prior (lit "f") in
  eqb got (lit "f,a,b,c,d") && Nat.eqb (length (split_on comma got)) MAX_HISTORY.
Definition ignores_whitespace_and_empty_segments : bool := pushes " a , , b " "c" "c,a,b".

Definition tests : list bool :=
  [first_push_into_empty; dedup_when_pushing_existing_head; dedup_when_pushing_existing_tail;
   truncates_at_max; ignores_whitespace_and_empty_segments].
End history.

(** ** [skip.rs] *)

Module skip.
Definition skips (s : SkipList) (p : string) : bool := should_skip s (blit p).

Definition defaults_skip_git_objects : bool :=
  let s := defaults in
  skips s ".git/objects/abcd" && skips s "repo/.git/HEAD" &&
  skips s "frontend/node_modules/react/package.json" && skips s "rust-crate/target/debug/foo".
Definition defaults_pass_through_normal_paths : bool :=
  let s := defaults in
  negb (skips s "notes.md") && negb (skips s "src/main.rs") && negb (skips s "Cargo.toml").
Definition user_spec_layered_on_defaults : bool :=
  let s := from_user_spec (lit "logs/,tmp/") in
  skips s "logs/build.log" && skips s "tmp/foo" && skips s ".git/HEAD" && negb (skips s "README.md").
Definition empty_list_skips_nothing : bool :=
  let s := empty_list in
  negb (skips s ".git/HEAD").

Definition tests : list bool :=
  [defaults_skip_git_objects; defaults_pass_through_normal_paths; user_spec_layered_on_defaults;
   empty_list_skips_nothing].
End skip.

(** ** [session.rs] *)

Module session.
Definition classifies_agentns_id : bool :=
  let id := lit "0123456789abcdef0123456789abcdef" in
  eqb (classify id) (AgentNs id).
Definition agentns_id_is_case_insensitive_hex : bool :=
  let id := lit "ABCDEF0123456789ABCDEF0123456789" in
  match classify id with AgentNs _ => true | _ => false end.
Definition rejects_wrong_length_as_not_agentns : bool :=
  let s := lit "0123456789abcdef0123456789abcde" in
  (str_len s =? 31)%nat && match classify s with Opaque _ => true | _ => false end.
Definition classifies_enriched_fallback_full : bool :=
  let s := lit "comm-chain:bash>login>init;env:CLAUDE_TOOL=/build;cwd:/home/jsy;pid:12345;uid:1000" in
  match classify s with
  | EnrichedFallback f =>
      is_some_str (comm_chain f) "bash>login>init" && is_some_str (env f) "CLAUDE_TOOL=/build" &&
      is_some_str (cwd f) "/home/jsy" && is_some_str (pid f) "12345" && is_some_str (uid f) "1000"
  | _ => false
  end.
Definition classifies_enriched_fallback_truncated : bool :=
  let s := lit "comm-chain:bash;env:CLAUDE_TOOL=/build" in
  match classify s with
  | EnrichedFallback f =>
      is_some_str (comm_chain f) "bash" && is_some_str (env f) "CLAUDE_TOOL=/build" &&
      eqb (cwd f) None && eqb (pid f) None && eqb (uid f) None
  | _ => false
  end.
Definition classifies_legacy_fallback : bool :=
  let s := lit "comm:claude:pid:1202" in
  eqb (classify s) (LegacyFallback (lit "claude") (lit "1202")).
Definition classifies_opaque_for_unknown_shape : bool :=
  let s := lit "some-random-string" in
  eqb (classify s) (Opaque s).

Definition tests : list bool :=
  [classifies_agentns_id; agentns_id_is_case_insensitive_hex; rejects_wrong_length_as_not_agentns;
   classifies_enriched_fallback_full; classifies_enriched_fallback_truncated;
   classifies_legacy_fallback; classifies_opaque_for_unknown_shape].
End session.

(** ** [identity.rs] *)

Module identity.
Definition resolve_falls_back_to_comm_when_no_env : test bool :=
  id ← run (resolve_identity 1);
  mret (starts_with (lit "comm:") (Identity.session id) && neb (tool id) []).
(** No process of the test system has the number. *)
Definition resolve_nonexistent_pid_yields_unknown : test bool :=
  id ← run (resolve_identity 4000000);
  mret (starts_with (lit "comm:unknown:") (Identity.session id)).

Definition tests : list bool :=
  [passes resolve_falls_back_to_comm_when_no_env; passes resolve_nonexistent_pid_yields_unknown].
End identity.

(** ** [fs.rs] *)

Module fs.
Definition inode_table_assigns_unique_inodes : bool :=
  let t := with_root tmp in
  let a := join tmp (blit "a") in
  let b := join tmp (blit "b") in
  let '(ino_a, t1) := intern t a in
  let '(ino_b, t2) := intern t1 b in
  eqb (path t ROOT_INO) (Some tmp) && neb ino_a ino_b && neb ino_a ROOT_INO &&
  eqb (intern t2 a).1 ino_a.
Definition inode_table_forget_drops_both_directions : bool :=
  let t := with_root tmp in
  let a := join tmp (blit "a") in
  let '(ino, t1) := intern t a in
  let t2 := forget_path t1 a in
  let '(new, _) := intern t2 a in
  neb (path t1 ino) None && eqb (path t2 ino) None && neb new ino.
Definition should_stamp_respects_skiplist : bool :=
  let s := defaults in
  should_stamp (blit "notes.md") s && negb (should_stamp (blit ".git/HEAD") s).

Definition tests : list bool :=
  [inode_table_assigns_unique_inodes; inode_table_forget_drops_both_directions;
   should_stamp_respects_skiplist].
End fs.

(** ** [xattrs.rs] *)

Module xattrs.
Definition xattr_supported (p : bytes) : test bool := probe_set (lit "user.provfs.probe") p.

(** [stamp(..).unwrap()]: a panic fails the test. *)
Definition stamp_unwrap (p : bytes) (id : Identity) (now : str) : test bool :=
  r ← run (stamp p id now); mret (is_ok r).

Definition reads (p : bytes) (key : str) (want : string) : test bool :=
  v ← run (read_str p key); mret (is_some_str v want).

Definition stamp_writes_canonical_keys : test bool :=
  p ← new_entry tmp (blit "a.txt") FtFile;
  supported ← xattr_supported p;
  if negb supported then mret true else
  let id := {| Identity.session := lit "S1"; tool := lit "Edit"; turn := Some (lit "3");
               intent := Some (lit "self-review") |} in
  ok ← stamp_unwrap p id (lit "2026-05-24T00:00:00Z");
  a1 ← reads p KEY_SESSION "S1";
  a2 ← reads p KEY_TOOL "Edit";
  a3 ← reads p KEY_TURN "3";
  a4 ← reads p KEY_INTENT "self-review";
  a5 ← reads p KEY_TS "2026-05-24T00:00:00Z";
  a6 ← reads p KEY_HISTORY "S1";
  mret (ok && a1 && a2 && a3 && a4 && a5 && a6).

Definition history_grows_mru_first : test bool :=
  p ← new_entry tmp (blit "b.txt") FtFile;
  supported ← xattr_supported p;
  if negb supported then mret true else
  let s1 := {| Identity.session := lit "S1"; tool := lit "t"; turn := None; intent := None |} in
  let s2 := {| Identity.session := lit "S2"; tool := lit "t"; turn := None; intent := None |} in
  ok1 ← stamp_unwrap p s1 (lit "t");
  ok2 ← stamp_unwrap p s2 (lit "t");
  a ← reads p KEY_HISTORY "S2,S1";
  mret (ok1 && ok2 && a).

Definition tests : list bool := [passes stamp_writes_canonical_keys; passes history_grows_mru_first].
End xattrs.

(** ** [reader.rs] *)

Module reader.
Definition xattr_supported (p : bytes) : test bool := probe_set (lit "user.provfs_reader.probe") p.

(** [ProvRecord::default()] *)
Definition default_record : ProvRecord :=
  {| rec_session := None; rec_tool := None; rec_turn := None; rec_intent := None; rec_ts := None;
     rec_history := None |}.

Section Dates.
Context {DateTime : Type} (parse_from_rfc3339 : str → option Z).
Context (from_timestamp : Z → option DateTime) (format_local : DateTime → str).

Definition parse_ts_accepts_unix_seconds : bool :=
  let info := parse_ts parse_from_rfc3339 (lit "1717123456") in
  eqb (unix info) (Some 1717123456).
Definition parse_ts_accepts_rfc3339 : bool :=
  let info := parse_ts parse_from_rfc3339 (lit "2026-05-24T00:00:00Z") in
  eqb (unix info) (Some 1779580800).
Definition parse_ts_rejects_garbage : bool :=
  let info := parse_ts parse_from_rfc3339 (lit "not-a-timestamp") in
  eqb (unix info) None && eqb (raw info) (lit "not-a-timestamp").
Definition render_local_produces_nonempty_string : bool :=
  match render_local from_timestamp format_local 1717123456 with
  | Some s => neb s []
  | None => false
  end.

Definition date_tests : list bool :=
  [parse_ts_accepts_unix_seconds; parse_ts_accepts_rfc3339; parse_ts_rejects_garbage;
   render_local_produces_nonempty_string].
End Dates.

Definition parse_history_splits_and_trims : bool :=
  eqb (parse_history (lit "a, b ,c")) (lit <$> ["a"; "b"; "c"]%string).
Definition parse_history_caps_at_max : bool :=
  let raw := lit "a,b,c,d,e,f,g" in
  Nat.eqb (length (parse_history raw)) MAX_HISTORY.
Definition empty_record_reports_is_empty : bool := is_empty default_record.
Definition nonempty_record_reports_not_empty : bool :=
  let r := {| rec_session := None; rec_tool := Some (lit "Edit"); rec_turn := None;
              rec_intent := None; rec_ts := None; rec_history := None |} in
  negb (is_empty r).

Definition read_record_round_trips_real_xattrs : test bool :=
  file ← new_entry tmp (blit "note.txt") FtFile;
  supported ← xattr_supported file;
  if negb supported then mret true else
  ok1 ← xattr_set file KEY_SESSION (blit "01234567890abcdef01234567890abc");
  ok2 ← xattr_set file KEY_TOOL (blit "Edit");
  ok3 ← xattr_set file KEY_TS (blit "1717123456");
  rec ← run (read_record file);
  mret (ok1 && ok2 && ok3 &&
    match rec with
    | Ok rec =>
        is_some_str (rec_session rec) "01234567890abcdef01234567890abc" &&
        is_some_str (rec_tool rec) "Edit" && is_some_str (rec_ts rec) "1717123456" &&
        eqb (rec_turn rec) None && negb (is_empty rec)
    | Err _ => false
    end).

Definition read_record_on_unstamped_file_is_empty_not_error : test bool :=
  file ← new_entry tmp (blit "plain.txt") FtFile;
  rec ← run (read_record file);
  mret match rec with Ok rec => is_empty rec | Err _ => false end.

Definition read_record_on_missing_path_errors : test bool :=
  let missing := join tmp (blit "does-not-exist.txt") in
  rec ← run (read_record missing);
  mret (is_err rec).

(** Three directories' worth of fuel; the tree has two. *)
Definition walk_files_finds_stamped_file_recursively : test bool :=
  sub ← new_entry tmp (blit "sub") FtDir;
  file ← new_entry sub (blit "note.txt") FtFile;
  supported ← xattr_supported file;
  ok ← (if (supported : bool) then xattr_set file KEY_TOOL (blit "Edit") else mret true);
  entries ← run (walk_files 3 tmp);
  mret (ok && match entries with
              | Some entries => existsb (λ e, eqb (we_path e) file) entries
              | None => false
              end).

Definition tests : list bool :=
  [parse_history_splits_and_trims; parse_history_caps_at_max; empty_record_reports_is_empty;
   nonempty_record_reports_not_empty; passes read_record_round_trips_real_xattrs;
   passes read_record_on_unstamped_file_is_empty_not_error;
   passes read_record_on_missing_path_errors; passes walk_files_finds_stamped_file_recursively].
End reader.

(** ** [tests/integration.rs] *)

Module integration.
Definition stamp_round_trips_through_xattrs : test bool :=
  file ← new_entry tmp (blit "note.md") FtFile;
  let id := {| Identity.session := lit "01TESTSESSIONABCDEF"; tool := lit "Edit";
               turn := Some (lit "42"); intent := Some (lit "autobuilder") |} in
  r ← run (stamp file id (lit "2026-05-24T15:00:00Z"));
  if is_err r then mret true else
  let read_back (k : str) : test (option str) :=
    v ← run (sys (XattrGet file k));
    mret match v with Ok (Some v) => from_utf8 v | _ => None end in
  b1 ← read_back KEY_SESSION;
  b2 ← read_back KEY_TOOL;
  b3 ← read_back KEY_TURN;
  b4 ← read_back KEY_INTENT;
  b5 ← read_back KEY_TS;
  b6 ← read_back KEY_HISTORY;
  mret (eqb b1 (Some (Identity.session id)) && is_some_str b2 "Edit" && is_some_str b3 "42" &&
        is_some_str b4 "autobuilder" && is_some_str b5 "2026-05-24T15:00:00Z" &&
        eqb b6 (Some (Identity.session id))).

Definition skiplist_defaults_skip_git_target_node_modules : bool :=
  let s := defaults in
  forallb (λ p, should_skip s (blit p))
    [".git/HEAD"; ".git/objects/00/aabb"; "target/release/x"; "node_modules/foo"]%string &&
  forallb (λ p, negb (should_skip s (blit p)))
    ["README.md"; "src/lib.rs"; "docs/index.html"]%string.

Definition user_spec_extends_defaults : bool :=
  let s := from_user_spec (lit "private/, secrets/") in
  should_skip s (blit "private/notes.md") && should_skip s (blit "secrets/api.key") &&
  should_skip s (blit ".git/HEAD") && negb (should_skip s (blit "public/index.html")).

Definition tests : list bool :=
  [passes stamp_round_trips_through_xattrs; skiplist_defaults_skip_git_target_node_modules;
   user_spec_extends_defaults].
End integration.

(** ** They all pass *)

Lemma file_tests_pass :
  forallb id (duration.tests ++ history.tests ++ skip.tests ++ session.tests ++ identity.tests ++
              fs.tests ++ xattrs.tests ++ reader.tests ++ integration.tests) = true.
Proof. by vm_compute. Qed.

(** None of the tests on files passes by the early return: the test system has
    extended attributes, and stamping succeeds. *)
Lemma file_tests_not_skipped :
  passes (p ← new_entry tmp (blit "a.txt") FtFile; xattrs.xattr_supported p) = true ∧
  passes (p ← new_entry tmp (blit "a.txt") FtFile; reader.xattr_supported p) = true ∧
  passes (p ← new_entry tmp (blit "a.txt") FtFile; xattrs.stamp_unwrap p sample_id (lit "t")) = true.
Proof. by vm_compute. Qed.

(** The four tests that ask the date library pass when it answers for the
    inputs of the tests as RFC 3339 has it: the instant of the first, no instant
    for the garbage, and a rendering that is not empty. *)
Lemma date_tests_pass (DateTime : Type) (rfc : str → option Z) (from_ts : Z → option DateTime)
    (fmt : DateTime → str) :
  rfc (lit "2026-05-24T00:00:00Z") = Some 1779580800 → rfc (lit "not-a-timestamp") = None →
  (∃ d, from_ts 1717123456 = Some d ∧ fmt d ≠ []) →
  forallb id (reader.date_tests rfc from_ts fmt) = true.
Proof.
  intros H1 H2 (d & H3 & H4). unfold reader.date_tests. cbn [forallb id]. rewrite !andb_true_iff.
  split_and!; [by vm_compute|..|done].
  - unfold reader.parse_ts_accepts_rfc3339, parse_ts. cbn [unix].
    replace (parse_i64 _) with (@None Z) by by vm_compute.
    replace (trim _) with (lit "2026-05-24T00:00:00Z") by by vm_compute. by rewrite H1.
  - unfold reader.parse_ts_rejects_garbage, parse_ts. cbn [unix raw].
    replace (parse_i64 _) with (@None Z) by by vm_compute.
    replace (trim _) with (lit "not-a-timestamp") by by vm_compute. by rewrite H2.
  - unfold reader.render_local_produces_nonempty_string, render_local. rewrite H3. cbn.
    unfold neb, eqb. by rewrite bool_decide_false.
Qed.

(** An answer of the date library as the tests expect it. *)
Lemma date_tests_pass_witness :
  forallb id (reader.date_tests
    (λ s, if decide (s = lit "2026-05-24T00:00:00Z") then Some 1779580800 else None)
    Some (λ _ : Z, lit "2024-05-31 02:44:16")) = true.
Proof. apply date_tests_pass; [by vm_compute|by vm_compute|by exists 1717123456]. Qed.

Close Scope Z_scope.
